(** * YieldSyncx: Merkle batching, proofs and aggregation

    A shallow embedding of the off-chain Merkle utilities
    ([MerkleTreeUtils] of merkleTreeUtils.ts, the standalone
    [generateMerkleTree] of services/merkleTree.ts), of the aggregation
    service (services/dataAggregation.ts) and of [IoTData.storeData]
    (IoTData.sol), with the properties of the specification stated over it.
    The rest of IoTData.sol (batches and views), the rate limiter, the
    certification bridge, the integrity checker, [prepareSensorBatch] and
    the grouping loop of the sync store are embedded as well, with
    OpenZeppelin's [MerkleProof] as the contract calls it.

    Conventions of the embedding.
    - A JavaScript string is a Rocq [string] holding its UTF-8 encoding, so
      [toUtf8Bytes] is the identity on the bytes.  The only strings the code
      compares with [<] or sorts are hex digests, which are ASCII.
    - A JavaScript [number] that the code uses as an index, a length or a
      timestamp is a [Z] (a timestamp that is not an integer only makes
      [ethers] throw); sensor values and statistics are IEEE 754 binary64
      numbers ([float]).
    - [undefined] is [None].
    - A function that can throw returns a [Result]. *)

From Stdlib Require Import ZArith NArith Lia Bool Ascii String.
From Stdlib Require Import Uint63 PrimFloat.
From Stdlib Require SpecFloat FloatOps FloatAxioms.
From Stdlib Require Import Permutation Sorted List.
From Stdlib.Strings Require Import Byte.
Import ListNotations.

Local Open Scope string_scope.
Local Open Scope list_scope.
Local Open Scope Z_scope.

(** ** Exceptions *)

Inductive Exn : Type :=
| Error (message : string)           (* [throw new Error(message)] *)
| TypeError (message : string)       (* reading a property of [undefined] or [null] *)
| SyntaxError (message : string)     (* [JSON.parse] *)
| InvalidArgument (what : string)    (* ethers' [INVALID_ARGUMENT] / [NUMERIC_FAULT] *)
| Revert (reason : string)           (* a failed [require] *)
| Panic (code : Z).                  (* checked arithmetic of Solidity 0.8 *)

Inductive Result (A : Type) : Type :=
| Ok (a : A)
| Throw (e : Exn).

Arguments Ok {A} a.
Arguments Throw {A} e.

Definition bind {A B} (r : Result A) (k : A -> Result B) : Result B :=
  match r with
  | Ok a => k a
  | Throw e => Throw e
  end.

Notation "x <- r ;; k" := (bind r (fun x => k))
  (at level 61, r at next level, right associativity).

(** [xs.map(f)] for an [f] that can throw: the first failure aborts the map. *)
Fixpoint mapM {A B} (f : A -> Result B) (xs : list A) : Result (list B) :=
  match xs with
  | [] => Ok []
  | x :: t => y <- f x ;; ys <- mapM f t ;; Ok (y :: ys)
  end.

(** ** Bytes *)

Definition byte_of_N (n : N) : byte :=
  match Byte.of_N (n mod 256) with
  | Some b => b
  | None => x00
  end.

Definition byte_of_Z (n : Z) : byte := byte_of_N (Z.to_N (n mod 256)).

(** ** Keccak-256

    The hash primitive behind [ethers.keccak256] and Solidity's [keccak256]:
    the Keccak sponge with rate 1088, capacity 512, the [pad10*1] padding
    with the original Keccak domain byte, and 32 bytes of output. *)

Module Keccak.
Local Open Scope N_scope.

Definition lane := N.

Definition rotl64 (x : lane) (n : N) : lane :=
  N.lor (N.shiftl x n mod 2 ^ 64) (N.shiftr x (64 - n)).

Definition not64 (x : lane) : lane := N.lxor x (2 ^ 64 - 1).

Definition RC : list lane :=
  [ 0x0000000000000001; 0x0000000000008082; 0x800000000000808A;
    0x8000000080008000; 0x000000000000808B; 0x0000000080000001;
    0x8000000080008081; 0x8000000000008009; 0x000000000000008A;
    0x0000000000000088; 0x0000000080008009; 0x000000008000000A;
    0x000000008000808B; 0x800000000000008B; 0x8000000000008089;
    0x8000000000008003; 0x8000000000008002; 0x8000000000000080;
    0x000000000000800A; 0x800000008000000A; 0x8000000080008081;
    0x8000000000008080; 0x0000000080000001; 0x8000000080008008 ].

(** Rotation offsets of the rho step; lane [(x, y)] is at [x + 5 * y]. *)
Definition rho_offsets : list N :=
  [  0;  1; 62; 28; 27;
    36; 44;  6; 55; 20;
     3; 10; 43; 25; 39;
    41; 45; 15; 21;  8;
    18;  2; 61; 56; 14 ].

Definition get (A : list lane) (x y : nat) : lane :=
  nth ((x mod 5) + 5 * (y mod 5)) A 0.

Definition theta (A : list lane) : list lane :=
  let C x :=
    N.lxor (get A x 0) (N.lxor (get A x 1) (N.lxor (get A x 2)
           (N.lxor (get A x 3) (get A x 4)))) in
  let D x := N.lxor (C (x + 4)%nat) (rotl64 (C (x + 1)%nat) 1) in
  map (fun i => N.lxor (nth i A 0) (D (i mod 5)%nat)) (seq 0 25).

(** rho and pi together: the lane written at [(X, Y)] is the rotated lane
    read at [x = X + 3 Y], [y = X]. *)
Definition rho_pi (A : list lane) : list lane :=
  map (fun i =>
         let X := (i mod 5)%nat in
         let Y := (i / 5)%nat in
         let x := ((X + 3 * Y) mod 5)%nat in
         rotl64 (get A x X) (nth (x + 5 * X) rho_offsets 0))
      (seq 0 25).

Definition chi (B : list lane) : list lane :=
  map (fun i =>
         let x := (i mod 5)%nat in
         let y := (i / 5)%nat in
         N.lxor (get B x y) (N.land (not64 (get B (x + 1) y)) (get B (x + 2) y)))
      (seq 0 25).

Definition iota (rc : lane) (A : list lane) : list lane :=
  match A with
  | a :: t => N.lxor a rc :: t
  | [] => []
  end.

Definition round (A : list lane) (rc : lane) : list lane :=
  iota rc (chi (rho_pi (theta A))).

Definition keccak_f (A : list lane) : list lane := fold_left round RC A.

(** Rate in bytes. *)
Definition rate : nat := 136.

(** Lanes are read and written little-endian. *)
Fixpoint le_lane (bs : list byte) : lane :=
  match bs with
  | [] => 0
  | b :: t => Byte.to_N b + 256 * le_lane t
  end.

Fixpoint lanes_of_bytes (n : nat) (bs : list byte) : list lane :=
  match n with
  | O => []
  | S n' => le_lane (firstn 8 bs) :: lanes_of_bytes n' (skipn 8 bs)
  end.

Fixpoint bytes_of_lane (k : nat) (l : lane) : list byte :=
  match k with
  | O => []
  | S k' => byte_of_N l :: bytes_of_lane k' (l / 256)
  end.

Fixpoint xor_lanes (A B : list lane) : list lane :=
  match A, B with
  | a :: A', b :: B' => N.lxor a b :: xor_lanes A' B'
  | _, [] => A
  | [], _ => []
  end.

Definition absorb_block (A : list lane) (block : list byte) : list lane :=
  keccak_f (xor_lanes A (lanes_of_bytes 17 block)).

(** The last, partial block: [0x01], zeros, and [0x80] in the last byte of
    the rate (one byte [0x81] when a single byte is left). *)
Definition pad (rest : list byte) : list byte :=
  match (rate - 1 - List.length rest)%nat with
  | O => rest ++ [x81]
  | S z => rest ++ [x01] ++ repeat x00 z ++ [x80]
  end.

Fixpoint absorb (fuel : nat) (A : list lane) (msg : list byte) : list lane :=
  match fuel with
  | O => A
  | S f =>
      if (List.length msg <? rate)%nat then absorb_block A (pad msg)
      else absorb f (absorb_block A (firstn rate msg)) (skipn rate msg)
  end.

Definition keccak256 (msg : list byte) : list byte :=
  let A := absorb (S (List.length msg)) (repeat 0 25) msg in
  flat_map (fun i => bytes_of_lane 8 (nth i A 0)) [0; 1; 2; 3]%nat.

End Keccak.

(** ** The part of ethers (v6) that the program calls

    [ethers] is a dependency of the repository; the definitions follow its
    sources (utils/data.ts, utils/maths.ts, hash/solidity.ts). *)

Module ethers.

(** *** Hex strings and byte arrays *)

Definition hexDigit (n : N) : ascii :=
  ascii_of_N (if (n <? 10)%N then 48 + n else 87 + n).

(** Value of a hex digit; [getBytes] accepts both cases. *)
Definition digitValue (c : ascii) : option N :=
  let n := N_of_ascii c in
  if ((48 <=? n) && (n <=? 57))%N then Some (n - 48)%N
  else if ((97 <=? n) && (n <=? 102))%N then Some (n - 87)%N
  else if ((65 <=? n) && (n <=? 70))%N then Some (n - 55)%N
  else None.

Fixpoint hexOfBytes (bs : list byte) : string :=
  match bs with
  | [] => EmptyString
  | b :: t =>
      String (hexDigit (Byte.to_N b / 16))
             (String (hexDigit (Byte.to_N b mod 16)) (hexOfBytes t))
  end.

(** [hexlify(bytes)]: ["0x"] and two lower-case digits per byte. *)
Definition hexlify (bs : list byte) : string := ("0x" ++ hexOfBytes bs)%string.

Fixpoint bytesOfHex (s : string) : option (list byte) :=
  match s with
  | EmptyString => Some []
  | String a (String b t) =>
      match digitValue a, digitValue b, bytesOfHex t with
      | Some h, Some l, Some bs => Some (byte_of_N (16 * h + l) :: bs)
      | _, _, _ => None
      end
  | String _ EmptyString => None
  end.

(** [getBytes(value)] for a string: it must match
    [/^0x([0-9a-f][0-9a-f])*$/i], where the flag [i] lets the prefix and the
    digits be in either case. *)
Definition getBytes (s : string) : Result (list byte) :=
  match s with
  | String "0" (String x t) =>
      if (x =? "x")%char || (x =? "X")%char then
        match bytesOfHex t with
        | Some bs => Ok bs
        | None => Throw (InvalidArgument "invalid BytesLike value")
        end
      else Throw (InvalidArgument "invalid BytesLike value")
  | _ => Throw (InvalidArgument "invalid BytesLike value")
  end.

(** *** Tight packing *)

Inductive SolType : Type := T_string | T_uint256 | T_bytes32.

(** The JavaScript values the program passes: strings, and a [number] for
    the timestamp. *)
Inductive Value : Type :=
| V_string (s : string)
| V_number (n : Z).

Definition MAX_SAFE_INTEGER : Z := 0x1fffffffffffff.

(** [toBeArray(value)]: the big-endian bytes of a non-negative integer,
    without leading zeros (no byte at all for zero). *)
Fixpoint toBeBytes (fuel : nat) (n : Z) : list byte :=
  match fuel with
  | O => []
  | S fuel' => if n =? 0 then [] else toBeBytes fuel' (n / 256) ++ [byte_of_Z n]
  end.

Definition toBeArray (n : Z) : list byte := toBeBytes (S (Z.to_nat (Z.log2 n))) n.

(** [zeroPadValue(data, length)]: zeros on the left. *)
Definition zeroPadValue (bs : list byte) (length : nat) : Result (list byte) :=
  if (length <? List.length bs)%nat then Throw (InvalidArgument "padding exceeds data length")
  else Ok (repeat x00 (length - List.length bs) ++ bs).

(** [_pack(type, value)].  A number is turned into a [uint256] through
    [getUint], which rejects negative numbers and numbers beyond the safe
    integers; a [bytes32] must be the hex string of exactly 32 bytes. *)
Definition _pack (t : SolType) (v : Value) : Result (list byte) :=
  match t, v with
  | T_string, V_string s => Ok (list_byte_of_string s)
  | T_uint256, V_number n =>
      if (0 <=? n) && (n <=? MAX_SAFE_INTEGER) then zeroPadValue (toBeArray n) 32
      else Throw (InvalidArgument "value")
  | T_bytes32, V_string s =>
      bs <- getBytes s ;;
      if (List.length bs =? 32)%nat then Ok bs
      else Throw (InvalidArgument "invalid value for bytes32")
  | _, _ => Throw (InvalidArgument "value")
  end.

Fixpoint solidityPacked (types : list SolType) (values : list Value)
  : Result (list byte) :=
  match types, values with
  | [], [] => Ok []
  | t :: ts, v :: vs =>
      b <- _pack t v ;;
      bs <- solidityPacked ts vs ;;
      Ok (b ++ bs)
  | _, _ => Throw (InvalidArgument "wrong number of values")
  end.

Definition keccak256 (data : list byte) : string :=
  hexlify (Keccak.keccak256 data).

Definition solidityPackedKeccak256 (types : list SolType) (values : list Value)
  : Result string :=
  packed <- solidityPacked types values ;;
  Ok (keccak256 packed).

(** The strings that [_pack] accepts as a [bytes32]. *)
Definition isBytes32 (s : string) : bool :=
  match _pack T_bytes32 (V_string s) with
  | Ok _ => true
  | Throw _ => false
  end.

End ethers.

(** ** JavaScript arrays and numbers *)

(** [xs[i]] for an integral [i]: [undefined] outside the array. *)
Definition item {A} (xs : list A) (i : Z) : option A :=
  if i <? 0 then None else nth_error xs (Z.to_nat i).

(** [xs.length]. *)
Definition len {A} (xs : list A) : Z := Z.of_nat (List.length xs).

(** [ToInt32]: the operands of [^] are taken modulo [2^32] into
    [[-2^31, 2^31)]. *)
Definition ToInt32 (n : Z) : Z := (n + 2 ^ 31) mod 2 ^ 32 - 2 ^ 31.

(** [a ^ b]. *)
Definition bitxor (a b : Z) : Z := Z.lxor (ToInt32 a) (ToInt32 b).

(** [xs.sort(compareFn)], a stable sort: [gt x y] says that [compareFn(x, y)]
    is positive.  An element is inserted before the first element that it
    does not have to follow, so equal elements keep their order. *)
Fixpoint sort_insert {A} (gt : A -> A -> bool) (x : A) (sorted : list A) : list A :=
  match sorted with
  | [] => [x]
  | y :: t => if gt x y then y :: sort_insert gt x t else x :: y :: t
  end.

Definition Array_sortWith {A} (gt : A -> A -> bool) (xs : list A) : list A :=
  fold_right (sort_insert gt) [] xs.

(** [xs.sort(compareFn)] for a [compareFn] that need not order the elements.
    [compare x y] is the sign of [compareFn(x, y)], where a result of [NaN]
    counts as [+0] (ECMAScript's [SortCompare]).  The language fixes the
    result where the comparator is consistent on the elements: the relation
    that takes [compare] for [Eq] is reflexive, symmetric and transitive, and
    the two that take it for [Lt] and for [Gt] are transitive; the result is
    then that of the stable sort.  Where the comparator is not consistent the
    order is implementation-defined: [engineOrder] is what the engine in use
    makes of such an array.  [follows compare x y] says that [compareFn(x, y)]
    is positive. *)
Definition follows {A} (compare : A -> A -> comparison) (x y : A) : bool :=
  match compare x y with
  | Gt => true
  | _ => false
  end.

Definition consistentComparator {A} (compare : A -> A -> comparison) (xs : list A)
  : bool :=
  let eqC a b := match compare a b with Eq => true | _ => false end in
  let ltC a b := match compare a b with Lt => true | _ => false end in
  let gtC a b := match compare a b with Gt => true | _ => false end in
  forallb (fun a =>
    eqC a a &&
    forallb (fun b =>
      implb (eqC a b) (eqC b a) &&
      forallb (fun c =>
        implb (eqC a b && eqC b c) (eqC a c) &&
        implb (ltC a b && ltC b c) (ltC a c) &&
        implb (gtC a b && gtC b c) (gtC a c)) xs) xs) xs.

Definition Array_sortBy {A} (engineOrder : list A -> list A)
           (compare : A -> A -> comparison) (xs : list A) : list A :=
  if consistentComparator compare xs
  then Array_sortWith (follows compare) xs
  else engineOrder xs.

(** [xs.sort()] on strings: ascending by code units. *)
Definition Array_sort (xs : list string) : list string :=
  Array_sortWith (fun x y => (y <? x)%string) xs.

(** The indices [0, 1, ..., n - 1] that [forEach] passes to its callback. *)
Definition indices {A} (xs : list A) : list Z :=
  map Z.of_nat (seq 0 (List.length xs)).

(** ** Sensor records (types.ts) *)

Module SensorData.
Record t : Type := mk {
  deviceId : string;
  timestamp : Z;
  data : string;
  dataType : string;
  location : string
}.
End SensorData.

(** What both [generateMerkleTree] functions return. *)
Record MerkleTree : Type := {
  merkleRoot : option string;
  proofs : list (list (option string))
}.

(** ** merkleTreeUtils.ts *)

Module MerkleTreeUtils.
Import ethers.

Definition sortPairs (left right : string) : string * string :=
  if (left <? right)%string then (left, right) else (right, left).

Definition hashNode (left right : string) : Result string :=
  let '(sortedLeft, sortedRight) := sortPairs left right in
  solidityPackedKeccak256 [T_bytes32; T_bytes32]
                          [V_string sortedLeft; V_string sortedRight].

(** The callback of [records.map] in [generateLeaves]. *)
Definition leaf (record : SensorData.t) : Result string :=
  solidityPackedKeccak256
    [T_string; T_uint256; T_string; T_string; T_string]
    [V_string (SensorData.deviceId record); V_number (SensorData.timestamp record);
     V_string (SensorData.data record); V_string (SensorData.dataType record);
     V_string (SensorData.location record)].

Definition generateLeaves (records : list SensorData.t) : Result (list string) :=
  mapM leaf records.

(** The [for] loop of [buildLayers], two elements at a time.
    [currentLayer[i + 1] || left] falls back to [left] when the right
    element is missing or is the empty string. *)
Fixpoint nextLayer (currentLayer : list string) : Result (list string) :=
  match currentLayer with
  | [] => Ok []
  | [x] =>
      let left := x in
      let right := left in
      h <- hashNode left right ;;
      Ok [h]
  | x :: y :: rest =>
      let left := x in
      let right := if (y =? "")%string then left else y in
      h <- hashNode left right ;;
      t <- nextLayer rest ;;
      Ok (h :: t)
  end.

(** The [while] loop of [buildLayers]; [fuel] bounds the iterations. *)
Fixpoint buildLoop (fuel : nat) (layers : list (list string))
  : Result (list (list string)) :=
  let currentLayer := last layers [] in
  if len currentLayer >? 1 then
    match fuel with
    | O => Ok layers
    | S fuel' =>
        next <- nextLayer currentLayer ;;
        buildLoop fuel' (layers ++ [next])
    end
  else Ok layers.

Definition buildLayers (leaves : list string) : Result (list (list string)) :=
  if len leaves =? 0 then Throw (Error "No leaves provided")
  else buildLoop (List.length leaves) [leaves].

(** The inner [for] loop of [generateMerkleTree] over the layers below the
    root layer ([i < layers.length - 1]). *)
Fixpoint proofLoop (layers : list (list string)) (currentIndex : Z)
         (proof : list (option string)) : list (option string) :=
  match layers with
  | layer :: ((_ :: _) as above) =>
      let siblingIndex :=
        if Z.rem currentIndex 2 =? 0 then currentIndex + 1 else currentIndex - 1 in
      let proof :=
        if siblingIndex <? len layer then proof ++ [item layer siblingIndex]
        else proof in
      proofLoop above (currentIndex / 2) proof
  | _ => proof
  end.

Definition generateMerkleTree (records : list SensorData.t) : Result MerkleTree :=
  leaves <- generateLeaves records ;;
  layers <- buildLayers leaves ;;
  Ok {| merkleRoot := item (last layers []) 0;
        proofs := map (fun index => proofLoop layers index []) (indices leaves) |}.

Fixpoint verifyLoop (computedHash : string) (proof : list string) : Result string :=
  match proof with
  | [] => Ok computedHash
  | proofElement :: rest =>
      computedHash <- hashNode computedHash proofElement ;;
      verifyLoop computedHash rest
  end.

Definition verifyProof (leaf : string) (proof : list string) (root : string)
  : Result bool :=
  computedHash <- verifyLoop leaf proof ;;
  Ok (computedHash =? root)%string.

End MerkleTreeUtils.

(** ** services/merkleTree.ts *)

Module merkleTree.
Import ethers.

(** The [for] loop of [buildLayers]; [prev[i + 1] ?? left] falls back to
    [left] only when the right element is missing. *)
Fixpoint nextLayer (prev : list string) : Result (list string) :=
  match prev with
  | [] => Ok []
  | [x] =>
      let left := x in
      let right := left in
      h <- solidityPackedKeccak256 [T_bytes32; T_bytes32]
                                   (map V_string (Array_sort [left; right])) ;;
      Ok [h]
  | x :: y :: rest =>
      let left := x in
      let right := y in
      h <- solidityPackedKeccak256 [T_bytes32; T_bytes32]
                                   (map V_string (Array_sort [left; right])) ;;
      t <- nextLayer rest ;;
      Ok (h :: t)
  end.

Fixpoint buildLoop (fuel : nat) (layers : list (list string))
  : Result (list (list string)) :=
  let prev := last layers [] in
  if len prev >? 1 then
    match fuel with
    | O => Ok layers
    | S fuel' =>
        next <- nextLayer prev ;;
        buildLoop fuel' (layers ++ [next])
    end
  else Ok layers.

Definition buildLayers (leaves : list string) : Result (list (list string)) :=
  buildLoop (List.length leaves) [leaves].

Definition leaf (r : SensorData.t) : Result string :=
  solidityPackedKeccak256
    [T_string; T_uint256; T_string; T_string; T_string]
    [V_string (SensorData.deviceId r); V_number (SensorData.timestamp r);
     V_string (SensorData.data r); V_string (SensorData.dataType r);
     V_string (SensorData.location r)].

Fixpoint proofLoop (layers : list (list string)) (index : Z)
         (proof : list (option string)) : list (option string) :=
  match layers with
  | layer :: ((_ :: _) as above) =>
      let pairIndex := bitxor index 1 in
      let proof :=
        if pairIndex <? len layer then proof ++ [item layer pairIndex]
        else proof in
      proofLoop above (index / 2) proof
  | _ => proof
  end.

Definition generateMerkleTree (records : list SensorData.t) : Result MerkleTree :=
  if len records =? 0 then Throw (Error "No records for Merkle tree")
  else
    leaves <- mapM leaf records ;;
    layers <- buildLayers leaves ;;
    Ok {| merkleRoot := item (last layers []) 0;
          proofs := map (fun idx => proofLoop layers idx []) (indices leaves) |}.

End merkleTree.

(** ** IoTData.sol *)

Module IoTData.

Definition bytes32 : Type := list byte.
Definition address : Type := Z.

Definition ADMIN_ROLE : bytes32 := Keccak.keccak256 (list_byte_of_string "ADMIN_ROLE").
Definition DEVICE_ROLE : bytes32 := Keccak.keccak256 (list_byte_of_string "DEVICE_ROLE").

Definition MAX_UINT256 : Z := 2 ^ 256 - 1.

Record SensorData : Type := mkSensorData {
  deviceId : string;
  timestamp : Z;
  data : string;
  dataType : string;
  location : string;
  dataHash : bytes32
}.

(** The storage of the contract that [storeData] touches; a mapping is total,
    unset keys hold the zero value. *)
Record Storage : Type := mkStorage {
  hasRole : bytes32 -> address -> bool;
  sensorRecords : Z -> SensorData;
  deviceRecords : string -> list Z;
  recordCounter : Z
}.

(** A [uint256] in 32 bytes, most significant byte first. *)
Fixpoint uint256_bytes (k : nat) (n : Z) : list byte :=
  match k with
  | O => []
  | S k' => uint256_bytes k' (n / 256) ++ [byte_of_Z n]
  end.

(** [abi.encodePacked(string, uint256, string, string, string)]: the bytes
    of the strings and the 32 bytes of the integer, with no padding and no
    length. *)
Definition encodePacked (s1 : string) (n : Z) (s2 s3 s4 : string) : list byte :=
  list_byte_of_string s1 ++ uint256_bytes 32 n ++ list_byte_of_string s2
    ++ list_byte_of_string s3 ++ list_byte_of_string s4.

(** [storeData], called by [msg_sender] in a block of time [block_timestamp];
    it returns the new storage and the record id. *)
Definition storeData (st : Storage) (msg_sender : address) (block_timestamp : Z)
           (_deviceId _data _dataType _location : string)
  : Result (Storage * Z) :=
  if negb (hasRole st DEVICE_ROLE msg_sender || hasRole st ADMIN_ROLE msg_sender)
  then Throw (Revert "Must have device or admin role")
  else
    let dataHash :=
      Keccak.keccak256
        (encodePacked _deviceId block_timestamp _data _dataType _location) in
    let currentRecordId := recordCounter st in
    if currentRecordId =? MAX_UINT256 then Throw (Panic 0x11)   (* [recordCounter++] *)
    else
      Ok ({| hasRole := hasRole st;
             sensorRecords := fun id =>
               if id =? currentRecordId
               then mkSensorData _deviceId block_timestamp _data _dataType _location dataHash
               else sensorRecords st id;
             deviceRecords := fun d =>
               if (d =? _deviceId)%string then deviceRecords st d ++ [currentRecordId]
               else deviceRecords st d;
             recordCounter := currentRecordId + 1 |},
          currentRecordId).

End IoTData.

Local Set Warnings "-register-all".

(** ** JavaScript values held by [SensorReading.data] *)

Inductive JsValue : Type :=
| JNull
| JBool (b : bool)
| JNumber (x : float)
| JString (s : string)
| JArray (items : list JsValue)
| JObject (props : list (string * JsValue)).
(* [props]: the own enumerable properties, in the order [for ... in] visits
   them, with distinct keys. *)

(** A canonical array index: ["0"], or digits without a leading zero. *)
Fixpoint digits (s : string) (acc : nat) : option nat :=
  match s with
  | EmptyString => Some acc
  | String c t =>
      let n := nat_of_ascii c in
      if ((48 <=? n) && (n <=? 57))%nat then digits t (10 * acc + (n - 48))%nat
      else None
  end.

Definition arrayIndex (key : string) : option nat :=
  match key with
  | EmptyString => None
  | String "0" EmptyString => Some O
  | String "0" _ => None
  | _ => digits key 0
  end.

(** Length in UTF-16 code units of a string held as UTF-8: continuation bytes
    count for nothing, the lead byte of a four-byte sequence for two. *)
Fixpoint utf16Length (s : string) : Z :=
  match s with
  | EmptyString => 0
  | String c t =>
      let n := Z.of_nat (nat_of_ascii c) in
      (if (128 <=? n) && (n <? 192) then 0 else if 240 <=? n then 2 else 1)
      + utf16Length t
  end.

Definition number_of_Z (n : Z) : float := PrimFloat.of_uint63 (Uint63.of_Z n).

Fixpoint lookup {V} (key : string) (props : list (string * V)) : option V :=
  match props with
  | [] => None
  | (k, v) :: t => if (k =? key)%string then Some v else lookup key t
  end.

Definition asNumber (v : option JsValue) : option float :=
  match v with
  | Some (JNumber x) => Some x
  | _ => None
  end.

(** [typeof data[key] === 'number' ? data[key] : nothing], for a [data] that
    is neither [null] nor [undefined].  Inherited properties are never
    numbers, apart from [length]. *)
Definition numberProperty (data : JsValue) (key : string) : option float :=
  match data with
  | JObject props => asNumber (lookup key props)
  | JArray items =>
      if (key =? "length")%string then Some (number_of_Z (len items))
      else match arrayIndex key with
           | Some i => asNumber (nth_error items i)
           | None => None
           end
  | JString s =>
      if (key =? "length")%string then Some (number_of_Z (utf16Length s)) else None
  | JNull | JBool _ | JNumber _ => None
  end.

(** [for (const key in data) if (typeof data[key] === 'number') return data[key]]. *)
Definition firstNumber (data : JsValue) : option float :=
  match data with
  | JObject props =>
      asNumber (find (fun v => match v with JNumber _ => true | _ => false end)
                     (map snd props))
  | JArray items =>
      asNumber (find (fun v => match v with JNumber _ => true | _ => false end) items)
  | _ => None
  end.

(** ** Sensor readings and aggregates (types.ts) *)

Module SensorReading.
Record t : Type := mk {
  deviceId : string;
  timestamp : Z;
  dataType : string;
  data : JsValue;
  location : string
}.
End SensorReading.

Module LocalDataAggregate.
Record t : Type := mk {
  deviceId : option string;
  dataType : option string;
  startTimestamp : Z;
  endTimestamp : Z;
  recordCount : Z;
  min : float;
  max : float;
  average : float;
  medianValue : float;
  standardDeviation : float;
  anomalyCount : Z;
  merkleRoot : option string
}.
End LocalDataAggregate.

(** A JavaScript [Map] with string keys: the entries in insertion order. *)
Definition JsMap (V : Type) : Type := list (string * V).

Definition Map_has {V} (m : JsMap V) (key : string) : bool :=
  match lookup key m with
  | Some _ => true
  | None => false
  end.

Fixpoint Map_set {V} (m : JsMap V) (key : string) (v : V) : JsMap V :=
  match m with
  | [] => [(key, v)]
  | (k, v') :: t =>
      if (k =? key)%string then (k, v) :: t else (k, v') :: Map_set t key v
  end.

(** [s.split('-')]. *)
Fixpoint split_dash (s : string) : list string :=
  match s with
  | EmptyString => [EmptyString]
  | String c t =>
      if (c =? "-")%char then EmptyString :: split_dash t
      else match split_dash t with
           | h :: r => String c h :: r
           | [] => [String c EmptyString]
           end
  end.

(** ** services/dataAggregation.ts *)

Module dataAggregation.

Module Statistics.
Record t : Type := mk {
  min : float;
  max : float;
  average : float;
  median : float;
  standardDeviation : float
}.
End Statistics.

(** [xs[i]] used as a number: [undefined] turns arithmetic into [NaN]. *)
Definition numberAt (xs : list float) (i : Z) : float :=
  match item xs i with
  | Some x => x
  | None => nan
  end.

(** [xs.reduce((acc, val) => acc + val, 0)]. *)
Definition sum (xs : list float) : float :=
  fold_left (fun acc val => (acc + val)%float) xs 0%float.

(** The sign of [(a, b) => a - b]; a difference that is [NaN] is neither
    positive nor negative. *)
Definition number_compare (a b : float) : comparison :=
  let difference := (a - b)%float in
  if (0 <? difference)%float then Gt
  else if (difference <? 0)%float then Lt
  else Eq.

(** [engineOrder] is what the engine makes of [[...values].sort((a, b) => a - b)]
    when the comparator is not consistent on the values, which takes a
    [NaN] among them. *)
Definition calculateStatistics (engineOrder : list float -> list float)
           (values : list float) : Statistics.t :=
  if len values =? 0 then Statistics.mk 0 0 0 0 0
  else
    let sortedValues := Array_sortBy engineOrder number_compare values in
    let min := numberAt sortedValues 0 in
    let max := numberAt sortedValues (len sortedValues - 1) in
    let average := (sum sortedValues / number_of_Z (len sortedValues))%float in
    let middle := len sortedValues / 2 in
    let median :=
      if Z.rem (len sortedValues) 2 =? 0
      then ((numberAt sortedValues (middle - 1) + numberAt sortedValues middle) / 2)%float
      else numberAt sortedValues middle in
    (* [Math.pow(value - average, 2)] *)
    let squaredDiffs :=
      map (fun value => ((value - average) * (value - average))%float) sortedValues in
    let variance := (sum squaredDiffs / number_of_Z (len sortedValues))%float in
    let standardDeviation := PrimFloat.sqrt variance in
    Statistics.mk min max average median standardDeviation.

Section Collaborators.

(** [JSON.parse] and [JSON.stringify]. *)
Variable JSON_parse : string -> Result JsValue.
Variable JSON_stringify : JsValue -> string.

(** The order in which the engine leaves an array of numbers that it sorts
    with a comparator that is not consistent on them. *)
Variable engineOrder : list float -> list float.

(** services/anomalyDetection.ts: [detectBatchAnomalies] never throws (every
    reading is examined under a [try]); it reads and extends the module's
    cache of historical readings. *)
Variable AnomalyReport : Type.
Variable History : Type.
Variable detectBatchAnomalies :
  History -> list SensorReading.t -> list AnomalyReport * History.

Definition extractNumericValue (reading : SensorReading.t) : option float :=
  let parsed :=
    match SensorReading.data reading with
    | JString s => JSON_parse s
    | data => Ok data
    end in
  match parsed with
  | Throw _ => None                       (* [catch]: [return null] *)
  | Ok JNull => None                      (* [data.value] throws a TypeError *)
  | Ok data =>
      match numberProperty data "value" with
      | Some value => Some value
      | None =>
          let byType :=
            if (SensorReading.dataType reading =? "")%string then None
            else numberProperty data (SensorReading.dataType reading) in
          match byType with
          | Some value => Some value
          | None => firstNumber data
          end
      end
  end.

Definition formatSensorData (reading : SensorReading.t) : SensorData.t :=
  {| SensorData.deviceId := SensorReading.deviceId reading;
     SensorData.timestamp := SensorReading.timestamp reading;
     SensorData.data :=
       match SensorReading.data reading with
       | JString s => s
       | data => JSON_stringify data
       end;
     SensorData.dataType := SensorReading.dataType reading;
     SensorData.location := SensorReading.location reading |}.

(** The key of a reading's group. *)
Definition groupKey (reading : SensorReading.t) : string :=
  (SensorReading.deviceId reading ++ "-" ++ SensorReading.dataType reading)%string.

(** The body of the grouping loop; [get(key)!.push(reading)] extends the
    array that the map holds. *)
Definition groupStep (groupedReadings : JsMap (list SensorReading.t))
           (reading : SensorReading.t) : JsMap (list SensorReading.t) :=
  let key := groupKey reading in
  let groupedReadings :=
    if negb (Map_has groupedReadings key) then Map_set groupedReadings key []
    else groupedReadings in
  match lookup key groupedReadings with
  | Some group => Map_set groupedReadings key (group ++ [reading])
  | None => groupedReadings               (* the key has just been set *)
  end.

Definition groupReadings (readings : list SensorReading.t)
  : JsMap (list SensorReading.t) :=
  fold_left groupStep readings [].

(** [(a, b) => a.timestamp - b.timestamp] is positive. *)
Definition timestamp_gt (a b : SensorReading.t) : bool :=
  SensorReading.timestamp a - SensorReading.timestamp b >? 0.

(** [group[i].timestamp]. *)
Definition timestampAt (group : list SensorReading.t) (i : Z) : Result Z :=
  match item group i with
  | Some reading => Ok (SensorReading.timestamp reading)
  | None => Throw (TypeError "Cannot read properties of undefined (reading 'timestamp')")
  end.

(** [numericValues]: the values of the readings that have one. *)
Fixpoint numericValuesOf (group : list SensorReading.t) : list float :=
  match group with
  | [] => []
  | reading :: rest =>
      match extractNumericValue reading with
      | Some value => value :: numericValuesOf rest
      | None => numericValuesOf rest
      end
  end.

(** The body of the loop over [groupedReadings.entries()]. *)
Definition aggregateGroup (history : History) (key : string)
           (group : list SensorReading.t)
  : Result (LocalDataAggregate.t * History) :=
  let group := Array_sortWith timestamp_gt group in
  startTimestamp <- timestampAt group 0 ;;
  endTimestamp <- timestampAt group (len group - 1) ;;
  let numericValues := numericValuesOf group in
  let stats := calculateStatistics engineOrder numericValues in
  let '(anomalies, history) := detectBatchAnomalies history group in
  let formattedData := map formatSensorData group in
  tree <- merkleTree.generateMerkleTree formattedData ;;
  let parts := split_dash key in
  Ok ({| LocalDataAggregate.deviceId := item parts 0;
         LocalDataAggregate.dataType := item parts 1;
         LocalDataAggregate.startTimestamp := startTimestamp;
         LocalDataAggregate.endTimestamp := endTimestamp;
         LocalDataAggregate.recordCount := len group;
         LocalDataAggregate.min := Statistics.min stats;
         LocalDataAggregate.max := Statistics.max stats;
         LocalDataAggregate.average := Statistics.average stats;
         LocalDataAggregate.medianValue := Statistics.median stats;
         LocalDataAggregate.standardDeviation := Statistics.standardDeviation stats;
         LocalDataAggregate.anomalyCount := len anomalies;
         LocalDataAggregate.merkleRoot := merkleRoot tree |},
      history).

Fixpoint aggregateLoop (history : History)
         (entries : list (string * list SensorReading.t))
         (aggregates : JsMap LocalDataAggregate.t)
  : Result (JsMap LocalDataAggregate.t * History) :=
  match entries with
  | [] => Ok (aggregates, history)
  | (key, group) :: rest =>
      r <- aggregateGroup history key group ;;
      aggregateLoop (snd r) rest (Map_set aggregates key (fst r))
  end.

Definition aggregateSensorData (history : History) (readings : list SensorReading.t)
  : Result (JsMap LocalDataAggregate.t * History) :=
  aggregateLoop history (groupReadings readings) [].

End Collaborators.

Arguments aggregateGroup _ _ _ {_ _} _ _ _ _.
Arguments aggregateLoop _ _ _ {_ _} _ _ _ _.
Arguments aggregateSensorData _ _ _ {_ _} _ _ _.

End dataAggregation.

(** ** Predicates used in the statements *)

(** The shape of what [buildLayers] returns: every layer above the leaves is
    the [nextLayer] of the one below, and the last one is a single digest. *)
Inductive Layered : list (list string) -> Prop :=
| Layered_root (h : string) :
    ethers.isBytes32 h = true -> Layered [[h]]
| Layered_step (cur next : list string) (above : list (list string)) :
    (1 < List.length cur)%nat ->
    Forall (fun h => ethers.isBytes32 h = true) cur ->
    MerkleTreeUtils.nextLayer cur = Ok next ->
    Layered (next :: above) ->
    Layered (cur :: next :: above).

(** [ceil(n / 2)]. *)
Definition ceilHalf (n : nat) : nat := ((n + 1) / 2)%nat.

(** The lengths of the layers of a tree: every layer has [ceil(n / 2)]
    elements when the layer below has [n > 1], and the last layer has one. *)
Inductive Halving : list (list string) -> Prop :=
| Halving_root (h : string) : Halving [[h]]
| Halving_step (cur next : list string) (above : list (list string)) :
    (1 < List.length cur)%nat ->
    List.length next = ceilHalf (List.length cur) ->
    Halving (next :: above) ->
    Halving (cur :: next :: above).

(** The [while] loop of both [buildLayers] functions, over the pass that
    computes the next layer. *)
Fixpoint whileLayers (pass : list string -> Result (list string))
         (fuel : nat) (layers : list (list string))
  : Result (list (list string)) :=
  if len (last layers []) >? 1 then
    match fuel with
    | O => Ok layers
    | S fuel' =>
        next <- pass (last layers []) ;;
        whileLayers pass fuel' (layers ++ [next])
    end
  else Ok layers.

(** A timestamp that [ethers] packs as a [uint256]. *)
Definition validTimestamp (ts : Z) : Prop := 0 <= ts <= ethers.MAX_SAFE_INTEGER.

(** ** Inputs of the examples *)

(** The text [{"value":v}]. *)
Definition valueJson (v : string) : string :=
  let dq := String (ascii_of_nat 34) EmptyString in
  ("{" ++ dq ++ "value" ++ dq ++ ":" ++ v ++ "}")%string.

(** Three readings of one device, as the batch page would submit them. *)
Definition oddBatch : list SensorData.t :=
  [ SensorData.mk "device-001" 1700000000000 (valueJson "20") "temperature" "field-north";
    SensorData.mk "device-001" 1700000060000 (valueJson "22") "temperature" "field-north";
    SensorData.mk "device-001" 1700000120000 (valueJson "19") "temperature" "field-north" ].

(** A contract storage in which account 1 is an administrator and nothing is
    stored yet. *)
Definition freshStorage : IoTData.Storage :=
  {| IoTData.hasRole := fun role account =>
       (account =? 1) &&
       (if list_eq_dec Byte.byte_eq_dec role IoTData.ADMIN_ROLE then true else false);
     IoTData.sensorRecords := fun _ =>
       IoTData.mkSensorData "" 0 "" "" "" (repeat x00 32);
     IoTData.deviceRecords := fun _ => [];
     IoTData.recordCounter := 0 |}.

(** The storage after account 1 has stored one reading at block time
    [1700000000]. *)
Definition storedOnce : IoTData.Storage :=
  match IoTData.storeData freshStorage 1 1700000000
          "device-001" (valueJson "20") "temperature" "field-north" with
  | Ok (st, _) => st
  | Throw _ => freshStorage
  end.

(** The leaves of [oddBatch]. *)
Definition threeLeaves : list string :=
  [ "0x5ee9dbf5d9eecc9c22543cb47f67c3d2323c0e3a52b4649a7fd86641e7bd19aa";
    "0x2d211da83e5e27883f591f497916dafb11459dda2ad85007508f35a3a9aa4d9d";
    "0xe58e7ea43e9b5e288a6330fe62cc6a45bbc671d74d232534378ddf510b87e45c" ].

(** The readings of a group, in the order of the input. *)
Definition readingsOfKey (key : string) (readings : list SensorReading.t)
  : list SensorReading.t :=
  filter (fun r => (dataAggregation.groupKey r =? key)%string) readings.

(** The comparator orders the elements of [xs] consistently, which is what
    ECMAScript asks of a comparator for the sort order to be defined: nothing
    is both before and after another element, and not being after is
    transitive.  [(a, b) => a - b] is consistent on any numbers but [NaN]. *)
Definition consistentOn {A} (gt : A -> A -> bool) (xs : list A) : Prop :=
  (forall a b, In a xs -> In b xs -> gt a b = true -> gt b a = false) /\
  (forall a b c, In a xs -> In b xs -> In c xs ->
     gt a b = false -> gt b c = false -> gt a c = false).

(** Scenario A: three temperature readings of [device-001] with the values
    20, 22 and 19, at ascending timestamps. *)
Definition temperatureReading (ts : Z) (value : float) : SensorReading.t :=
  SensorReading.mk "device-001" ts "temperature"
                   (JObject [("value", JNumber value)]) "field-north".

Definition scenarioA : list SensorReading.t :=
  [ temperatureReading 1700000000000 20;
    temperatureReading 1700000060000 22;
    temperatureReading 1700000120000 19 ].

(** Two readings of different devices and data types whose keys coincide. *)
Definition collidingReadings : list SensorReading.t :=
  [ SensorReading.mk "device-001" 1700000000000 "soil-moisture"
                     (JObject [("value", JNumber 41)]) "field-north";
    SensorReading.mk "device-001-soil" 1700000060000 "moisture"
                     (JObject [("value", JNumber 55)]) "field-south" ].

(** Two readings without a numeric sample. *)
Definition statusReadings : list SensorReading.t :=
  [ SensorReading.mk "gateway" 1700000000000 "status"
                     (JObject [("state", JString "online")]) "barn";
    SensorReading.mk "gateway" 1700000060000 "status"
                     (JObject [("state", JString "offline")]) "barn" ].

(** Stand-ins for the collaborators, for closed examples: a parser that
    rejects its input, a printer of the empty object, and a detector that
    reports nothing. *)
Definition noParse (s : string) : Result JsValue :=
  Throw (SyntaxError "Unexpected token").

Definition emptyObjectText (v : JsValue) : string := "{}".

Definition noAnomalies (history : unit) (readings : list SensorReading.t)
  : list unit * unit := ([], history).

(** An engine that leaves an array alone when the comparator is not
    consistent on it. *)
Definition keepOrder (values : list float) : list float := values.

(** ** IoTData.sol: batches and views

    The rest of the contract, over the storage that [IoTData.storeData]
    touches and the three variables that only the batches use.  A [uint256]
    is a [Z] in [[0, 2^256)] and a [bytes32] the list of its 32 bytes;
    [hasRole] reads the role mapping that OpenZeppelin's [AccessControl]
    keeps.  The events are not modelled. *)

Module IoTDataContract.

Definition bytes32_eqb (a b : IoTData.bytes32) : bool :=
  if list_eq_dec Byte.byte_eq_dec a b then true else false.

Definition ANALYST_ROLE : IoTData.bytes32 :=
  Keccak.keccak256 (list_byte_of_string "ANALYST_ROLE").

(** [DEFAULT_ADMIN_ROLE] of [AccessControl]: [0x00]. *)
Definition DEFAULT_ADMIN_ROLE : IoTData.bytes32 := repeat x00 32.

Record DataBatch : Type := mkDataBatch {
  merkleRoot : IoTData.bytes32;
  fromIndex : Z;
  toIndex : Z;
  timestamp : Z;
  description : string
}.

Record State : Type := mkState {
  storage : IoTData.Storage;
  verifiedMerkleRoots : IoTData.bytes32 -> bool;
  dataBatches : IoTData.bytes32 -> DataBatch;
  batchList : list IoTData.bytes32
}.

(** The state after the constructor has run for [msg_sender]. *)
Definition deployed (msg_sender : IoTData.address) : State :=
  {| storage :=
       {| IoTData.hasRole := fun role account =>
            (account =? msg_sender) &&
            (bytes32_eqb role DEFAULT_ADMIN_ROLE || bytes32_eqb role IoTData.ADMIN_ROLE);
          IoTData.sensorRecords := fun _ =>
            IoTData.mkSensorData "" 0 "" "" "" (repeat x00 32);
          IoTData.deviceRecords := fun _ => [];
          IoTData.recordCounter := 0 |};
     verifiedMerkleRoots := fun _ => false;
     dataBatches := fun _ => mkDataBatch (repeat x00 32) 0 0 0 "";
     batchList := [] |}.

(** [storeData] leaves the variables of the batches alone. *)
Definition storeData (st : State) (msg_sender : IoTData.address) (block_timestamp : Z)
           (_deviceId _data _dataType _location : string)
  : Result (State * Z) :=
  r <- IoTData.storeData (storage st) msg_sender block_timestamp
         _deviceId _data _dataType _location ;;
  Ok ({| storage := fst r;
         verifiedMerkleRoots := verifiedMerkleRoots st;
         dataBatches := dataBatches st;
         batchList := batchList st |},
      snd r).

(** [abi.encodePacked(uint256, uint256, bytes32, uint256)]. *)
Definition encodeBatch (_fromIndex _toIndex : Z) (_merkleRoot : IoTData.bytes32)
           (block_timestamp : Z) : list byte :=
  IoTData.uint256_bytes 32 _fromIndex ++ IoTData.uint256_bytes 32 _toIndex
    ++ _merkleRoot ++ IoTData.uint256_bytes 32 block_timestamp.

Definition createBatch (st : State) (msg_sender : IoTData.address) (block_timestamp : Z)
           (_fromIndex _toIndex : Z) (_merkleRoot : IoTData.bytes32)
           (_description : string)
  : Result (State * IoTData.bytes32) :=
  if negb (IoTData.hasRole (storage st) IoTData.ADMIN_ROLE msg_sender)
  then Throw (Revert "Must have admin role")
  else if negb (_toIndex >=? _fromIndex)
  then Throw (Revert "Invalid index range")
  else if negb (_toIndex <? IoTData.recordCounter (storage st))
  then Throw (Revert "To-index out of range")
  else
    let batchId :=
      Keccak.keccak256 (encodeBatch _fromIndex _toIndex _merkleRoot block_timestamp) in
    Ok ({| storage := storage st;
           verifiedMerkleRoots := fun root =>
             if bytes32_eqb root _merkleRoot then true else verifiedMerkleRoots st root;
           dataBatches := fun id =>
             if bytes32_eqb id batchId
             then mkDataBatch _merkleRoot _fromIndex _toIndex block_timestamp _description
             else dataBatches st id;
           batchList := batchList st ++ [batchId] |},
        batchId).

Section Verification.

(** [MerkleProof.verify(proof, root, leaf)] of OpenZeppelin. *)
Variable MerkleProof_verify :
  list IoTData.bytes32 -> IoTData.bytes32 -> IoTData.bytes32 -> bool.

Definition verifyRecord (st : State) (_recordId : Z) (_merkleRoot : IoTData.bytes32)
           (_merkleProof : list IoTData.bytes32) : Result bool :=
  if negb (verifiedMerkleRoots st _merkleRoot)
  then Throw (Revert "Unknown Merkle root")
  else if negb (_recordId <? IoTData.recordCounter (storage st))
  then Throw (Revert "Record doesn't exist")
  else
    let leaf := IoTData.dataHash (IoTData.sensorRecords (storage st) _recordId) in
    Ok (MerkleProof_verify _merkleProof _merkleRoot leaf).

End Verification.

Definition getBatchCount (st : State) : Z := len (batchList st).

Definition getBatchByIndex (st : State) (_index : Z)
  : Result (IoTData.bytes32 * IoTData.bytes32 * Z * Z * Z * string) :=
  if negb (_index <? len (batchList st))
  then Throw (Revert "Batch index out of range")
  else
    match item (batchList st) _index with
    | Some batchId =>
        let batch := dataBatches st batchId in
        Ok (batchId, merkleRoot batch, fromIndex batch, toIndex batch,
            timestamp batch, description batch)
    | None => Throw (Panic 0x32)
    end.

Definition getData (st : State) (index : Z)
  : Result (string * Z * string * string * string) :=
  if negb (index <? IoTData.recordCounter (storage st))
  then Throw (Revert "Record does not exist")
  else
    let record := IoTData.sensorRecords (storage st) index in
    Ok (IoTData.deviceId record, IoTData.timestamp record, IoTData.data record,
        IoTData.dataType record, IoTData.location record).

Definition getRecordCount (st : State) : Z := IoTData.recordCounter (storage st).

(** The off-chain record with the five field values of the stored record
    [id], as [getData] returns them. *)
Definition sensorDataOf (st : State) (id : Z) : SensorData.t :=
  let record := IoTData.sensorRecords (storage st) id in
  SensorData.mk (IoTData.deviceId record) (IoTData.timestamp record)
                (IoTData.data record) (IoTData.dataType record)
                (IoTData.location record).

Definition getDeviceRecords (st : State) (_deviceId : string) : list Z :=
  IoTData.deviceRecords (storage st) _deviceId.

Definition getLatestDeviceData (st : State) (_deviceId : string)
  : Result (Z * Z * string * string * string) :=
  let records := IoTData.deviceRecords (storage st) _deviceId in
  if negb (len records >? 0)
  then Throw (Revert "No records for this device")
  else
    match item records (len records - 1) with
    | Some latestIndex =>
        let record := IoTData.sensorRecords (storage st) latestIndex in
        Ok (latestIndex, IoTData.timestamp record, IoTData.data record,
            IoTData.dataType record, IoTData.location record)
    | None => Throw (Panic 0x32)
    end.

(** The three [continue] tests of the loop of [getDeviceMetrics]. *)
Definition outsideFilter (record : IoTData.SensorData) (_dataType : string)
           (_fromTimestamp _toTimestamp : Z) : bool :=
  if (_fromTimestamp >? 0) && (IoTData.timestamp record <? _fromTimestamp) then true
  else if (_toTimestamp >? 0) && (IoTData.timestamp record >? _toTimestamp) then true
  else if (len (list_byte_of_string _dataType) >? 0)
          && negb (bytes32_eqb
                     (Keccak.keccak256 (list_byte_of_string (IoTData.dataType record)))
                     (Keccak.keccak256 (list_byte_of_string _dataType)))
  then true
  else false.

(** The loop of [getDeviceMetrics] over the record ids of the device. *)
Fixpoint metricsLoop (st : State) (records : list Z) (_dataType : string)
         (_fromTimestamp _toTimestamp : Z) (count firstTs lastTs : Z)
  : Result (Z * Z * Z) :=
  match records with
  | [] => Ok (count, firstTs, lastTs)
  | id :: rest =>
      let record := IoTData.sensorRecords (storage st) id in
      if outsideFilter record _dataType _fromTimestamp _toTimestamp
      then metricsLoop st rest _dataType _fromTimestamp _toTimestamp count firstTs lastTs
      else if count =? IoTData.MAX_UINT256 then Throw (Panic 0x11)   (* [count++] *)
      else
        let count := count + 1 in
        let firstTs :=
          if (firstTs =? 0) || (IoTData.timestamp record <? firstTs)
          then IoTData.timestamp record else firstTs in
        let lastTs :=
          if IoTData.timestamp record >? lastTs
          then IoTData.timestamp record else lastTs in
        metricsLoop st rest _dataType _fromTimestamp _toTimestamp count firstTs lastTs
  end.

Definition getDeviceMetrics (st : State) (_deviceId _dataType : string)
           (_fromTimestamp _toTimestamp : Z) : Result (Z * Z * Z) :=
  metricsLoop st (IoTData.deviceRecords (storage st) _deviceId) _dataType
              _fromTimestamp _toTimestamp 0 0 0.

(** The values of a [uint256]. *)
Definition uint256 (n : Z) : Prop := 0 <= n <= IoTData.MAX_UINT256.

(** The states of a deployed contract: what the constructor leaves, and what
    a call that returns leaves.  The role functions of the contract and of
    [AccessControl] change the role mapping only. *)
Inductive Reachable : State -> Prop :=
| Reachable_deployed (msg_sender : IoTData.address) :
    Reachable (deployed msg_sender)
| Reachable_roles (st : State) (roles : IoTData.bytes32 -> IoTData.address -> bool) :
    Reachable st ->
    Reachable
      {| storage :=
           {| IoTData.hasRole := roles;
              IoTData.sensorRecords := IoTData.sensorRecords (storage st);
              IoTData.deviceRecords := IoTData.deviceRecords (storage st);
              IoTData.recordCounter := IoTData.recordCounter (storage st) |};
         verifiedMerkleRoots := verifiedMerkleRoots st;
         dataBatches := dataBatches st;
         batchList := batchList st |}
| Reachable_storeData (st st' : State) (msg_sender : IoTData.address)
                      (block_timestamp id : Z)
                      (_deviceId _data _dataType _location : string) :
    Reachable st ->
    uint256 block_timestamp ->
    storeData st msg_sender block_timestamp _deviceId _data _dataType _location
      = Ok (st', id) ->
    Reachable st'
| Reachable_createBatch (st st' : State) (msg_sender : IoTData.address)
                        (block_timestamp _fromIndex _toIndex : Z)
                        (_merkleRoot batchId : IoTData.bytes32)
                        (_description : string) :
    Reachable st ->
    uint256 block_timestamp -> uint256 _fromIndex -> uint256 _toIndex ->
    List.length _merkleRoot = 32%nat ->
    createBatch st msg_sender block_timestamp _fromIndex _toIndex _merkleRoot
                _description = Ok (st', batchId) ->
    Reachable st'.

(** The ids of the records stored for a device, in ascending order. *)
Definition recordsOf (st : State) (_deviceId : string) : list Z :=
  filter (fun id =>
            (IoTData.deviceId (IoTData.sensorRecords (storage st) id) =? _deviceId)%string)
         (map Z.of_nat (seq 0 (Z.to_nat (IoTData.recordCounter (storage st))))).

(** The records of a device that [getDeviceMetrics] counts. *)
Definition counted (st : State) (_deviceId _dataType : string)
           (_fromTimestamp _toTimestamp : Z) : list IoTData.SensorData :=
  filter (fun record =>
            negb (outsideFilter record _dataType _fromTimestamp _toTimestamp))
         (map (IoTData.sensorRecords (storage st))
              (IoTData.deviceRecords (storage st) _deviceId)).

End IoTDataContract.

(** ** OpenZeppelin's MerkleProof

    [MerkleProof.verify] as [verifyRecord] calls it (utils/cryptography/
    MerkleProof.sol and Hashes.sol of the dependency): the leaf is hashed with
    each proof element in turn, the smaller of the two first, where [bytes32]
    values compare as unsigned integers, most significant byte first. *)

Module MerkleProof.

Fixpoint bytes_ltb (a b : list byte) : bool :=
  match a, b with
  | x :: a', y :: b' =>
      if (Byte.to_N x <? Byte.to_N y)%N then true
      else if (Byte.to_N y <? Byte.to_N x)%N then false
      else bytes_ltb a' b'
  | _, _ => false
  end.

Definition commutativeKeccak256 (a b : IoTData.bytes32) : IoTData.bytes32 :=
  if bytes_ltb a b then Keccak.keccak256 (a ++ b) else Keccak.keccak256 (b ++ a).

Fixpoint processProof (proof : list IoTData.bytes32) (leaf : IoTData.bytes32)
  : IoTData.bytes32 :=
  match proof with
  | [] => leaf
  | p :: rest => processProof rest (commutativeKeccak256 leaf p)
  end.

Definition verify (proof : list IoTData.bytes32) (root leaf : IoTData.bytes32) : bool :=
  IoTDataContract.bytes32_eqb (processProof proof leaf) root.

End MerkleProof.

(** ** RateLimiter (IoTDataRateLimited.sol) *)

Module RateLimiter.

Record RateLimit : Type := mkRateLimit {
  limit : Z;
  window : Z;
  lastReset : Z;
  count : Z
}.

(** The entry of an account and selector that has never been written. *)
Definition unset : RateLimit := mkRateLimit 0 0 0 0.

(** The modifier [rateLimit(_limit, _window)] up to its placeholder, on the
    entry [rateLimits[msg.sender][msg.sig]]: the entry as the function body
    finds it, or the revert that undoes the call. *)
Definition rateLimit (entry : RateLimit) (block_timestamp _limit _window : Z)
  : Result RateLimit :=
  if lastReset entry + window entry >? IoTData.MAX_UINT256 then Throw (Panic 0x11)
  else
    let entry :=
      if block_timestamp >=? lastReset entry + window entry
      then {| limit := _limit; window := _window;
              lastReset := block_timestamp; count := 0 |}
      else entry in
    if negb (count entry <? limit entry) then Throw (Revert "Rate limit exceeded")
    else if count entry =? IoTData.MAX_UINT256 then Throw (Panic 0x11)
    else Ok {| limit := limit entry; window := window entry;
               lastReset := lastReset entry; count := count entry + 1 |}.

Definition getRateLimitInfo (entry : RateLimit) : Result (Z * Z * Z * Z) :=
  if lastReset entry + window entry >? IoTData.MAX_UINT256 then Throw (Panic 0x11)
  else Ok (limit entry, window entry, count entry, lastReset entry + window entry).

(** A sequence of calls of one account to one rate-limited function, at the
    given block times, where the function body returns: the entry after them
    and the number of calls that went through.  A call that reverts leaves
    the entry as it was. *)
Fixpoint calls (entry : RateLimit) (_limit _window : Z) (times : list Z)
  : RateLimit * Z :=
  match times with
  | [] => (entry, 0)
  | block_timestamp :: rest =>
      match rateLimit entry block_timestamp _limit _window with
      | Ok entry' =>
          let '(final, passed) := calls entry' _limit _window rest in
          (final, passed + 1)
      | Throw _ => calls entry _limit _window rest
      end
  end.

End RateLimiter.

(** ** IoTCertificationBridge.sol *)

Module IoTCertificationBridge.

(** [xs[k] = v] on a [bytes] array in memory; an index out of range is a
    panic. *)
Fixpoint assign (xs : list byte) (k : nat) (v : byte) : Result (list byte) :=
  match xs, k with
  | [], _ => Throw (Panic 0x32)
  | _ :: t, O => Ok (v :: t)
  | x :: t, S k' => t' <- assign t k' v ;; Ok (x :: t')
  end.

(** [xs[k]]. *)
Definition read (xs : list byte) (k : Z) : Result byte :=
  match item xs k with
  | Some b => Ok b
  | None => Throw (Panic 0x32)
  end.

Definition hexChars : list byte := list_byte_of_string "0123456789abcdef".

(** The loop of [toHexString], from [i] on, with [n] iterations left. *)
Fixpoint toHexLoop (n : nat) (i : Z) (data : IoTData.bytes32) (str : list byte)
  : Result (list byte) :=
  match n with
  | O => Ok str
  | S n' =>
      b <- read data i ;;
      hi <- read hexChars (Z.of_N (N.shiftr (Byte.to_N b) 4)) ;;
      str <- assign str (Z.to_nat (i * 2)) hi ;;
      lo <- read hexChars (Z.of_N (N.land (Byte.to_N b) 0x0f)) ;;
      str <- assign str (Z.to_nat (1 + i * 2)) lo ;;
      toHexLoop n' (i + 1) data str
  end.

Definition toHexString (data : IoTData.bytes32) : Result string :=
  str <- toHexLoop 32 0 data (repeat x00 64) ;;
  Ok (string_of_list_byte str).

Section Certification.

(** The certificate contract: its state, and [mintCertificate] called by the
    bridge (the [msg.sender] of the call) at a block time. *)
Variable NFTData : Type.
Variable mintCertificate :
  NFTData -> IoTData.address -> Z -> IoTData.address -> string -> string -> string
  -> string -> Result (NFTData * Z).

(** [certifyDataRecord], called by [msg_sender] on the bridge deployed at
    [this]; it returns the state of the certificate contract and the token
    id. *)
Definition certifyDataRecord (iotContract : IoTDataContract.State)
           (nftContract : NFTData) (this msg_sender : IoTData.address)
           (block_timestamp recordId : Z) (tokenURI certificationLevel : string)
  : Result (NFTData * Z) :=
  if negb (IoTData.hasRole (IoTDataContract.storage iotContract)
                           IoTDataContract.ANALYST_ROLE msg_sender)
  then Throw (Revert "Must be analyst to certify")
  else
    r <- IoTDataContract.getData iotContract recordId ;;
    let '(deviceId, timestamp, data, dataType, location) := r in
    let dataHash :=
      Keccak.keccak256 (IoTData.encodePacked deviceId timestamp data dataType location) in
    hex <- toHexString dataHash ;;
    mintCertificate nftContract this block_timestamp msg_sender deviceId
                    ("0x" ++ hex)%string tokenURI certificationLevel.

End Certification.

End IoTCertificationBridge.

(** ** services/integrityService.ts *)

Module IntegrityChecker.

(** A record as [generateIntegrityReport] reads it: the five fields that are
    hashed and the optional [dataHash]. *)
Record Checked : Type := mkChecked {
  record : SensorData.t;
  dataHash : option string
}.

Definition calculateDataHash (record : SensorData.t) : Result string :=
  ethers.solidityPackedKeccak256
    [ethers.T_string; ethers.T_uint256; ethers.T_string; ethers.T_string; ethers.T_string]
    [ethers.V_string (SensorData.deviceId record);
     ethers.V_number (SensorData.timestamp record);
     ethers.V_string (SensorData.data record);
     ethers.V_string (SensorData.dataType record);
     ethers.V_string (SensorData.location record)].

(** [if (expectedHash)]: [undefined] and the empty string are falsy. *)
Definition verifyDataIntegrity (record : SensorData.t) (expectedHash : option string)
  : Result bool :=
  calculatedHash <- calculateDataHash record ;;
  match expectedHash with
  | Some expected =>
      if (expected =? "")%string then Ok true
      else Ok (calculatedHash =? expected)%string
  | None => Ok true
  end.

(** The [error] of a detail: the fixed text of a failed comparison, or the
    message of the exception that the [catch] received. *)
Inductive DetailError : Type :=
| IntegrityCheckFailed             (* ['Data integrity check failed'] *)
| MessageOf (e : Exn).

Record Detail : Type := mkDetail {
  recordId : Z;
  error : DetailError
}.

Record Report : Type := mkReport {
  totalRecords : Z;
  validRecords : Z;
  corruptedRecords : Z;
  details : list Detail
}.

(** The body of the loop of [generateIntegrityReport] for [records[i]]. *)
Definition reportStep (i : Z) (checked : Checked) (validRecords : Z)
           (details : list Detail) : Z * list Detail :=
  match dataHash checked with
  | Some hash =>
      if (hash =? "")%string then (validRecords + 1, details)
      else
        match verifyDataIntegrity (record checked) (Some hash) with
        | Ok true => (validRecords + 1, details)
        | Ok false => (validRecords, details ++ [mkDetail i IntegrityCheckFailed])
        | Throw e => (validRecords, details ++ [mkDetail i (MessageOf e)])
        end
  | None => (validRecords + 1, details)
  end.

Fixpoint reportLoop (records : list Checked) (i : Z) (validRecords : Z)
         (details : list Detail) : Z * list Detail :=
  match records with
  | [] => (validRecords, details)
  | checked :: rest =>
      let '(validRecords, details) := reportStep i checked validRecords details in
      reportLoop rest (i + 1) validRecords details
  end.

Definition generateIntegrityReport (records : list Checked) : Report :=
  let '(validRecords, details) := reportLoop records 0 0 [] in
  {| totalRecords := len records;
     validRecords := validRecords;
     corruptedRecords := len records - validRecords;
     details := details |}.

End IntegrityChecker.

(** ** services/dataAggregation.ts: batches *)

Module sensorBatch.

Section Collaborators.

Variable JSON_parse : string -> Result JsValue.
Variable JSON_stringify : JsValue -> string.
Variable engineOrder : list float -> list float.
Variable AnomalyReport : Type.
Variable History : Type.
Variable detectBatchAnomalies :
  History -> list SensorReading.t -> list AnomalyReport * History.

Record t : Type := mk {
  formattedData : list SensorData.t;
  merkleRoot : option string;
  proofs : list (list (option string));
  aggregates : list LocalDataAggregate.t;
  anomalies : list AnomalyReport
}.

Definition prepareSensorBatch (history : History) (readings : list SensorReading.t)
  : Result (t * History) :=
  let formattedData := map (dataAggregation.formatSensorData JSON_stringify) readings in
  tree <- merkleTree.generateMerkleTree formattedData ;;
  let '(Build_MerkleTree treeRoot treeProofs) := tree in
  let '(anomalies, history) := detectBatchAnomalies history readings in
  r <- dataAggregation.aggregateSensorData JSON_parse JSON_stringify engineOrder
    detectBatchAnomalies
         history readings ;;
  let '(aggregatesMap, history) := r in
  Ok ({| formattedData := formattedData;
         merkleRoot := treeRoot;
         proofs := treeProofs;
         aggregates := map snd aggregatesMap;
         anomalies := anomalies |},
      history).

End Collaborators.

Arguments formattedData {_} _.
Arguments merkleRoot {_} _.
Arguments proofs {_} _.
Arguments aggregates {_} _.
Arguments anomalies {_} _.
Arguments prepareSensorBatch _ _ _ {_ _} _ _ _.

End sensorBatch.

(** ** stores/syncStore: grouping *)

Module syncStore.

(** The body of the loop of [groupByDevice]. *)
Definition groupByDeviceStep (groups : JsMap (list SensorReading.t))
           (reading : SensorReading.t) : JsMap (list SensorReading.t) :=
  let groups :=
    if negb (Map_has groups (SensorReading.deviceId reading))
    then Map_set groups (SensorReading.deviceId reading) []
    else groups in
  match lookup (SensorReading.deviceId reading) groups with
  | Some group => Map_set groups (SensorReading.deviceId reading) (group ++ [reading])
  | None => groups
  end.

Definition groupByDevice (readings : list SensorReading.t)
  : JsMap (list SensorReading.t) :=
  fold_left groupByDeviceStep readings [].

End syncStore.

(** ** Grouping by a key *)

(** The grouping loop of [aggregateSensorData] and of [groupByDevice], over
    the key that each of them reads from a reading. *)
Definition groupStepBy (key : SensorReading.t -> string)
           (groups : JsMap (list SensorReading.t)) (reading : SensorReading.t)
  : JsMap (list SensorReading.t) :=
  let groups :=
    if negb (Map_has groups (key reading)) then Map_set groups (key reading) []
    else groups in
  match lookup (key reading) groups with
  | Some group => Map_set groups (key reading) (group ++ [reading])
  | None => groups
  end.

(** A detector that reports nothing and records the readings it is given, in
    the order of the calls. *)
Definition recordingDetector (seen readings : list SensorReading.t)
  : list unit * list SensorReading.t := ([], seen ++ readings).

(** The sum of the record counts of a list of aggregates. *)
Definition totalRecordCount (aggregates : list LocalDataAggregate.t) : Z :=
  fold_right (fun aggregate total => LocalDataAggregate.recordCount aggregate + total)
             0 aggregates.

(** ** More inputs of the examples *)

(** The first two records of [oddBatch], and the third. *)
Definition pairBatch : list SensorData.t :=
  [ SensorData.mk "device-001" 1700000000000 (valueJson "20") "temperature" "field-north";
    SensorData.mk "device-001" 1700000060000 (valueJson "22") "temperature" "field-north" ].

Definition thirdRecord : SensorData.t :=
  SensorData.mk "device-001" 1700000120000 (valueJson "19") "temperature" "field-north".

(** The state that a call leaves, or the state before it when it reverts. *)
Definition stateAfter {A} (st : IoTDataContract.State)
           (call : Result (IoTDataContract.State * A)) : IoTDataContract.State :=
  match call with
  | Ok (st', _) => st'
  | Throw _ => st
  end.

(** The contract that account 1 has deployed, after it has stored one and
    two readings of [device-001], and after it has registered a batch over
    both. *)
Definition contractStoredOnce : IoTDataContract.State :=
  stateAfter (IoTDataContract.deployed 1)
    (IoTDataContract.storeData (IoTDataContract.deployed 1) 1 1700000000
       "device-001" (valueJson "20") "temperature" "field-north").

Definition contractStoredTwice : IoTDataContract.State :=
  stateAfter contractStoredOnce
    (IoTDataContract.storeData contractStoredOnce 1 1700000060
       "device-001" (valueJson "22") "temperature" "field-north").

Definition exampleRoot : IoTData.bytes32 :=
  Keccak.keccak256 (list_byte_of_string "example root").

Definition contractBatched : IoTDataContract.State :=
  stateAfter contractStoredTwice
    (IoTDataContract.createBatch contractStoredTwice 1 1700000100 0 1 exampleRoot
       "first batch").

(** A stand-in for the certificate contract, which keeps the data hashes it
    is given and numbers the tokens from 0. *)
Definition recordingMint (minted : list string) (bridge : IoTData.address)
           (block_timestamp : Z) (to : IoTData.address)
           (deviceId dataHash tokenURI certificationLevel : string)
  : Result (list string * Z) :=
  Ok (minted ++ [dataHash], len minted).

(** [contractStoredTwice] after the administrator has granted account 7 the
    analyst role. *)
Definition contractWithAnalyst : IoTDataContract.State :=
  {| IoTDataContract.storage :=
       {| IoTData.hasRole := fun role account =>
            IoTData.hasRole (IoTDataContract.storage contractStoredTwice) role account
            || ((account =? 7)
                && IoTDataContract.bytes32_eqb role IoTDataContract.ANALYST_ROLE);
          IoTData.sensorRecords :=
            IoTData.sensorRecords (IoTDataContract.storage contractStoredTwice);
          IoTData.deviceRecords :=
            IoTData.deviceRecords (IoTDataContract.storage contractStoredTwice);
          IoTData.recordCounter :=
            IoTData.recordCounter (IoTDataContract.storage contractStoredTwice) |};
     IoTDataContract.verifiedMerkleRoots :=
       IoTDataContract.verifiedMerkleRoots contractStoredTwice;
     IoTDataContract.dataBatches := IoTDataContract.dataBatches contractStoredTwice;
     IoTDataContract.batchList := IoTDataContract.batchList contractStoredTwice |}.

(** ** The order of the numbers

    What the comparisons of IEEE 754 binary64 numbers decide, over the
    specification of the primitive floats. *)

Module FloatOrder.
Import SpecFloat FloatOps.

(** The place of a number in the order of the floats: the sign class first,
    then the exponent, then the mantissa. *)
Definition rank (x : spec_float) : Z * Z * Z :=
  match x with
  | S754_zero _ => (0, 0, 0)
  | S754_infinity false => (2, 0, 0)
  | S754_infinity true => (-2, 0, 0)
  | S754_nan => (0, 0, 0)
  | S754_finite false m e => (1, e, Zpos m)
  | S754_finite true m e => (-1, - e, Zneg m)
  end.

Definition lexCompare (p q : Z * Z * Z) : comparison :=
  let '(a1, b1, c1) := p in
  let '(a2, b2, c2) := q in
  match a1 ?= a2 with
  | Eq => match b1 ?= b2 with
          | Eq => c1 ?= c2
          | c => c
          end
  | c => c
  end.

(** The numbers with the sign [s] that are not zero. *)
Definition signed (s : bool) (x : spec_float) : Prop :=
  match x with
  | S754_finite s' _ _ => s' = s
  | S754_infinity s' => s' = s
  | _ => False
  end.

(** The place of a float in the order of the numbers. *)
Definition place (a : float) : Z * Z * Z := rank (Prim2SF a).

End FloatOrder.

(** ** Keys in the order of their first occurrence *)

(** The keys without their repetitions, each where it occurs first. *)
Fixpoint firstOccurrences (keys : list string) : list string :=
  match keys with
  | [] => []
  | k :: rest => k :: filter (fun k' => negb (k' =? k)%string) (firstOccurrences rest)
  end.

(** Two readings of [device-001] whose values are [1] and [NaN], in both
    orders of arrival. *)
Definition nanLast : list SensorReading.t :=
  [ temperatureReading 1700000000000 1; temperatureReading 1700000060000 nan ].

Definition nanFirst : list SensorReading.t :=
  [ temperatureReading 1700000000000 nan; temperatureReading 1700000060000 1 ].

(** * Properties *)

(** ** Test vectors for the hash primitive *)

Example keccak256_empty :
  ethers.keccak256 [] =
  "0xc5d2460186f7233c927e7db2dcc703c0e500b653ca82273b7bfad8045d85a470".
Proof. vm_compute. reflexivity. Qed.

Example keccak256_abc :
  ethers.keccak256 (list_byte_of_string "abc") =
  "0x4e03657aea45a94fc7d47ba826c8d667c0d1e6e33a64a036ec44f58fa12d6c45".
Proof. vm_compute. reflexivity. Qed.

(** [ADMIN_ROLE] of IoTData.sol. *)
Example keccak256_ADMIN_ROLE :
  ethers.keccak256 (list_byte_of_string "ADMIN_ROLE") =
  "0xa49807205ce4d355092ef5a8a18f56e8913cf4a201fbe287825b095693c21775".
Proof. vm_compute. reflexivity. Qed.

(** [getBytes] reads the prefix and the digits in either case, and
    [hexlify] writes them in lower case. *)
Example getBytes_either_case :
  ethers.getBytes "0XaB0c" = Ok [xab; x0c] /\
  ethers.getBytes "0xAb0C" = Ok [xab; x0c] /\
  ethers.hexlify [xab; x0c] = "0xab0c" /\
  ethers.getBytes "0yab0c" = Throw (InvalidArgument "invalid BytesLike value").
Proof. repeat split. Qed.

Lemma keccak256_length (msg : list byte) :
  List.length (Keccak.keccak256 msg) = 32%nat.
Proof. reflexivity. Qed.

Arguments Keccak.keccak256 : simpl never.
Arguments ethers.keccak256 : simpl never.

(** ** Hex strings *)

Section HexFacts.
Import ethers.

Lemma hex_byte_roundtrip (b : byte) :
  digitValue (hexDigit (Byte.to_N b / 16)) = Some (Byte.to_N b / 16)%N /\
  digitValue (hexDigit (Byte.to_N b mod 16)) = Some (Byte.to_N b mod 16)%N /\
  byte_of_N (16 * (Byte.to_N b / 16) + Byte.to_N b mod 16) = b.
Proof. destruct b; vm_compute; auto. Qed.

Lemma bytesOfHex_hexOfBytes (bs : list byte) :
  bytesOfHex (hexOfBytes bs) = Some bs.
Proof.
  induction bs as [|b t IH]; [reflexivity|].
  destruct (hex_byte_roundtrip b) as (Hh & Hl & Hb).
  cbn [hexOfBytes bytesOfHex]. rewrite Hh, Hl, IH, Hb. reflexivity.
Qed.

Lemma getBytes_hexlify (bs : list byte) : getBytes (hexlify bs) = Ok bs.
Proof.
  unfold hexlify, getBytes. cbn [append].
  rewrite bytesOfHex_hexOfBytes. reflexivity.
Qed.

Lemma isBytes32_keccak256 (data : list byte) : isBytes32 (keccak256 data) = true.
Proof.
  unfold isBytes32, _pack, keccak256. rewrite getBytes_hexlify. cbn [bind].
  rewrite keccak256_length. reflexivity.
Qed.

Lemma isBytes32_nonempty (s : string) : isBytes32 s = true -> s <> "".
Proof. intros H ->. discriminate H. Qed.

Lemma solidityPackedKeccak256_isBytes32 types values h :
  solidityPackedKeccak256 types values = Ok h -> isBytes32 h = true.
Proof.
  unfold solidityPackedKeccak256. destruct (solidityPacked types values); cbn [bind].
  - intros [= <-]. apply isBytes32_keccak256.
  - discriminate.
Qed.

Lemma pack_pair_ok (a b : string) :
  isBytes32 a = true -> isBytes32 b = true ->
  exists h, solidityPackedKeccak256 [T_bytes32; T_bytes32] [V_string a; V_string b] = Ok h.
Proof.
  unfold isBytes32, solidityPackedKeccak256. cbn [solidityPacked].
  destruct (_pack T_bytes32 (V_string a)); [|discriminate].
  destruct (_pack T_bytes32 (V_string b)); [|discriminate].
  intros _ _. cbn [bind]. eauto.
Qed.
End HexFacts.

(** ** Order of strings *)

Lemma ltb_false_both (a b : string) :
  (a <? b)%string = false -> (b <? a)%string = false -> a = b.
Proof.
  unfold String.ltb. intros Hab Hba.
  apply String.compare_eq_iff.
  rewrite String.compare_antisym in Hba.
  destruct (String.compare a b); simpl in *; congruence.
Qed.

Lemma compare_refl (a : string) : String.compare a a = Eq.
Proof.
  induction a as [|c a IH]; [reflexivity|].
  cbn [String.compare]. unfold Ascii.compare. rewrite N.compare_refl. exact IH.
Qed.

Lemma ltb_asym (a b : string) :
  (a <? b)%string = true -> (b <? a)%string = false.
Proof.
  unfold String.ltb. rewrite (String.compare_antisym a b).
  destruct (String.compare b a); simpl; congruence.
Qed.



Lemma ltb_irrefl (a : string) : (a <? a)%string = false.
Proof.
  unfold String.ltb. rewrite compare_refl. reflexivity.
Qed.

(** The two ways of ordering a pair agree. *)
Lemma Array_sort_pair (a b : string) :
  Array_sort [a; b] =
  [fst (MerkleTreeUtils.sortPairs a b); snd (MerkleTreeUtils.sortPairs a b)].
Proof.
  unfold Array_sort, Array_sortWith, MerkleTreeUtils.sortPairs.
  cbn [fold_right sort_insert].
  destruct (a <? b)%string eqn:Hab.
  - rewrite (ltb_asym _ _ Hab). reflexivity.
  - destruct (b <? a)%string eqn:Hba; [reflexivity|].
    rewrite (ltb_false_both _ _ Hab Hba). reflexivity.
Qed.

Lemma sortPairs_comm (a b : string) :
  MerkleTreeUtils.sortPairs a b = MerkleTreeUtils.sortPairs b a.
Proof.
  unfold MerkleTreeUtils.sortPairs.
  destruct (a <? b)%string eqn:Hab.
  - rewrite (ltb_asym _ _ Hab). reflexivity.
  - destruct (b <? a)%string eqn:Hba; [reflexivity|].
    rewrite (ltb_false_both _ _ Hab Hba). reflexivity.
Qed.


(** The hash of a pair in services/merkleTree.ts is [hashNode]. *)
Lemma hashNode_Array_sort (a b : string) :
  ethers.solidityPackedKeccak256 [ethers.T_bytes32; ethers.T_bytes32]
    (map ethers.V_string (Array_sort [a; b]))
  = MerkleTreeUtils.hashNode a b.
Proof.
  rewrite Array_sort_pair. unfold MerkleTreeUtils.hashNode.
  destruct (MerkleTreeUtils.sortPairs a b). reflexivity.
Qed.

Lemma hashNode_ok (a b : string) :
  ethers.isBytes32 a = true -> ethers.isBytes32 b = true ->
  exists h, MerkleTreeUtils.hashNode a b = Ok h /\ ethers.isBytes32 h = true.
Proof.
  intros Ha Hb. unfold MerkleTreeUtils.hashNode, MerkleTreeUtils.sortPairs.
  destruct (a <? b)%string.
  - destruct (pack_pair_ok _ _ Ha Hb) as [h Hh]. exists h. split; [exact Hh|].
    eapply solidityPackedKeccak256_isBytes32; eassumption.
  - destruct (pack_pair_ok _ _ Hb Ha) as [h Hh]. exists h. split; [exact Hh|].
    eapply solidityPackedKeccak256_isBytes32; eassumption.
Qed.

Lemma hashNode_isBytes32 (a b h : string) :
  MerkleTreeUtils.hashNode a b = Ok h -> ethers.isBytes32 h = true.
Proof.
  unfold MerkleTreeUtils.hashNode. destruct (MerkleTreeUtils.sortPairs a b).
  apply solidityPackedKeccak256_isBytes32.
Qed.

Lemma hashNode_comm (a b : string) :
  MerkleTreeUtils.hashNode a b = MerkleTreeUtils.hashNode b a.
Proof.
  unfold MerkleTreeUtils.hashNode. rewrite (sortPairs_comm a b). reflexivity.
Qed.


(** C5. A tree cannot be built from nothing: [MerkleTreeUtils.buildLayers]
    throws on an empty list of leaves, and both [generateMerkleTree]
    functions throw on an empty list of records. *)
Theorem empty_input_throws :
  MerkleTreeUtils.buildLayers [] = Throw (Error "No leaves provided") /\
  MerkleTreeUtils.generateMerkleTree [] = Throw (Error "No leaves provided") /\
  merkleTree.generateMerkleTree [] = Throw (Error "No records for Merkle tree").
Proof. repeat split. Qed.

(** ** Packing a timestamp *)

Lemma uint256_bytes_zero (k : nat) : IoTData.uint256_bytes k 0 = repeat x00 k.
Proof.
  induction k as [|k IH]; [reflexivity|].
  cbn [IoTData.uint256_bytes]. change (0 / 256) with 0. rewrite IH.
  change [byte_of_Z 0] with (repeat x00 1).
  rewrite <- repeat_app. f_equal. lia.
Qed.

Lemma toBeBytes_zero (fuel : nat) : ethers.toBeBytes fuel 0 = [].
Proof. destruct fuel; reflexivity. Qed.

(** Left-padding the minimal big-endian bytes gives the fixed-width bytes. *)
Lemma toBeBytes_padded (k : nat) :
  forall (fuel : nat) (n : Z),
    0 <= n < 256 ^ Z.of_nat k -> n < 2 ^ Z.of_nat fuel ->
    (List.length (ethers.toBeBytes fuel n) <= k)%nat /\
    repeat x00 (k - List.length (ethers.toBeBytes fuel n)) ++ ethers.toBeBytes fuel n
    = IoTData.uint256_bytes k n.
Proof.
  induction k as [|k IH]; intros fuel n Hn Hfuel.
  - assert (n = 0) by (change (256 ^ Z.of_nat 0) with 1 in Hn; lia). subst n.
    rewrite toBeBytes_zero. split; [apply Nat.le_refl | reflexivity].
  - destruct (Z.eq_dec n 0) as [-> | Hnz].
    + rewrite toBeBytes_zero, uint256_bytes_zero.
      split; [apply Nat.le_0_l | ].
      rewrite app_nil_r. reflexivity.
    + destruct fuel as [|fuel].
      { change (2 ^ Z.of_nat 0) with 1 in Hfuel. lia. }
      rewrite Nat2Z.inj_succ, Z.pow_succ_r in Hn, Hfuel by lia.
      cbn [ethers.toBeBytes IoTData.uint256_bytes].
      destruct (Z.eqb_spec n 0) as [|_]; [contradiction|].
      assert (Hq : 0 <= n / 256 < 256 ^ Z.of_nat k).
      { split; [apply Z.div_pos; lia | apply Z.div_lt_upper_bound; lia]. }
      assert (Hf : n / 256 < 2 ^ Z.of_nat fuel).
      { apply Z.div_lt_upper_bound; [lia|].
        assert (0 < 2 ^ Z.of_nat fuel) by (apply Z.pow_pos_nonneg; lia). lia. }
      destruct (IH fuel (n / 256) Hq Hf) as [Hlen Heq].
      rewrite length_app. cbn [List.length]. split; [lia|].
      rewrite <- Heq.
      replace (S k - (List.length (ethers.toBeBytes fuel (n / 256)) + 1))%nat
        with (k - List.length (ethers.toBeBytes fuel (n / 256)))%nat by lia.
      rewrite app_assoc. reflexivity.
Qed.

Lemma pack_uint256 (n : Z) :
  0 <= n <= ethers.MAX_SAFE_INTEGER ->
  ethers._pack ethers.T_uint256 (ethers.V_number n) = Ok (IoTData.uint256_bytes 32 n).
Proof.
  intros Hn. unfold ethers._pack.
  destruct (Z.leb_spec 0 n); [|lia].
  destruct (Z.leb_spec n ethers.MAX_SAFE_INTEGER); [|lia].
  cbn [andb].
  assert (Hfuel : n < 2 ^ Z.of_nat (S (Z.to_nat (Z.log2 n)))).
  { rewrite Nat2Z.inj_succ, Z2Nat.id by apply Z.log2_nonneg.
    destruct (Z.eq_dec n 0) as [-> | Hnz]; [reflexivity|].
    apply Z.log2_spec. lia. }
  assert (Hrange : 0 <= n < 256 ^ Z.of_nat 32).
  { unfold ethers.MAX_SAFE_INTEGER in Hn. split; [lia|].
    eapply Z.le_lt_trans; [apply Hn | reflexivity]. }
  destruct (toBeBytes_padded 32 _ _ Hrange Hfuel) as [Hlen Heq].
  unfold ethers.zeroPadValue, ethers.toBeArray.
  destruct (Nat.ltb_spec 32 (List.length (ethers.toBeBytes (S (Z.to_nat (Z.log2 n))) n)));
    [lia|].
  rewrite Heq. reflexivity.
Qed.

(** ** Leaves *)

Lemma leaf_eq (r : SensorData.t) : merkleTree.leaf r = MerkleTreeUtils.leaf r.
Proof. reflexivity. Qed.

(** The leaf of a record with a timestamp that [ethers] accepts is the hash of
    the bytes that [abi.encodePacked] produces for the same fields. *)
Lemma leaf_packed (r : SensorData.t) :
  0 <= SensorData.timestamp r <= ethers.MAX_SAFE_INTEGER ->
  MerkleTreeUtils.leaf r =
  Ok (ethers.keccak256
        (IoTData.encodePacked (SensorData.deviceId r) (SensorData.timestamp r)
           (SensorData.data r) (SensorData.dataType r) (SensorData.location r))).
Proof.
  intros Hts. unfold MerkleTreeUtils.leaf, ethers.solidityPackedKeccak256.
  cbn [ethers.solidityPacked]. rewrite (pack_uint256 _ Hts).
  cbn [ethers._pack bind]. unfold IoTData.encodePacked.
  rewrite app_nil_r. reflexivity.
Qed.

Lemma leaf_isBytes32 (r : SensorData.t) (h : string) :
  MerkleTreeUtils.leaf r = Ok h -> ethers.isBytes32 h = true.
Proof. apply solidityPackedKeccak256_isBytes32. Qed.

Lemma generateLeaves_isBytes32 (records : list SensorData.t) :
  forall leaves,
    MerkleTreeUtils.generateLeaves records = Ok leaves ->
    Forall (fun h => ethers.isBytes32 h = true) leaves /\
    List.length leaves = List.length records.
Proof.
  unfold MerkleTreeUtils.generateLeaves.
  induction records as [|r t IH]; intros leaves; cbn [mapM].
  - intros [= <-]. split; [constructor | reflexivity].
  - destruct (MerkleTreeUtils.leaf r) as [h|] eqn:Hh; cbn [bind]; [|discriminate].
    destruct (mapM MerkleTreeUtils.leaf t) as [hs|]; cbn [bind]; [|discriminate].
    intros [= <-]. destruct (IH hs eq_refl) as [Hall Hlen].
    split; [constructor; [eapply leaf_isBytes32; eassumption | assumption] |].
    cbn [List.length]. congruence.
Qed.

Lemma generateLeaves_ok (records : list SensorData.t) :
  Forall (fun r => 0 <= SensorData.timestamp r <= ethers.MAX_SAFE_INTEGER) records ->
  exists leaves, MerkleTreeUtils.generateLeaves records = Ok leaves.
Proof.
  unfold MerkleTreeUtils.generateLeaves.
  induction 1 as [|r t Hr _ [hs IH]]; cbn [mapM].
  - eauto.
  - rewrite (leaf_packed _ Hr), IH. cbn [bind]. eauto.
Qed.

(** ** Building the layers *)

Lemma pair_ind (A : Type) (P : list A -> Prop) :
  P [] -> (forall x, P [x]) -> (forall x y l, P l -> P (x :: y :: l)) ->
  forall l, P l.
Proof.
  intros H0 H1 H2 l.
  enough (P l /\ forall a, P (a :: l)) by tauto.
  induction l as [|x l [IHl IHxl]]; split; auto.
Qed.

Lemma ceilHalf_SS (n : nat) : ceilHalf (S (S n)) = S (ceilHalf n).
Proof.
  unfold ceilHalf. replace (S (S n) + 1)%nat with (n + 1 + 1 * 2)%nat by lia.
  rewrite Nat.div_add by lia. lia.
Qed.

Lemma ceilHalf_lt (n : nat) : (1 < n)%nat -> (ceilHalf n < n)%nat.
Proof.
  intros Hn. unfold ceilHalf. apply Nat.Div0.div_lt_upper_bound. lia.
Qed.

Lemma ceilHalf_pos (n : nat) : (0 < n)%nat -> (0 < ceilHalf n)%nat.
Proof.
  intros Hn. unfold ceilHalf.
  apply Nat.div_str_pos. lia.
Qed.

(** One pass of the [for] loop succeeds on digests and halves the layer. *)
Lemma nextLayer_ok (cur : list string) :
  Forall (fun h => ethers.isBytes32 h = true) cur ->
  exists next,
    MerkleTreeUtils.nextLayer cur = Ok next /\
    Forall (fun h => ethers.isBytes32 h = true) next /\
    List.length next = ceilHalf (List.length cur).
Proof.
  induction cur as [|x|x y l IH] using pair_ind; intros Hall.
  - exists []. repeat split. constructor.
  - inversion Hall as [|? ? Hx _]; subst.
    destruct (hashNode_ok _ _ Hx Hx) as (h & Hh & Hv).
    exists [h]. cbn [MerkleTreeUtils.nextLayer]. rewrite Hh. cbn [bind].
    repeat split. constructor; [assumption | constructor].
  - inversion Hall as [|? ? Hx Hall']; subst.
    inversion Hall' as [|? ? Hy Hl]; subst.
    destruct (hashNode_ok _ _ Hx Hy) as (h & Hh & Hv).
    destruct (IH Hl) as (t & Ht & Htv & Htl).
    exists (h :: t). cbn [MerkleTreeUtils.nextLayer].
    destruct (String.eqb_spec y "") as [-> | _]; [discriminate Hy|].
    rewrite Hh, Ht. cbn [bind]. repeat split.
    + constructor; assumption.
    + cbn [List.length]. rewrite ceilHalf_SS. congruence.
Qed.

Lemma nextLayer_isBytes32 (cur : list string) :
  forall next,
    MerkleTreeUtils.nextLayer cur = Ok next ->
    Forall (fun h => ethers.isBytes32 h = true) next.
Proof.
  induction cur as [|x|x y l IH] using pair_ind; intros next;
    cbn [MerkleTreeUtils.nextLayer].
  - intros [= <-]. constructor.
  - destruct (MerkleTreeUtils.hashNode x x) as [h|] eqn:Hh; cbn [bind]; [|discriminate].
    intros [= <-]. constructor; [eapply hashNode_isBytes32; eassumption | constructor].
  - destruct (MerkleTreeUtils.hashNode x _) as [h|] eqn:Hh; cbn [bind]; [|discriminate].
    destruct (MerkleTreeUtils.nextLayer l) as [t|]; cbn [bind]; [|discriminate].
    intros [= <-]. constructor; [eapply hashNode_isBytes32; eassumption | auto].
Qed.

(** On digests the two [for] loops are the same function: [||] and [??]
    differ on the empty string only, which is not a digest. *)
Lemma nextLayer_agree (cur : list string) :
  Forall (fun h => ethers.isBytes32 h = true) cur ->
  merkleTree.nextLayer cur = MerkleTreeUtils.nextLayer cur.
Proof.
  induction cur as [|x|x y l IH] using pair_ind; intros Hall.
  - reflexivity.
  - cbn [merkleTree.nextLayer MerkleTreeUtils.nextLayer].
    rewrite hashNode_Array_sort. reflexivity.
  - inversion Hall as [|? ? Hx Hall']; subst.
    inversion Hall' as [|? ? Hy Hl]; subst.
    cbn [merkleTree.nextLayer MerkleTreeUtils.nextLayer].
    destruct (String.eqb_spec y "") as [-> | _]; [discriminate Hy|].
    rewrite hashNode_Array_sort, (IH Hl). reflexivity.
Qed.

Lemma len_gtb (A : Type) (xs : list A) :
  (len xs >? 1) = (1 <? List.length xs)%nat.
Proof.
  unfold len. destruct (Nat.ltb_spec 1 (List.length xs)); lia.
Qed.

Lemma buildLoop_agree (fuel : nat) :
  forall layers,
    Forall (fun h => ethers.isBytes32 h = true) (last layers []) ->
    merkleTree.buildLoop fuel layers = MerkleTreeUtils.buildLoop fuel layers.
Proof.
  induction fuel as [|fuel IH]; intros layers Hlast.
  - reflexivity.
  - cbn [merkleTree.buildLoop MerkleTreeUtils.buildLoop].
    destruct (len (last layers []) >? 1); [|reflexivity].
    rewrite (nextLayer_agree _ Hlast).
    destruct (MerkleTreeUtils.nextLayer (last layers [])) as [next|] eqn:Hnext;
      cbn [bind]; [|reflexivity].
    apply IH. rewrite last_last. eapply nextLayer_isBytes32; eassumption.
Qed.

(** The accumulated layers are only extended. *)
Lemma buildLoop_prefix (fuel : nat) :
  forall (pre : list (list string)) (cur : list string),
    MerkleTreeUtils.buildLoop fuel (pre ++ [cur]) =
    (rest <- MerkleTreeUtils.buildLoop fuel [cur] ;; Ok (pre ++ rest)).
Proof.
  induction fuel as [|fuel IH]; intros pre cur.
  - cbn [MerkleTreeUtils.buildLoop]. rewrite last_last. cbn [last].
    destruct (len cur >? 1); reflexivity.
  - cbn [MerkleTreeUtils.buildLoop]. rewrite last_last. cbn [last].
    destruct (len cur >? 1); [|reflexivity].
    destruct (MerkleTreeUtils.nextLayer cur) as [next|]; cbn [bind]; [|reflexivity].
    rewrite (IH (pre ++ [cur]) next), (IH [cur] next).
    destruct (MerkleTreeUtils.buildLoop fuel [next]) as [rest|]; cbn [bind]; [|reflexivity].
    rewrite <- app_assoc. reflexivity.
Qed.

(** With fuel for every element of the layer the loop runs to its exit. *)
Lemma buildLoop_Layered (fuel : nat) :
  forall cur,
    cur <> [] ->
    Forall (fun h => ethers.isBytes32 h = true) cur ->
    (List.length cur <= S fuel)%nat ->
    exists above,
      MerkleTreeUtils.buildLoop fuel [cur] = Ok (cur :: above) /\
      Layered (cur :: above).
Proof.
  induction fuel as [|fuel IH]; intros cur Hne Hall Hlen.
  - destruct cur as [|h [|? ?]]; [contradiction | | cbn [List.length] in Hlen; lia].
    exists []. split; [reflexivity|]. constructor. inversion Hall; assumption.
  - cbn [MerkleTreeUtils.buildLoop last]. rewrite len_gtb.
    destruct (Nat.ltb_spec 1 (List.length cur)) as [Hgt | Hle].
    + destruct (nextLayer_ok _ Hall) as (next & Hnext & Hnv & Hnl).
      rewrite Hnext. cbn [bind].
      rewrite (buildLoop_prefix fuel [cur] next).
      assert (Hnne : next <> []).
      { intros ->. cbn [List.length] in Hnl.
        pose proof (ceilHalf_pos (List.length cur)). lia. }
      assert (Hnlen : (List.length next <= S fuel)%nat).
      { pose proof (ceilHalf_lt _ Hgt). lia. }
      destruct (IH next Hnne Hnv Hnlen) as (above & Hb & HL).
      rewrite Hb. cbn [bind app]. exists (next :: above).
      split; [reflexivity|]. constructor; assumption.
    + destruct cur as [|h [|? ?]]; [contradiction | | cbn [List.length] in Hle; lia].
      exists []. split; [reflexivity|]. constructor. inversion Hall; assumption.
Qed.

Lemma buildLayers_Layered (leaves : list string) :
  leaves <> [] ->
  Forall (fun h => ethers.isBytes32 h = true) leaves ->
  exists above,
    MerkleTreeUtils.buildLayers leaves = Ok (leaves :: above) /\
    Layered (leaves :: above).
Proof.
  intros Hne Hall. unfold MerkleTreeUtils.buildLayers.
  destruct (Z.eqb_spec (len leaves) 0) as [H0 | _].
  - destruct leaves; [contradiction | unfold len in H0; cbn [List.length] in H0; lia].
  - apply buildLoop_Layered; auto.
Qed.

Lemma buildLayers_agree (leaves : list string) :
  leaves <> [] ->
  Forall (fun h => ethers.isBytes32 h = true) leaves ->
  merkleTree.buildLayers leaves = MerkleTreeUtils.buildLayers leaves.
Proof.
  intros Hne Hall. unfold merkleTree.buildLayers, MerkleTreeUtils.buildLayers.
  destruct (Z.eqb_spec (len leaves) 0) as [H0 | _].
  - destruct leaves; [contradiction | unfold len in H0; cbn [List.length] in H0; lia].
  - apply buildLoop_agree. exact Hall.
Qed.

(** ** The shape of the layers, for any leaves *)

Lemma MerkleTreeUtils_buildLoop_while (fuel : nat) :
  forall layers,
    MerkleTreeUtils.buildLoop fuel layers =
    whileLayers MerkleTreeUtils.nextLayer fuel layers.
Proof.
  induction fuel as [|fuel IH]; intros layers; [reflexivity|].
  cbn [MerkleTreeUtils.buildLoop whileLayers].
  destruct (len (last layers []) >? 1); [|reflexivity].
  destruct (MerkleTreeUtils.nextLayer (last layers [])); cbn [bind]; [apply IH | reflexivity].
Qed.

Lemma merkleTree_buildLoop_while (fuel : nat) :
  forall layers,
    merkleTree.buildLoop fuel layers = whileLayers merkleTree.nextLayer fuel layers.
Proof.
  induction fuel as [|fuel IH]; intros layers; [reflexivity|].
  cbn [merkleTree.buildLoop whileLayers].
  destruct (len (last layers []) >? 1); [|reflexivity].
  destruct (merkleTree.nextLayer (last layers [])); cbn [bind]; [apply IH | reflexivity].
Qed.

Lemma MerkleTreeUtils_nextLayer_length (cur : list string) :
  forall next,
    MerkleTreeUtils.nextLayer cur = Ok next ->
    List.length next = ceilHalf (List.length cur).
Proof.
  induction cur as [|x|x y l IH] using pair_ind; intros next;
    cbn [MerkleTreeUtils.nextLayer].
  - intros [= <-]. reflexivity.
  - destruct (MerkleTreeUtils.hashNode x x); cbn [bind]; [|discriminate].
    intros [= <-]. reflexivity.
  - destruct (MerkleTreeUtils.hashNode x _); cbn [bind]; [|discriminate].
    destruct (MerkleTreeUtils.nextLayer l) as [t|]; cbn [bind]; [|discriminate].
    intros [= <-]. cbn [List.length]. rewrite ceilHalf_SS, (IH t eq_refl). reflexivity.
Qed.

Lemma merkleTree_nextLayer_length (prev : list string) :
  forall next,
    merkleTree.nextLayer prev = Ok next ->
    List.length next = ceilHalf (List.length prev).
Proof.
  induction prev as [|x|x y l IH] using pair_ind; intros next;
    cbn [merkleTree.nextLayer].
  - intros [= <-]. reflexivity.
  - destruct (ethers.solidityPackedKeccak256 _ _); cbn [bind]; [|discriminate].
    intros [= <-]. reflexivity.
  - destruct (ethers.solidityPackedKeccak256 _ _); cbn [bind]; [|discriminate].
    destruct (merkleTree.nextLayer l) as [t|]; cbn [bind]; [|discriminate].
    intros [= <-]. cbn [List.length]. rewrite ceilHalf_SS, (IH t eq_refl). reflexivity.
Qed.

Section WhileLayers.

Variable pass : list string -> Result (list string).
Hypothesis pass_length :
  forall cur next, pass cur = Ok next ->
                   List.length next = ceilHalf (List.length cur).

Lemma whileLayers_prefix (fuel : nat) :
  forall (pre : list (list string)) (cur : list string),
    whileLayers pass fuel (pre ++ [cur]) =
    (rest <- whileLayers pass fuel [cur] ;; Ok (pre ++ rest)).
Proof.
  induction fuel as [|fuel IH]; intros pre cur.
  - cbn [whileLayers]. rewrite last_last. cbn [last].
    destruct (len cur >? 1); reflexivity.
  - cbn [whileLayers]. rewrite last_last. cbn [last].
    destruct (len cur >? 1); [|reflexivity].
    destruct (pass cur) as [next|]; cbn [bind]; [|reflexivity].
    rewrite (IH (pre ++ [cur]) next), (IH [cur] next).
    destruct (whileLayers pass fuel [next]) as [rest|]; cbn [bind]; [|reflexivity].
    rewrite <- app_assoc. reflexivity.
Qed.

(** Whatever the loop returns from a non-empty layer has the lengths of a
    tree; the fuel of one unit per element is never used up. *)
Lemma whileLayers_Halving (fuel : nat) :
  forall (cur : list string) (layers : list (list string)),
    cur <> [] ->
    (List.length cur <= S fuel)%nat ->
    whileLayers pass fuel [cur] = Ok layers ->
    exists above, layers = cur :: above /\ Halving layers.
Proof.
  induction fuel as [|fuel IH]; intros cur layers Hne Hlen.
  - destruct cur as [|h [|? ?]]; [contradiction | | cbn [List.length] in Hlen; lia].
    cbn. intros [= <-]. exists []. split; [reflexivity | constructor].
  - cbn [whileLayers last]. rewrite len_gtb.
    destruct (Nat.ltb_spec 1 (List.length cur)) as [Hgt | Hle].
    + destruct (pass cur) as [next|] eqn:Hnext; cbn [bind]; [|discriminate].
      pose proof (pass_length cur next Hnext) as Hnl.
      rewrite (whileLayers_prefix fuel [cur] next).
      destruct (whileLayers pass fuel [next]) as [rest|] eqn:Hrest; cbn [bind];
        [|discriminate].
      intros [= <-].
      assert (Hnne : next <> []).
      { intros ->. cbn [List.length] in Hnl.
        pose proof (ceilHalf_pos (List.length cur)). lia. }
      assert (Hnlen : (List.length next <= S fuel)%nat).
      { pose proof (ceilHalf_lt _ Hgt). lia. }
      destruct (IH next rest Hnne Hnlen Hrest) as (above & -> & HH).
      exists (next :: above). split; [reflexivity|]. constructor; assumption.
    + destruct cur as [|h [|? ?]]; [contradiction | | cbn [List.length] in Hle; lia].
      intros [= <-]. exists []. split; [reflexivity | constructor].
Qed.

End WhileLayers.

Lemma Halving_lengths (layers : list (list string)) :
  Halving layers ->
  (forall i, (S i < List.length layers)%nat ->
     List.length (nth (S i) layers []) = ceilHalf (List.length (nth i layers []))) /\
  List.length (last layers []) = 1%nat.
Proof.
  induction 1 as [h | cur next above Hgt Hnl HH [IHl IHlast]].
  - split; [intros i Hi; cbn [List.length] in Hi; lia | reflexivity].
  - split; [|exact IHlast].
    intros [|i] Hi; [exact Hnl|].
    cbn [List.length] in Hi.
    change (nth (S (S i)) (cur :: next :: above) []) with (nth (S i) (next :: above) []).
    change (nth (S i) (cur :: next :: above) []) with (nth i (next :: above) []).
    apply IHl. cbn [List.length]. lia.
Qed.

Lemma buildLayers_Halving (leaves : list string) (layers : list (list string)) :
  leaves <> [] ->
  MerkleTreeUtils.buildLayers leaves = Ok layers \/
  merkleTree.buildLayers leaves = Ok layers ->
  exists above, layers = leaves :: above /\ Halving layers.
Proof.
  intros Hne [Hb | Hb].
  - unfold MerkleTreeUtils.buildLayers in Hb.
    destruct (len leaves =? 0); [discriminate|].
    rewrite MerkleTreeUtils_buildLoop_while in Hb.
    eapply whileLayers_Halving;
      [apply MerkleTreeUtils_nextLayer_length | exact Hne | | exact Hb]. lia.
  - unfold merkleTree.buildLayers in Hb.
    rewrite merkleTree_buildLoop_while in Hb.
    eapply whileLayers_Halving;
      [apply merkleTree_nextLayer_length | exact Hne | | exact Hb]. lia.
Qed.

(** C4. Whatever either builder returns for a non-empty list of leaves starts
    with the leaves, every next layer has [ceil(n / 2)] elements when the
    layer below has [n], and the last layer has exactly one element; for
    leaves that are 32-byte digests both builders return, and return the same
    layers. *)
Theorem layer_shape (leaves : list string) :
  leaves <> [] ->
  (forall layers,
      MerkleTreeUtils.buildLayers leaves = Ok layers \/
      merkleTree.buildLayers leaves = Ok layers ->
      nth 0 layers [] = leaves /\
      (forall i, (S i < List.length layers)%nat ->
         List.length (nth (S i) layers []) = ceilHalf (List.length (nth i layers []))) /\
      List.length (last layers []) = 1%nat) /\
  (Forall (fun h => ethers.isBytes32 h = true) leaves ->
   exists layers,
     MerkleTreeUtils.buildLayers leaves = Ok layers /\
     merkleTree.buildLayers leaves = Ok layers).
Proof.
  intros Hne. split.
  - intros layers Hb.
    destruct (buildLayers_Halving leaves layers Hne Hb) as (above & -> & HH).
    destruct (Halving_lengths _ HH) as [Hlen Hlast].
    repeat split; assumption.
  - intros Hall.
    destruct (buildLayers_Layered leaves Hne Hall) as (above & Hb & _).
    exists (leaves :: above).
    rewrite (buildLayers_agree leaves Hne Hall). split; exact Hb.
Qed.

Lemma layer_shape_witness :
  threeLeaves <> [] /\
  Forall (fun h => ethers.isBytes32 h = true) threeLeaves /\
  exists layers,
    MerkleTreeUtils.buildLayers threeLeaves = Ok layers /\
    merkleTree.buildLayers threeLeaves = Ok layers /\
    nth 0 layers [] = threeLeaves /\
    (forall i, (S i < List.length layers)%nat ->
       List.length (nth (S i) layers []) = ceilHalf (List.length (nth i layers []))) /\
    List.length (last layers []) = 1%nat.
Proof.
  assert (Hne : threeLeaves <> []) by discriminate.
  assert (Hall : Forall (fun h => ethers.isBytes32 h = true) threeLeaves)
    by (repeat constructor).
  split; [exact Hne|]. split; [exact Hall|].
  destruct (layer_shape threeLeaves Hne) as [Hshape Hreturns].
  destruct (Hreturns Hall) as (layers & Hclass & Hstandalone).
  exists layers. split; [exact Hclass|]. split; [exact Hstandalone|].
  exact (Hshape layers (or_introl Hclass)).
Defined.

(** ** Proofs *)

Lemma lxor_one (n : Z) :
  0 <= n -> Z.lxor n 1 = if Z.rem n 2 =? 0 then n + 1 else n - 1.
Proof.
  intros Hn. rewrite Z.rem_mod_nonneg by lia. rewrite Zmod_even.
  destruct n as [|p|p]; [reflexivity | | lia].
  destruct p; reflexivity.
Qed.

Lemma bitxor_one (index : Z) :
  0 <= index < 2 ^ 31 ->
  bitxor index 1 = if Z.rem index 2 =? 0 then index + 1 else index - 1.
Proof.
  intros Hi. unfold bitxor, ToInt32.
  rewrite (Z.mod_small (index + 2 ^ 31)) by lia.
  replace (index + 2 ^ 31 - 2 ^ 31) with index by lia.
  change ((1 + 2 ^ 31) mod 2 ^ 32 - 2 ^ 31) with 1.
  apply lxor_one. lia.
Qed.

(** Below [2^31] the sibling computed with [^] is the sibling computed with
    [%], so the two proof loops collect the same elements. *)
Lemma proofLoop_agree (layers : list (list string)) :
  forall (index : Z) (proof : list (option string)),
    0 <= index < 2 ^ 31 ->
    merkleTree.proofLoop layers index proof =
    MerkleTreeUtils.proofLoop layers index proof.
Proof.
  induction layers as [|layer above IH]; intros index proof Hi; [reflexivity|].
  destruct above as [|next above]; [reflexivity|].
  cbn [merkleTree.proofLoop MerkleTreeUtils.proofLoop].
  rewrite (bitxor_one index Hi).
  apply IH. split; [apply Z.div_pos; lia | apply Z.div_lt_upper_bound; lia].
Qed.

Lemma indices_range (A : Type) (xs : list A) (i : Z) :
  In i (indices xs) -> 0 <= i < len xs.
Proof.
  unfold indices, len. rewrite in_map_iff. intros (k & <- & Hk).
  apply in_seq in Hk. lia.
Qed.

(** C10. On a non-empty list of records the class and the standalone
    function fail together, with the same exception from the packing of a
    record, or return together: then the roots are the same, there is one
    proof per leaf in both, and the proofs of every leaf index below [2^31]
    (an index that [^] does not wrap) are the same.  For at most [2^31]
    records the two results are equal. *)
Theorem implementations_agree (records : list SensorData.t) :
  records <> [] ->
  match MerkleTreeUtils.generateMerkleTree records,
        merkleTree.generateMerkleTree records with
  | Ok tree, Ok tree' =>
      merkleRoot tree' = merkleRoot tree /\
      List.length (proofs tree') = List.length (proofs tree) /\
      forall i : nat,
        Z.of_nat i < 2 ^ 31 -> nth_error (proofs tree') i = nth_error (proofs tree) i
  | Throw e, Throw e' => e' = e
  | _, _ => False
  end /\
  (len records <= 2 ^ 31 ->
   merkleTree.generateMerkleTree records = MerkleTreeUtils.generateMerkleTree records).
Proof.
  intros Hne.
  unfold merkleTree.generateMerkleTree, MerkleTreeUtils.generateMerkleTree.
  destruct (Z.eqb_spec (len records) 0) as [H0 | _].
  { destruct records; [contradiction | unfold len in H0; cbn [List.length] in H0; lia]. }
  change (mapM merkleTree.leaf records) with (MerkleTreeUtils.generateLeaves records).
  destruct (MerkleTreeUtils.generateLeaves records) as [leaves|] eqn:Hleaves;
    cbn [bind]; [|split; reflexivity].
  destruct (generateLeaves_isBytes32 records leaves Hleaves) as [Hall Hl].
  assert (Hlne : leaves <> []).
  { intros ->. destruct records; [contradiction | discriminate Hl]. }
  rewrite (buildLayers_agree leaves Hlne Hall).
  destruct (MerkleTreeUtils.buildLayers leaves) as [layers|]; cbn [bind];
    [|split; reflexivity].
  cbn [merkleRoot proofs]. split; [split; [reflexivity|split]|].
  - rewrite !length_map. reflexivity.
  - intros i Hi. rewrite !nth_error_map.
    destruct (nth_error (indices leaves) i) as [idx|] eqn:Hidx; [|reflexivity].
    cbn [option_map]. f_equal. apply proofLoop_agree.
    unfold indices in Hidx. rewrite nth_error_map, nth_error_seq in Hidx.
    destruct (Nat.ltb_spec i (List.length leaves)); [|discriminate].
    cbn [option_map Nat.add] in Hidx. injection Hidx as <-. lia.
  - intros Hlen. do 2 f_equal. apply map_ext_in. intros idx Hidx.
    apply proofLoop_agree. apply indices_range in Hidx.
    unfold len in *. lia.
Qed.

Lemma implementations_agree_witness :
  oddBatch <> [] /\
  len oddBatch <= 2 ^ 31 /\
  merkleTree.generateMerkleTree oddBatch = MerkleTreeUtils.generateMerkleTree oddBatch.
Proof.
  assert (Hne : oddBatch <> []) by discriminate.
  assert (Hlen : len oddBatch <= 2 ^ 31) by (vm_compute; discriminate).
  split; [exact Hne|]. split; [exact Hlen|].
  pose proof (implementations_agree oddBatch Hne) as H.
  destruct H as [_ H]. exact (H Hlen).
Defined.

(** Both functions return when every timestamp can be packed. *)
Lemma generateMerkleTree_ok (records : list SensorData.t) :
  records <> [] ->
  Forall (fun r => validTimestamp (SensorData.timestamp r)) records ->
  exists leaves above,
    MerkleTreeUtils.generateLeaves records = Ok leaves /\
    Layered (leaves :: above) /\
    MerkleTreeUtils.generateMerkleTree records =
    Ok {| merkleRoot := item (last (leaves :: above) []) 0;
          proofs := map (fun index => MerkleTreeUtils.proofLoop (leaves :: above) index [])
                        (indices leaves) |}.
Proof.
  intros Hne Hts.
  destruct (generateLeaves_ok records Hts) as [leaves Hleaves].
  destruct (generateLeaves_isBytes32 records leaves Hleaves) as [Hall Hl].
  assert (Hlne : leaves <> []).
  { intros ->. destruct records; [contradiction | discriminate Hl]. }
  destruct (buildLayers_Layered leaves Hlne Hall) as (above & Hb & HL).
  exists leaves, above. repeat split; try assumption.
  unfold MerkleTreeUtils.generateMerkleTree. rewrite Hleaves. cbn [bind].
  rewrite Hb. reflexivity.
Qed.

(** C6. For a single record both functions return the leaf hash of the record
    as the root, and the empty proof for index 0; they fail only when the
    record has no leaf hash, and a record with a timestamp that can be packed
    has one. *)
Theorem single_record (r : SensorData.t) :
  MerkleTreeUtils.generateMerkleTree [r] =
    (h <- MerkleTreeUtils.leaf r ;; Ok {| merkleRoot := Some h; proofs := [[]] |}) /\
  merkleTree.generateMerkleTree [r] =
    (h <- merkleTree.leaf r ;; Ok {| merkleRoot := Some h; proofs := [[]] |}) /\
  (validTimestamp (SensorData.timestamp r) ->
   exists h, MerkleTreeUtils.leaf r = Ok h /\ merkleTree.leaf r = Ok h).
Proof.
  split; [|split].
  - unfold MerkleTreeUtils.generateMerkleTree, MerkleTreeUtils.generateLeaves.
    cbn [mapM]. destruct (MerkleTreeUtils.leaf r); reflexivity.
  - unfold merkleTree.generateMerkleTree.
    cbn [mapM]. destruct (merkleTree.leaf r); reflexivity.
  - intros Hts. change (merkleTree.leaf r) with (MerkleTreeUtils.leaf r).
    rewrite (leaf_packed r Hts). eauto.
Qed.

Lemma single_record_witness :
  let r := SensorData.mk "device-001" 1700000000000 (valueJson "20")
                         "temperature" "field-north" in
  validTimestamp (SensorData.timestamp r) /\
  exists h,
    MerkleTreeUtils.leaf r = Ok h /\
    MerkleTreeUtils.generateMerkleTree [r] =
      Ok {| merkleRoot := Some h; proofs := [[]] |} /\
    merkleTree.generateMerkleTree [r] =
      Ok {| merkleRoot := Some h; proofs := [[]] |}.
Proof.
  intros r.
  assert (Hts : validTimestamp (SensorData.timestamp r))
    by (split; vm_compute; discriminate).
  split; [exact Hts|].
  destruct (single_record r) as (Hclass & Hstandalone & Hleaf).
  destruct (Hleaf Hts) as (h & Hh & Hh').
  exists h. split; [exact Hh|].
  rewrite Hclass, Hstandalone, Hh, Hh'. split; reflexivity.
Defined.

(** ** Proofs that verify *)

(** The element of the next layer at [k] is the hash of the pair at [2k],
    [2k + 1]. *)
Lemma nextLayer_pairs (cur : list string) :
  forall (next : list string) (k : nat),
    Forall (fun h => ethers.isBytes32 h = true) cur ->
    MerkleTreeUtils.nextLayer cur = Ok next ->
    (2 * k + 1 < List.length cur)%nat ->
    exists a b y,
      nth_error cur (2 * k) = Some a /\
      nth_error cur (2 * k + 1) = Some b /\
      nth_error next k = Some y /\
      MerkleTreeUtils.hashNode a b = Ok y.
Proof.
  induction cur as [|x|x y l IH] using pair_ind; intros next k Hall Hnext Hk.
  - cbn [List.length] in Hk. lia.
  - cbn [List.length] in Hk. lia.
  - inversion Hall as [|? ? Hx Hall']; subst.
    inversion Hall' as [|? ? Hy Hl]; subst.
    cbn [MerkleTreeUtils.nextLayer] in Hnext.
    destruct (String.eqb_spec y "") as [-> | _]; [discriminate Hy|].
    destruct (MerkleTreeUtils.hashNode x y) as [h|] eqn:Hh; cbn [bind] in Hnext;
      [|discriminate].
    destruct (MerkleTreeUtils.nextLayer l) as [t|] eqn:Ht; cbn [bind] in Hnext;
      [|discriminate].
    injection Hnext as <-.
    destruct k as [|k].
    + exists x, y, h. repeat split. exact Hh.
    + destruct (IH t k Hl eq_refl) as (a & b & z & Ha & Hb & Hz & Hab).
      { cbn [List.length] in Hk. lia. }
      exists a, b, z.
      replace (2 * S k)%nat with (S (S (2 * k))) by lia.
      replace (S (S (2 * k)) + 1)%nat with (S (S (2 * k + 1))) by lia.
      cbn [nth_error]. repeat split; assumption.
Qed.

Lemma item_nat (A : Type) (xs : list A) (i : nat) :
  item xs (Z.of_nat i) = nth_error xs i.
Proof.
  unfold item. destruct (Z.ltb_spec (Z.of_nat i) 0); [lia|].
  rewrite Nat2Z.id. reflexivity.
Qed.

Lemma proofLoop_step (layer next : list string) (above : list (list string))
      (currentIndex : Z) (proof : list (option string)) :
  MerkleTreeUtils.proofLoop (layer :: next :: above) currentIndex proof =
  MerkleTreeUtils.proofLoop (next :: above) (currentIndex / 2)
    (let siblingIndex :=
       if Z.rem currentIndex 2 =? 0 then currentIndex + 1 else currentIndex - 1 in
     if siblingIndex <? len layer then proof ++ [item layer siblingIndex] else proof).
Proof. reflexivity. Qed.

(** When every layer below the root has an even length, every leaf has a
    sibling at every level, and the proof collected for it folds to the
    root. *)
Lemma proofLoop_verifies (layers : list (list string)) :
  Layered layers ->
  (forall layer, In layer layers ->
     List.length layer = 1%nat \/ Nat.Even (List.length layer)) ->
  forall (index : nat) (acc : list (option string)) (x : string),
    nth_error (hd [] layers) index = Some x ->
    exists p root,
      MerkleTreeUtils.proofLoop layers (Z.of_nat index) acc = acc ++ map Some p /\
      last layers [] = [root] /\
      MerkleTreeUtils.verifyLoop x p = Ok root.
Proof.
  induction 1 as [h Hh | cur next above Hgt Hall Hnext HL IH];
    intros Heven index acc x Hx.
  - cbn [hd] in Hx. destruct index as [|[|?]]; try discriminate.
    injection Hx as <-.
    exists [], h. cbn [map]. rewrite app_nil_r. repeat split.
  - cbn [hd] in Hx.
    assert (Hidx : (index < List.length cur)%nat).
    { apply nth_error_Some. congruence. }
    destruct (Heven cur (or_introl eq_refl)) as [H1 | [m Hm]]; [lia|].
    set (k := (index / 2)%nat).
    assert (Hk : (2 * k + 1 < List.length cur)%nat).
    { subst k. pose proof (Nat.div_mod_eq index 2).
      pose proof (Nat.mod_upper_bound index 2). lia. }
    destruct (nextLayer_pairs cur next k Hall Hnext Hk)
      as (a & b & y & Ha & Hb & Hy & Hab).
    destruct (IH (fun layer Hin => Heven layer (or_intror Hin)) k
                 (acc ++ [Some (if Nat.even index then b else a)]) y Hy)
      as (p & root & Hloop & Hlast & Hver).
    exists ((if Nat.even index then b else a) :: p), root.
    assert (Hdiv : Z.of_nat index / 2 = Z.of_nat k).
    { subst k. rewrite Nat2Z.inj_div. reflexivity. }
    rewrite proofLoop_step. cbv zeta.
    rewrite Z.rem_mod_nonneg by lia. rewrite Hdiv.
    pose proof (Nat.div_mod_eq index 2) as Hdm. fold k in Hdm.
    destruct (Nat.even index) eqn:Hev.
    + assert (Hi : index = (2 * k)%nat).
      { apply Nat.even_spec in Hev. destruct Hev as [q ->].
        subst k. rewrite Nat.mul_comm, Nat.div_mul by lia. lia. }
      assert (Hmod : Z.of_nat index mod 2 = 0).
      { rewrite Hi, Nat2Z.inj_mul, Z.mul_comm. apply Z.mod_mul. lia. }
      rewrite Hmod. cbn [Z.eqb].
      replace (Z.of_nat index + 1) with (Z.of_nat (2 * k + 1)) by lia.
      rewrite item_nat, Hb.
      destruct (Z.ltb_spec (Z.of_nat (2 * k + 1)) (len cur)) as [_ | Hge];
        [|unfold len in Hge; lia].
      rewrite Hloop. split; [|split].
      * rewrite <- app_assoc. reflexivity.
      * change (last (cur :: next :: above) []) with (last (next :: above) []).
        exact Hlast.
      * cbn [MerkleTreeUtils.verifyLoop].
        rewrite Hi in Hx. rewrite Ha in Hx. injection Hx as <-.
        rewrite Hab. cbn [bind]. exact Hver.
    + assert (Hi : index = (2 * k + 1)%nat).
      { assert (Hodd : Nat.odd index = true)
          by (rewrite <- Nat.negb_even, Hev; reflexivity).
        apply Nat.odd_spec in Hodd. destruct Hodd as [q ->].
        subst k. replace (2 * q + 1)%nat with (1 + q * 2)%nat by lia.
        rewrite Nat.div_add by lia. cbn. lia. }
      assert (Hmod : Z.of_nat index mod 2 = 1).
      { rewrite Hi. replace (Z.of_nat (2 * k + 1)) with (1 + Z.of_nat k * 2) by lia.
        rewrite Z.mod_add by lia. reflexivity. }
      rewrite Hmod. cbn [Z.eqb].
      replace (Z.of_nat index - 1) with (Z.of_nat (2 * k)) by lia.
      rewrite item_nat, Ha.
      destruct (Z.ltb_spec (Z.of_nat (2 * k)) (len cur)) as [_ | Hge];
        [|unfold len in Hge; lia].
      rewrite Hloop. split; [|split].
      * rewrite <- app_assoc. reflexivity.
      * change (last (cur :: next :: above) []) with (last (next :: above) []).
        exact Hlast.
      * cbn [MerkleTreeUtils.verifyLoop].
        rewrite Hi in Hx. rewrite Hb in Hx. injection Hx as <-.
        rewrite hashNode_comm, Hab. cbn [bind]. exact Hver.
Qed.

(** Round trip for the leaves that always have a sibling: if every layer
    below the root has an even length (as for a power of two of records),
    the proof generated for any index verifies against the root. *)
Theorem roundtrip_when_all_paired (records : list SensorData.t)
        (leaves : list string) (layers : list (list string)) (i : nat) :
  MerkleTreeUtils.generateLeaves records = Ok leaves ->
  MerkleTreeUtils.buildLayers leaves = Ok layers ->
  (forall layer, In layer layers ->
     List.length layer = 1%nat \/ Nat.Even (List.length layer)) ->
  (i < List.length records)%nat ->
  exists tree leaf root p,
    MerkleTreeUtils.generateMerkleTree records = Ok tree /\
    nth_error leaves i = Some leaf /\
    merkleRoot tree = Some root /\
    nth_error (proofs tree) i = Some (map Some p) /\
    MerkleTreeUtils.verifyProof leaf p root = Ok true.
Proof.
  intros Hleaves Hbuild Heven Hi.
  destruct (generateLeaves_isBytes32 records leaves Hleaves) as [Hall Hl].
  assert (Hlne : leaves <> []).
  { intros ->. cbn [List.length] in Hl. lia. }
  destruct (buildLayers_Layered leaves Hlne Hall) as (above & Hb & HL).
  rewrite Hb in Hbuild. injection Hbuild as <-.
  destruct (nth_error leaves i) as [leaf|] eqn:Hleaf;
    [|apply nth_error_None in Hleaf; lia].
  destruct (proofLoop_verifies (leaves :: above) HL Heven i [] leaf Hleaf)
    as (p & root & Hloop & Hlast & Hver).
  eexists. exists leaf, root, p.
  unfold MerkleTreeUtils.generateMerkleTree. rewrite Hleaves. cbn [bind].
  rewrite Hb. cbn [bind]. split; [reflexivity|].
  cbn [merkleRoot proofs]. split; [reflexivity|].
  split; [rewrite Hlast; reflexivity|].
  split.
  - unfold indices. rewrite map_map.
    rewrite nth_error_map.
    rewrite nth_error_seq. destruct (Nat.ltb_spec i (List.length leaves)); [|lia].
    cbn [option_map Nat.add]. rewrite Hloop. reflexivity.
  - unfold MerkleTreeUtils.verifyProof. rewrite Hver. cbn [bind].
    rewrite String.eqb_refl. reflexivity.
Qed.

Example roundtrip_of_a_pair :
  let records := firstn 2 oddBatch in
  let leaves := firstn 2 threeLeaves in
  let layers :=
    [leaves; ["0x610125a31ed301dd6ed4d7620f65e59cb1dc40fd3dd219bc2e2c3f040602a44f"]] in
  exists tree leaf root p,
    MerkleTreeUtils.generateMerkleTree records = Ok tree /\
    nth_error leaves 1 = Some leaf /\
    merkleRoot tree = Some root /\
    nth_error (proofs tree) 1 = Some (map Some p) /\
    MerkleTreeUtils.verifyProof leaf p root = Ok true.
Proof.
  intros records leaves layers.
  apply (roundtrip_when_all_paired records leaves layers 1).
  - vm_compute. reflexivity.
  - vm_compute. reflexivity.
  - intros layer [<- | [<- | []]]; [right; exists 1%nat; reflexivity | left; reflexivity].
  - cbn. lia.
Qed.

(** C1, at a batch of three records.  The builder pairs the third leaf with
    itself, the proof generator records no sibling for it, and the verifier
    folds the proof as it stands: the proofs of the first two leaves verify
    against the root, the proof of the third does not. *)
Theorem roundtrip_fails_on_unpaired_leaf :
  let leaf2 := "0xe58e7ea43e9b5e288a6330fe62cc6a45bbc671d74d232534378ddf510b87e45c" in
  let node01 := "0x610125a31ed301dd6ed4d7620f65e59cb1dc40fd3dd219bc2e2c3f040602a44f" in
  let root := "0x4caf12175f775f6a71f7d32b495d226612d07cc20b5fb70abb047c2b6d2bc709" in
  exists leaf0 leaf1 p0 p1,
    MerkleTreeUtils.generateLeaves oddBatch = Ok [leaf0; leaf1; leaf2] /\
    MerkleTreeUtils.generateMerkleTree oddBatch =
      Ok {| merkleRoot := Some root;
            proofs := [map Some p0; map Some p1; [Some node01]] |} /\
    merkleTree.generateMerkleTree oddBatch =
      Ok {| merkleRoot := Some root;
            proofs := [map Some p0; map Some p1; [Some node01]] |} /\
    MerkleTreeUtils.verifyProof leaf0 p0 root = Ok true /\
    MerkleTreeUtils.verifyProof leaf1 p1 root = Ok true /\
    MerkleTreeUtils.verifyProof leaf2 [node01] root = Ok false.
Proof.
  exists "0x5ee9dbf5d9eecc9c22543cb47f67c3d2323c0e3a52b4649a7fd86641e7bd19aa",
         "0x2d211da83e5e27883f591f497916dafb11459dda2ad85007508f35a3a9aa4d9d",
         ["0x2d211da83e5e27883f591f497916dafb11459dda2ad85007508f35a3a9aa4d9d";
          "0xe55745c51c6b6fdeb4cab2e6a380130b6b4ab235ef03a1247063beda9287cdd4"],
         ["0x5ee9dbf5d9eecc9c22543cb47f67c3d2323c0e3a52b4649a7fd86641e7bd19aa";
          "0xe55745c51c6b6fdeb4cab2e6a380130b6b4ab235ef03a1247063beda9287cdd4"].
  split; [vm_compute; reflexivity|].
  split; [vm_compute; reflexivity|].
  split; [vm_compute; reflexivity|].
  split; [vm_compute; reflexivity|].
  split; vm_compute; reflexivity.
Qed.

(** ** The leaf hash and the hash stored on chain *)

Lemma leaf_validTimestamp (r : SensorData.t) (h : string) :
  MerkleTreeUtils.leaf r = Ok h -> validTimestamp (SensorData.timestamp r).
Proof.
  unfold MerkleTreeUtils.leaf, ethers.solidityPackedKeccak256.
  cbn [ethers.solidityPacked].
  destruct (ethers._pack ethers.T_uint256 _) as [bs|] eqn:Hpack.
  - intros _. unfold ethers._pack in Hpack. unfold validTimestamp.
    destruct (Z.leb_spec 0 (SensorData.timestamp r));
      destruct (Z.leb_spec (SensorData.timestamp r) ethers.MAX_SAFE_INTEGER);
      cbn [andb] in Hpack; try discriminate Hpack.
    split; assumption.
  - cbn [ethers._pack bind]. discriminate.
Qed.

(** C3. When [storeData] stores a record, the leaf that the off-chain code
    computes for a record with the same five field values is the hex form of
    the [dataHash] stored with it: [ethers] packs the fields into the bytes
    that [abi.encodePacked] produces, and both sides hash them with
    Keccak-256.  The leaf exists when the timestamp is one that a JavaScript
    number carries exactly, and is never anything else. *)
Theorem leaf_matches_dataHash
        (st st' : IoTData.Storage) (msg_sender : IoTData.address)
        (block_timestamp id : Z) (deviceId data dataType location : string) :
  IoTData.storeData st msg_sender block_timestamp deviceId data dataType location
    = Ok (st', id) ->
  let stored := IoTData.sensorRecords st' id in
  let record :=
    SensorData.mk (IoTData.deviceId stored) (IoTData.timestamp stored)
                  (IoTData.data stored) (IoTData.dataType stored)
                  (IoTData.location stored) in
  record = SensorData.mk deviceId block_timestamp data dataType location /\
  (forall h,
      MerkleTreeUtils.leaf record = Ok h \/ merkleTree.leaf record = Ok h ->
      h = ethers.hexlify (IoTData.dataHash stored)) /\
  (validTimestamp block_timestamp ->
   MerkleTreeUtils.generateLeaves [record]
     = Ok [ethers.hexlify (IoTData.dataHash stored)] /\
   merkleTree.leaf record = Ok (ethers.hexlify (IoTData.dataHash stored))) /\
  ethers.getBytes (ethers.hexlify (IoTData.dataHash stored))
    = Ok (IoTData.dataHash stored).
Proof.
  intros Hstore. unfold IoTData.storeData in Hstore.
  destruct (negb _); [discriminate|].
  destruct (IoTData.recordCounter st =? IoTData.MAX_UINT256); [discriminate|].
  injection Hstore as <- <-.
  cbn [IoTData.sensorRecords]. rewrite Z.eqb_refl.
  cbn [IoTData.deviceId IoTData.timestamp IoTData.data IoTData.dataType
       IoTData.location IoTData.dataHash].
  split; [reflexivity|].
  set (record := SensorData.mk deviceId block_timestamp data dataType location).
  assert (Hleaf : validTimestamp block_timestamp ->
                  MerkleTreeUtils.leaf record =
                  Ok (ethers.hexlify
                        (Keccak.keccak256
                           (IoTData.encodePacked deviceId block_timestamp data
                                                 dataType location))))
    by (intros Hts; apply (leaf_packed record Hts)).
  split; [|split].
  - intros h Hh.
    change (merkleTree.leaf record) with (MerkleTreeUtils.leaf record) in Hh.
    assert (Hh' : MerkleTreeUtils.leaf record = Ok h) by tauto.
    rewrite (Hleaf (leaf_validTimestamp record h Hh')) in Hh'. congruence.
  - intros Hts. split.
    + unfold MerkleTreeUtils.generateLeaves. cbn [mapM]. rewrite (Hleaf Hts). reflexivity.
    + exact (Hleaf Hts).
  - apply getBytes_hexlify.
Qed.

Lemma leaf_matches_dataHash_witness :
  IoTData.storeData freshStorage 1 1700000000
    "device-001" (valueJson "20") "temperature" "field-north" = Ok (storedOnce, 0) /\
  validTimestamp 1700000000 /\
  let stored := IoTData.sensorRecords storedOnce 0 in
  let record :=
    SensorData.mk (IoTData.deviceId stored) (IoTData.timestamp stored)
                  (IoTData.data stored) (IoTData.dataType stored)
                  (IoTData.location stored) in
  record = SensorData.mk "device-001" 1700000000 (valueJson "20")
                         "temperature" "field-north" /\
  MerkleTreeUtils.generateLeaves [record]
    = Ok [ethers.hexlify (IoTData.dataHash stored)] /\
  merkleTree.leaf record = Ok (ethers.hexlify (IoTData.dataHash stored)).
Proof.
  assert (Hstore :
    IoTData.storeData freshStorage 1 1700000000
      "device-001" (valueJson "20") "temperature" "field-north" = Ok (storedOnce, 0))
    by (vm_compute; reflexivity).
  assert (Hts : validTimestamp 1700000000) by (split; vm_compute; discriminate).
  split; [exact Hstore|]. split; [exact Hts|].
  destruct (leaf_matches_dataHash _ _ _ _ _ _ _ _ _ Hstore)
    as (Hrecord & _ & Hleaf & _).
  split; [exact Hrecord | exact (Hleaf Hts)].
Defined.

(** ** Sorting *)

Lemma sort_insert_perm (A : Type) (gt : A -> A -> bool) (x : A) (l : list A) :
  Permutation (x :: l) (sort_insert gt x l).
Proof.
  induction l as [|y t IH]; cbn [sort_insert]; [reflexivity|].
  destruct (gt x y); [|reflexivity].
  rewrite perm_swap. apply perm_skip. exact IH.
Qed.

Lemma Array_sortWith_perm (A : Type) (gt : A -> A -> bool) (xs : list A) :
  Permutation xs (Array_sortWith gt xs).
Proof.
  unfold Array_sortWith.
  induction xs as [|x t IH]; cbn [fold_right]; [reflexivity|].
  rewrite <- sort_insert_perm. apply perm_skip. exact IH.
Qed.

Lemma Array_sortWith_length (A : Type) (gt : A -> A -> bool) (xs : list A) :
  List.length (Array_sortWith gt xs) = List.length xs.
Proof. symmetry. apply Permutation_length, Array_sortWith_perm. Qed.

Lemma Array_sortWith_Forall (A : Type) (gt : A -> A -> bool) (P : A -> Prop)
      (xs : list A) :
  Forall P xs -> Forall P (Array_sortWith gt xs).
Proof.
  intros H. eapply Permutation_Forall; [apply Array_sortWith_perm | exact H].
Qed.

(** ** Maps *)

Lemma lookup_Map_set_same (V : Type) (m : JsMap V) (k : string) (v : V) :
  lookup k (Map_set m k v) = Some v.
Proof.
  induction m as [|[k' v'] t IH]; cbn [Map_set lookup].
  - rewrite String.eqb_refl. reflexivity.
  - destruct (String.eqb_spec k' k) as [-> | Hne]; cbn [lookup].
    + rewrite String.eqb_refl. reflexivity.
    + destruct (String.eqb_spec k' k); [contradiction | exact IH].
Qed.

Lemma lookup_Map_set_other (V : Type) (m : JsMap V) (k k' : string) (v : V) :
  k <> k' -> lookup k' (Map_set m k v) = lookup k' m.
Proof.
  intros Hne. induction m as [|[k0 v0] t IH]; cbn [Map_set lookup].
  - destruct (String.eqb_spec k k'); [contradiction | reflexivity].
  - destruct (String.eqb_spec k0 k) as [-> | Hk0]; cbn [lookup].
    + destruct (String.eqb_spec k k'); [contradiction | reflexivity].
    + destruct (String.eqb_spec k0 k'); [reflexivity | exact IH].
Qed.

Lemma Map_set_keys (V : Type) (m : JsMap V) (k : string) (v : V) :
  map fst (Map_set m k v) =
  if Map_has m k then map fst m else map fst m ++ [k].
Proof.
  unfold Map_has. induction m as [|[k0 v0] t IH]; cbn [Map_set lookup map fst app].
  - reflexivity.
  - destruct (String.eqb_spec k0 k) as [-> | Hk0]; cbn [map fst]; [reflexivity|].
    rewrite IH. destruct (lookup k t); reflexivity.
Qed.

Lemma lookup_None_keys (V : Type) (m : JsMap V) (k : string) :
  lookup k m = None <-> ~ In k (map fst m).
Proof.
  induction m as [|[k0 v0] t IH]; cbn [lookup map fst In].
  - tauto.
  - destruct (String.eqb_spec k0 k) as [-> | Hk0].
    + split; [discriminate | intros H; exfalso; apply H; left; reflexivity].
    + rewrite IH. tauto.
Qed.

Lemma Map_set_NoDup (V : Type) (m : JsMap V) (k : string) (v : V) :
  NoDup (map fst m) -> NoDup (map fst (Map_set m k v)).
Proof.
  intros Hnd. rewrite Map_set_keys. unfold Map_has.
  destruct (lookup k m) eqn:Hl; [exact Hnd|].
  apply lookup_None_keys in Hl.
  apply NoDup_app; [exact Hnd | repeat constructor; intros [] | ].
  intros x Hx [<- | []]. contradiction.
Qed.

Lemma In_lookup (V : Type) (m : JsMap V) (k : string) (v : V) :
  NoDup (map fst m) -> In (k, v) m -> lookup k m = Some v.
Proof.
  induction m as [|[k0 v0] t IH]; cbn [map fst lookup In]; [tauto|].
  intros Hnd [Heq | Hin].
  - injection Heq as -> ->. rewrite String.eqb_refl. reflexivity.
  - inversion Hnd as [|? ? Hnotin Hnd']; subst.
    destruct (String.eqb_spec k0 k) as [-> | _]; [|auto].
    exfalso. apply Hnotin. apply (in_map fst) in Hin. exact Hin.
Qed.

Lemma lookup_In (V : Type) (m : JsMap V) (k : string) (v : V) :
  lookup k m = Some v -> In (k, v) m.
Proof.
  induction m as [|[k0 v0] t IH]; cbn [lookup In]; [discriminate|].
  destruct (String.eqb_spec k0 k) as [-> | _].
  - intros [= ->]. left. reflexivity.
  - intros H. right. auto.
Qed.

(** ** Grouping *)

Lemma lookup_groupStep (m : JsMap (list SensorReading.t)) (r : SensorReading.t)
      (k : string) :
  lookup k (dataAggregation.groupStep m r) =
  if (dataAggregation.groupKey r =? k)%string
  then Some (match lookup k m with Some g => g | None => [] end ++ [r])
  else lookup k m.
Proof.
  unfold dataAggregation.groupStep, Map_has.
  set (key := dataAggregation.groupKey r).
  destruct (lookup key m) as [g|] eqn:Hl; cbn [negb].
  - rewrite Hl.
    destruct (String.eqb_spec key k) as [<- | Hne].
    + rewrite lookup_Map_set_same, Hl. reflexivity.
    + apply lookup_Map_set_other. exact Hne.
  - rewrite lookup_Map_set_same.
    destruct (String.eqb_spec key k) as [<- | Hne].
    + rewrite lookup_Map_set_same, Hl. reflexivity.
    + rewrite !lookup_Map_set_other by exact Hne. reflexivity.
Qed.

Lemma lookup_fold_groupStep (rs : list SensorReading.t) :
  forall (m : JsMap (list SensorReading.t)) (k : string),
    lookup k (fold_left dataAggregation.groupStep rs m) =
    match readingsOfKey k rs with
    | [] => lookup k m
    | f => Some (match lookup k m with Some g => g | None => [] end ++ f)
    end.
Proof.
  unfold readingsOfKey.
  induction rs as [|r t IH]; intros m k; cbn [fold_left filter]; [reflexivity|].
  rewrite IH, lookup_groupStep.
  destruct (String.eqb_spec (dataAggregation.groupKey r) k) as [Hk | Hk].
  - destruct (filter _ t); [reflexivity|].
    rewrite <- app_assoc. reflexivity.
  - reflexivity.
Qed.

(** The groups are the classes of the readings under their key, each in the
    order of the input. *)
Lemma lookup_groupReadings (rs : list SensorReading.t) (k : string) :
  lookup k (dataAggregation.groupReadings rs) =
  match readingsOfKey k rs with
  | [] => None
  | f => Some f
  end.
Proof.
  unfold dataAggregation.groupReadings. rewrite lookup_fold_groupStep.
  destruct (readingsOfKey k rs); reflexivity.
Qed.

Lemma groupStep_NoDup (m : JsMap (list SensorReading.t)) (r : SensorReading.t) :
  NoDup (map fst m) -> NoDup (map fst (dataAggregation.groupStep m r)).
Proof.
  intros Hnd. unfold dataAggregation.groupStep.
  set (m1 := if negb _ then _ else _).
  assert (Hnd1 : NoDup (map fst m1)).
  { subst m1. destruct (negb _); [apply Map_set_NoDup|]; exact Hnd. }
  destruct (lookup _ m1); [apply Map_set_NoDup|]; exact Hnd1.
Qed.

Lemma groupReadings_NoDup (rs : list SensorReading.t) :
  NoDup (map fst (dataAggregation.groupReadings rs)).
Proof.
  unfold dataAggregation.groupReadings.
  assert (H : forall m, NoDup (map fst m) ->
                        NoDup (map fst (fold_left dataAggregation.groupStep rs m))).
  { induction rs as [|r t IH]; intros m Hm; cbn [fold_left]; [exact Hm|].
    apply IH, groupStep_NoDup, Hm. }
  apply H. constructor.
Qed.

Lemma groupReadings_entry (rs : list SensorReading.t) (k : string)
      (group : list SensorReading.t) :
  In (k, group) (dataAggregation.groupReadings rs) <->
  group <> [] /\ group = readingsOfKey k rs.
Proof.
  split.
  - intros Hin. apply In_lookup in Hin; [|apply groupReadings_NoDup].
    rewrite lookup_groupReadings in Hin.
    destruct (readingsOfKey k rs); [discriminate|].
    injection Hin as <-. split; [discriminate | reflexivity].
  - intros [Hne ->]. apply lookup_In. rewrite lookup_groupReadings.
    destruct (readingsOfKey k rs); [contradiction | reflexivity].
Qed.

(** ** The order of the numbers *)

Module FloatOrderFacts.
Import SpecFloat FloatOps FloatAxioms FloatOrder.


Lemma SFcompare_rank (x y : spec_float) :
  x <> S754_nan -> y <> S754_nan ->
  SFcompare x y = Some (lexCompare (rank x) (rank y)).
Proof.
  intros Hx Hy.
  destruct x as [sx|sx| |sx mx ex]; destruct y as [sy|sy| |sy my ey];
    try congruence;
    try (destruct sx; destruct sy; reflexivity);
    try (destruct sx; reflexivity); try (destruct sy; reflexivity).
  destruct sx, sy; cbn [SFcompare rank lexCompare]; try reflexivity.
  change (-1 ?= -1) with Eq. cbv iota.
  rewrite Z.compare_opp, (Z.compare_antisym ex ey).
  destruct (ex ?= ey) eqn:He; reflexivity.
Qed.

(** [lexCompare] is the comparison of a total order. *)
Lemma lexCompare_refl (p : Z * Z * Z) : lexCompare p p = Eq.
Proof.
  destruct p as [[a b] c]. cbn. rewrite !Z.compare_refl. reflexivity.
Qed.

Lemma lexCompare_antisym (p q : Z * Z * Z) :
  lexCompare q p = CompOpp (lexCompare p q).
Proof.
  destruct p as [[a1 b1] c1], q as [[a2 b2] c2]. cbn.
  rewrite (Z.compare_antisym a2 a1), (Z.compare_antisym b2 b1),
    (Z.compare_antisym c2 c1).
  destruct (a2 ?= a1), (b2 ?= b1), (c2 ?= c1); reflexivity.
Qed.

Lemma lexCompare_Eq (p q : Z * Z * Z) : lexCompare p q = Eq <-> p = q.
Proof.
  destruct p as [[a1 b1] c1], q as [[a2 b2] c2]. cbn.
  destruct (Z.compare_spec a1 a2); [|split; [discriminate | intros [= ? ? ?]; lia]..].
  destruct (Z.compare_spec b1 b2); [|split; [discriminate | intros [= ? ? ?]; lia]..].
  destruct (Z.compare_spec c1 c2); [|split; [discriminate | intros [= ? ? ?]; lia]..].
  subst. split; reflexivity.
Qed.

Lemma lexCompare_Lt_trans (p q r : Z * Z * Z) :
  lexCompare p q = Lt -> lexCompare q r = Lt -> lexCompare p r = Lt.
Proof.
  destruct p as [[a1 b1] c1], q as [[a2 b2] c2], r as [[a3 b3] c3]. cbn.
  destruct (Z.compare_spec a1 a2); try discriminate;
    destruct (Z.compare_spec a2 a3); try discriminate;
    destruct (Z.compare_spec a1 a3); try lia; try reflexivity;
    destruct (Z.compare_spec b1 b2); try discriminate;
    destruct (Z.compare_spec b2 b3); try discriminate;
    destruct (Z.compare_spec b1 b3); try lia; try reflexivity;
    destruct (Z.compare_spec c1 c2); try discriminate;
    destruct (Z.compare_spec c2 c3); try discriminate;
    destruct (Z.compare_spec c1 c3); try lia; try reflexivity.
Qed.

(** *** Mantissas and exponents *)

Lemma digits2_pos_bounds (m : positive) :
  2 ^ (Zpos (digits2_pos m) - 1) <= Zpos m < 2 ^ Zpos (digits2_pos m).
Proof.
  induction m as [m IH|m IH|]; cbn [digits2_pos].
  - rewrite Pos2Z.inj_succ, (Pos2Z.inj_xI m).
    replace (Z.succ (Zpos (digits2_pos m)) - 1)
      with (Z.succ (Zpos (digits2_pos m) - 1)) by lia.
    rewrite !Z.pow_succ_r by lia. lia.
  - rewrite Pos2Z.inj_succ, (Pos2Z.inj_xO m).
    replace (Z.succ (Zpos (digits2_pos m)) - 1)
      with (Z.succ (Zpos (digits2_pos m) - 1)) by lia.
    rewrite !Z.pow_succ_r by lia. lia.
  - cbn. lia.
Qed.

Lemma iter_xO_value (m d : positive) :
  Zpos (Pos.iter xO m d) = Zpos m * 2 ^ Zpos d.
Proof.
  induction d as [|d IH] using Pos.peano_ind.
  - cbn [Pos.iter]. rewrite Pos2Z.inj_xO. change (2 ^ 1) with 2. lia.
  - rewrite Pos.iter_succ, Pos2Z.inj_xO, IH, Pos2Z.inj_succ, Z.pow_succ_r by lia. lia.
Qed.

Lemma shl_align_value (m : positive) (e e' : Z) :
  e' <= e ->
  Zpos (fst (shl_align m e e')) = Zpos m * 2 ^ (e - e') /\ snd (shl_align m e e') = e'.
Proof.
  intros Hle. unfold shl_align.
  destruct (e' - e) as [|d|d] eqn:Hd.
  - assert (e = e') by lia. subst. rewrite Z.sub_diag. cbn [fst snd]. lia.
  - lia.
  - cbn [fst snd]. rewrite iter_xO_value.
    replace (e - e') with (Zpos d) by lia. split; reflexivity.
Qed.

Lemma bounded_facts (m : positive) (e : Z) :
  bounded prec emax m e = true ->
  -1074 <= e <= 971 /\ Zpos (digits2_pos m) <= 53 /\
  (-1074 < e -> Zpos (digits2_pos m) = 53).
Proof.
  unfold bounded, canonical_mantissa, fexp, SpecFloat.emin, emax, prec.
  intros H. apply andb_prop in H. destruct H as [Hc He].
  apply Z.eqb_eq in Hc. apply Z.leb_le in He. lia.
Qed.

(** A canonical mantissa at a smaller exponent is the smaller number. *)
Lemma smaller_exponent (m1 m2 : positive) (e1 e2 : Z) :
  bounded prec emax m1 e1 = true -> bounded prec emax m2 e2 = true ->
  e1 < e2 ->
  Zpos m1 < Zpos m2 * 2 ^ (e2 - e1).
Proof.
  intros H1 H2 Hlt.
  destruct (bounded_facts _ _ H1) as (He1 & Hd1 & _).
  destruct (bounded_facts _ _ H2) as (He2 & _ & Hd2).
  pose proof (digits2_pos_bounds m1) as [_ Hm1].
  pose proof (digits2_pos_bounds m2) as [Hm2 _].
  rewrite Hd2 in Hm2 by lia.
  assert (Hp : Zpos m1 < 2 ^ 53).
  { eapply Z.lt_le_trans; [exact Hm1|]. apply Z.pow_le_mono_r; lia. }
  assert (Hq : 2 ^ 1 <= 2 ^ (e2 - e1)) by (apply Z.pow_le_mono_r; lia).
  change (2 ^ 1) with 2 in Hq.
  change (53 - 1) with 52 in Hm2.
  assert (H53 : 2 ^ 53 = 2 ^ 52 * 2) by reflexivity.
  nia.
Qed.

(** The sign of the exact difference of two finite numbers is their order. *)
Lemma difference_sign (sx sy : bool) (mx my : positive) (ex ey : Z) :
  bounded prec emax mx ex = true -> bounded prec emax my ey = true ->
  (cond_Zopp sx (Zpos (fst (shl_align mx ex (Z.min ex ey))))
   - cond_Zopp sy (Zpos (fst (shl_align my ey (Z.min ex ey)))) ?= 0)
  = lexCompare (rank (S754_finite sx mx ex)) (rank (S754_finite sy my ey)).
Proof.
  intros Hx Hy.
  destruct (shl_align_value mx ex (Z.min ex ey)) as [-> _]; [lia|].
  destruct (shl_align_value my ey (Z.min ex ey)) as [-> _]; [lia|].
  assert (Hpx : 0 < 2 ^ (ex - Z.min ex ey)) by (apply Z.pow_pos_nonneg; lia).
  assert (Hpy : 0 < 2 ^ (ey - Z.min ex ey)) by (apply Z.pow_pos_nonneg; lia).
  destruct sx, sy; cbn [cond_Zopp rank lexCompare].
  - change (-1 ?= -1) with Eq. cbv iota.
    rewrite Z.compare_opp.
    destruct (Z.compare_spec ey ex) as [He|He|He].
    + subst. rewrite Z.min_id, Z.sub_diag. change (2 ^ 0) with 1.
      rewrite !Z.mul_1_r. rewrite (Z.compare_sub (Zneg mx) (Zneg my)).
      reflexivity.
    + pose proof (smaller_exponent _ _ _ _ Hy Hx He) as Hs.
      rewrite Z.min_r, Z.sub_diag in * by lia. change (2 ^ 0) with 1.
      apply Z.compare_lt_iff. lia.
    + pose proof (smaller_exponent _ _ _ _ Hx Hy He) as Hs.
      rewrite Z.min_l, Z.sub_diag in * by lia. change (2 ^ 0) with 1.
      apply Z.compare_gt_iff. lia.
  - change (-1 ?= 1) with Lt. cbv iota. apply Z.compare_lt_iff. lia.
  - change (1 ?= -1) with Gt. cbv iota. apply Z.compare_gt_iff. lia.
  - change (1 ?= 1) with Eq. cbv iota.
    destruct (Z.compare_spec ex ey) as [He|He|He].
    + subst. rewrite Z.min_id, Z.sub_diag. change (2 ^ 0) with 1.
      rewrite !Z.mul_1_r. symmetry. apply Z.compare_sub.
    + pose proof (smaller_exponent _ _ _ _ Hx Hy He) as Hs.
      rewrite Z.min_l, Z.sub_diag in * by lia. change (2 ^ 0) with 1.
      apply Z.compare_lt_iff. lia.
    + pose proof (smaller_exponent _ _ _ _ Hy Hx He) as Hs.
      rewrite Z.min_r, Z.sub_diag in * by lia. change (2 ^ 0) with 1.
      apply Z.compare_gt_iff. lia.
Qed.

(** *** Rounding keeps the sign *)

Lemma shr_1_m (mrs : shr_record) :
  0 <= shr_m mrs -> shr_m (shr_1 mrs) = shr_m mrs / 2.
Proof.
  intros Hm. rewrite <- Z.div2_div.
  destruct mrs as [m r s]. cbn [shr_m] in *.
  destruct m as [|p|p]; [reflexivity| |lia].
  destruct p; reflexivity.
Qed.

Lemma iter_shr_1_m (p : positive) :
  forall mrs : shr_record,
    0 <= shr_m mrs ->
    shr_m (iter_pos shr_1 p mrs) = shr_m mrs / 2 ^ Zpos p.
Proof.
  induction p as [p IH|p IH|]; intros mrs Hm; cbn [iter_pos].
  - assert (H1 : 0 <= shr_m (shr_1 mrs))
      by (rewrite shr_1_m by exact Hm; apply Z.div_pos; lia).
    assert (Hp : 0 < 2 ^ Zpos p) by (apply Z.pow_pos_nonneg; lia).
    assert (H2 : 0 <= shr_m (iter_pos shr_1 p (shr_1 mrs)))
      by (rewrite IH by exact H1; apply Z.div_pos; lia).
    rewrite IH by exact H2. rewrite IH by exact H1. rewrite shr_1_m by exact Hm.
    rewrite !Z.div_div by lia. f_equal.
    rewrite (Pos2Z.inj_xI p), Z.pow_add_r, Z.pow_mul_r by lia.
    change (2 ^ 2) with 4. change (2 ^ 1) with 2.
    replace 4 with (2 * 2) by reflexivity.
    rewrite Z.pow_mul_l. lia.
  - assert (Hp : 0 < 2 ^ Zpos p) by (apply Z.pow_pos_nonneg; lia).
    assert (H2 : 0 <= shr_m (iter_pos shr_1 p mrs))
      by (rewrite IH by exact Hm; apply Z.div_pos; lia).
    rewrite IH by exact H2. rewrite IH by exact Hm.
    rewrite Z.div_div by lia. f_equal.
    rewrite (Pos2Z.inj_xO p), Z.pow_mul_r by lia.
    change (2 ^ 2) with (2 * 2). rewrite Z.pow_mul_l. reflexivity.
  - rewrite shr_1_m by exact Hm. reflexivity.
Qed.

Lemma shr_record_of_loc_m (m : Z) (l : location) : shr_m (shr_record_of_loc m l) = m.
Proof. destruct l as [|[]]; reflexivity. Qed.

(** A non-zero mantissa at an exponent that is not below the least one is
    not shifted away. *)
Lemma shr_fexp_pos (m e : Z) (l : location) :
  1 <= m -> -1074 <= e ->
  1 <= shr_m (fst (shr_fexp prec emax m e l)) /\
  -1074 <= snd (shr_fexp prec emax m e l).
Proof.
  intros Hm He. unfold shr_fexp, shr.
  destruct m as [|p|p]; try lia. cbn [Zdigits2].
  pose proof (digits2_pos_bounds p) as [Hlow _].
  unfold fexp, SpecFloat.emin, emax, prec.
  destruct (Z.max (Zpos (digits2_pos p) + e - 53) (3 - 1024 - 53) - e)
    as [|n|n] eqn:Hn; cbn [fst snd].
  - rewrite shr_record_of_loc_m. lia.
  - rewrite iter_shr_1_m by (rewrite shr_record_of_loc_m; lia).
    rewrite shr_record_of_loc_m. split; [|lia].
    assert (Hle : 2 ^ Zpos n <= 2 ^ (Zpos (digits2_pos p) - 1))
      by (apply Z.pow_le_mono_r; lia).
    apply Z.div_le_lower_bound; [apply Z.pow_pos_nonneg; lia | lia].
  - rewrite shr_record_of_loc_m. lia.
Qed.

Lemma round_nearest_even_le (m : Z) (l : location) : m <= round_nearest_even m l.
Proof.
  destruct l as [|[]]; cbn [round_nearest_even]; try lia.
  destruct (Z.even m); lia.
Qed.

Lemma binary_round_aux_signed (s : bool) (m e : Z) (l : location) :
  1 <= m -> -1074 <= e -> signed s (binary_round_aux prec emax s m e l).
Proof.
  intros Hm He. unfold binary_round_aux.
  pose proof (shr_fexp_pos m e l Hm He) as [H1 H2].
  destruct (shr_fexp prec emax m e l) as [mrs' e']. cbn [fst snd] in H1, H2.
  pose proof (round_nearest_even_le (shr_m mrs') (loc_of_shr_record mrs')) as Hr.
  pose proof (shr_fexp_pos (round_nearest_even (shr_m mrs') (loc_of_shr_record mrs'))
                e' loc_Exact ltac:(lia) H2) as [H3 _].
  destruct (shr_fexp prec emax _ e' loc_Exact) as [mrs'' e'']. cbn [fst] in H3.
  destruct (shr_m mrs'') as [|q|q]; try lia.
  destruct (e'' <=? emax - prec); reflexivity.
Qed.

Lemma binary_round_signed (s : bool) (m : positive) (e : Z) :
  -1074 <= e -> signed s (binary_round prec emax s m e).
Proof.
  intros He. unfold binary_round.
  destruct (shl_align m e (fexp prec emax (Zpos (digits2_pos m) + e)))
    as [mz ez] eqn:Hs.
  apply binary_round_aux_signed; [lia|].
  unfold shl_align in Hs.
  destruct (fexp prec emax (Zpos (digits2_pos m) + e) - e) eqn:Hd;
    injection Hs as <- <-; try lia.
  unfold fexp, SpecFloat.emin, emax, prec. lia.
Qed.

(** *** The sign of a difference *)

Lemma SFsub_compare (x y : spec_float) :
  valid_binary x = true -> valid_binary y = true ->
  x <> S754_nan -> y <> S754_nan ->
  match SFsub prec emax x y with
  | S754_nan => lexCompare (rank x) (rank y) = Eq
  | d => SFcompare d (S754_zero false) = Some (lexCompare (rank x) (rank y))
  end.
Proof.
  intros Hvx Hvy Hx Hy.
  destruct x as [sx|sx| |sx mx ex]; destruct y as [sy|sy| |sy my ey];
    try congruence;
    try (destruct sx; destruct sy; reflexivity).
  cbn [valid_binary] in Hvx, Hvy.
  unfold SFsub.
  rewrite <- (difference_sign sx sy mx my ex ey Hvx Hvy).
  destruct (bounded_facts _ _ Hvx) as (Hex & _).
  destruct (bounded_facts _ _ Hvy) as (Hey & _).
  set (d := cond_Zopp sx _ - cond_Zopp sy _).
  destruct d as [|p|p]; cbn [binary_normalize].
  - reflexivity.
  - pose proof (binary_round_signed false p (Z.min ex ey) ltac:(lia)) as Hs.
    destruct (binary_round prec emax false p (Z.min ex ey)) as [?|s'| |s' ? ?];
      cbn [signed] in Hs; try contradiction; subst s'; reflexivity.
  - pose proof (binary_round_signed true p (Z.min ex ey) ltac:(lia)) as Hs.
    destruct (binary_round prec emax true p (Z.min ex ey)) as [?|s'| |s' ? ?];
      cbn [signed] in Hs; try contradiction; subst s'; reflexivity.
Qed.

(** *** Primitive floats *)

Lemma is_nan_Prim2SF (a : float) : is_nan a = false -> Prim2SF a <> S754_nan.
Proof.
  unfold is_nan. rewrite eqb_spec. intros H Hn. rewrite Hn in H. discriminate H.
Qed.

Lemma ltb_place (a b : float) :
  is_nan a = false -> is_nan b = false ->
  (a <? b)%float = match lexCompare (place a) (place b) with Lt => true | _ => false end.
Proof.
  intros Ha Hb. rewrite ltb_spec. unfold SFltb, place.
  rewrite (SFcompare_rank _ _ (is_nan_Prim2SF a Ha) (is_nan_Prim2SF b Hb)).
  reflexivity.
Qed.

Lemma leb_place (a b : float) :
  is_nan a = false -> is_nan b = false ->
  (a <=? b)%float = match lexCompare (place a) (place b) with Gt => false | _ => true end.
Proof.
  intros Ha Hb. rewrite leb_spec. unfold SFleb, place.
  rewrite (SFcompare_rank _ _ (is_nan_Prim2SF a Ha) (is_nan_Prim2SF b Hb)).
  destruct (lexCompare _ _); reflexivity.
Qed.

(** The sign of [a - b] is the order of [a] and [b], for numbers: the
    difference of two distinct numbers is never rounded to zero, and the
    difference of two equal infinities, which is [NaN], is neither positive
    nor negative. *)
Lemma sub_sign (a b : float) :
  is_nan a = false -> is_nan b = false ->
  (0 <? a - b)%float
  = match lexCompare (place a) (place b) with Gt => true | _ => false end /\
  (a - b <? 0)%float
  = match lexCompare (place a) (place b) with Lt => true | _ => false end.
Proof.
  intros Ha Hb. rewrite !ltb_spec, sub_spec.
  change (Prim2SF 0) with (S754_zero false).
  pose proof (SFsub_compare (Prim2SF a) (Prim2SF b) (Prim2SF_valid a) (Prim2SF_valid b)
                (is_nan_Prim2SF a Ha) (is_nan_Prim2SF b Hb)) as H.
  unfold SF64sub, place.
  destruct (SFsub prec emax (Prim2SF a) (Prim2SF b)) as [s|s| |s m e] eqn:Hd.
  - unfold SFltb. rewrite H.
    rewrite (SFcompare_rank (S754_zero false) (S754_zero s)) by discriminate.
    rewrite (SFcompare_rank (S754_zero s) (S754_zero false)) in H by discriminate.
    injection H as <-. split; reflexivity.
  - unfold SFltb. rewrite H.
    rewrite (SFcompare_rank (S754_zero false) (S754_infinity s)) by discriminate.
    rewrite (SFcompare_rank (S754_infinity s) (S754_zero false)) in H by discriminate.
    injection H as <-. rewrite lexCompare_antisym.
    destruct (lexCompare _ _); split; reflexivity.
  - rewrite H. split; reflexivity.
  - unfold SFltb. rewrite H.
    rewrite (SFcompare_rank (S754_zero false) (S754_finite s m e)) by discriminate.
    rewrite (SFcompare_rank (S754_finite s m e) (S754_zero false)) in H by discriminate.
    injection H as <-. rewrite lexCompare_antisym.
    destruct (lexCompare _ _); split; reflexivity.
Qed.

End FloatOrderFacts.

(** ** Statistics *)

Lemma sort_insert_sorted (A : Type) (gt : A -> A -> bool) (dom : list A) (x : A)
      (l : list A) :
  consistentOn gt dom -> In x dom -> incl l dom ->
  StronglySorted (fun a b => gt a b = false) l ->
  StronglySorted (fun a b => gt a b = false) (sort_insert gt x l).
Proof.
  intros [Hasym Htrans] Hx Hl Hs.
  induction Hs as [|y t Hst IH Hy]; cbn [sort_insert].
  - repeat constructor.
  - assert (Hyd : In y dom) by (apply Hl; left; reflexivity).
    assert (Htd : incl t dom) by (intros z Hz; apply Hl; right; exact Hz).
    destruct (gt x y) eqn:Hxy.
    + constructor; [apply IH; exact Htd|].
      apply (Permutation_Forall (sort_insert_perm _ gt x t)).
      constructor; [apply Hasym; assumption | exact Hy].
    + constructor; [constructor; assumption|].
      constructor; [exact Hxy|].
      rewrite Forall_forall in Hy |- *. intros z Hz.
      apply (Htrans x y z); auto.
Qed.

Lemma Array_sortWith_sorted (A : Type) (gt : A -> A -> bool) (xs : list A) :
  consistentOn gt xs ->
  StronglySorted (fun a b => gt a b = false) (Array_sortWith gt xs).
Proof.
  intros Hc. unfold Array_sortWith.
  assert (H : forall l, incl l xs ->
            StronglySorted (fun a b => gt a b = false) (fold_right (sort_insert gt) [] l)).
  { induction l as [|x t IH]; intros Hl; cbn [fold_right]; [constructor|].
    apply (sort_insert_sorted _ gt xs); auto.
    - apply Hl. left. reflexivity.
    - intros z Hz. apply Hl. right.
      apply (Permutation_in _ (Permutation_sym (Array_sortWith_perm _ gt t))). exact Hz.
    - apply IH. intros z Hz. apply Hl. right. exact Hz. }
  apply H, incl_refl.
Qed.

Lemma consistentOn_refl (A : Type) (gt : A -> A -> bool) (xs : list A) (a : A) :
  consistentOn gt xs -> In a xs -> gt a a = false.
Proof.
  intros [Hasym _] Ha. destruct (gt a a) eqn:H; [|reflexivity].
  rewrite (Hasym a a Ha Ha H) in H. discriminate.
Qed.

Lemma sorted_first (A : Type) (R : A -> A -> Prop) (x : A) (t : list A) (v : A) :
  R x x -> StronglySorted R (x :: t) -> In v (x :: t) -> R x v.
Proof.
  intros Hrefl Hs [<- | Hv]; [exact Hrefl|].
  apply StronglySorted_inv in Hs. destruct Hs as [_ Hall].
  rewrite Forall_forall in Hall. auto.
Qed.

Lemma sorted_last (A : Type) (R : A -> A -> Prop) (l : list A) (d v : A) :
  (forall a, In a l -> R a a) -> StronglySorted R l -> In v l -> R v (last l d).
Proof.
  intros Hrefl Hs. revert v.
  induction Hs as [|x t Hst IH Hx]; intros v Hv; [destruct Hv|].
  destruct t as [|y t'].
  - destruct Hv as [<- | []]. cbn [last]. apply Hrefl. left. reflexivity.
  - change (last (x :: y :: t') d) with (last (y :: t') d).
    assert (Hlast : In (last (y :: t') d) (y :: t')).
    { clear. revert y. induction t' as [|z t'' IHt]; intros y; [left; reflexivity|].
      right. apply IHt. }
    destruct Hv as [<- | Hv].
    + rewrite Forall_forall in Hx. apply Hx, Hlast.
    + apply IH; [|exact Hv]. intros a Ha. apply Hrefl. right. exact Ha.
Qed.

Lemma numberAt_first (x : float) (t : list float) :
  dataAggregation.numberAt (x :: t) 0 = x.
Proof. reflexivity. Qed.

Lemma numberAt_last (xs : list float) :
  xs <> [] -> dataAggregation.numberAt xs (len xs - 1) = last xs nan.
Proof.
  intros Hne. unfold dataAggregation.numberAt, item, len.
  destruct (Z.ltb_spec (Z.of_nat (List.length xs) - 1) 0) as [Hlt | _].
  { destruct xs; [contradiction | cbn [List.length] in Hlt; lia]. }
  replace (Z.to_nat (Z.of_nat (List.length xs) - 1)) with (List.length xs - 1)%nat by lia.
  clear Hne. induction xs as [|x [|y t] IH]; [reflexivity | reflexivity |].
  change (last (x :: y :: t) nan) with (last (y :: t) nan). rewrite <- IH.
  cbn [List.length]. replace (S (S (List.length t)) - 1)%nat with (S (List.length t)) by lia.
  cbn [nth_error]. replace (S (List.length t) - 1)%nat with (List.length t) by lia.
  reflexivity.
Qed.

Lemma last_In (A : Type) (x : A) (t : list A) (d : A) : In (last (x :: t) d) (x :: t).
Proof.
  revert x. induction t as [|y t IH]; intros x; [left; reflexivity|].
  right. apply IH.
Qed.

(** *** Consistent comparators *)

Lemma consistentComparator_spec (A : Type) (compare : A -> A -> comparison)
      (xs : list A) :
  consistentComparator compare xs = true ->
  forall a b c, In a xs -> In b xs -> In c xs ->
    compare a a = Eq /\
    (compare a b = Eq -> compare b a = Eq) /\
    (compare a b = Eq -> compare b c = Eq -> compare a c = Eq) /\
    (compare a b = Lt -> compare b c = Lt -> compare a c = Lt) /\
    (compare a b = Gt -> compare b c = Gt -> compare a c = Gt).
Proof.
  unfold consistentComparator. intros H a b c Ha Hb Hc.
  rewrite forallb_forall in H. specialize (H a Ha).
  apply andb_prop in H. destruct H as [Hrefl H].
  rewrite forallb_forall in H. specialize (H b Hb).
  apply andb_prop in H. destruct H as [Hsym H].
  rewrite forallb_forall in H. specialize (H c Hc).
  apply andb_prop in H. destruct H as [H Hgt].
  apply andb_prop in H. destruct H as [Heq Hlt].
  destruct (compare a a); try discriminate Hrefl.
  split; [reflexivity|].
  destruct (compare a b), (compare b a), (compare b c), (compare a c);
    cbn in Hsym, Heq, Hlt, Hgt; try discriminate;
    repeat split; intros; congruence.
Qed.

Lemma consistentComparator_intro (A : Type) (compare : A -> A -> comparison)
      (xs : list A) :
  (forall a b c, In a xs -> In b xs -> In c xs ->
     compare a a = Eq /\
     (compare a b = Eq -> compare b a = Eq) /\
     (compare a b = Eq -> compare b c = Eq -> compare a c = Eq) /\
     (compare a b = Lt -> compare b c = Lt -> compare a c = Lt) /\
     (compare a b = Gt -> compare b c = Gt -> compare a c = Gt)) ->
  consistentComparator compare xs = true.
Proof.
  intros H. unfold consistentComparator.
  apply forallb_forall. intros a Ha.
  apply andb_true_intro. split.
  { destruct (H a a a Ha Ha Ha) as [-> _]. reflexivity. }
  apply forallb_forall. intros b Hb.
  apply andb_true_intro. split.
  { destruct (H a b b Ha Hb Hb) as (_ & Hsym & _).
    destruct (compare a b); [rewrite Hsym by reflexivity|..]; reflexivity. }
  apply forallb_forall. intros c Hc.
  destruct (H a b c Ha Hb Hc) as (_ & _ & Heq & Hlt & Hgt).
  destruct (compare a b), (compare b c);
    try rewrite Heq by reflexivity; try rewrite Hlt by reflexivity;
    try rewrite Hgt by reflexivity; cbn;
    destruct (compare a c); reflexivity.
Qed.

(** A consistent comparator orders the elements: what the stable sort needs
    of [follows]. *)
Lemma consistentComparator_consistentOn (A : Type) (compare : A -> A -> comparison)
      (xs : list A) :
  consistentComparator compare xs = true -> consistentOn (follows compare) xs.
Proof.
  intros H. pose proof (consistentComparator_spec _ _ _ H) as Hs.
  assert (Hlt : forall a c, In a xs -> In c xs -> compare a c = Gt -> compare c a = Lt).
  { intros a c Ha Hc Hac.
    destruct (Hs a c a Ha Hc Ha) as (Hrefl & _ & _ & _ & Hgt).
    destruct (Hs c a c Hc Ha Hc) as (_ & Hsym & _).
    destruct (compare c a) eqn:Hca; [|reflexivity|].
    - rewrite (Hsym eq_refl) in Hac. discriminate.
    - rewrite (Hgt Hac eq_refl) in Hrefl. discriminate. }
  unfold follows. split.
  - intros a b Ha Hb Hab.
    destruct (compare a b) eqn:Hc; try discriminate.
    rewrite (Hlt a b Ha Hb Hc). reflexivity.
  - intros a b c Ha Hb Hc Hab Hbc.
    destruct (compare a c) eqn:Hac; try reflexivity. exfalso.
    pose proof (Hlt a c Ha Hc Hac) as Hca.
    destruct (compare a b) eqn:Eab; try discriminate;
      destruct (compare b c) eqn:Ebc; try discriminate.
    + destruct (Hs a b c Ha Hb Hc) as (_ & _ & Heq & _).
      rewrite (Heq Eab Ebc) in Hac. discriminate.
    + destruct (Hs b c a Hb Hc Ha) as (_ & _ & _ & Htrans & _).
      destruct (Hs a b a Ha Hb Ha) as (_ & Hsym & _).
      pose proof (Htrans Ebc Hca) as Hba. rewrite (Hsym Eab) in Hba. discriminate.
    + destruct (Hs c a b Hc Ha Hb) as (_ & _ & _ & Htrans & _).
      destruct (Hs b c b Hb Hc Hb) as (_ & Hsym & _).
      pose proof (Htrans Hca Eab) as Hcb. rewrite (Hsym Ebc) in Hcb. discriminate.
    + destruct (Hs a b c Ha Hb Hc) as (_ & _ & _ & Htrans & _).
      rewrite (Htrans Eab Ebc) in Hac. discriminate.
Qed.

Lemma StronglySorted_impl (A : Type) (R R' : A -> A -> Prop) (l : list A) :
  (forall a b, In a l -> In b l -> R a b -> R' a b) ->
  StronglySorted R l -> StronglySorted R' l.
Proof.
  intros Himpl Hs. induction Hs as [|x t Hst IH Hx]; [constructor|].
  constructor.
  - apply IH. intros a b Ha Hb. apply Himpl; right; assumption.
  - rewrite Forall_forall in Hx |- *. intros y Hy.
    apply Himpl; [left; reflexivity | right; exact Hy | apply Hx, Hy].
Qed.

(** *** Sorting numbers *)

(** On numbers, [(a, b) => a - b] compares as the order of the floats. *)
Lemma number_compare_place (a b : float) :
  is_nan a = false -> is_nan b = false ->
  dataAggregation.number_compare a b
  = FloatOrder.lexCompare (FloatOrder.place a) (FloatOrder.place b).
Proof.
  intros Ha Hb. unfold dataAggregation.number_compare. cbv zeta.
  destruct (FloatOrderFacts.sub_sign a b Ha Hb) as [-> ->].
  destruct (FloatOrder.lexCompare _ _); reflexivity.
Qed.

(** So it is consistent on any numbers, whatever their order and however
    often a number occurs. *)
Lemma number_compare_consistent (values : list float) :
  Forall (fun v => is_nan v = false) values ->
  consistentComparator dataAggregation.number_compare values = true.
Proof.
  intros Hnum. rewrite Forall_forall in Hnum.
  apply consistentComparator_intro. intros a b c Ha Hb Hc.
  pose proof (Hnum a Ha) as Na. pose proof (Hnum b Hb) as Nb.
  pose proof (Hnum c Hc) as Nc.
  rewrite (number_compare_place a a Na Na), (number_compare_place a b Na Nb),
    (number_compare_place b a Nb Na), (number_compare_place b c Nb Nc),
    (number_compare_place a c Na Nc).
  split; [apply FloatOrderFacts.lexCompare_refl|]. split; [|split; [|split]].
  - intros H. apply FloatOrderFacts.lexCompare_Eq in H. rewrite H.
    apply FloatOrderFacts.lexCompare_refl.
  - intros H1 H2. apply FloatOrderFacts.lexCompare_Eq in H1, H2.
    rewrite H1, H2. apply FloatOrderFacts.lexCompare_refl.
  - apply FloatOrderFacts.lexCompare_Lt_trans.
  - intros H1 H2.
    rewrite (FloatOrderFacts.lexCompare_antisym (FloatOrder.place c)
               (FloatOrder.place a)).
    rewrite (FloatOrderFacts.lexCompare_Lt_trans (FloatOrder.place c)
               (FloatOrder.place b) (FloatOrder.place a)); [reflexivity| |].
    + rewrite FloatOrderFacts.lexCompare_antisym, H2. reflexivity.
    + rewrite FloatOrderFacts.lexCompare_antisym, H1. reflexivity.
Qed.

Lemma follows_number_compare (a b : float) :
  is_nan a = false -> is_nan b = false ->
  follows dataAggregation.number_compare a b = negb (a <=? b)%float.
Proof.
  intros Ha Hb. unfold follows.
  rewrite (number_compare_place a b Ha Hb), (FloatOrderFacts.leb_place a b Ha Hb).
  destruct (FloatOrder.lexCompare _ _); reflexivity.
Qed.

(** Numbers are sorted into ascending order. *)
Lemma numbers_ascending (values : list float) :
  Forall (fun v => is_nan v = false) values ->
  StronglySorted (fun a b => (a <=? b)%float = true)
                 (Array_sortWith (follows dataAggregation.number_compare) values).
Proof.
  intros Hnum.
  pose proof (Array_sortWith_perm _ (follows dataAggregation.number_compare) values)
    as Hperm.
  apply (StronglySorted_impl _
           (fun a b => follows dataAggregation.number_compare a b = false)).
  - pose proof (Permutation_Forall Hperm Hnum) as Hsorted.
    rewrite Forall_forall in Hsorted.
    intros a b Ha Hb Hab.
    rewrite (follows_number_compare a b (Hsorted a Ha) (Hsorted b Hb)) in Hab.
    destruct (a <=? b)%float; [reflexivity | discriminate].
  - apply Array_sortWith_sorted, consistentComparator_consistentOn,
      number_compare_consistent, Hnum.
Qed.

(** *** The statistics of numbers *)

Lemma numberAt_nth (xs : list float) (k : nat) :
  dataAggregation.numberAt xs (Z.of_nat k) = nth k xs nan.
Proof.
  unfold dataAggregation.numberAt, item.
  destruct (Z.ltb_spec (Z.of_nat k) 0) as [Hlt | _]; [lia|].
  rewrite Nat2Z.id. revert k. induction xs as [|x t IH]; intros [|k]; try reflexivity.
  cbn [nth_error nth]. apply IH.
Qed.

Lemma rem_2_even (n : nat) : (Z.rem (Z.of_nat n) 2 =? 0) = Nat.even n.
Proof.
  rewrite Z.rem_mod_nonneg by lia.
  induction n as [n IH] using (well_founded_induction lt_wf).
  destruct n as [|[|n]]; [reflexivity | reflexivity |].
  cbn [Nat.even]. rewrite <- (IH n) by lia.
  replace (Z.of_nat (S (S n))) with (Z.of_nat n + 1 * 2) by lia.
  rewrite Z.mod_add by lia. reflexivity.
Qed.

(** What [calculateStatistics] returns for numbers, in terms of their
    ascending order. *)
Lemma calculateStatistics_numbers (engineOrder : list float -> list float)
      (values : list float) :
  values <> [] ->
  Forall (fun v => is_nan v = false) values ->
  let ascending := Array_sortWith (follows dataAggregation.number_compare) values in
  let n := List.length values in
  let count := number_of_Z (Z.of_nat n) in
  let average := (fold_left PrimFloat.add ascending 0 / count)%float in
  dataAggregation.calculateStatistics engineOrder values =
  dataAggregation.Statistics.mk
    (hd nan ascending)
    (last ascending nan)
    average
    (if Nat.even n
     then ((nth (n / 2 - 1) ascending nan + nth (n / 2) ascending nan) / 2)%float
     else nth (n / 2) ascending nan)
    (PrimFloat.sqrt
       (fold_left PrimFloat.add
          (map (fun value => ((value - average) * (value - average))%float) ascending)
          0 / count)%float).
Proof.
  intros Hne Hnum. cbv zeta.
  unfold dataAggregation.calculateStatistics, Array_sortBy.
  destruct (Z.eqb_spec (len values) 0) as [H0 | _].
  { destruct values; [contradiction | unfold len in H0; cbn [List.length] in H0; lia]. }
  rewrite (number_compare_consistent values Hnum).
  set (ascending := Array_sortWith (follows dataAggregation.number_compare) values).
  assert (Hlen : List.length ascending = List.length values)
    by apply Array_sortWith_length.
  assert (Hane : ascending <> []).
  { intros H. rewrite H in Hlen. destruct values; [contradiction | discriminate]. }
  rewrite (numberAt_last ascending Hane).
  unfold len. rewrite Hlen.
  set (n := List.length values).
  assert (Hpos : (0 < n)%nat)
    by (unfold n; destruct values; [contradiction | cbn; lia]).
  rewrite rem_2_even.
  replace (Z.of_nat n / 2) with (Z.of_nat (n / 2))
    by (rewrite Nat2Z.inj_div; reflexivity).
  replace (Z.of_nat (n / 2) - 1) with
    (if Nat.even n then Z.of_nat (n / 2 - 1) else Z.of_nat (n / 2) - 1).
  2:{ destruct (Nat.even n) eqn:He; [|reflexivity].
      assert (1 <= n / 2)%nat; [|lia].
      apply Nat.div_le_lower_bound; [lia|].
      destruct n as [|[|n']]; [lia | discriminate He | lia]. }
  unfold dataAggregation.sum.
  destruct ascending as [|x t] eqn:Ha; [contradiction|].
  change (dataAggregation.numberAt (x :: t) 0) with x. cbn [hd].
  destruct (Nat.even n); rewrite ?numberAt_nth; reflexivity.
Qed.

(** ** Aggregating a group *)

Lemma merkleTree_generateMerkleTree_ok (records : list SensorData.t) :
  records <> [] ->
  Forall (fun r => validTimestamp (SensorData.timestamp r)) records ->
  exists tree, merkleTree.generateMerkleTree records = Ok tree.
Proof.
  intros Hne Hts. unfold merkleTree.generateMerkleTree.
  destruct (Z.eqb_spec (len records) 0) as [H0 | _].
  { destruct records; [contradiction | unfold len in H0; cbn [List.length] in H0; lia]. }
  change (mapM merkleTree.leaf records) with (MerkleTreeUtils.generateLeaves records).
  destruct (generateLeaves_ok records Hts) as [leaves Hleaves].
  destruct (generateLeaves_isBytes32 records leaves Hleaves) as [Hall Hl].
  assert (Hlne : leaves <> []).
  { intros ->. destruct records; [contradiction | discriminate Hl]. }
  destruct (buildLayers_Layered leaves Hlne Hall) as (above & Hb & _).
  rewrite Hleaves. cbn [bind]. rewrite (buildLayers_agree leaves Hlne Hall), Hb.
  cbn [bind]. eauto.
Qed.

Lemma item_first (A : Type) (x : A) (xs : list A) : item (x :: xs) 0 = Some x.
Proof. reflexivity. Qed.

Lemma item_last (A : Type) (xs : list A) :
  xs <> [] -> exists x, item xs (len xs - 1) = Some x.
Proof.
  intros Hne. unfold item, len.
  destruct xs as [|x0 t]; [contradiction|].
  destruct (Z.ltb_spec (Z.of_nat (List.length (x0 :: t)) - 1) 0) as [Hlt | _].
  { cbn [List.length] in Hlt. lia. }
  destruct (nth_error (x0 :: t) (Z.to_nat (Z.of_nat (List.length (x0 :: t)) - 1)))
    as [x|] eqn:Hn; [eauto|].
  apply nth_error_None in Hn. cbn [List.length] in Hn. lia.
Qed.

Section AggregationFacts.

Variable JSON_parse : string -> Result JsValue.
Variable JSON_stringify : JsValue -> string.
Variable engineOrder : list float -> list float.
Variable AnomalyReport : Type.
Variable History : Type.
Variable detectBatchAnomalies :
  History -> list SensorReading.t -> list AnomalyReport * History.

Lemma numericValuesOf_none (group : list SensorReading.t) :
  Forall (fun r => dataAggregation.extractNumericValue JSON_parse r = None) group ->
  dataAggregation.numericValuesOf JSON_parse group = [].
Proof.
  induction 1 as [|r t Hr _ IH]; cbn [dataAggregation.numericValuesOf]; [reflexivity|].
  rewrite Hr. exact IH.
Qed.

(** What an aggregate holds, in terms of the group sorted by timestamp. *)
Lemma aggregateGroup_fields (history history' : History) (key : string)
      (group : list SensorReading.t) (agg : LocalDataAggregate.t) :
  dataAggregation.aggregateGroup JSON_parse JSON_stringify engineOrder detectBatchAnomalies
    history key group = Ok (agg, history') ->
  let sorted := Array_sortWith dataAggregation.timestamp_gt group in
  let stats :=
    dataAggregation.calculateStatistics engineOrder
      (dataAggregation.numericValuesOf JSON_parse sorted) in
  LocalDataAggregate.deviceId agg = item (split_dash key) 0 /\
  LocalDataAggregate.dataType agg = item (split_dash key) 1 /\
  LocalDataAggregate.recordCount agg = len group /\
  LocalDataAggregate.min agg = dataAggregation.Statistics.min stats /\
  LocalDataAggregate.max agg = dataAggregation.Statistics.max stats /\
  LocalDataAggregate.average agg = dataAggregation.Statistics.average stats /\
  LocalDataAggregate.medianValue agg = dataAggregation.Statistics.median stats /\
  LocalDataAggregate.standardDeviation agg =
    dataAggregation.Statistics.standardDeviation stats.
Proof.
  unfold dataAggregation.aggregateGroup.
  destruct (dataAggregation.timestampAt _ 0); cbn [bind]; [|discriminate].
  destruct (dataAggregation.timestampAt _ _); cbn [bind]; [|discriminate].
  destruct (detectBatchAnomalies _ _) as [anomalies h1].
  destruct (merkleTree.generateMerkleTree _); cbn [bind]; [|discriminate].
  intros [= <- <-]. cbn.
  repeat split. unfold len. rewrite Array_sortWith_length. reflexivity.
Qed.

Lemma aggregateGroup_ok (history : History) (key : string)
      (group : list SensorReading.t) :
  group <> [] ->
  Forall (fun r => validTimestamp (SensorReading.timestamp r)) group ->
  exists agg history',
    dataAggregation.aggregateGroup JSON_parse JSON_stringify engineOrder
      detectBatchAnomalies
      history key group = Ok (agg, history').
Proof.
  intros Hne Hts. unfold dataAggregation.aggregateGroup.
  set (sorted := Array_sortWith dataAggregation.timestamp_gt group).
  assert (Hsne : sorted <> []).
  { intros Hs. apply (f_equal (@List.length _)) in Hs.
    subst sorted. rewrite Array_sortWith_length in Hs.
    destruct group; [contradiction | discriminate Hs]. }
  assert (Hsts : Forall (fun r => validTimestamp (SensorReading.timestamp r)) sorted)
    by (apply Array_sortWith_Forall, Hts).
  unfold dataAggregation.timestampAt.
  destruct (item_last _ sorted Hsne) as [xl Hxl]. rewrite Hxl.
  destruct sorted as [|x0 t] eqn:Hs; [contradiction|].
  rewrite item_first. cbn [bind].
  destruct (detectBatchAnomalies history (x0 :: t)) as [anomalies h1].
  destruct (merkleTree_generateMerkleTree_ok
              (map (dataAggregation.formatSensorData JSON_stringify) (x0 :: t)))
    as [tree Htree].
  - discriminate.
  - apply Forall_map. exact Hsts.
  - rewrite Htree. cbn [bind]. eauto.
Qed.

(** ** The loop over the groups *)

Lemma aggregateLoop_lookup (entries : list (string * list SensorReading.t)) :
  forall (history history' : History) (aggs0 aggs : JsMap LocalDataAggregate.t),
    dataAggregation.aggregateLoop JSON_parse JSON_stringify engineOrder detectBatchAnomalies
      history entries aggs0 = Ok (aggs, history') ->
    forall key,
      (~ In key (map fst entries) -> lookup key aggs = lookup key aggs0) /\
      (forall group,
          NoDup (map fst entries) -> In (key, group) entries ->
          exists h0 h1 agg,
            dataAggregation.aggregateGroup JSON_parse JSON_stringify engineOrder
              detectBatchAnomalies h0 key group = Ok (agg, h1) /\
            lookup key aggs = Some agg).
Proof.
  induction entries as [|[k g] rest IH]; intros history history' aggs0 aggs;
    cbn [dataAggregation.aggregateLoop].
  - intros [= <- <-] key. split; [reflexivity | intros group _ []].
  - destruct (dataAggregation.aggregateGroup _ _ _ _ history k g) as [[a h1]|] eqn:Hg;
      cbn [bind fst snd]; [|discriminate].
    intros Hloop key. destruct (IH _ _ _ _ Hloop key) as [IHout IHin].
    cbn [map fst In]. split.
    + intros Hnot. rewrite IHout by tauto.
      apply lookup_Map_set_other. tauto.
    + intros group Hnd [Heq | Hin].
      * injection Heq as -> ->. inversion Hnd as [|? ? Hnotin _]; subst.
        exists history, h1, a. split; [exact Hg|].
        rewrite IHout by exact Hnotin. apply lookup_Map_set_same.
      * inversion Hnd; subst. apply IHin; assumption.
Qed.

Lemma aggregateLoop_ok (entries : list (string * list SensorReading.t)) :
  (forall k g, In (k, g) entries ->
     g <> [] /\ Forall (fun r => validTimestamp (SensorReading.timestamp r)) g) ->
  forall (history : History) (aggs0 : JsMap LocalDataAggregate.t),
  exists aggs history',
    dataAggregation.aggregateLoop JSON_parse JSON_stringify engineOrder detectBatchAnomalies
      history entries aggs0 = Ok (aggs, history').
Proof.
  induction entries as [|[k g] rest IH]; intros Hall history aggs0;
    cbn [dataAggregation.aggregateLoop].
  - eauto.
  - destruct (Hall k g (or_introl eq_refl)) as [Hne Hts].
    destruct (aggregateGroup_ok history k g Hne Hts) as (a & h1 & Hg).
    rewrite Hg. cbn [bind fst snd].
    apply (IH (fun k' g' Hin => Hall k' g' (or_intror Hin))).
Qed.

Lemma readingsOfKey_Forall (P : SensorReading.t -> Prop) (key : string)
      (readings : list SensorReading.t) :
  Forall P readings -> Forall P (readingsOfKey key readings).
Proof.
  unfold readingsOfKey. rewrite !Forall_forall. intros H r Hr.
  apply filter_In in Hr. apply H, Hr.
Qed.

Lemma aggregateSensorData_ok (history : History) (readings : list SensorReading.t) :
  Forall (fun r => validTimestamp (SensorReading.timestamp r)) readings ->
  exists aggs history',
    dataAggregation.aggregateSensorData JSON_parse JSON_stringify engineOrder
      detectBatchAnomalies history readings = Ok (aggs, history').
Proof.
  intros Hts. unfold dataAggregation.aggregateSensorData.
  apply aggregateLoop_ok. intros k g Hin.
  apply groupReadings_entry in Hin. destruct Hin as [Hne ->].
  split; [exact Hne | apply readingsOfKey_Forall, Hts].
Qed.

(** The aggregate of a key is the aggregate of the readings with that key. *)
Lemma aggregateSensorData_lookup (history history' : History)
      (readings : list SensorReading.t) (aggs : JsMap LocalDataAggregate.t)
      (key : string) :
  dataAggregation.aggregateSensorData JSON_parse JSON_stringify engineOrder
    detectBatchAnomalies history readings = Ok (aggs, history') ->
  match readingsOfKey key readings with
  | [] => lookup key aggs = None
  | group =>
      exists h0 h1 agg,
        dataAggregation.aggregateGroup JSON_parse JSON_stringify engineOrder
          detectBatchAnomalies h0 key group = Ok (agg, h1) /\
        lookup key aggs = Some agg
  end.
Proof.
  unfold dataAggregation.aggregateSensorData. intros Hloop.
  destruct (aggregateLoop_lookup _ _ _ _ _ Hloop key) as [Hout Hin].
  destruct (readingsOfKey key readings) as [|r0 t] eqn:Hgroup.
  - rewrite Hout; [reflexivity|].
    apply lookup_None_keys. rewrite lookup_groupReadings, Hgroup. reflexivity.
  - apply Hin; [apply groupReadings_NoDup|].
    apply groupReadings_entry. rewrite Hgroup. split; [discriminate | reflexivity].
Qed.

(** C8. A group none of whose readings yields a numeric sample is aggregated
    like any other: whenever the aggregator returns, the aggregate of the
    group reports 0 for min, max, average, median and standard deviation, and
    a record count equal to the number of readings of the group; and the
    aggregator returns when the timestamps can be packed. *)
Theorem zero_sample_group (history : History) (readings : list SensorReading.t)
        (key : string) :
  readingsOfKey key readings <> [] ->
  Forall (fun r => dataAggregation.extractNumericValue JSON_parse r = None)
         (readingsOfKey key readings) ->
  (forall aggs history',
      dataAggregation.aggregateSensorData JSON_parse JSON_stringify engineOrder
        detectBatchAnomalies history readings = Ok (aggs, history') ->
      exists agg,
        lookup key aggs = Some agg /\
        LocalDataAggregate.min agg = 0%float /\
        LocalDataAggregate.max agg = 0%float /\
        LocalDataAggregate.average agg = 0%float /\
        LocalDataAggregate.medianValue agg = 0%float /\
        LocalDataAggregate.standardDeviation agg = 0%float /\
        LocalDataAggregate.recordCount agg = len (readingsOfKey key readings)) /\
  (Forall (fun r => validTimestamp (SensorReading.timestamp r)) readings ->
   exists aggs history',
     dataAggregation.aggregateSensorData JSON_parse JSON_stringify engineOrder
       detectBatchAnomalies history readings = Ok (aggs, history')).
Proof.
  intros Hne Hnone. split; [|apply aggregateSensorData_ok].
  intros aggs history' Hagg.
  pose proof (aggregateSensorData_lookup _ _ _ _ key Hagg) as Hkey.
  destruct (readingsOfKey key readings) as [|r0 t] eqn:Hgroup; [contradiction|].
  destruct Hkey as (h0 & h1 & agg & Hg & Hl).
  exists agg. split; [exact Hl|].
  destruct (aggregateGroup_fields _ _ _ _ _ Hg)
    as (_ & _ & Hcount & Hmin & Hmax & Havg & Hmed & Hsd).
  rewrite numericValuesOf_none in Hmin, Hmax, Havg, Hmed, Hsd
    by (apply Array_sortWith_Forall; exact Hnone).
  repeat split; assumption.
Qed.

(** A batch whose readings all have one key. *)
Lemma aggregate_single_group (history : History) (readings : list SensorReading.t)
      (key : string) (group : list SensorReading.t) :
  dataAggregation.groupReadings readings = [(key, group)] ->
  group <> [] ->
  Forall (fun r => validTimestamp (SensorReading.timestamp r)) group ->
  exists agg history',
    dataAggregation.aggregateGroup JSON_parse JSON_stringify engineOrder
      detectBatchAnomalies
      history key group = Ok (agg, history') /\
    dataAggregation.aggregateSensorData JSON_parse JSON_stringify engineOrder
      detectBatchAnomalies history readings = Ok ([(key, agg)], history').
Proof.
  intros Hgroups Hne Hts.
  destruct (aggregateGroup_ok history key group Hne Hts) as (agg & history' & Hg).
  exists agg, history'. split; [exact Hg|].
  unfold dataAggregation.aggregateSensorData. rewrite Hgroups.
  cbn [dataAggregation.aggregateLoop]. rewrite Hg. reflexivity.
Qed.

(** C7, at the repository's own identifiers.  The key joins the two fields
    with a dash and the aggregate takes its fields from the first two
    dash-separated parts of the key: the aggregate of [device-001] /
    [temperature] carries the device [device] and the data type [001], and
    the readings of [device-001] / [soil-moisture] and of [device-001-soil] /
    [moisture] fall into one group. *)
Theorem grouping_key_is_ambiguous (history : History) :
  (exists agg history',
      dataAggregation.aggregateSensorData JSON_parse JSON_stringify engineOrder
        detectBatchAnomalies history scenarioA
      = Ok ([("device-001-temperature", agg)], history') /\
      LocalDataAggregate.deviceId agg = Some "device" /\
      LocalDataAggregate.dataType agg = Some "001") /\
  (exists agg history',
      dataAggregation.aggregateSensorData JSON_parse JSON_stringify engineOrder
        detectBatchAnomalies history collidingReadings
      = Ok ([("device-001-soil-moisture", agg)], history') /\
      LocalDataAggregate.recordCount agg = 2 /\
      LocalDataAggregate.deviceId agg = Some "device" /\
      LocalDataAggregate.dataType agg = Some "001").
Proof.
  split.
  - destruct (aggregate_single_group history scenarioA "device-001-temperature"
                scenarioA) as (agg & history' & Hg & Hagg).
    + reflexivity.
    + discriminate.
    + repeat constructor; vm_compute; discriminate.
    + exists agg, history'. split; [exact Hagg|].
      destruct (aggregateGroup_fields _ _ _ _ _ Hg) as (Hd & Ht & _).
      split; assumption.
  - destruct (aggregate_single_group history collidingReadings
                "device-001-soil-moisture" collidingReadings)
      as (agg & history' & Hg & Hagg).
    + reflexivity.
    + discriminate.
    + repeat constructor; vm_compute; discriminate.
    + exists agg, history'. split; [exact Hagg|].
      destruct (aggregateGroup_fields _ _ _ _ _ Hg) as (Hd & Ht & Hc & _).
      repeat split; assumption.
Qed.

Lemma numericValuesOf_perm (l l' : list SensorReading.t) :
  Permutation l l' ->
  Permutation (dataAggregation.numericValuesOf JSON_parse l)
              (dataAggregation.numericValuesOf JSON_parse l').
Proof.
  induction 1 as [|x l l' _ IH|x y l|l l' l'' _ IH1 _ IH2];
    cbn [dataAggregation.numericValuesOf].
  - reflexivity.
  - destruct (dataAggregation.extractNumericValue JSON_parse x);
      [apply perm_skip|]; exact IH.
  - destruct (dataAggregation.extractNumericValue JSON_parse x),
      (dataAggregation.extractNumericValue JSON_parse y);
      try reflexivity. apply perm_swap.
  - etransitivity; eassumption.
Qed.

Local Set Warnings "-inexact-float".

(** C9, for samples that are numbers.  For every group whose samples are not
    empty and hold no [NaN], there is an ascending order of the samples of
    which the aggregate reports the first as [min] and the last as [max],
    both samples, with every sample between them; the sum in that order
    divided by the number of samples as [average]; the central value, or the
    mean of the two central values when the number of samples is even, as
    [medianValue]; and the square root of the mean squared distance to the
    average, with divisor [n], as [standardDeviation].  In scenario A the
    aggregate reports a record count of 3, a minimum of 19, a maximum of 22,
    an average of 20.33 and a median of 20. *)
Theorem statistics_of_samples (history : History) :
  (forall (h h' : History) (readings : list SensorReading.t)
          (aggs : JsMap LocalDataAggregate.t) (key : string)
          (agg : LocalDataAggregate.t),
      dataAggregation.aggregateSensorData JSON_parse JSON_stringify engineOrder
        detectBatchAnomalies h readings = Ok (aggs, h') ->
      lookup key aggs = Some agg ->
      let samples :=
        dataAggregation.numericValuesOf JSON_parse (readingsOfKey key readings) in
      samples <> [] ->
      Forall (fun v => is_nan v = false) samples ->
      exists ascending : list float,
        Permutation samples ascending /\
        StronglySorted (fun a b => (a <=? b)%float = true) ascending /\
        let n := List.length samples in
        let count := number_of_Z (Z.of_nat n) in
        LocalDataAggregate.min agg = hd nan ascending /\
        LocalDataAggregate.max agg = last ascending nan /\
        In (LocalDataAggregate.min agg) samples /\
        In (LocalDataAggregate.max agg) samples /\
        (forall v, In v samples ->
           (LocalDataAggregate.min agg <=? v)%float = true /\
           (v <=? LocalDataAggregate.max agg)%float = true) /\
        LocalDataAggregate.average agg
        = (fold_left PrimFloat.add ascending 0 / count)%float /\
        LocalDataAggregate.medianValue agg
        = (if Nat.even n
           then ((nth (n / 2 - 1) ascending nan + nth (n / 2) ascending nan) / 2)%float
           else nth (n / 2) ascending nan) /\
        LocalDataAggregate.standardDeviation agg
        = PrimFloat.sqrt
            (fold_left PrimFloat.add
               (map (fun v => ((v - LocalDataAggregate.average agg)
                               * (v - LocalDataAggregate.average agg))%float)
                    ascending)
               0 / count)%float) /\
  (exists agg history',
      dataAggregation.aggregateSensorData JSON_parse JSON_stringify engineOrder
        detectBatchAnomalies history scenarioA
      = Ok ([("device-001-temperature", agg)], history') /\
      LocalDataAggregate.recordCount agg = 3 /\
      LocalDataAggregate.min agg = 19%float /\
      LocalDataAggregate.max agg = 22%float /\
      LocalDataAggregate.average agg = 0x1.4555555555555p+4%float /\
      (20.32 <? LocalDataAggregate.average agg)%float = true /\
      (LocalDataAggregate.average agg <? 20.34)%float = true /\
      LocalDataAggregate.medianValue agg = 20%float).
Proof.
  split.
  - intros h h' readings aggs key agg Hagg Hlookup samples Hne Hnum.
    pose proof (aggregateSensorData_lookup _ _ _ _ key Hagg) as Hkey.
    destruct (readingsOfKey key readings) as [|r0 t] eqn:Hgroup.
    { rewrite Hkey in Hlookup. discriminate Hlookup. }
    destruct Hkey as (h0 & h1 & agg0 & Hg & Hl).
    rewrite Hl in Hlookup. injection Hlookup as ->.
    destruct (aggregateGroup_fields _ _ _ _ _ Hg)
      as (_ & _ & _ & Hmin & Hmax & Havg & Hmed & Hstd).
    cbv zeta in Hmin, Hmax, Havg, Hmed, Hstd.
    set (values := dataAggregation.numericValuesOf JSON_parse
                     (Array_sortWith dataAggregation.timestamp_gt (r0 :: t))) in *.
    assert (Hperm : Permutation samples values)
      by (apply numericValuesOf_perm, Array_sortWith_perm).
    assert (Hvne : values <> []).
    { intros Hnil. rewrite Hnil in Hperm.
      apply Permutation_sym, Permutation_nil in Hperm. contradiction. }
    assert (Hvnum : Forall (fun v => is_nan v = false) values)
      by (apply (Permutation_Forall Hperm), Hnum).
    pose proof (calculateStatistics_numbers engineOrder values Hvne Hvnum) as Hstats.
    cbv zeta in Hstats. rewrite Hstats in Hmin, Hmax, Havg, Hmed, Hstd.
    cbn [dataAggregation.Statistics.min dataAggregation.Statistics.max
         dataAggregation.Statistics.average dataAggregation.Statistics.median
         dataAggregation.Statistics.standardDeviation] in Hmin, Hmax, Havg, Hmed, Hstd.
    rewrite <- Havg in Hstd.
    rewrite <- (Permutation_length Hperm) in Havg, Hmed, Hstd.
    pose proof (Array_sortWith_perm _ (follows dataAggregation.number_compare) values)
      as Hasc.
    pose proof (numbers_ascending values Hvnum) as Hsorted.
    set (ascending := Array_sortWith (follows dataAggregation.number_compare) values) in *.
    assert (Hall : Permutation samples ascending) by (etransitivity; eassumption).
    assert (Hanum : Forall (fun v => is_nan v = false) ascending)
      by (apply (Permutation_Forall Hall), Hnum).
    assert (Hrefl : forall a, In a ascending -> (a <=? a)%float = true).
    { rewrite Forall_forall in Hanum. intros a Ha.
      rewrite (FloatOrderFacts.leb_place a a (Hanum a Ha) (Hanum a Ha)),
        FloatOrderFacts.lexCompare_refl. reflexivity. }
    exists ascending. split; [exact Hall|]. split; [exact Hsorted|]. cbv zeta.
    destruct ascending as [|x rest] eqn:Ha.
    { apply Permutation_sym, Permutation_nil in Hall. contradiction. }
    split; [exact Hmin|]. split; [exact Hmax|].
    split; [rewrite Hmin; apply (Permutation_in _ (Permutation_sym Hall));
            left; reflexivity|].
    split; [rewrite Hmax; apply (Permutation_in _ (Permutation_sym Hall)), last_In|].
    split; [|split; [exact Havg|split; [exact Hmed | exact Hstd]]].
    intros v Hv. apply (Permutation_in _ Hall) in Hv. rewrite Hmin, Hmax. split.
    + apply (sorted_first _ (fun a b => (a <=? b)%float = true) x rest v);
        [apply Hrefl; left; reflexivity | exact Hsorted | exact Hv].
    + apply (sorted_last _ (fun a b => (a <=? b)%float = true));
        [exact Hrefl | exact Hsorted | exact Hv].
  - destruct (aggregate_single_group history scenarioA "device-001-temperature"
                scenarioA) as (agg & history' & Hg & Hagg).
    + reflexivity.
    + discriminate.
    + repeat constructor; vm_compute; discriminate.
    + exists agg, history'. split; [exact Hagg|].
      destruct (aggregateGroup_fields _ _ _ _ _ Hg)
        as (_ & _ & Hc & Hmin & Hmax & Havg & Hmed & _).
      rewrite Hc, Hmin, Hmax, Havg, Hmed.
      repeat split; vm_compute; reflexivity.
Qed.

End AggregationFacts.

Lemma zero_sample_group_witness :
  let key := "gateway-status" in
  readingsOfKey key statusReadings <> [] /\
  Forall (fun r => dataAggregation.extractNumericValue noParse r = None)
         (readingsOfKey key statusReadings) /\
  Forall (fun r => validTimestamp (SensorReading.timestamp r)) statusReadings /\
  exists aggs history' agg,
    dataAggregation.aggregateSensorData noParse emptyObjectText keepOrder noAnomalies
      tt statusReadings = Ok (aggs, history') /\
    lookup key aggs = Some agg /\
    LocalDataAggregate.min agg = 0%float /\
    LocalDataAggregate.max agg = 0%float /\
    LocalDataAggregate.average agg = 0%float /\
    LocalDataAggregate.medianValue agg = 0%float /\
    LocalDataAggregate.standardDeviation agg = 0%float /\
    LocalDataAggregate.recordCount agg = len (readingsOfKey key statusReadings).
Proof.
  intros key.
  assert (Hne : readingsOfKey key statusReadings <> []) by discriminate.
  assert (Hnone : Forall (fun r => dataAggregation.extractNumericValue noParse r = None)
                         (readingsOfKey key statusReadings))
    by (repeat constructor).
  assert (Hts : Forall (fun r => validTimestamp (SensorReading.timestamp r))
                       statusReadings)
    by (repeat constructor; vm_compute; discriminate).
  split; [exact Hne|]. split; [exact Hnone|]. split; [exact Hts|].
  destruct (zero_sample_group noParse emptyObjectText keepOrder unit unit noAnomalies tt
              statusReadings key Hne Hnone) as [Hzero Hreturns].
  destruct (Hreturns Hts) as (aggs & history' & Hagg).
  destruct (Hzero aggs history' Hagg) as (agg & Hagg').
  exists aggs, history', agg. split; [exact Hagg | exact Hagg'].
Defined.

Lemma statistics_of_samples_witness :
  let key := "device-001-temperature" in
  let samples := dataAggregation.numericValuesOf noParse (readingsOfKey key scenarioA) in
  samples = [20; 22; 19]%float /\
  Forall (fun v => is_nan v = false) samples /\
  exists aggs history' agg ascending,
    dataAggregation.aggregateSensorData noParse emptyObjectText keepOrder noAnomalies
      tt scenarioA = Ok (aggs, history') /\
    lookup key aggs = Some agg /\
    Permutation samples ascending /\
    StronglySorted (fun a b => (a <=? b)%float = true) ascending /\
    LocalDataAggregate.min agg = hd nan ascending /\
    LocalDataAggregate.max agg = last ascending nan /\
    (forall v, In v samples ->
       (LocalDataAggregate.min agg <=? v)%float = true /\
       (v <=? LocalDataAggregate.max agg)%float = true).
Proof.
  intros key samples.
  assert (Hsamples : samples = [20; 22; 19]%float) by reflexivity.
  assert (Hne : samples <> []) by discriminate.
  assert (Hnum : Forall (fun v => is_nan v = false) samples)
    by (repeat constructor).
  split; [exact Hsamples|]. split; [exact Hnum|].
  assert (Hagg : exists aggs history' agg,
    dataAggregation.aggregateSensorData noParse emptyObjectText keepOrder noAnomalies
      tt scenarioA = Ok (aggs, history') /\
    lookup key aggs = Some agg).
  { eexists. eexists. eexists. split; vm_compute; reflexivity. }
  destruct Hagg as (aggs & history' & agg & Hagg & Hlookup).
  pose proof (statistics_of_samples noParse emptyObjectText keepOrder unit unit
                noAnomalies tt) as H.
  destruct H as [H _].
  destruct (H tt history' scenarioA aggs key agg Hagg Hlookup Hne Hnum)
    as (ascending & Hperm & Hsorted & Hmin & Hmax & _ & _ & Hbounds & _).
  exists aggs, history', agg, ascending.
  split; [exact Hagg|]. split; [exact Hlookup|]. split; [exact Hperm|].
  split; [exact Hsorted|]. split; [exact Hmin|]. split; [exact Hmax | exact Hbounds].
Defined.

(** C9 does not hold of a group with a sample that is [NaN], which the
    extraction takes for a number.  The comparator finds the two samples [1]
    and [NaN] equal, so the stable sort leaves them as they arrive: the
    aggregate of the readings [1], [NaN] reports the maximum [NaN], which the
    sample [1] does not precede, and the aggregate of the same samples in
    the other order reports the minimum [NaN] and the maximum [1]. *)
Lemma statistics_with_a_NaN_sample :
  consistentComparator dataAggregation.number_compare [1; nan]%float = true /\
  consistentComparator dataAggregation.number_compare [nan; 1]%float = true /\
  exists agg history' agg' history'',
    dataAggregation.aggregateSensorData noParse emptyObjectText keepOrder noAnomalies
      tt nanLast = Ok ([("device-001-temperature", agg)], history') /\
    dataAggregation.aggregateSensorData noParse emptyObjectText keepOrder noAnomalies
      tt nanFirst = Ok ([("device-001-temperature", agg')], history'') /\
    dataAggregation.numericValuesOf noParse nanLast = [1; nan]%float /\
    dataAggregation.numericValuesOf noParse nanFirst = [nan; 1]%float /\
    LocalDataAggregate.min agg = 1%float /\
    LocalDataAggregate.max agg = nan /\
    (1 <=? LocalDataAggregate.max agg)%float = false /\
    LocalDataAggregate.min agg' = nan /\
    LocalDataAggregate.max agg' = 1%float /\
    (LocalDataAggregate.min agg' <=? 1)%float = false.
Proof.
  split; [vm_compute; reflexivity|]. split; [vm_compute; reflexivity|].
  eexists. eexists. eexists. eexists.
  split; [vm_compute; reflexivity|].
  split; [vm_compute; reflexivity|].
  split; [vm_compute; reflexivity|].
  split; [vm_compute; reflexivity|].
  split; [vm_compute; reflexivity|].
  split; [vm_compute; reflexivity|].
  split; [vm_compute; reflexivity|].
  split; [vm_compute; reflexivity|].
  split; [vm_compute; reflexivity|].
  vm_compute; reflexivity.
Qed.

(** Where a [NaN] makes the comparator inconsistent, as among [3, 2, NaN, 1],
    the statistics are those of the order that the engine chooses. *)
Example statistics_in_the_order_of_the_engine (engineOrder : list float -> list float) :
  let values := [3; 2; nan; 1]%float in
  consistentComparator dataAggregation.number_compare values = false /\
  dataAggregation.Statistics.min (dataAggregation.calculateStatistics engineOrder values)
  = dataAggregation.numberAt (engineOrder values) 0 /\
  dataAggregation.Statistics.max (dataAggregation.calculateStatistics engineOrder values)
  = dataAggregation.numberAt (engineOrder values) (len (engineOrder values) - 1).
Proof.
  intros values.
  assert (H : consistentComparator dataAggregation.number_compare values = false)
    by (vm_compute; reflexivity).
  split; [exact H|].
  unfold dataAggregation.calculateStatistics, Array_sortBy. rewrite H.
  split; reflexivity.
Qed.

(** ** Trees: success, shape of the proofs *)

Lemma mapM_app (A B : Type) (f : A -> Result B) (xs ys : list A) :
  mapM f (xs ++ ys) = (l1 <- mapM f xs ;; l2 <- mapM f ys ;; Ok (l1 ++ l2)).
Proof.
  induction xs as [|x t IH]; cbn [mapM app bind].
  - destruct (mapM f ys); reflexivity.
  - destruct (f x); cbn [bind]; [|reflexivity].
    rewrite IH. destruct (mapM f t); cbn [bind]; [|reflexivity].
    destruct (mapM f ys); reflexivity.
Qed.

Lemma generateLeaves_valid (records : list SensorData.t) (leaves : list string) :
  MerkleTreeUtils.generateLeaves records = Ok leaves ->
  Forall (fun r => validTimestamp (SensorData.timestamp r)) records.
Proof.
  unfold MerkleTreeUtils.generateLeaves. revert leaves.
  induction records as [|r t IH]; intros leaves; cbn [mapM]; [constructor|].
  destruct (MerkleTreeUtils.leaf r) as [h|] eqn:Hh; cbn [bind]; [|discriminate].
  destruct (mapM MerkleTreeUtils.leaf t) as [hs|]; cbn [bind]; [|discriminate].
  intros _. constructor; [eapply leaf_validTimestamp; eassumption | eapply IH; reflexivity].
Qed.

Lemma len_nonempty (A : Type) (xs : list A) : xs <> [] -> (len xs =? 0) = false.
Proof.
  intros Hne. destruct xs; [contradiction|].
  unfold len. cbn [List.length]. apply Z.eqb_neq. lia.
Qed.

(** Both [generateMerkleTree] functions return exactly for the non-empty
    batches whose timestamps can all be packed; one record with a negative
    timestamp, or one beyond the safe integers, makes the whole batch fail. *)
Theorem generateMerkleTree_succeeds_iff (records : list SensorData.t) :
  ((exists tree, MerkleTreeUtils.generateMerkleTree records = Ok tree) <->
   records <> [] /\
   Forall (fun r => validTimestamp (SensorData.timestamp r)) records) /\
  ((exists tree, merkleTree.generateMerkleTree records = Ok tree) <->
   records <> [] /\
   Forall (fun r => validTimestamp (SensorData.timestamp r)) records).
Proof.
  split; split.
  - intros [tree Htree]. unfold MerkleTreeUtils.generateMerkleTree in Htree.
    destruct (MerkleTreeUtils.generateLeaves records) as [leaves|] eqn:Hleaves;
      cbn [bind] in Htree; [|discriminate].
    split; [|eapply generateLeaves_valid; eassumption].
    intros ->. cbn in Hleaves. injection Hleaves as <-. discriminate Htree.
  - intros [Hne Hts].
    destruct (generateMerkleTree_ok records Hne Hts) as (leaves & above & _ & _ & H).
    eauto.
  - intros [tree Htree]. unfold merkleTree.generateMerkleTree in Htree.
    destruct (Z.eqb_spec (len records) 0) as [|Hlen]; [discriminate|].
    change (mapM merkleTree.leaf records) with (MerkleTreeUtils.generateLeaves records)
      in Htree.
    destruct (MerkleTreeUtils.generateLeaves records) as [leaves|] eqn:Hleaves;
      cbn [bind] in Htree; [|discriminate].
    split; [|eapply generateLeaves_valid; eassumption].
    intros ->. apply Hlen. reflexivity.
  - intros [Hne Hts]. apply merkleTree_generateMerkleTree_ok; assumption.
Qed.

Lemma log2_up_ceilHalf (n : nat) :
  (1 < n)%nat -> Nat.log2_up n = S (Nat.log2_up (ceilHalf n)).
Proof.
  intros Hn. unfold ceilHalf.
  set (m := ((n + 1) / 2)%nat).
  assert (Hm : (2 * m <= n + 1 < 2 * m + 2)%nat).
  { subst m. pose proof (Nat.div_mod_eq (n + 1) 2).
    pose proof (Nat.mod_upper_bound (n + 1) 2). lia. }
  set (a := Nat.log2_up m).
  assert (Hle : (Nat.log2_up n <= S a)%nat).
  { apply Nat.log2_up_le_pow2; [lia|].
    assert (m <= 2 ^ a)%nat by (apply Nat.log2_up_le_pow2; [lia | subst a; lia]).
    rewrite Nat.pow_succ_r'. lia. }
  assert (Hgt : (a < Nat.log2_up n)%nat).
  { apply Nat.log2_up_lt_pow2; [lia|].
    destruct (Nat.eq_dec m 1) as [H1 | H1].
    - subst a. rewrite H1. cbn. lia.
    - assert (Ha : (0 < a)%nat) by (subst a; apply Nat.log2_up_pos; lia).
      assert (2 ^ (a - 1) < m)%nat
        by (apply Nat.log2_up_lt_pow2; [lia | subst a; lia]).
      replace a with (S (a - 1)) by lia. rewrite Nat.pow_succ_r'. lia. }
  lia.
Qed.

(** A tree over [n] leaves has [ceil(log2 n) + 1] layers. *)
Lemma Layered_height (layers : list (list string)) :
  Layered layers ->
  List.length layers = S (Nat.log2_up (List.length (hd [] layers))).
Proof.
  induction 1 as [h Hh | cur next above Hgt Hall Hnext HL IH]; [reflexivity|].
  cbn [List.length hd] in *. rewrite IH.
  rewrite (MerkleTreeUtils_nextLayer_length cur next Hnext).
  rewrite (log2_up_ceilHalf _ Hgt). reflexivity.
Qed.

Lemma div2_lt_ceilHalf (index n : nat) :
  (index < n)%nat -> (index / 2 < ceilHalf n)%nat.
Proof.
  intros Hi. unfold ceilHalf.
  pose proof (Nat.div_mod_eq index 2). pose proof (Nat.mod_upper_bound index 2).
  pose proof (Nat.div_mod_eq (n + 1) 2). pose proof (Nat.mod_upper_bound (n + 1) 2).
  lia.
Qed.

(** The proof loop of the class collects at most one element per layer
    below the root, each of them a digest of that layer. *)
Lemma proofLoop_bounded (layers : list (list string)) :
  Layered layers ->
  forall (index : nat) (acc : list (option string)),
    (index < List.length (hd [] layers))%nat ->
    exists p,
      MerkleTreeUtils.proofLoop layers (Z.of_nat index) acc = acc ++ map Some p /\
      (List.length p <= List.length layers - 1)%nat /\
      Forall (fun h => ethers.isBytes32 h = true) p.
Proof.
  induction 1 as [h Hh | cur next above Hgt Hall Hnext HL IH]; intros index acc Hi.
  - exists []. cbn [map]. rewrite app_nil_r. repeat split; constructor.
  - cbn [hd] in Hi, IH.
    pose proof (MerkleTreeUtils_nextLayer_length cur next Hnext) as Hnl.
    assert (Hk : (index / 2 < List.length next)%nat)
      by (rewrite Hnl; apply div2_lt_ceilHalf, Hi).
    rewrite proofLoop_step. cbv zeta.
    assert (Hdiv : Z.of_nat index / 2 = Z.of_nat (index / 2))
      by (rewrite Nat2Z.inj_div; reflexivity).
    rewrite Hdiv.
    set (siblingIndex :=
           if Z.rem (Z.of_nat index) 2 =? 0
           then Z.of_nat index + 1 else Z.of_nat index - 1).
    assert (Hsib : exists s : nat, siblingIndex = Z.of_nat s).
    { subst siblingIndex. destruct (Z.eqb_spec (Z.rem (Z.of_nat index) 2) 0) as [|Hodd].
      - exists (index + 1)%nat. lia.
      - exists (index - 1)%nat.
        destruct index; [exfalso; apply Hodd; reflexivity | lia]. }
    destruct Hsib as [s Hs]. rewrite Hs.
    destruct (Z.ltb_spec (Z.of_nat s) (len cur)) as [Hlt | Hge].
    + assert (Hs' : (s < List.length cur)%nat) by (unfold len in Hlt; lia).
      destruct (nth_error cur s) as [x|] eqn:Hx; [|apply nth_error_None in Hx; lia].
      rewrite item_nat, Hx.
      destruct (IH (index / 2)%nat (acc ++ [Some x]) Hk) as (p & Hp & Hlen & Hdig).
      exists (x :: p). rewrite Hp. split; [rewrite <- app_assoc; reflexivity|].
      split; [cbn [List.length] in *; lia|].
      constructor; [|exact Hdig].
      rewrite Forall_forall in Hall. apply Hall. eapply nth_error_In; eassumption.
    + destruct (IH (index / 2)%nat acc Hk) as (p & Hp & Hlen & Hdig).
      exists p. rewrite Hp. split; [reflexivity|].
      split; [cbn [List.length] in *; lia | exact Hdig].
Qed.

(** The last layer of a tree is its root, a digest. *)
Lemma Layered_root_digest (layers : list (list string)) :
  Layered layers ->
  exists root, last layers [] = [root] /\ ethers.isBytes32 root = true.
Proof.
  induction 1 as [h Hh | cur next above Hgt Hall Hnext HL IH].
  - exists h. split; [reflexivity | exact Hh].
  - destruct IH as (root & Hlast & Hroot). exists root.
    change (last (cur :: next :: above) []) with (last (next :: above) []).
    split; assumption.
Qed.

(** What [MerkleTreeUtils.generateMerkleTree] returns has a digest as root
    and one proof per record; a proof has at most [ceil(log2 n)] elements for
    a batch of [n] records, and each of them is a digest (never
    [undefined]). *)
Theorem proofs_shape (records : list SensorData.t) (tree : MerkleTree) :
  MerkleTreeUtils.generateMerkleTree records = Ok tree ->
  (exists root, merkleRoot tree = Some root /\ ethers.isBytes32 root = true) /\
  List.length (proofs tree) = List.length records /\
  Forall (fun proof =>
            (List.length proof <= Nat.log2_up (List.length records))%nat /\
            Forall (fun element =>
                      exists h, element = Some h /\ ethers.isBytes32 h = true) proof)
         (proofs tree).
Proof.
  intros Htree. unfold MerkleTreeUtils.generateMerkleTree in Htree.
  destruct (MerkleTreeUtils.generateLeaves records) as [leaves|] eqn:Hleaves;
    cbn [bind] in Htree; [|discriminate].
  destruct (generateLeaves_isBytes32 records leaves Hleaves) as [Hall Hl].
  destruct (MerkleTreeUtils.buildLayers leaves) as [layers|] eqn:Hb;
    cbn [bind] in Htree; [|discriminate].
  injection Htree as <-. cbn [merkleRoot proofs].
  assert (Hlne : leaves <> []).
  { intros ->. discriminate Hb. }
  destruct (buildLayers_Layered leaves Hlne Hall) as (above & Hb' & HL).
  rewrite Hb' in Hb. injection Hb as <-.
  pose proof (Layered_height _ HL) as Hheight. cbn [hd] in Hheight.
  split; [|split].
  - destruct (Layered_root_digest (leaves :: above) HL) as (root & Hlast & Hroot).
    exists root. rewrite Hlast. split; [reflexivity | exact Hroot].
  - rewrite length_map. unfold indices. rewrite length_map, length_seq. exact Hl.
  - rewrite Forall_forall. intros proof Hin.
    apply in_map_iff in Hin. destruct Hin as (idx & <- & Hidx).
    unfold indices in Hidx. apply in_map_iff in Hidx. destruct Hidx as (i & <- & Hi).
    apply in_seq in Hi.
    destruct (proofLoop_bounded (leaves :: above) HL i []) as (p & Hp & Hlen & Hdig).
    { cbn [hd]. lia. }
    rewrite Hp. cbn [app]. rewrite length_map. split.
    + rewrite Hheight in Hlen. rewrite <- Hl. lia.
    + rewrite Forall_map. revert Hdig. apply Forall_impl. intros h Hh. eauto.
Qed.

(** ** Proofs that verify: batches of a power of two *)

Lemma ceilHalf_double (m : nat) : ceilHalf (2 * m) = m.
Proof.
  unfold ceilHalf. pose proof (Nat.div_mod_eq (2 * m + 1) 2).
  pose proof (Nat.mod_upper_bound (2 * m + 1) 2). lia.
Qed.

Lemma Layered_pow2 (layers : list (list string)) :
  Layered layers ->
  forall k, List.length (hd [] layers) = (2 ^ k)%nat ->
    List.length layers = S k /\
    forall layer, In layer layers ->
      List.length layer = 1%nat \/ Nat.Even (List.length layer).
Proof.
  induction 1 as [h Hh | cur next above Hgt Hall Hnext HL IH]; intros k Hk.
  - cbn [hd List.length] in Hk. destruct k as [|k].
    + split; [reflexivity|]. intros layer [<- | []]. left. reflexivity.
    + rewrite Nat.pow_succ_r' in Hk.
      assert (0 < 2 ^ k)%nat by (apply Nat.neq_0_lt_0, Nat.pow_nonzero; lia). lia.
  - cbn [hd] in Hk, IH. destruct k as [|k]; [cbn in Hk; lia|].
    rewrite Nat.pow_succ_r' in Hk.
    pose proof (MerkleTreeUtils_nextLayer_length cur next Hnext) as Hnl.
    rewrite Hk, ceilHalf_double in Hnl.
    destruct (IH k Hnl) as [Hlen Heven].
    split; [cbn [List.length] in *; lia|].
    intros layer [<- | Hin]; [|apply Heven, Hin].
    right. exists (2 ^ k)%nat. exact Hk.
Qed.

(** When every leaf has a sibling at every level, a proof has one element
    per layer below the root. *)
Lemma proofLoop_length_paired (layers : list (list string)) :
  Layered layers ->
  (forall layer, In layer layers ->
     List.length layer = 1%nat \/ Nat.Even (List.length layer)) ->
  forall (index : nat) (acc : list (option string)),
    (index < List.length (hd [] layers))%nat ->
    List.length (MerkleTreeUtils.proofLoop layers (Z.of_nat index) acc) =
    (List.length acc + (List.length layers - 1))%nat.
Proof.
  induction 1 as [h Hh | cur next above Hgt Hall Hnext HL IH];
    intros Heven index acc Hi.
  - cbn. lia.
  - cbn [hd] in Hi, IH.
    pose proof (MerkleTreeUtils_nextLayer_length cur next Hnext) as Hnl.
    assert (Hk : (index / 2 < List.length next)%nat)
      by (rewrite Hnl; apply div2_lt_ceilHalf, Hi).
    destruct (Heven cur (or_introl eq_refl)) as [H1 | [m Hm]]; [lia|].
    rewrite proofLoop_step. cbv zeta.
    assert (Hdiv : Z.of_nat index / 2 = Z.of_nat (index / 2))
      by (rewrite Nat2Z.inj_div; reflexivity).
    rewrite Hdiv.
    assert (Hsib : ((if Z.rem (Z.of_nat index) 2 =? 0
                     then Z.of_nat index + 1 else Z.of_nat index - 1) <? len cur) = true).
    { apply Z.ltb_lt. unfold len.
      destruct (Z.eqb_spec (Z.rem (Z.of_nat index) 2) 0) as [He | Ho]; [|lia].
      rewrite Z.rem_mod_nonneg in He by lia.
      pose proof (Z.div_mod (Z.of_nat index) 2). lia. }
    rewrite Hsib.
    rewrite (IH (fun layer Hin => Heven layer (or_intror Hin)) _ _ Hk).
    rewrite length_app. cbn [List.length]. lia.
Qed.

Lemma mapM_nth_error (A B : Type) (f : A -> Result B) (xs : list A) :
  forall (ys : list B) (i : nat) (x : A),
    mapM f xs = Ok ys -> nth_error xs i = Some x ->
    exists y, f x = Ok y /\ nth_error ys i = Some y.
Proof.
  induction xs as [|x0 t IH]; intros ys i x; cbn [mapM].
  - intros _ Hx. destruct i; discriminate Hx.
  - destruct (f x0) as [y0|] eqn:Hy0; cbn [bind]; [|discriminate].
    destruct (mapM f t) as [yt|]; cbn [bind]; [|discriminate].
    intros [= <-] Hx. destruct i as [|i].
    + injection Hx as <-. exists y0. split; [exact Hy0 | reflexivity].
    + cbn [nth_error] in *. eapply IH; [reflexivity | exact Hx].
Qed.

(** Below [2^31] records the standalone function is the class method. *)
Lemma standalone_is_class (records : list SensorData.t) :
  records <> [] -> len records <= 2 ^ 31 ->
  merkleTree.generateMerkleTree records = MerkleTreeUtils.generateMerkleTree records.
Proof.
  intros Hne Hlen.
  unfold merkleTree.generateMerkleTree, MerkleTreeUtils.generateMerkleTree.
  rewrite (len_nonempty _ records Hne).
  change (mapM merkleTree.leaf records) with (MerkleTreeUtils.generateLeaves records).
  destruct (MerkleTreeUtils.generateLeaves records) as [leaves|] eqn:Hleaves;
    cbn [bind]; [|reflexivity].
  destruct (generateLeaves_isBytes32 records leaves Hleaves) as [Hall Hl].
  assert (Hlne : leaves <> []).
  { intros ->. destruct records; [contradiction | discriminate Hl]. }
  rewrite (buildLayers_agree leaves Hlne Hall).
  destruct (MerkleTreeUtils.buildLayers leaves) as [layers|]; cbn [bind]; [|reflexivity].
  do 2 f_equal. apply map_ext_in. intros idx Hidx.
  apply proofLoop_agree. apply indices_range in Hidx. unfold len in *. lia.
Qed.

(** Round trip for a batch of [2^k] records: the tree is built, and the proof
    generated for every record has [k] elements and verifies against the
    root. *)
Theorem roundtrip_power_of_two (records : list SensorData.t) (k : nat) :
  List.length records = (2 ^ k)%nat ->
  Forall (fun r => validTimestamp (SensorData.timestamp r)) records ->
  exists tree root,
    MerkleTreeUtils.generateMerkleTree records = Ok tree /\
    (len records <= 2 ^ 31 -> merkleTree.generateMerkleTree records = Ok tree) /\
    merkleRoot tree = Some root /\
    forall (i : nat) (record : SensorData.t),
      nth_error records i = Some record ->
      exists leaf p,
        MerkleTreeUtils.leaf record = Ok leaf /\
        nth_error (proofs tree) i = Some (map Some p) /\
        List.length p = k /\
        MerkleTreeUtils.verifyProof leaf p root = Ok true.
Proof.
  intros Hlen Hts.
  assert (Hne : records <> []).
  { intros ->. cbn [List.length] in Hlen.
    assert (0 < 2 ^ k)%nat by (apply Nat.neq_0_lt_0, Nat.pow_nonzero; lia). lia. }
  destruct (generateMerkleTree_ok records Hne Hts) as (leaves & above & Hleaves & HL & Htree).
  destruct (generateLeaves_isBytes32 records leaves Hleaves) as [Hall Hl].
  destruct (Layered_pow2 _ HL k) as [Hheight Heven]; [cbn [hd]; congruence|].
  destruct (Layered_root_digest _ HL) as (root & Hlast & _).
  eexists. exists root. split; [exact Htree|].
  split; [intros Hsmall; rewrite (standalone_is_class records Hne Hsmall); exact Htree|].
  cbn [merkleRoot proofs]. split; [rewrite Hlast; reflexivity|].
  intros i record Hrec.
  destruct (mapM_nth_error _ _ _ records leaves i record Hleaves Hrec) as (leaf & Hleaf & Hnth).
  destruct (proofLoop_verifies (leaves :: above) HL Heven i [] leaf Hnth)
    as (p & root' & Hloop & Hlast' & Hver).
  rewrite Hlast in Hlast'. injection Hlast' as <-.
  exists leaf, p. split; [exact Hleaf|].
  assert (Hi : (i < List.length leaves)%nat) by (apply nth_error_Some; congruence).
  split; [|split].
  - unfold indices. rewrite map_map, nth_error_map, nth_error_seq.
    destruct (Nat.ltb_spec i (List.length leaves)); [|lia].
    cbn [option_map Nat.add]. rewrite Hloop. reflexivity.
  - pose proof (proofLoop_length_paired (leaves :: above) HL Heven i [] Hi) as Hpl.
    rewrite Hloop in Hpl. cbn [app List.length] in Hpl.
    rewrite length_map in Hpl. cbn [List.length] in Hheight. lia.
  - unfold MerkleTreeUtils.verifyProof. rewrite Hver. cbn [bind].
    rewrite String.eqb_refl. reflexivity.
Qed.

(** ** When the verifier returns *)

Lemma hashNode_inputs (a b h : string) :
  MerkleTreeUtils.hashNode a b = Ok h ->
  ethers.isBytes32 a = true /\ ethers.isBytes32 b = true.
Proof.
  unfold MerkleTreeUtils.hashNode, MerkleTreeUtils.sortPairs, ethers.isBytes32,
    ethers.solidityPackedKeccak256.
  destruct (a <? b)%string; cbn [ethers.solidityPacked].
  - destruct (ethers._pack ethers.T_bytes32 (ethers.V_string a)); cbn [bind];
      [|discriminate].
    destruct (ethers._pack ethers.T_bytes32 (ethers.V_string b)); cbn [bind];
      [|discriminate].
    auto.
  - destruct (ethers._pack ethers.T_bytes32 (ethers.V_string b)); cbn [bind];
      [|discriminate].
    destruct (ethers._pack ethers.T_bytes32 (ethers.V_string a)); cbn [bind];
      [|discriminate].
    auto.
Qed.

Lemma hashNode_hexlify (a b h : string) :
  MerkleTreeUtils.hashNode a b = Ok h ->
  exists digest, List.length digest = 32%nat /\ h = ethers.hexlify digest.
Proof.
  unfold MerkleTreeUtils.hashNode. destruct (MerkleTreeUtils.sortPairs a b).
  unfold ethers.solidityPackedKeccak256.
  destruct (ethers.solidityPacked _ _) as [packed|]; cbn [bind]; [|discriminate].
  intros [= <-]. exists (Keccak.keccak256 packed).
  split; [apply keccak256_length | reflexivity].
Qed.

Lemma verifyLoop_hexlify (x : string) (t : list string) :
  forall computedHash h,
    MerkleTreeUtils.verifyLoop computedHash (x :: t) = Ok h ->
    exists digest, List.length digest = 32%nat /\ h = ethers.hexlify digest.
Proof.
  revert x. induction t as [|x' t IH]; intros x computedHash h;
    cbn [MerkleTreeUtils.verifyLoop].
  - destruct (MerkleTreeUtils.hashNode computedHash x) as [y|] eqn:Hy; cbn [bind];
      [|discriminate].
    intros [= <-]. eapply hashNode_hexlify; eassumption.
  - destruct (MerkleTreeUtils.hashNode computedHash x) as [y|] eqn:Hy; cbn [bind];
      [|discriminate].
    apply (IH x' y h).
Qed.

Lemma verifyLoop_digest (x : string) (t : list string) (computedHash h : string) :
  MerkleTreeUtils.verifyLoop computedHash (x :: t) = Ok h ->
  ethers.isBytes32 h = true.
Proof.
  intros Hh. destruct (verifyLoop_hexlify x t computedHash h Hh) as (digest & Hlen & ->).
  unfold ethers.isBytes32, ethers._pack. rewrite getBytes_hexlify. cbn [bind].
  rewrite Hlen. reflexivity.
Qed.

Lemma verifyLoop_ok_iff (proof : list string) :
  forall computedHash,
    proof <> [] ->
    (exists h, MerkleTreeUtils.verifyLoop computedHash proof = Ok h /\
               ethers.isBytes32 h = true) <->
    ethers.isBytes32 computedHash = true /\
    Forall (fun h => ethers.isBytes32 h = true) proof.
Proof.
  induction proof as [|x t IH]; intros computedHash Hne; [contradiction|].
  cbn [MerkleTreeUtils.verifyLoop]. split.
  - intros (h & Hh & Hv).
    destruct (MerkleTreeUtils.hashNode computedHash x) as [y|] eqn:Hy; cbn [bind] in Hh;
      [|discriminate].
    destruct (hashNode_inputs _ _ _ Hy) as [Hc Hx].
    split; [exact Hc|]. constructor; [exact Hx|].
    destruct t as [|x' t']; [constructor|].
    apply (IH y); [discriminate|]. eauto.
  - intros [Hc Hall]. inversion Hall as [|? ? Hx Ht]; subst.
    destruct (hashNode_ok _ _ Hc Hx) as (y & Hy & Hyv). rewrite Hy. cbn [bind].
    destruct t as [|x' t']; [exists y; split; [reflexivity | exact Hyv]|].
    apply (IH y); [discriminate|]. split; assumption.
Qed.

(** [verifyProof] with an empty proof compares the leaf with the root and
    never throws; with a non-empty proof it returns exactly when the leaf and
    every proof element are hex strings of 32 bytes, as [ethers] reads them
    (the prefix [0x] and the digits in either case), and it throws
    otherwise; it can only accept a root that is such a string in lower
    case, the spelling of a computed hash. *)
Theorem verifyProof_returns_iff (leaf : string) (proof : list string) (root : string) :
  MerkleTreeUtils.verifyProof leaf [] root = Ok (leaf =? root)%string /\
  (proof <> [] ->
   ((exists b, MerkleTreeUtils.verifyProof leaf proof root = Ok b) <->
    ethers.isBytes32 leaf = true /\
    Forall (fun h => ethers.isBytes32 h = true) proof)) /\
  (proof <> [] ->
   MerkleTreeUtils.verifyProof leaf proof root = Ok true ->
   exists digest, List.length digest = 32%nat /\ root = ethers.hexlify digest).
Proof.
  split; [reflexivity|]. split.
  - intros Hne. rewrite <- (verifyLoop_ok_iff proof leaf Hne).
    unfold MerkleTreeUtils.verifyProof. split.
    + intros [b Hb].
      destruct (MerkleTreeUtils.verifyLoop leaf proof) as [h|] eqn:Hh; cbn [bind] in Hb;
        [|discriminate].
      exists h. split; [reflexivity|].
      destruct proof as [|x t]; [contradiction|].
      eapply verifyLoop_digest; eassumption.
    + intros (h & -> & _). cbn [bind]. eauto.
  - intros Hne. unfold MerkleTreeUtils.verifyProof.
    destruct (MerkleTreeUtils.verifyLoop leaf proof) as [h|] eqn:Hh; cbn [bind];
      [|discriminate].
    intros [= Heq]. apply String.eqb_eq in Heq. subst h.
    destruct proof as [|x t]; [contradiction|].
    eapply verifyLoop_hexlify; eassumption.
Qed.

(** ** Batches with the same root *)

Section WhileRoot.

Variable pass : list string -> Result (list string).
Hypothesis pass_length :
  forall cur next, pass cur = Ok next ->
                   List.length next = ceilHalf (List.length cur).

(** Fuel beyond one unit per element of the layer changes nothing. *)
Lemma whileLayers_fuel (fuel : nat) :
  forall cur,
    (List.length cur <= S fuel)%nat ->
    whileLayers pass (S fuel) [cur] = whileLayers pass fuel [cur].
Proof.
  induction fuel as [|fuel IH]; intros cur Hlen.
  - cbn [whileLayers last]. rewrite len_gtb.
    destruct (Nat.ltb_spec 1 (List.length cur)); [lia | reflexivity].
  - change (whileLayers pass (S (S fuel)) [cur])
      with (if len (last [cur] []) >? 1
            then next <- pass (last [cur] []) ;;
                 whileLayers pass (S fuel) ([cur] ++ [next])
            else Ok [cur]).
    change (whileLayers pass (S fuel) [cur])
      with (if len (last [cur] []) >? 1
            then next <- pass (last [cur] []) ;;
                 whileLayers pass fuel ([cur] ++ [next])
            else Ok [cur]).
    cbn [last]. rewrite len_gtb.
    destruct (Nat.ltb_spec 1 (List.length cur)) as [Hgt|]; [|reflexivity].
    destruct (pass cur) as [next|] eqn:Hnext; cbn [bind]; [|reflexivity].
    rewrite !whileLayers_prefix. rewrite IH; [reflexivity|].
    rewrite (pass_length _ _ Hnext). pose proof (ceilHalf_lt _ Hgt). lia.
Qed.

Lemma whileLayers_fuel_ge (cur : list string) (fuel : nat) :
  (List.length cur <= S fuel)%nat ->
  forall extra, whileLayers pass (extra + fuel) [cur] = whileLayers pass fuel [cur].
Proof.
  intros Hlen. induction extra as [|extra IH]; [reflexivity|].
  cbn [Nat.add]. rewrite whileLayers_fuel by lia. exact IH.
Qed.

Lemma whileLayers_nonempty (fuel : nat) (cur : list string) (layers : list (list string)) :
  whileLayers pass fuel [cur] = Ok layers -> layers <> [].
Proof.
  destruct fuel as [|fuel]; cbn [whileLayers last].
  - destruct (len cur >? 1); intros [= <-]; discriminate.
  - destruct (len cur >? 1); [|intros [= <-]; discriminate].
    destruct (pass cur) as [next|]; cbn [bind]; [|discriminate].
    rewrite (whileLayers_prefix pass fuel [cur] next).
    destruct (whileLayers pass fuel [next]); cbn [bind]; [|discriminate].
    intros [= <-]. discriminate.
Qed.

(** The layers above the leaves, and so the root, depend on the leaves only
    through the first pass. *)
Lemma whileLayers_top (cur cur' : list string) (fuel fuel' : nat) :
  (1 < List.length cur)%nat -> (1 < List.length cur')%nat ->
  (List.length cur <= S fuel)%nat -> (List.length cur' <= S fuel')%nat ->
  pass cur = pass cur' ->
  (layers <- whileLayers pass fuel [cur] ;; Ok (last layers [])) =
  (layers <- whileLayers pass fuel' [cur'] ;; Ok (last layers [])).
Proof.
  intros Hgt Hgt' Hlen Hlen' Hpass.
  destruct fuel as [|fuel]; [lia|]. destruct fuel' as [|fuel']; [lia|].
  cbn [whileLayers last]. rewrite !len_gtb.
  destruct (Nat.ltb_spec 1 (List.length cur)); [|lia].
  destruct (Nat.ltb_spec 1 (List.length cur')); [|lia].
  rewrite <- Hpass.
  destruct (pass cur) as [next|] eqn:Hnext; cbn [bind]; [|reflexivity].
  rewrite (whileLayers_prefix pass fuel [cur] next).
  rewrite (whileLayers_prefix pass fuel' [cur'] next).
  assert (Hn : (List.length next <= S fuel)%nat).
  { rewrite (pass_length _ _ Hnext). pose proof (ceilHalf_lt (List.length cur)). lia. }
  assert (Hn' : (List.length next <= S fuel')%nat).
  { rewrite (pass_length cur' next (eq_sym Hpass)).
    pose proof (ceilHalf_lt (List.length cur')). lia. }
  assert (Hsame : whileLayers pass fuel [next] = whileLayers pass fuel' [next]).
  { destruct (Nat.le_ge_cases fuel fuel') as [Hle | Hle].
    - replace fuel' with ((fuel' - fuel) + fuel)%nat by lia.
      symmetry. apply whileLayers_fuel_ge. exact Hn.
    - replace fuel with ((fuel - fuel') + fuel')%nat by lia.
      apply whileLayers_fuel_ge. exact Hn'. }
  rewrite <- Hsame.
  destruct (whileLayers pass fuel [next]) as [rest|] eqn:Hrest; cbn [bind]; [|reflexivity].
  pose proof (whileLayers_nonempty _ _ _ Hrest) as Hne.
  destruct rest as [|r0 rest']; [contradiction|]. reflexivity.
Qed.

End WhileRoot.

(** The root that the class method returns, and the root that the standalone
    function returns. *)
Lemma class_root (records : list SensorData.t) :
  (tree <- MerkleTreeUtils.generateMerkleTree records ;; Ok (merkleRoot tree)) =
  (leaves <- MerkleTreeUtils.generateLeaves records ;;
   top <- (if len leaves =? 0 then Throw (Error "No leaves provided")
           else layers <- whileLayers MerkleTreeUtils.nextLayer (List.length leaves) [leaves] ;;
                Ok (last layers [])) ;;
   Ok (item top 0)).
Proof.
  unfold MerkleTreeUtils.generateMerkleTree, MerkleTreeUtils.buildLayers.
  destruct (MerkleTreeUtils.generateLeaves records) as [leaves|]; cbn [bind]; [|reflexivity].
  destruct (len leaves =? 0); cbn [bind]; [reflexivity|].
  rewrite MerkleTreeUtils_buildLoop_while.
  destruct (whileLayers _ _ _); reflexivity.
Qed.

Lemma standalone_root (records : list SensorData.t) :
  (tree <- merkleTree.generateMerkleTree records ;; Ok (merkleRoot tree)) =
  (if len records =? 0 then Throw (Error "No records for Merkle tree")
   else
     leaves <- MerkleTreeUtils.generateLeaves records ;;
     top <- (layers <- whileLayers merkleTree.nextLayer (List.length leaves) [leaves] ;;
             Ok (last layers [])) ;;
     Ok (item top 0)).
Proof.
  unfold merkleTree.generateMerkleTree, merkleTree.buildLayers.
  destruct (len records =? 0); cbn [bind]; [reflexivity|].
  change (mapM merkleTree.leaf records) with (MerkleTreeUtils.generateLeaves records).
  destruct (MerkleTreeUtils.generateLeaves records) as [leaves|]; cbn [bind]; [|reflexivity].
  rewrite merkleTree_buildLoop_while.
  destruct (whileLayers _ _ _); reflexivity.
Qed.

Lemma len_app_nonempty (A : Type) (xs ys : list A) :
  ys <> [] -> (len (xs ++ ys) =? 0) = false.
Proof.
  intros Hne. apply len_nonempty. intros H. apply app_eq_nil in H. tauto.
Qed.

(** The first pass over the leaves, with the last leaf once or twice. *)
Lemma nextLayer_last_twice (ls : list string) (l : string) :
  Nat.Even (List.length ls) ->
  MerkleTreeUtils.nextLayer (ls ++ [l; l]) = MerkleTreeUtils.nextLayer (ls ++ [l]) /\
  merkleTree.nextLayer (ls ++ [l; l]) = merkleTree.nextLayer (ls ++ [l]).
Proof.
  induction ls as [|x|x y t IH] using pair_ind; intros Heven.
  - cbn [app MerkleTreeUtils.nextLayer merkleTree.nextLayer].
    destruct (l =? "")%string; split; reflexivity.
  - destruct Heven as [m Hm]. cbn [List.length] in Hm. lia.
  - assert (Ht : Nat.Even (List.length t)).
    { destruct Heven as [m Hm]. cbn [List.length] in Hm. exists (m - 1)%nat. lia. }
    destruct (IH Ht) as [IH1 IH2].
    cbn [app MerkleTreeUtils.nextLayer merkleTree.nextLayer].
    rewrite IH1, IH2. split; reflexivity.
Qed.

(** A batch of an odd number of records (three or more) and the batch with its
    last record repeated have the same root: the builder pairs an unpaired
    node with itself, which is what the repeated record's leaf gives.  Both
    functions return the same root for the two batches, or throw the same
    exception for both. *)
Theorem repeated_last_record_same_root (records : list SensorData.t) (r : SensorData.t) :
  records <> [] -> Nat.Even (List.length records) ->
  (tree <- MerkleTreeUtils.generateMerkleTree (records ++ [r; r]) ;; Ok (merkleRoot tree)) =
  (tree <- MerkleTreeUtils.generateMerkleTree (records ++ [r]) ;; Ok (merkleRoot tree)) /\
  (tree <- merkleTree.generateMerkleTree (records ++ [r; r]) ;; Ok (merkleRoot tree)) =
  (tree <- merkleTree.generateMerkleTree (records ++ [r]) ;; Ok (merkleRoot tree)).
Proof.
  intros Hne Heven.
  rewrite !class_root, !standalone_root.
  rewrite !len_app_nonempty by discriminate.
  unfold MerkleTreeUtils.generateLeaves. rewrite !mapM_app. cbn [mapM].
  destruct (mapM MerkleTreeUtils.leaf records) as [ls|] eqn:Hls; cbn [bind];
    [|split; reflexivity].
  destruct (MerkleTreeUtils.leaf r) as [l|]; cbn [bind]; [|split; reflexivity].
  rewrite !len_app_nonempty by discriminate.
  destruct (generateLeaves_isBytes32 records ls Hls) as [_ Hl].
  assert (Hls2 : (2 <= List.length ls)%nat).
  { rewrite Hl. destruct Heven as [m Hm]. destruct records; [contradiction|].
    cbn [List.length] in *. lia. }
  assert (Hev : Nat.Even (List.length ls)) by (rewrite Hl; exact Heven).
  destruct (nextLayer_last_twice ls l Hev) as [Hclass Hstandalone].
  split.
  - rewrite (whileLayers_top MerkleTreeUtils.nextLayer MerkleTreeUtils_nextLayer_length
               (ls ++ [l; l]) (ls ++ [l])
               (List.length (ls ++ [l; l])) (List.length (ls ++ [l])));
      try (rewrite !length_app; cbn [List.length]; lia); [reflexivity | exact Hclass].
  - rewrite (whileLayers_top merkleTree.nextLayer merkleTree_nextLayer_length
               (ls ++ [l; l]) (ls ++ [l])
               (List.length (ls ++ [l; l])) (List.length (ls ++ [l])));
      try (rewrite !length_app; cbn [List.length]; lia); [reflexivity | exact Hstandalone].
Qed.

Lemma nextLayer_swap (pl ql : list string) (la lb : string) :
  Nat.Even (List.length pl) -> la <> "" -> lb <> "" ->
  MerkleTreeUtils.nextLayer (pl ++ la :: lb :: ql) =
  MerkleTreeUtils.nextLayer (pl ++ lb :: la :: ql) /\
  merkleTree.nextLayer (pl ++ la :: lb :: ql) =
  merkleTree.nextLayer (pl ++ lb :: la :: ql).
Proof.
  intros Heven Ha Hb. revert Heven.
  induction pl as [|x|x y t IH] using pair_ind; intros Heven.
  - cbn [app MerkleTreeUtils.nextLayer merkleTree.nextLayer].
    destruct (String.eqb_spec la "") as [|_]; [contradiction|].
    destruct (String.eqb_spec lb "") as [|_]; [contradiction|].
    rewrite !hashNode_Array_sort, (hashNode_comm la lb). split; reflexivity.
  - destruct Heven as [m Hm]. cbn [List.length] in Hm. lia.
  - assert (Ht : Nat.Even (List.length t)).
    { destruct Heven as [m Hm]. cbn [List.length] in Hm. exists (m - 1)%nat. lia. }
    destruct (IH Ht) as [IH1 IH2].
    cbn [app MerkleTreeUtils.nextLayer merkleTree.nextLayer].
    rewrite IH1, IH2. split; reflexivity.
Qed.

Lemma root_of_ok (r : Result MerkleTree) (v : option string) :
  (tree <- r ;; Ok (merkleRoot tree)) = Ok v ->
  exists tree, r = Ok tree /\ merkleRoot tree = v.
Proof.
  destruct r as [tree|]; cbn [bind]; [|discriminate].
  intros [= <-]. eauto.
Qed.

(** The root does not tell the order of the two records of a pair: exchanging
    the records at the positions [2j] and [2j + 1] of a batch gives a tree
    with the same root, in both implementations. *)
Theorem swapped_pair_same_root (before after : list SensorData.t) (a b : SensorData.t) :
  Nat.Even (List.length before) ->
  Forall (fun r => validTimestamp (SensorData.timestamp r)) (before ++ a :: b :: after) ->
  exists tree tree' root,
    MerkleTreeUtils.generateMerkleTree (before ++ a :: b :: after) = Ok tree /\
    MerkleTreeUtils.generateMerkleTree (before ++ b :: a :: after) = Ok tree' /\
    merkleRoot tree = Some root /\ merkleRoot tree' = Some root /\
    exists tree2 tree2',
      merkleTree.generateMerkleTree (before ++ a :: b :: after) = Ok tree2 /\
      merkleTree.generateMerkleTree (before ++ b :: a :: after) = Ok tree2' /\
      merkleRoot tree2 = Some root /\ merkleRoot tree2' = Some root.
Proof.
  intros Heven Hts.
  assert (Hne : before ++ a :: b :: after <> [])
    by (intros H; apply app_eq_nil in H; destruct H; discriminate).
  destruct (generateMerkleTree_ok _ Hne Hts) as (leaves & above & Hleaves & HL & Htree).
  destruct (Layered_root_digest _ HL) as (root & Hlast & _).
  destruct (generateLeaves_isBytes32 _ _ Hleaves) as [Hall _].
  (* the leaves, split as the records are *)
  pose proof Hleaves as Hsplit. unfold MerkleTreeUtils.generateLeaves in Hsplit.
  rewrite mapM_app in Hsplit. cbn [mapM] in Hsplit.
  destruct (mapM MerkleTreeUtils.leaf before) as [pl|] eqn:Hpl; cbn [bind] in Hsplit;
    [|discriminate].
  destruct (MerkleTreeUtils.leaf a) as [la|] eqn:Hla; cbn [bind] in Hsplit; [|discriminate].
  destruct (MerkleTreeUtils.leaf b) as [lb|] eqn:Hlb; cbn [bind] in Hsplit; [|discriminate].
  destruct (mapM MerkleTreeUtils.leaf after) as [ql|] eqn:Hql; cbn [bind] in Hsplit;
    [|discriminate].
  injection Hsplit as Hsplit. subst leaves.
  destruct (generateLeaves_isBytes32 before pl Hpl) as [_ Hlp].
  assert (Hev : Nat.Even (List.length pl)) by (rewrite Hlp; exact Heven).
  assert (Hane : la <> "") by (eapply isBytes32_nonempty, leaf_isBytes32; eassumption).
  assert (Hbne : lb <> "") by (eapply isBytes32_nonempty, leaf_isBytes32; eassumption).
  destruct (nextLayer_swap pl ql la lb Hev Hane Hbne) as [Hclass Hstandalone].
  assert (Hleaves' : MerkleTreeUtils.generateLeaves (before ++ b :: a :: after)
                     = Ok (pl ++ lb :: la :: ql)).
  { unfold MerkleTreeUtils.generateLeaves. rewrite mapM_app. cbn [mapM].
    rewrite Hpl, Hla, Hlb, Hql. reflexivity. }
  assert (Hroot : (tree <- MerkleTreeUtils.generateMerkleTree (before ++ a :: b :: after) ;;
                   Ok (merkleRoot tree)) = Ok (Some root)).
  { rewrite Htree. cbn [bind merkleRoot]. rewrite Hlast. reflexivity. }
  assert (Hlens : forall x y, (1 < List.length (pl ++ x :: y :: ql))%nat)
    by (intros x y; rewrite length_app; cbn [List.length]; lia).
  assert (Hroot' : (tree <- MerkleTreeUtils.generateMerkleTree (before ++ b :: a :: after) ;;
                    Ok (merkleRoot tree)) = Ok (Some root)).
  { rewrite <- Hroot, !class_root, Hleaves, Hleaves'. cbn [bind].
    rewrite !len_app_nonempty by discriminate.
    rewrite (whileLayers_top MerkleTreeUtils.nextLayer MerkleTreeUtils_nextLayer_length
               (pl ++ lb :: la :: ql) (pl ++ la :: lb :: ql)
               (List.length (pl ++ lb :: la :: ql)) (List.length (pl ++ la :: lb :: ql)));
      auto. }
  assert (Hroot2 : (tree <- merkleTree.generateMerkleTree (before ++ a :: b :: after) ;;
                    Ok (merkleRoot tree)) = Ok (Some root)).
  { rewrite <- Hroot, class_root, standalone_root, Hleaves. cbn [bind].
    rewrite !len_app_nonempty by discriminate.
    rewrite <- MerkleTreeUtils_buildLoop_while, <- merkleTree_buildLoop_while.
    rewrite buildLoop_agree; [reflexivity | exact Hall]. }
  assert (Hroot2' : (tree <- merkleTree.generateMerkleTree (before ++ b :: a :: after) ;;
                     Ok (merkleRoot tree)) = Ok (Some root)).
  { rewrite <- Hroot2, !standalone_root, Hleaves, Hleaves'. cbn [bind].
    rewrite !len_app_nonempty by discriminate.
    rewrite (whileLayers_top merkleTree.nextLayer merkleTree_nextLayer_length
               (pl ++ lb :: la :: ql) (pl ++ la :: lb :: ql)
               (List.length (pl ++ lb :: la :: ql)) (List.length (pl ++ la :: lb :: ql)));
      auto. }
  destruct (root_of_ok _ _ Hroot') as (tree' & Htree' & Hr').
  destruct (root_of_ok _ _ Hroot2) as (tree2 & Htree2 & Hr2).
  destruct (root_of_ok _ _ Hroot2') as (tree2' & Htree2' & Hr2').
  eexists. exists tree', root. split; [exact Htree|]. split; [exact Htree'|].
  cbn [merkleRoot]. split; [rewrite Hlast; reflexivity|]. split; [exact Hr'|].
  exists tree2, tree2'. auto.
Qed.

Lemma proofs_shape_witness :
  exists tree,
    MerkleTreeUtils.generateMerkleTree oddBatch = Ok tree /\
    (exists root, merkleRoot tree = Some root /\ ethers.isBytes32 root = true) /\
    List.length (proofs tree) = List.length oddBatch /\
    Forall (fun proof =>
              (List.length proof <= Nat.log2_up (List.length oddBatch))%nat /\
              Forall (fun element =>
                        exists h, element = Some h /\ ethers.isBytes32 h = true) proof)
           (proofs tree).
Proof.
  assert (Htree : exists tree, MerkleTreeUtils.generateMerkleTree oddBatch = Ok tree)
    by (eexists; vm_compute; reflexivity).
  destruct Htree as [tree Htree].
  exists tree. split; [exact Htree|]. exact (proofs_shape oddBatch tree Htree).
Defined.

Lemma roundtrip_power_of_two_witness :
  List.length pairBatch = (2 ^ 1)%nat /\
  Forall (fun r => validTimestamp (SensorData.timestamp r)) pairBatch /\
  exists tree root,
    MerkleTreeUtils.generateMerkleTree pairBatch = Ok tree /\
    (len pairBatch <= 2 ^ 31 -> merkleTree.generateMerkleTree pairBatch = Ok tree) /\
    merkleRoot tree = Some root /\
    forall (i : nat) (record : SensorData.t),
      nth_error pairBatch i = Some record ->
      exists leaf p,
        MerkleTreeUtils.leaf record = Ok leaf /\
        nth_error (proofs tree) i = Some (map Some p) /\
        List.length p = 1%nat /\
        MerkleTreeUtils.verifyProof leaf p root = Ok true.
Proof.
  assert (Hlen : List.length pairBatch = (2 ^ 1)%nat) by reflexivity.
  assert (Hts : Forall (fun r => validTimestamp (SensorData.timestamp r)) pairBatch)
    by (repeat constructor; vm_compute; discriminate).
  split; [exact Hlen|]. split; [exact Hts|].
  exact (roundtrip_power_of_two pairBatch 1 Hlen Hts).
Defined.

Lemma repeated_last_record_same_root_witness :
  pairBatch <> [] /\ Nat.Even (List.length pairBatch) /\
  (tree <- MerkleTreeUtils.generateMerkleTree (pairBatch ++ [thirdRecord; thirdRecord]) ;;
   Ok (merkleRoot tree)) =
  (tree <- MerkleTreeUtils.generateMerkleTree (pairBatch ++ [thirdRecord]) ;;
   Ok (merkleRoot tree)) /\
  (tree <- merkleTree.generateMerkleTree (pairBatch ++ [thirdRecord; thirdRecord]) ;;
   Ok (merkleRoot tree)) =
  (tree <- merkleTree.generateMerkleTree (pairBatch ++ [thirdRecord]) ;;
   Ok (merkleRoot tree)).
Proof.
  assert (Hne : pairBatch <> []) by discriminate.
  assert (Heven : Nat.Even (List.length pairBatch)) by (exists 1%nat; reflexivity).
  split; [exact Hne|]. split; [exact Heven|].
  exact (repeated_last_record_same_root pairBatch thirdRecord Hne Heven).
Defined.

Lemma swapped_pair_same_root_witness :
  let a := SensorData.mk "device-001" 1700000000000 (valueJson "20")
                         "temperature" "field-north" in
  let b := SensorData.mk "device-002" 1700000060000 (valueJson "61")
                         "humidity" "field-south" in
  Nat.Even (List.length (@nil SensorData.t)) /\
  Forall (fun r => validTimestamp (SensorData.timestamp r)) ([] ++ a :: b :: [thirdRecord]) /\
  exists tree tree' root,
    MerkleTreeUtils.generateMerkleTree ([] ++ a :: b :: [thirdRecord]) = Ok tree /\
    MerkleTreeUtils.generateMerkleTree ([] ++ b :: a :: [thirdRecord]) = Ok tree' /\
    merkleRoot tree = Some root /\ merkleRoot tree' = Some root /\
    exists tree2 tree2',
      merkleTree.generateMerkleTree ([] ++ a :: b :: [thirdRecord]) = Ok tree2 /\
      merkleTree.generateMerkleTree ([] ++ b :: a :: [thirdRecord]) = Ok tree2' /\
      merkleRoot tree2 = Some root /\ merkleRoot tree2' = Some root.
Proof.
  intros a b.
  assert (Heven : Nat.Even (List.length (@nil SensorData.t))) by (exists 0%nat; reflexivity).
  assert (Hts : Forall (fun r => validTimestamp (SensorData.timestamp r))
                       ([] ++ a :: b :: [thirdRecord]))
    by (repeat constructor; vm_compute; discriminate).
  split; [exact Heven|]. split; [exact Hts|].
  exact (swapped_pair_same_root [] [thirdRecord] a b Heven Hts).
Defined.

(** ** The contract: records *)

Lemma storeData_inv (st st' : IoTDataContract.State) (msg_sender : IoTData.address)
      (block_timestamp id : Z) (_deviceId _data _dataType _location : string) :
  IoTDataContract.storeData st msg_sender block_timestamp
    _deviceId _data _dataType _location = Ok (st', id) ->
  (IoTData.hasRole (IoTDataContract.storage st) IoTData.DEVICE_ROLE msg_sender
   || IoTData.hasRole (IoTDataContract.storage st) IoTData.ADMIN_ROLE msg_sender) = true /\
  IoTData.recordCounter (IoTDataContract.storage st) <> IoTData.MAX_UINT256 /\
  id = IoTData.recordCounter (IoTDataContract.storage st) /\
  st' =
  {| IoTDataContract.storage :=
       {| IoTData.hasRole := IoTData.hasRole (IoTDataContract.storage st);
          IoTData.sensorRecords := fun id' =>
            if id' =? id
            then IoTData.mkSensorData _deviceId block_timestamp _data _dataType _location
                   (Keccak.keccak256
                      (IoTData.encodePacked _deviceId block_timestamp _data _dataType
                                            _location))
            else IoTData.sensorRecords (IoTDataContract.storage st) id';
          IoTData.deviceRecords := fun d =>
            if (d =? _deviceId)%string
            then IoTData.deviceRecords (IoTDataContract.storage st) d ++ [id]
            else IoTData.deviceRecords (IoTDataContract.storage st) d;
          IoTData.recordCounter := id + 1 |};
     IoTDataContract.verifiedMerkleRoots := IoTDataContract.verifiedMerkleRoots st;
     IoTDataContract.dataBatches := IoTDataContract.dataBatches st;
     IoTDataContract.batchList := IoTDataContract.batchList st |}.
Proof.
  unfold IoTDataContract.storeData, IoTData.storeData.
  destruct (IoTData.hasRole _ IoTData.DEVICE_ROLE msg_sender
            || IoTData.hasRole _ IoTData.ADMIN_ROLE msg_sender); cbn [negb bind];
    [|discriminate].
  destruct (Z.eqb_spec (IoTData.recordCounter (IoTDataContract.storage st))
                       IoTData.MAX_UINT256) as [|Hmax]; cbn [bind]; [discriminate|].
  cbn [fst snd]. intros [= <- <-]. repeat split. exact Hmax.
Qed.

(** Round trip of a record: after [storeData] returns the id [id],
    [getData id] returns the stored fields with the block time, the record
    count has grown by one from [id], the next index does not exist yet, and
    every other index reads as before. *)
Theorem storeData_getData (st st' : IoTDataContract.State) (msg_sender : IoTData.address)
        (block_timestamp id : Z) (_deviceId _data _dataType _location : string) :
  IoTDataContract.storeData st msg_sender block_timestamp
    _deviceId _data _dataType _location = Ok (st', id) ->
  id = IoTDataContract.getRecordCount st /\
  IoTDataContract.getRecordCount st' = id + 1 /\
  IoTDataContract.getData st' id
    = Ok (_deviceId, block_timestamp, _data, _dataType, _location) /\
  IoTDataContract.getData st' (id + 1) = Throw (Revert "Record does not exist") /\
  (forall index, index <> id ->
     IoTDataContract.getData st' index = IoTDataContract.getData st index) /\
  IoTDataContract.getBatchCount st' = IoTDataContract.getBatchCount st.
Proof.
  intros Hstore. destruct (storeData_inv _ _ _ _ _ _ _ _ _ Hstore) as (_ & _ & Hid & ->).
  unfold IoTDataContract.getRecordCount, IoTDataContract.getData,
    IoTDataContract.getBatchCount.
  cbn [IoTDataContract.storage IoTDataContract.batchList IoTData.recordCounter
       IoTData.sensorRecords].
  split; [exact Hid|]. split; [reflexivity|]. split; [|split; [|split]].
  - destruct (Z.ltb_spec id (id + 1)); [|lia]. cbn [negb].
    rewrite Z.eqb_refl. reflexivity.
  - destruct (Z.ltb_spec (id + 1) (id + 1)); [lia | reflexivity].
  - intros index Hne. rewrite <- Hid.
    destruct (Z.eqb_spec index id) as [|_]; [contradiction|].
    destruct (Z.ltb_spec index (id + 1)); destruct (Z.ltb_spec index id);
      try lia; reflexivity.
  - reflexivity.
Qed.

(** [storeData] appends the new id to the ids of the device, and the latest
    data of the device is then the stored record; the ids of every other
    device are as before. *)
Theorem storeData_getLatestDeviceData
        (st st' : IoTDataContract.State) (msg_sender : IoTData.address)
        (block_timestamp id : Z) (_deviceId _data _dataType _location : string) :
  IoTDataContract.storeData st msg_sender block_timestamp
    _deviceId _data _dataType _location = Ok (st', id) ->
  IoTDataContract.getDeviceRecords st' _deviceId
    = IoTDataContract.getDeviceRecords st _deviceId ++ [id] /\
  IoTDataContract.getLatestDeviceData st' _deviceId
    = Ok (id, block_timestamp, _data, _dataType, _location) /\
  (forall other, other <> _deviceId ->
     IoTDataContract.getDeviceRecords st' other
     = IoTDataContract.getDeviceRecords st other).
Proof.
  intros Hstore. destruct (storeData_inv _ _ _ _ _ _ _ _ _ Hstore) as (_ & _ & Hid & ->).
  unfold IoTDataContract.getDeviceRecords, IoTDataContract.getLatestDeviceData.
  cbn [IoTDataContract.storage IoTData.deviceRecords IoTData.sensorRecords].
  rewrite String.eqb_refl. split; [reflexivity|]. split.
  - set (old := IoTData.deviceRecords (IoTDataContract.storage st) _deviceId).
    assert (Hlen : len (old ++ [id]) = len old + 1)
      by (unfold len; rewrite length_app; cbn [List.length]; lia).
    rewrite Hlen.
    destruct (Z.gtb_spec (len old + 1) 0) as [_ | Hle]; [|unfold len in Hle; lia].
    cbn [negb]. replace (len old + 1 - 1) with (Z.of_nat (List.length old))
      by (unfold len; lia).
    rewrite item_nat, nth_error_app2, Nat.sub_diag by lia. cbn [nth_error].
    rewrite Z.eqb_refl. reflexivity.
  - intros other Hne. destruct (String.eqb_spec other _deviceId); [contradiction|].
    reflexivity.
Qed.

(** ** The contract: what holds in every state *)

Lemma createBatch_inv (st st' : IoTDataContract.State) (msg_sender : IoTData.address)
      (block_timestamp _fromIndex _toIndex : Z) (_merkleRoot batchId : IoTData.bytes32)
      (_description : string) :
  IoTDataContract.createBatch st msg_sender block_timestamp _fromIndex _toIndex
    _merkleRoot _description = Ok (st', batchId) ->
  IoTData.hasRole (IoTDataContract.storage st) IoTData.ADMIN_ROLE msg_sender = true /\
  _fromIndex <= _toIndex < IoTData.recordCounter (IoTDataContract.storage st) /\
  batchId = Keccak.keccak256
              (IoTDataContract.encodeBatch _fromIndex _toIndex _merkleRoot block_timestamp) /\
  st' =
  {| IoTDataContract.storage := IoTDataContract.storage st;
     IoTDataContract.verifiedMerkleRoots := fun root =>
       if IoTDataContract.bytes32_eqb root _merkleRoot then true
       else IoTDataContract.verifiedMerkleRoots st root;
     IoTDataContract.dataBatches := fun id =>
       if IoTDataContract.bytes32_eqb id batchId
       then IoTDataContract.mkDataBatch _merkleRoot _fromIndex _toIndex block_timestamp
                                        _description
       else IoTDataContract.dataBatches st id;
     IoTDataContract.batchList := IoTDataContract.batchList st ++ [batchId] |}.
Proof.
  unfold IoTDataContract.createBatch.
  destruct (IoTData.hasRole _ IoTData.ADMIN_ROLE msg_sender); cbn [negb]; [|discriminate].
  destruct (Z.geb_spec _toIndex _fromIndex); cbn [negb]; [|discriminate].
  destruct (Z.ltb_spec _toIndex (IoTData.recordCounter (IoTDataContract.storage st)));
    cbn [negb]; [|discriminate].
  intros [= <- <-]. repeat split; assumption.
Qed.

Lemma bytes32_eqb_eq (a b : IoTData.bytes32) :
  IoTDataContract.bytes32_eqb a b = true <-> a = b.
Proof.
  unfold IoTDataContract.bytes32_eqb.
  destruct (list_eq_dec Byte.byte_eq_dec a b); split; congruence.
Qed.

Lemma bytes32_eqb_refl (a : IoTData.bytes32) : IoTDataContract.bytes32_eqb a a = true.
Proof. apply bytes32_eqb_eq. reflexivity. Qed.

Lemma recordsOf_next (st : IoTDataContract.State)
      (sensorRecords' : Z -> IoTData.SensorData) (d : string)
      (hasRole' : IoTData.bytes32 -> IoTData.address -> bool)
      (deviceRecords' : string -> list Z)
      (v : IoTData.bytes32 -> bool) (b : IoTData.bytes32 -> IoTDataContract.DataBatch)
      (l : list IoTData.bytes32) :
  let c := IoTData.recordCounter (IoTDataContract.storage st) in
  0 <= c ->
  (forall id, id <> c ->
     sensorRecords' id = IoTData.sensorRecords (IoTDataContract.storage st) id) ->
  IoTDataContract.recordsOf
    {| IoTDataContract.storage :=
         {| IoTData.hasRole := hasRole';
            IoTData.sensorRecords := sensorRecords';
            IoTData.deviceRecords := deviceRecords';
            IoTData.recordCounter := c + 1 |};
       IoTDataContract.verifiedMerkleRoots := v;
       IoTDataContract.dataBatches := b;
       IoTDataContract.batchList := l |} d =
  IoTDataContract.recordsOf st d ++
  (if (IoTData.deviceId (sensorRecords' c) =? d)%string then [c] else []).
Proof.
  intros c Hc Hsame. unfold IoTDataContract.recordsOf.
  cbn [IoTDataContract.storage IoTData.recordCounter IoTData.sensorRecords].
  fold c. replace (Z.to_nat (c + 1)) with (Z.to_nat c + 1)%nat by lia.
  rewrite seq_app, map_app, filter_app. cbn [seq map filter Nat.add].
  rewrite Z2Nat.id by exact Hc. f_equal.
  apply filter_ext_in. intros id Hid.
  apply in_map_iff in Hid. destruct Hid as (k & <- & Hk). apply in_seq in Hk.
  rewrite Hsame by lia. reflexivity.
Qed.

(** In every state of the contract: the record counter is a [uint256]; the
    ids listed for a device are the ids of its records, ascending; a stored
    record carries a [uint256] block time and the hash of its own fields; and
    every batch of the list covers records that exist, under a root that is
    marked as verified. *)
Lemma Reachable_invariant (st : IoTDataContract.State) :
  IoTDataContract.Reachable st ->
  IoTDataContract.uint256 (IoTData.recordCounter (IoTDataContract.storage st)) /\
  (forall d, IoTData.deviceRecords (IoTDataContract.storage st) d
             = IoTDataContract.recordsOf st d) /\
  (forall id, 0 <= id < IoTData.recordCounter (IoTDataContract.storage st) ->
     let record := IoTData.sensorRecords (IoTDataContract.storage st) id in
     IoTDataContract.uint256 (IoTData.timestamp record) /\
     IoTData.dataHash record =
     Keccak.keccak256
       (IoTData.encodePacked (IoTData.deviceId record) (IoTData.timestamp record)
          (IoTData.data record) (IoTData.dataType record) (IoTData.location record))) /\
  Forall (fun batchId =>
            let batch := IoTDataContract.dataBatches st batchId in
            0 <= IoTDataContract.fromIndex batch /\
            IoTDataContract.fromIndex batch <= IoTDataContract.toIndex batch /\
            IoTDataContract.toIndex batch
              < IoTData.recordCounter (IoTDataContract.storage st) /\
            List.length (IoTDataContract.merkleRoot batch) = 32%nat /\
            IoTDataContract.verifiedMerkleRoots st (IoTDataContract.merkleRoot batch)
              = true)
         (IoTDataContract.batchList st).
Proof.
  induction 1 as [sender
                 | st roles HR (Hc & Hidx & Hrec & Hbat)
                 | st st' sender ts id d x t l HR (Hc & Hidx & Hrec & Hbat) Hts Hstore
                 | st st' sender ts from to root batchId desc HR (Hc & Hidx & Hrec & Hbat)
                     Hts Hfrom Hto Hroot Hcreate].
  - cbn. unfold IoTDataContract.uint256, IoTData.MAX_UINT256.
    split; [lia|]. split; [reflexivity|]. split; [intros id Hid; lia | constructor].
  - cbn [IoTDataContract.storage IoTData.recordCounter IoTData.deviceRecords
         IoTData.sensorRecords IoTDataContract.batchList IoTDataContract.dataBatches
         IoTDataContract.verifiedMerkleRoots].
    split; [exact Hc|]. split; [exact Hidx|]. split; [exact Hrec | exact Hbat].
  - destruct (storeData_inv _ _ _ _ _ _ _ _ _ Hstore) as (_ & Hmax & Hid & ->).
    cbn [IoTDataContract.storage IoTData.recordCounter IoTData.deviceRecords
         IoTData.sensorRecords IoTDataContract.batchList IoTDataContract.dataBatches
         IoTDataContract.verifiedMerkleRoots].
    unfold IoTDataContract.uint256 in *. subst id.
    set (c := IoTData.recordCounter (IoTDataContract.storage st)) in *.
    split; [lia|]. split; [|split].
    + intros d'.
      rewrite (recordsOf_next st _ d') by
        first [ lia
              | intros id Hne; destruct (Z.eqb_spec id c); [contradiction | reflexivity] ].
      fold c. rewrite Z.eqb_refl. cbn [IoTData.deviceId].
      rewrite <- Hidx. rewrite (String.eqb_sym d' d).
      destruct (d =? d')%string; [reflexivity | rewrite app_nil_r; reflexivity].
    + intros id Hid. destruct (Z.eqb_spec id c) as [-> | Hne].
      * cbn. split; [exact Hts | reflexivity].
      * apply Hrec. lia.
    + revert Hbat. apply Forall_impl. intros b (H0 & H1 & H2 & H3 & H4).
      repeat split; try assumption. lia.
  - destruct (createBatch_inv _ _ _ _ _ _ _ _ _ Hcreate) as (_ & Hrange & Hid & ->).
    cbn [IoTDataContract.storage IoTDataContract.batchList IoTDataContract.dataBatches
         IoTDataContract.verifiedMerkleRoots].
    split; [exact Hc|]. split; [exact Hidx|]. split; [exact Hrec|].
    apply Forall_app. split.
    + revert Hbat. apply Forall_impl. intros b (H0 & H1 & H2 & H3 & H4).
      destruct (IoTDataContract.bytes32_eqb b batchId).
      * cbn. unfold IoTDataContract.uint256 in Hfrom.
        rewrite bytes32_eqb_refl. repeat split; lia.
      * repeat split; try assumption.
        destruct (IoTDataContract.bytes32_eqb _ root); [reflexivity | exact H4].
    + constructor; [|constructor]. rewrite bytes32_eqb_refl. cbn.
      unfold IoTDataContract.uint256 in Hfrom.
      rewrite bytes32_eqb_refl. repeat split; lia.
Qed.

Lemma recordsOf_In (st : IoTDataContract.State) (d : string) (id : Z) :
  In id (IoTDataContract.recordsOf st d) <->
  0 <= id < IoTData.recordCounter (IoTDataContract.storage st) /\
  IoTData.deviceId (IoTData.sensorRecords (IoTDataContract.storage st) id) = d.
Proof.
  unfold IoTDataContract.recordsOf. rewrite filter_In, in_map_iff. split.
  - intros [(k & <- & Hk) Hd]. apply in_seq in Hk. apply String.eqb_eq in Hd.
    split; [lia | exact Hd].
  - intros [Hid Hd]. split; [|apply String.eqb_eq, Hd].
    exists (Z.to_nat id). split; [lia|]. apply in_seq. lia.
Qed.

Lemma seq_ascending (n start : nat) :
  StronglySorted Z.lt (map Z.of_nat (seq start n)).
Proof.
  revert start. induction n as [|n IH]; intros start; cbn [seq map]; constructor.
  - apply IH.
  - rewrite Forall_forall. intros z Hz. apply in_map_iff in Hz.
    destruct Hz as (k & <- & Hk). apply in_seq in Hk. lia.
Qed.

Lemma filter_ascending (f : Z -> bool) (l : list Z) :
  StronglySorted Z.lt l -> StronglySorted Z.lt (filter f l).
Proof.
  induction 1 as [|x t Ht IH Hx]; cbn [filter]; [constructor|].
  destruct (f x); [|exact IH]. constructor; [exact IH|].
  rewrite Forall_forall in *. intros z Hz. apply filter_In in Hz. apply Hx, Hz.
Qed.

Lemma item_last_nat (A : Type) (xs : list A) (x : A) :
  item (xs ++ [x]) (len (xs ++ [x]) - 1) = Some x.
Proof.
  unfold len. rewrite length_app. cbn [List.length].
  replace (Z.of_nat (List.length xs + 1) - 1) with (Z.of_nat (List.length xs)) by lia.
  rewrite item_nat, nth_error_app2, Nat.sub_diag by lia. reflexivity.
Qed.

(** In every state of the contract the ids that [getDeviceRecords] lists for
    a device are exactly the ids of the records stored with that device id,
    in ascending order; [getLatestDeviceData] reverts when there is none and
    returns the record with the greatest of these ids otherwise. *)
Theorem device_records_index (st : IoTDataContract.State) (_deviceId : string) :
  IoTDataContract.Reachable st ->
  (forall id,
      In id (IoTDataContract.getDeviceRecords st _deviceId) <->
      exists timestamp data dataType location,
        0 <= id /\
        IoTDataContract.getData st id
        = Ok (_deviceId, timestamp, data, dataType, location)) /\
  StronglySorted Z.lt (IoTDataContract.getDeviceRecords st _deviceId) /\
  match rev (IoTDataContract.getDeviceRecords st _deviceId) with
  | [] =>
      IoTDataContract.getLatestDeviceData st _deviceId
      = Throw (Revert "No records for this device")
  | latest :: _ =>
      exists timestamp data dataType location,
        IoTDataContract.getData st latest
        = Ok (_deviceId, timestamp, data, dataType, location) /\
        IoTDataContract.getLatestDeviceData st _deviceId
        = Ok (latest, timestamp, data, dataType, location)
  end.
Proof.
  intros HR. destruct (Reachable_invariant st HR) as (Hc & Hidx & _ & _).
  unfold IoTDataContract.getDeviceRecords. rewrite Hidx.
  assert (Hget : forall id,
             In id (IoTDataContract.recordsOf st _deviceId) ->
             let record := IoTData.sensorRecords (IoTDataContract.storage st) id in
             IoTDataContract.getData st id
             = Ok (_deviceId, IoTData.timestamp record, IoTData.data record,
                   IoTData.dataType record, IoTData.location record)).
  { intros id Hin. apply recordsOf_In in Hin. destruct Hin as [Hid Hd].
    unfold IoTDataContract.getData.
    destruct (Z.ltb_spec id (IoTData.recordCounter (IoTDataContract.storage st))); [|lia].
    cbn [negb]. rewrite Hd. reflexivity. }
  split; [|split].
  - intros id. split.
    + intros Hin. pose proof (Hget id Hin) as H. apply recordsOf_In in Hin.
      do 4 eexists. split; [lia | exact H].
    + intros (ts & x & t & l & Hid & H). apply recordsOf_In.
      unfold IoTDataContract.getData in H.
      destruct (Z.ltb_spec id (IoTData.recordCounter (IoTDataContract.storage st)));
        cbn [negb] in H; [|discriminate].
      injection H as Hd _ _ _ _. split; [lia | exact Hd].
  - apply filter_ascending, seq_ascending.
  - unfold IoTDataContract.getLatestDeviceData. rewrite Hidx.
    destruct (rev (IoTDataContract.recordsOf st _deviceId)) as [|latest before] eqn:Hrev.
    + apply (f_equal (@rev Z)) in Hrev. rewrite rev_involutive in Hrev. rewrite Hrev.
      reflexivity.
    + apply (f_equal (@rev Z)) in Hrev. rewrite rev_involutive in Hrev.
      cbn [rev] in Hrev. rewrite Hrev in Hget |- *.
      rewrite item_last_nat.
      assert (Hpos : (len (rev before ++ [latest]) >? 0) = true).
      { unfold len. rewrite length_app. cbn [List.length]. apply Z.gtb_lt. lia. }
      rewrite Hpos. cbn [negb].
      do 4 eexists. split; [|reflexivity].
      apply Hget. apply in_or_app. right. left. reflexivity.
Qed.

(** ** The contract: batches *)

(** [createBatch] returns only for an administrator and a range
    [_fromIndex <= _toIndex] of records that exist.  It then adds one batch,
    which [getBatchByIndex] returns at the last index with the given root,
    range, block time and description, it leaves the records alone, and
    [verifyRecord] accepts the root from then on: for a record that exists it
    returns what the proof verification returns. *)
Theorem createBatch_effects
        (st st' : IoTDataContract.State) (msg_sender : IoTData.address)
        (block_timestamp _fromIndex _toIndex : Z) (_merkleRoot batchId : IoTData.bytes32)
        (_description : string) :
  IoTDataContract.createBatch st msg_sender block_timestamp _fromIndex _toIndex
    _merkleRoot _description = Ok (st', batchId) ->
  IoTData.hasRole (IoTDataContract.storage st) IoTData.ADMIN_ROLE msg_sender = true /\
  _fromIndex <= _toIndex < IoTDataContract.getRecordCount st /\
  IoTDataContract.getBatchCount st' = IoTDataContract.getBatchCount st + 1 /\
  IoTDataContract.getBatchByIndex st' (IoTDataContract.getBatchCount st)
    = Ok (batchId, _merkleRoot, _fromIndex, _toIndex, block_timestamp, _description) /\
  IoTDataContract.storage st' = IoTDataContract.storage st /\
  forall (verify : list IoTData.bytes32 -> IoTData.bytes32 -> IoTData.bytes32 -> bool)
         (_recordId : Z) (_merkleProof : list IoTData.bytes32),
    IoTDataContract.verifyRecord verify st' _recordId _merkleRoot _merkleProof =
    if _recordId <? IoTDataContract.getRecordCount st
    then Ok (verify _merkleProof _merkleRoot
               (IoTData.dataHash
                  (IoTData.sensorRecords (IoTDataContract.storage st) _recordId)))
    else Throw (Revert "Record doesn't exist").
Proof.
  intros Hcreate.
  destruct (createBatch_inv _ _ _ _ _ _ _ _ _ Hcreate) as (Hadmin & Hrange & Hid & ->).
  unfold IoTDataContract.getRecordCount, IoTDataContract.getBatchCount,
    IoTDataContract.getBatchByIndex, IoTDataContract.verifyRecord.
  cbn [IoTDataContract.storage IoTDataContract.batchList IoTDataContract.dataBatches
       IoTDataContract.verifiedMerkleRoots].
  split; [exact Hadmin|]. split; [exact Hrange|].
  split; [unfold len; rewrite length_app; cbn [List.length]; lia|].
  split; [|split; [reflexivity|]].
  - assert (Hlt : (len (IoTDataContract.batchList st)
                   <? len (IoTDataContract.batchList st ++ [batchId])) = true).
    { apply Z.ltb_lt. unfold len. rewrite length_app. cbn [List.length]. lia. }
    rewrite Hlt. cbn [negb]. unfold len at 1.
    rewrite item_nat, nth_error_app2, Nat.sub_diag by lia. cbn [nth_error].
    rewrite bytes32_eqb_refl. reflexivity.
  - intros verify _recordId _merkleProof. rewrite bytes32_eqb_refl. cbn [negb].
    destruct (_recordId <? IoTData.recordCounter (IoTDataContract.storage st));
      reflexivity.
Qed.

(** In every state of the contract each index below the batch count holds a
    batch whose range [fromIndex <= toIndex] lies within the stored records,
    and for every record of the range [verifyRecord] with the root of the
    batch returns what the proof verification returns; no batch exists
    before a record does, and an index from the batch count on reverts. *)
Theorem batches_cover_records (st : IoTDataContract.State) :
  IoTDataContract.Reachable st ->
  (forall index, 0 <= index < IoTDataContract.getBatchCount st ->
     exists batchId merkleRoot fromIndex toIndex timestamp description,
       IoTDataContract.getBatchByIndex st index
       = Ok (batchId, merkleRoot, fromIndex, toIndex, timestamp, description) /\
       0 <= fromIndex /\ fromIndex <= toIndex /\
       toIndex < IoTDataContract.getRecordCount st /\
       forall (verify : list IoTData.bytes32 -> IoTData.bytes32 -> IoTData.bytes32 -> bool)
              (_recordId : Z) (_merkleProof : list IoTData.bytes32),
         fromIndex <= _recordId <= toIndex ->
         IoTDataContract.verifyRecord verify st _recordId merkleRoot _merkleProof =
         Ok (verify _merkleProof merkleRoot
               (IoTData.dataHash
                  (IoTData.sensorRecords (IoTDataContract.storage st) _recordId)))) /\
  (IoTDataContract.getRecordCount st = 0 -> IoTDataContract.getBatchCount st = 0) /\
  (forall index, IoTDataContract.getBatchCount st <= index ->
     IoTDataContract.getBatchByIndex st index
     = Throw (Revert "Batch index out of range")).
Proof.
  intros HR. destruct (Reachable_invariant st HR) as (_ & _ & _ & Hbat).
  unfold IoTDataContract.getBatchCount, IoTDataContract.getBatchByIndex,
    IoTDataContract.getRecordCount, IoTDataContract.verifyRecord.
  split; [|split].
  - intros index Hi.
    destruct (Z.ltb_spec index (len (IoTDataContract.batchList st))); [|lia].
    cbn [negb]. unfold item. destruct (Z.ltb_spec index 0); [lia|].
    destruct (nth_error (IoTDataContract.batchList st) (Z.to_nat index)) as [batchId|] eqn:Hn.
    + rewrite Forall_forall in Hbat.
      destruct (Hbat batchId (nth_error_In _ _ Hn)) as (Hfrom & Hle & Hto & _ & Hver).
      do 6 eexists. split; [reflexivity|].
      split; [exact Hfrom|]. split; [exact Hle|]. split; [exact Hto|].
      intros verify _recordId _merkleProof Hin. rewrite Hver. cbn [negb].
      destruct (Z.ltb_spec _recordId (IoTData.recordCounter (IoTDataContract.storage st)));
        [reflexivity | lia].
    + apply nth_error_None in Hn. unfold len in *. lia.
  - intros Hzero. destruct (IoTDataContract.batchList st) as [|b t]; [reflexivity|].
    inversion Hbat as [|? ? (Hfrom & Hle & Hto & _) _]; subst. lia.
  - intros index Hi.
    destruct (Z.ltb_spec index (len (IoTDataContract.batchList st))); [lia | reflexivity].
Qed.

(** ** The contract: metrics of a device *)

(** The loop of [getDeviceMetrics] as a fold over the records it counts. *)
Lemma metricsLoop_fold (st : IoTDataContract.State) (_dataType : string)
      (_fromTimestamp _toTimestamp : Z) (ids : list Z) :
  forall count firstTs lastTs,
    0 <= count -> count + len ids <= IoTData.MAX_UINT256 ->
    IoTDataContract.metricsLoop st ids _dataType _fromTimestamp _toTimestamp
                                count firstTs lastTs =
    Ok (fold_left
          (fun '(count, firstTs, lastTs) record =>
             (count + 1,
              if (firstTs =? 0) || (IoTData.timestamp record <? firstTs)
              then IoTData.timestamp record else firstTs,
              if IoTData.timestamp record >? lastTs
              then IoTData.timestamp record else lastTs))
          (filter (fun record =>
                     negb (IoTDataContract.outsideFilter record _dataType
                                                         _fromTimestamp _toTimestamp))
                  (map (IoTData.sensorRecords (IoTDataContract.storage st)) ids))
          (count, firstTs, lastTs)).
Proof.
  induction ids as [|id rest IH]; intros count firstTs lastTs Hc Hmax; [reflexivity|].
  assert (Hlen : len (id :: rest) = len rest + 1)
    by (unfold len; cbn [List.length]; lia).
  assert (0 <= len rest) by (unfold len; lia).
  cbn [IoTDataContract.metricsLoop map filter].
  destruct (IoTDataContract.outsideFilter _ _ _ _); cbn [negb fold_left].
  - apply IH; lia.
  - destruct (Z.eqb_spec count IoTData.MAX_UINT256); [lia|].
    apply IH; lia.
Qed.

Lemma metrics_fold_spec (records : list IoTData.SensorData) :
  forall count firstTs lastTs,
    Forall (fun r => 0 <= IoTData.timestamp r) records ->
    0 <= firstTs -> 0 <= lastTs ->
    exists firstTs' lastTs',
      fold_left
        (fun '(count, firstTs, lastTs) record =>
           (count + 1,
            if (firstTs =? 0) || (IoTData.timestamp record <? firstTs)
            then IoTData.timestamp record else firstTs,
            if IoTData.timestamp record >? lastTs
            then IoTData.timestamp record else lastTs))
        records (count, firstTs, lastTs)
      = (count + len records, firstTs', lastTs') /\
      (records = [] -> firstTs' = firstTs /\ lastTs' = lastTs) /\
      lastTs <= lastTs' /\
      (forall r, In r records -> IoTData.timestamp r <= lastTs') /\
      (lastTs' = lastTs \/ exists r, In r records /\ IoTData.timestamp r = lastTs') /\
      (Forall (fun r => 0 < IoTData.timestamp r) records ->
       (0 < firstTs -> firstTs' <= firstTs) /\
       (forall r, In r records -> firstTs' <= IoTData.timestamp r) /\
       (firstTs' = firstTs \/ exists r, In r records /\ IoTData.timestamp r = firstTs') /\
       (records <> [] -> 0 < firstTs')).
Proof.
  induction records as [|r rest IH]; intros count firstTs lastTs Hts Hf Hl.
  - exists firstTs, lastTs. cbn [fold_left]. unfold len. cbn [List.length].
    rewrite Z.add_0_r. split; [reflexivity|]. split; [auto|]. split; [lia|].
    split; [intros r []|]. split; [left; reflexivity|].
    intros _. split; [lia|]. split; [intros r []|]. split; [left; reflexivity|].
    intros H. contradiction.
  - inversion Hts as [|? ? Hr Hrest]; subst. cbn [fold_left].
    set (f1 := if (firstTs =? 0) || (IoTData.timestamp r <? firstTs)
               then IoTData.timestamp r else firstTs).
    set (l1 := if IoTData.timestamp r >? lastTs then IoTData.timestamp r else lastTs).
    assert (Hf1 : 0 <= f1) by (subst f1; destruct (_ || _); lia).
    assert (Hl1 : lastTs <= l1 /\ IoTData.timestamp r <= l1 /\
                  (l1 = lastTs \/ l1 = IoTData.timestamp r)).
    { subst l1. destruct (Z.gtb_spec (IoTData.timestamp r) lastTs); lia. }
    destruct (IH (count + 1) f1 l1 Hrest Hf1) as (f' & l' & Hfold & _ & Hmono & Hmax & Hatt & Hfirst);
      [lia|].
    exists f', l'. rewrite Hfold.
    split; [f_equal; f_equal; unfold len; cbn [List.length]; lia|].
    split; [discriminate|]. split; [lia|]. split; [|split].
    + intros x [<- | Hx]; [lia | apply Hmax, Hx].
    + destruct Hatt as [-> | (x & Hx & Hxl)].
      * destruct Hl1 as (_ & _ & [-> | ->]); [left; reflexivity|].
        right. exists r. split; [left; reflexivity | reflexivity].
      * right. exists x. split; [right; exact Hx | exact Hxl].
    + intros Hpos. inversion Hpos as [|? ? Hrpos Hrestpos]; subst.
      destruct (Hfirst Hrestpos) as (Hle & Hmin & Hatt1 & _).
      assert (Hf1' : 0 < f1 /\ f1 <= IoTData.timestamp r /\ (0 < firstTs -> f1 <= firstTs) /\
                     (f1 = firstTs \/ f1 = IoTData.timestamp r)).
      { subst f1. destruct (Z.eqb_spec firstTs 0); cbn [orb]; [lia|].
        destruct (Z.ltb_spec (IoTData.timestamp r) firstTs); lia. }
      destruct Hf1' as (Hf1pos & Hf1r & Hf1f & Hf1c).
      specialize (Hle Hf1pos).
      split; [intros Hfp; specialize (Hf1f Hfp); lia|]. split; [|split].
      * intros x [<- | Hx]; [lia | apply Hmin, Hx].
      * destruct Hatt1 as [-> | (x & Hx & Hxf)].
        -- destruct Hf1c as [-> | ->]; [left; reflexivity|].
           right. exists r. split; [left; reflexivity | reflexivity].
        -- right. exists x. split; [right; exact Hx | exact Hxf].
      * intros _. destruct Hatt1 as [-> | (x & Hx & <-)]; [exact Hf1pos|].
        rewrite Forall_forall in Hrestpos. apply Hrestpos, Hx.
Qed.

(** In every state of the contract [getDeviceMetrics] returns, and what it
    returns describes the records of the device that pass the three filters:
    their number, the greatest of their block times as [lastTimestamp], and,
    when none of them has the block time 0, the least as [firstTimestamp];
    without such a record both are 0. *)
Theorem getDeviceMetrics_summary (st : IoTDataContract.State)
        (_deviceId _dataType : string) (_fromTimestamp _toTimestamp : Z) :
  IoTDataContract.Reachable st ->
  let records :=
    IoTDataContract.counted st _deviceId _dataType _fromTimestamp _toTimestamp in
  exists firstTimestamp lastTimestamp,
    IoTDataContract.getDeviceMetrics st _deviceId _dataType _fromTimestamp _toTimestamp
    = Ok (len records, firstTimestamp, lastTimestamp) /\
    (records = [] -> firstTimestamp = 0 /\ lastTimestamp = 0) /\
    (forall r, In r records -> IoTData.timestamp r <= lastTimestamp) /\
    (records <> [] -> exists r, In r records /\ IoTData.timestamp r = lastTimestamp) /\
    (Forall (fun r => 0 < IoTData.timestamp r) records ->
     (forall r, In r records -> firstTimestamp <= IoTData.timestamp r) /\
     (records <> [] ->
      exists r, In r records /\ IoTData.timestamp r = firstTimestamp)).
Proof.
  intros HR records.
  destruct (Reachable_invariant st HR) as (Hc & Hidx & Hrec & _).
  unfold IoTDataContract.getDeviceMetrics.
  assert (Hids : Forall (fun id => 0 <= id < IoTData.recordCounter (IoTDataContract.storage st))
                        (IoTData.deviceRecords (IoTDataContract.storage st) _deviceId)).
  { rewrite Hidx, Forall_forall. intros id Hid. apply recordsOf_In in Hid. tauto. }
  assert (Hlen : len (IoTData.deviceRecords (IoTDataContract.storage st) _deviceId)
                 <= IoTData.MAX_UINT256).
  { rewrite Hidx. unfold IoTDataContract.recordsOf, len.
    pose proof (filter_length_le
                  (fun id => (IoTData.deviceId
                                (IoTData.sensorRecords (IoTDataContract.storage st) id)
                              =? _deviceId)%string)
                  (map Z.of_nat
                       (seq 0 (Z.to_nat (IoTData.recordCounter (IoTDataContract.storage st))))))
      as Hle.
    rewrite length_map, length_seq in Hle. unfold IoTDataContract.uint256 in Hc. lia. }
  rewrite metricsLoop_fold by lia.
  fold (IoTDataContract.counted st _deviceId _dataType _fromTimestamp _toTimestamp).
  fold records.
  assert (Hts : Forall (fun r => 0 <= IoTData.timestamp r) records).
  { subst records. unfold IoTDataContract.counted. rewrite Forall_forall.
    intros r Hr. apply filter_In in Hr. destruct Hr as [Hr _].
    apply in_map_iff in Hr. destruct Hr as (id & <- & Hid).
    rewrite Forall_forall in Hids. destruct (Hrec id (Hids id Hid)) as [Hu _].
    unfold IoTDataContract.uint256 in Hu. lia. }
  destruct (metrics_fold_spec records 0 0 0 Hts) as (f & l & Hfold & Hnil & _ & Hmax & Hatt & Hfirst);
    try lia.
  exists f, l. rewrite Hfold. cbn [Z.add].
  split; [reflexivity|]. split; [exact Hnil|]. split; [exact Hmax|]. split.
  - intros Hne. destruct Hatt as [-> | H]; [|exact H].
    destruct records as [|r rest]; [contradiction|].
    inversion Hts as [|? ? Hr _]; subst.
    exists r. split; [left; reflexivity|].
    pose proof (Hmax r (or_introl eq_refl)). lia.
  - intros Hpos. destruct (Hfirst Hpos) as (_ & Hmin & Hatt1 & Hfpos).
    split; [exact Hmin|]. intros Hne. specialize (Hfpos Hne).
    destruct Hatt1 as [-> | H]; [lia | exact H].
Qed.

(** ** The example states *)

Lemma contractStoredOnce_call :
  IoTDataContract.storeData (IoTDataContract.deployed 1) 1 1700000000
    "device-001" (valueJson "20") "temperature" "field-north"
  = Ok (contractStoredOnce, 0).
Proof. vm_compute. reflexivity. Qed.

Lemma contractStoredTwice_call :
  IoTDataContract.storeData contractStoredOnce 1 1700000060
    "device-001" (valueJson "22") "temperature" "field-north"
  = Ok (contractStoredTwice, 1).
Proof. vm_compute. reflexivity. Qed.

Lemma contractBatched_call :
  exists batchId,
    IoTDataContract.createBatch contractStoredTwice 1 1700000100 0 1 exampleRoot
      "first batch" = Ok (contractBatched, batchId).
Proof. eexists. vm_compute. reflexivity. Qed.

Lemma uint256_example (n : Z) :
  0 <= n <= 1700000100 -> IoTDataContract.uint256 n.
Proof.
  intros H. split; [lia|].
  assert (1700000100 <= IoTData.MAX_UINT256) by (vm_compute; discriminate). lia.
Qed.

Lemma contractStoredTwice_Reachable : IoTDataContract.Reachable contractStoredTwice.
Proof.
  eapply IoTDataContract.Reachable_storeData; [| |exact contractStoredTwice_call].
  - eapply IoTDataContract.Reachable_storeData; [| |exact contractStoredOnce_call].
    + apply IoTDataContract.Reachable_deployed.
    + apply uint256_example. lia.
  - apply uint256_example. lia.
Qed.

Lemma contractBatched_Reachable : IoTDataContract.Reachable contractBatched.
Proof.
  destruct contractBatched_call as [batchId Hcall].
  eapply IoTDataContract.Reachable_createBatch; [| | | | |exact Hcall].
  - exact contractStoredTwice_Reachable.
  - apply uint256_example. lia.
  - apply uint256_example. lia.
  - apply uint256_example. lia.
  - reflexivity.
Qed.

Lemma storeData_getData_witness :
  IoTDataContract.storeData (IoTDataContract.deployed 1) 1 1700000000
    "device-001" (valueJson "20") "temperature" "field-north"
  = Ok (contractStoredOnce, 0) /\
  IoTDataContract.getRecordCount contractStoredOnce = 0 + 1 /\
  IoTDataContract.getData contractStoredOnce 0
  = Ok ("device-001", 1700000000, valueJson "20", "temperature", "field-north") /\
  IoTDataContract.getData contractStoredOnce (0 + 1)
  = Throw (Revert "Record does not exist").
Proof.
  assert (Hcall :
    IoTDataContract.storeData (IoTDataContract.deployed 1) 1 1700000000
      "device-001" (valueJson "20") "temperature" "field-north"
    = Ok (contractStoredOnce, 0)) by (vm_compute; reflexivity).
  split; [exact Hcall|].
  destruct (storeData_getData _ _ _ _ _ _ _ _ _ Hcall)
    as (_ & Hcount & Hget & Hnext & _).
  split; [exact Hcount|]. split; [exact Hget | exact Hnext].
Defined.

Lemma storeData_getLatestDeviceData_witness :
  IoTDataContract.storeData contractStoredOnce 1 1700000060
    "device-001" (valueJson "22") "temperature" "field-north"
  = Ok (contractStoredTwice, 1) /\
  IoTDataContract.getDeviceRecords contractStoredTwice "device-001"
  = IoTDataContract.getDeviceRecords contractStoredOnce "device-001" ++ [1] /\
  IoTDataContract.getLatestDeviceData contractStoredTwice "device-001"
  = Ok (1, 1700000060, valueJson "22", "temperature", "field-north").
Proof.
  assert (Hcall :
    IoTDataContract.storeData contractStoredOnce 1 1700000060
      "device-001" (valueJson "22") "temperature" "field-north"
    = Ok (contractStoredTwice, 1)) by (vm_compute; reflexivity).
  split; [exact Hcall|].
  destruct (storeData_getLatestDeviceData _ _ _ _ _ _ _ _ _ Hcall)
    as (Hrecords & Hlatest & _).
  split; [exact Hrecords | exact Hlatest].
Defined.

Lemma device_records_index_witness :
  IoTDataContract.Reachable contractStoredTwice /\
  StronglySorted Z.lt (IoTDataContract.getDeviceRecords contractStoredTwice "device-001") /\
  forall id,
    In id (IoTDataContract.getDeviceRecords contractStoredTwice "device-001") <->
    exists timestamp data dataType location,
      0 <= id /\
      IoTDataContract.getData contractStoredTwice id
      = Ok ("device-001", timestamp, data, dataType, location).
Proof.
  assert (Hreach : IoTDataContract.Reachable contractStoredTwice).
  { eapply IoTDataContract.Reachable_storeData;
      [| |exact contractStoredTwice_call].
    - eapply IoTDataContract.Reachable_storeData;
        [| |exact contractStoredOnce_call].
      + apply IoTDataContract.Reachable_deployed.
      + split; vm_compute; discriminate.
    - split; vm_compute; discriminate. }
  split; [exact Hreach|].
  destruct (device_records_index contractStoredTwice "device-001" Hreach)
    as (Hindex & Hsorted & _).
  split; [exact Hsorted | exact Hindex].
Defined.

Lemma createBatch_effects_witness :
  exists batchId,
    IoTDataContract.createBatch contractStoredTwice 1 1700000100 0 1 exampleRoot
      "first batch" = Ok (contractBatched, batchId) /\
    IoTDataContract.getBatchCount contractBatched
    = IoTDataContract.getBatchCount contractStoredTwice + 1 /\
    IoTDataContract.getBatchByIndex contractBatched
      (IoTDataContract.getBatchCount contractStoredTwice)
    = Ok (batchId, exampleRoot, 0, 1, 1700000100, "first batch") /\
    IoTDataContract.storage contractBatched = IoTDataContract.storage contractStoredTwice.
Proof.
  assert (Hcall : exists batchId,
    IoTDataContract.createBatch contractStoredTwice 1 1700000100 0 1 exampleRoot
      "first batch" = Ok (contractBatched, batchId))
    by (eexists; vm_compute; reflexivity).
  destruct Hcall as [batchId Hcall]. exists batchId.
  split; [exact Hcall|].
  destruct (createBatch_effects _ _ _ _ _ _ _ _ _ Hcall)
    as (_ & _ & Hcount & Hget & Hstorage & _).
  split; [exact Hcount|]. split; [exact Hget | exact Hstorage].
Defined.

Lemma batches_cover_records_witness :
  IoTDataContract.Reachable contractBatched /\
  (forall index, 0 <= index < IoTDataContract.getBatchCount contractBatched ->
     exists batchId merkleRoot fromIndex toIndex timestamp description,
       IoTDataContract.getBatchByIndex contractBatched index
       = Ok (batchId, merkleRoot, fromIndex, toIndex, timestamp, description) /\
       0 <= fromIndex /\ fromIndex <= toIndex /\
       toIndex < IoTDataContract.getRecordCount contractBatched /\
       forall (verify : list IoTData.bytes32 -> IoTData.bytes32 -> IoTData.bytes32 -> bool)
              (_recordId : Z) (_merkleProof : list IoTData.bytes32),
         fromIndex <= _recordId <= toIndex ->
         IoTDataContract.verifyRecord verify contractBatched _recordId merkleRoot
           _merkleProof =
         Ok (verify _merkleProof merkleRoot
               (IoTData.dataHash
                  (IoTData.sensorRecords (IoTDataContract.storage contractBatched)
                                         _recordId)))).
Proof.
  assert (Hreach : IoTDataContract.Reachable contractBatched)
    by exact contractBatched_Reachable.
  split; [exact Hreach|].
  destruct (batches_cover_records contractBatched Hreach) as (Hbatches & _).
  exact Hbatches.
Defined.

Lemma getDeviceMetrics_summary_witness :
  IoTDataContract.Reachable contractStoredTwice /\
  exists firstTimestamp lastTimestamp,
    IoTDataContract.getDeviceMetrics contractStoredTwice "device-001" "temperature" 0 0
    = Ok (len (IoTDataContract.counted contractStoredTwice "device-001" "temperature" 0 0),
          firstTimestamp, lastTimestamp) /\
    (forall r,
        In r (IoTDataContract.counted contractStoredTwice "device-001" "temperature" 0 0) ->
        IoTData.timestamp r <= lastTimestamp).
Proof.
  assert (Hreach : IoTDataContract.Reachable contractStoredTwice)
    by exact contractStoredTwice_Reachable.
  split; [exact Hreach|].
  pose proof (getDeviceMetrics_summary contractStoredTwice "device-001" "temperature"
                0 0 Hreach) as H.
  cbv zeta in H. destruct H as (firstTimestamp & lastTimestamp & Hget & _ & Hlast & _).
  exists firstTimestamp, lastTimestamp. split; [exact Hget | exact Hlast].
Defined.

(** ** Proof verification on chain and off chain *)

Lemma hexDigit_compare (m n : N) :
  (m < 16)%N -> (n < 16)%N ->
  Ascii.compare (ethers.hexDigit m) (ethers.hexDigit n) = (m ?= n)%N.
Proof.
  intros Hm Hn. unfold Ascii.compare, ethers.hexDigit.
  rewrite !N_ascii_embedding
    by (destruct (N.ltb_spec m 10); destruct (N.ltb_spec n 10); lia).
  destruct (N.compare_spec m n) as [-> | Hlt | Hgt].
  - apply N.compare_refl.
  - apply N.compare_lt_iff.
    destruct (N.ltb_spec m 10); destruct (N.ltb_spec n 10); lia.
  - apply N.compare_gt_iff.
    destruct (N.ltb_spec m 10); destruct (N.ltb_spec n 10); lia.
Qed.

Lemma compare_base16 (qa ra qb rb : N) :
  (ra < 16)%N -> (rb < 16)%N ->
  (16 * qa + ra ?= 16 * qb + rb)%N
  = match (qa ?= qb)%N with
    | Eq => (ra ?= rb)%N
    | c => c
    end.
Proof.
  intros Hra Hrb.
  destruct (N.compare_spec qa qb) as [-> | Hq | Hq].
  - destruct (N.compare_spec ra rb) as [-> | Hr | Hr].
    + apply N.compare_refl.
    + apply N.compare_lt_iff. lia.
    + apply N.compare_gt_iff. lia.
  - apply N.compare_lt_iff. lia.
  - apply N.compare_gt_iff. lia.
Qed.

(** Two hex digits compare as the byte they spell. *)
Lemma hex_byte_compare (x y : byte) (s t : string) :
  String.compare
    (String (ethers.hexDigit (Byte.to_N x / 16))
            (String (ethers.hexDigit (Byte.to_N x mod 16)) s))
    (String (ethers.hexDigit (Byte.to_N y / 16))
            (String (ethers.hexDigit (Byte.to_N y mod 16)) t))
  = match (Byte.to_N x ?= Byte.to_N y)%N with
    | Eq => String.compare s t
    | c => c
    end.
Proof.
  pose proof (Byte.to_N_bounded x) as Hx. pose proof (Byte.to_N_bounded y) as Hy.
  set (a := Byte.to_N x) in *. set (b := Byte.to_N y) in *.
  assert (Ha : (a / 16 < 16)%N) by (apply N.Div0.div_lt_upper_bound; lia).
  assert (Hb : (b / 16 < 16)%N) by (apply N.Div0.div_lt_upper_bound; lia).
  assert (Ha' : (a mod 16 < 16)%N) by (apply N.mod_lt; lia).
  assert (Hb' : (b mod 16 < 16)%N) by (apply N.mod_lt; lia).
  cbn [String.compare].
  rewrite !hexDigit_compare by assumption.
  rewrite (N.div_mod a 16) at 3 by lia. rewrite (N.div_mod b 16) at 3 by lia.
  rewrite (compare_base16 _ _ _ _ Ha' Hb').
  destruct (a / 16 ?= b / 16)%N; [|reflexivity..].
  destruct (a mod 16 ?= b mod 16)%N; reflexivity.
Qed.

(** Lower-case hex strings of the same length are ordered as the bytes they
    spell, most significant byte first. *)
Lemma bytes_ltb_hex (a : list byte) :
  forall b, List.length a = List.length b ->
    MerkleProof.bytes_ltb a b
    = (ethers.hexOfBytes a <? ethers.hexOfBytes b)%string.
Proof.
  unfold String.ltb.
  induction a as [|x a IH]; intros [|y b] Hlen; try discriminate Hlen; [reflexivity|].
  cbn [MerkleProof.bytes_ltb ethers.hexOfBytes].
  rewrite hex_byte_compare.
  destruct (N.compare_spec (Byte.to_N x) (Byte.to_N y)) as [Heq | Hlt | Hgt].
  - rewrite Heq, N.ltb_irrefl. apply IH. cbn [List.length] in Hlen. lia.
  - apply N.ltb_lt in Hlt. rewrite Hlt. reflexivity.
  - destruct (N.ltb_spec (Byte.to_N x) (Byte.to_N y)); [lia|].
    apply N.ltb_lt in Hgt. rewrite Hgt. reflexivity.
Qed.

Lemma hexlify_ltb (a b : list byte) :
  List.length a = List.length b ->
  (ethers.hexlify a <? ethers.hexlify b)%string = MerkleProof.bytes_ltb a b.
Proof.
  intros Hlen. rewrite (bytes_ltb_hex a b Hlen). reflexivity.
Qed.

Lemma hexlify_inj (a b : list byte) : ethers.hexlify a = ethers.hexlify b -> a = b.
Proof.
  intros H. apply (f_equal ethers.getBytes) in H.
  rewrite !getBytes_hexlify in H. congruence.
Qed.

Lemma hexlify_eqb (a b : list byte) :
  (ethers.hexlify a =? ethers.hexlify b)%string = IoTDataContract.bytes32_eqb a b.
Proof.
  unfold IoTDataContract.bytes32_eqb.
  destruct (list_eq_dec Byte.byte_eq_dec a b) as [-> | Hne].
  - apply String.eqb_refl.
  - apply String.eqb_neq. intros H. apply Hne, hexlify_inj, H.
Qed.

Lemma pack_hexlify (a : list byte) :
  List.length a = 32%nat ->
  ethers._pack ethers.T_bytes32 (ethers.V_string (ethers.hexlify a)) = Ok a.
Proof.
  intros Hlen. unfold ethers._pack. rewrite getBytes_hexlify. cbn [bind].
  rewrite Hlen. reflexivity.
Qed.

(** The node hash of two digests in hex is the pair hash of OpenZeppelin on
    their bytes. *)
Lemma hashNode_commutativeKeccak256 (a b : IoTData.bytes32) :
  List.length a = 32%nat -> List.length b = 32%nat ->
  MerkleTreeUtils.hashNode (ethers.hexlify a) (ethers.hexlify b)
  = Ok (ethers.hexlify (MerkleProof.commutativeKeccak256 a b)).
Proof.
  intros Ha Hb.
  unfold MerkleTreeUtils.hashNode, MerkleTreeUtils.sortPairs,
    MerkleProof.commutativeKeccak256.
  rewrite hexlify_ltb by congruence.
  destruct (MerkleProof.bytes_ltb a b);
    unfold ethers.solidityPackedKeccak256; cbn [ethers.solidityPacked];
    rewrite !pack_hexlify by assumption; cbn [bind]; rewrite app_nil_r; reflexivity.
Qed.

Lemma commutativeKeccak256_length (a b : IoTData.bytes32) :
  List.length (MerkleProof.commutativeKeccak256 a b) = 32%nat.
Proof.
  unfold MerkleProof.commutativeKeccak256.
  destruct (MerkleProof.bytes_ltb a b); apply keccak256_length.
Qed.

Lemma verifyLoop_processProof (proof : list IoTData.bytes32) :
  forall leaf,
    List.length leaf = 32%nat ->
    Forall (fun p => List.length p = 32%nat) proof ->
    MerkleTreeUtils.verifyLoop (ethers.hexlify leaf) (map ethers.hexlify proof)
    = Ok (ethers.hexlify (MerkleProof.processProof proof leaf)).
Proof.
  induction proof as [|p rest IH]; intros leaf Hleaf Hall; [reflexivity|].
  inversion Hall as [|? ? Hp Hrest]; subst.
  cbn [map MerkleTreeUtils.verifyLoop MerkleProof.processProof].
  rewrite (hashNode_commutativeKeccak256 leaf p Hleaf Hp). cbn [bind].
  apply IH; [apply commutativeKeccak256_length | exact Hrest].
Qed.

Lemma verifyProof_on_bytes
      (proof : list IoTData.bytes32) (root leaf : IoTData.bytes32) :
  List.length leaf = 32%nat ->
  Forall (fun p => List.length p = 32%nat) proof ->
  MerkleTreeUtils.verifyProof (ethers.hexlify leaf) (map ethers.hexlify proof)
                              (ethers.hexlify root)
  = Ok (MerkleProof.verify proof root leaf).
Proof.
  intros Hleaf Hall. unfold MerkleTreeUtils.verifyProof, MerkleProof.verify.
  rewrite (verifyLoop_processProof proof leaf Hleaf Hall). cbn [bind].
  rewrite hexlify_eqb. reflexivity.
Qed.

(** The verifier of merkleTreeUtils.ts and [MerkleProof.verify] decide the
    same: on a leaf, a proof and a root of 32 bytes each, [verifyProof] on
    their lower-case hex strings returns what [MerkleProof.verify] returns
    on the bytes, and the node hash of two such strings is the hex string of
    the pair hash of their bytes. *)
Theorem verifyProof_is_MerkleProof_verify
        (proof : list IoTData.bytes32) (root leaf : IoTData.bytes32) :
  List.length leaf = 32%nat ->
  Forall (fun p => List.length p = 32%nat) proof ->
  MerkleTreeUtils.verifyProof (ethers.hexlify leaf) (map ethers.hexlify proof)
                              (ethers.hexlify root)
  = Ok (MerkleProof.verify proof root leaf) /\
  Forall (fun p =>
            MerkleTreeUtils.hashNode (ethers.hexlify leaf) (ethers.hexlify p)
            = Ok (ethers.hexlify (MerkleProof.commutativeKeccak256 leaf p)))
         proof.
Proof.
  intros Hleaf Hall. split; [apply verifyProof_on_bytes; assumption|].
  revert Hall. apply Forall_impl. intros p Hp.
  apply hashNode_commutativeKeccak256; assumption.
Qed.

Lemma verifyProof_is_MerkleProof_verify_witness :
  let leaf := Keccak.keccak256 (list_byte_of_string "leaf") in
  let sibling := Keccak.keccak256 (list_byte_of_string "sibling") in
  let root := MerkleProof.commutativeKeccak256 leaf sibling in
  List.length leaf = 32%nat /\
  Forall (fun p => List.length p = 32%nat) [sibling] /\
  MerkleTreeUtils.verifyProof (ethers.hexlify leaf) (map ethers.hexlify [sibling])
                              (ethers.hexlify root)
  = Ok (MerkleProof.verify [sibling] root leaf) /\
  MerkleProof.verify [sibling] root leaf = true.
Proof.
  intros leaf sibling root.
  assert (Hleaf : List.length leaf = 32%nat) by (vm_compute; reflexivity).
  assert (Hproof : Forall (fun p => List.length p = 32%nat) [sibling])
    by (repeat constructor; vm_compute; reflexivity).
  split; [exact Hleaf|]. split; [exact Hproof|].
  destruct (verifyProof_is_MerkleProof_verify [sibling] root leaf Hleaf Hproof)
    as [Hverify _].
  split; [exact Hverify|].
  vm_compute. reflexivity.
Defined.

(** ** A batch built off chain, verified on chain *)

Lemma leaf_hexlify (r : SensorData.t) (h : string) :
  MerkleTreeUtils.leaf r = Ok h ->
  exists digest, List.length digest = 32%nat /\ h = ethers.hexlify digest.
Proof.
  unfold MerkleTreeUtils.leaf, ethers.solidityPackedKeccak256.
  destruct (ethers.solidityPacked _ _) as [packed|]; cbn [bind]; [|discriminate].
  intros [= <-]. exists (Keccak.keccak256 packed).
  split; [apply keccak256_length | reflexivity].
Qed.

Lemma nextLayer_hexlify (cur : list string) :
  forall next,
    MerkleTreeUtils.nextLayer cur = Ok next ->
    Forall (fun h => exists digest,
                List.length digest = 32%nat /\ h = ethers.hexlify digest) next.
Proof.
  induction cur as [|x|x y l IH] using pair_ind; intros next;
    cbn [MerkleTreeUtils.nextLayer].
  - intros [= <-]. constructor.
  - destruct (MerkleTreeUtils.hashNode x x) as [h|] eqn:Hh; cbn [bind]; [|discriminate].
    intros [= <-]. constructor; [eapply hashNode_hexlify; eassumption | constructor].
  - destruct (MerkleTreeUtils.hashNode x _) as [h|] eqn:Hh; cbn [bind]; [|discriminate].
    destruct (MerkleTreeUtils.nextLayer l) as [t|]; cbn [bind]; [|discriminate].
    intros [= <-]. constructor; [eapply hashNode_hexlify; eassumption | auto].
Qed.

Lemma Layered_hexlify (layers : list (list string)) :
  Layered layers ->
  Forall (fun h => exists digest,
              List.length digest = 32%nat /\ h = ethers.hexlify digest) (hd [] layers) ->
  forall layer, In layer layers ->
    Forall (fun h => exists digest,
                List.length digest = 32%nat /\ h = ethers.hexlify digest) layer.
Proof.
  induction 1 as [h Hh | cur next above Hgt Hall Hnext HL IH]; intros Hhd layer Hin.
  - destruct Hin as [<- | []]. exact Hhd.
  - destruct Hin as [<- | Hin]; [exact Hhd|].
    apply IH; [|exact Hin]. cbn [hd]. eapply nextLayer_hexlify; eassumption.
Qed.

(** The elements of a proof are elements of the layers. *)
Lemma proofLoop_members (P : string -> Prop) (layers : list (list string)) :
  Layered layers ->
  (forall layer, In layer layers -> Forall P layer) ->
  forall (index : nat) (acc : list (option string)),
    (index < List.length (hd [] layers))%nat ->
    exists p,
      MerkleTreeUtils.proofLoop layers (Z.of_nat index) acc = acc ++ map Some p /\
      Forall P p.
Proof.
  induction 1 as [h Hh | cur next above Hgt Hall Hnext HL IH]; intros HP index acc Hi.
  - exists []. cbn [map]. rewrite app_nil_r. split; [reflexivity | constructor].
  - cbn [hd] in Hi, IH.
    pose proof (MerkleTreeUtils_nextLayer_length cur next Hnext) as Hnl.
    assert (Hk : (index / 2 < List.length next)%nat)
      by (rewrite Hnl; apply div2_lt_ceilHalf, Hi).
    rewrite proofLoop_step. cbv zeta.
    assert (Hdiv : Z.of_nat index / 2 = Z.of_nat (index / 2))
      by (rewrite Nat2Z.inj_div; reflexivity).
    rewrite Hdiv.
    set (siblingIndex :=
           if Z.rem (Z.of_nat index) 2 =? 0
           then Z.of_nat index + 1 else Z.of_nat index - 1).
    assert (Hsib : exists s : nat, siblingIndex = Z.of_nat s).
    { subst siblingIndex. destruct (Z.eqb_spec (Z.rem (Z.of_nat index) 2) 0) as [|Hodd].
      - exists (index + 1)%nat. lia.
      - exists (index - 1)%nat.
        destruct index; [exfalso; apply Hodd; reflexivity | lia]. }
    destruct Hsib as [s Hs]. rewrite Hs.
    assert (HP' : forall layer, In layer (next :: above) -> Forall P layer)
      by (intros layer Hin; apply HP; right; exact Hin).
    destruct (Z.ltb_spec (Z.of_nat s) (len cur)) as [Hlt | Hge].
    + assert (Hs' : (s < List.length cur)%nat) by (unfold len in Hlt; lia).
      destruct (nth_error cur s) as [x|] eqn:Hx; [|apply nth_error_None in Hx; lia].
      rewrite item_nat, Hx.
      destruct (IH HP' (index / 2)%nat (acc ++ [Some x]) Hk) as (p & Hp & Hall').
      exists (x :: p). rewrite Hp. split; [rewrite <- app_assoc; reflexivity|].
      constructor; [|exact Hall'].
      pose proof (HP cur (or_introl eq_refl)) as Hcur.
      rewrite Forall_forall in Hcur. apply Hcur. eapply nth_error_In; eassumption.
    + destruct (IH HP' (index / 2)%nat acc Hk) as (p & Hp & Hall').
      exists p. rewrite Hp. split; [reflexivity | exact Hall'].
Qed.

Lemma Forall_hexlify (hs : list string) :
  Forall (fun h => exists digest,
              List.length digest = 32%nat /\ h = ethers.hexlify digest) hs ->
  exists digests,
    hs = map ethers.hexlify digests /\
    Forall (fun digest => List.length digest = 32%nat) digests.
Proof.
  induction 1 as [|h t (d & Hd & ->) _ (ds & -> & Hds)].
  - exists []. split; [reflexivity | constructor].
  - exists (d :: ds). split; [reflexivity | constructor; assumption].
Qed.

Lemma map_Some_inj (A : Type) (xs ys : list A) : map Some xs = map Some ys -> xs = ys.
Proof.
  revert ys. induction xs as [|x t IH]; intros [|y u]; cbn [map]; try discriminate;
    [reflexivity|].
  intros [= -> H]. f_equal. apply IH, H.
Qed.

(** The system end to end, for [2^k] consecutive stored records whose block
    times JavaScript carries exactly: the tree that the off-chain code builds
    from the stored field values has a 32-byte root, and once an
    administrator has registered that root with [createBatch] for the range,
    [verifyRecord] returns [true] for every record of the range with the
    proof that the off-chain code generated for it. *)
Theorem stored_batch_verifies_on_chain
        (st : IoTDataContract.State) (first : Z) (k : nat) :
  IoTDataContract.Reachable st ->
  0 <= first ->
  first + Z.of_nat (2 ^ k) <= IoTDataContract.getRecordCount st ->
  let records :=
    map (fun i => IoTDataContract.sensorDataOf st (first + Z.of_nat i)) (seq 0 (2 ^ k)) in
  Forall (fun r => SensorData.timestamp r <= ethers.MAX_SAFE_INTEGER) records ->
  exists tree root,
    MerkleTreeUtils.generateMerkleTree records = Ok tree /\
    merkleRoot tree = Some (ethers.hexlify root) /\
    List.length root = 32%nat /\
    forall (st' : IoTDataContract.State) (msg_sender : IoTData.address)
           (block_timestamp : Z) (_description : string) (batchId : IoTData.bytes32),
      IoTDataContract.createBatch st msg_sender block_timestamp
        first (first + Z.of_nat (2 ^ k) - 1) root _description = Ok (st', batchId) ->
      forall i, (i < 2 ^ k)%nat ->
        exists proof,
          nth_error (proofs tree) i
          = Some (map (fun p => Some (ethers.hexlify p)) proof) /\
          IoTDataContract.verifyRecord MerkleProof.verify st'
            (first + Z.of_nat i) root proof = Ok true.
Proof.
  intros HR Hfirst Hrange records Hsafe.
  destruct (Reachable_invariant st HR) as (_ & _ & Hrec & _).
  unfold IoTDataContract.getRecordCount in Hrange.
  assert (Hlen : List.length records = (2 ^ k)%nat)
    by (subst records; rewrite length_map, length_seq; reflexivity).
  assert (Hnth : forall i, (i < 2 ^ k)%nat ->
            nth_error records i
            = Some (IoTDataContract.sensorDataOf st (first + Z.of_nat i))).
  { intros i Hi. subst records. rewrite nth_error_map, nth_error_seq.
    destruct (Nat.ltb_spec i (2 ^ k)); [reflexivity | lia]. }
  assert (Hts : Forall (fun r => validTimestamp (SensorData.timestamp r)) records).
  { rewrite Forall_forall in Hsafe |- *. intros r Hr.
    split; [|apply Hsafe, Hr].
    subst records. apply in_map_iff in Hr. destruct Hr as (i & <- & Hi).
    apply in_seq in Hi.
    destruct (Hrec (first + Z.of_nat i)) as [Hu _]; [lia|].
    unfold IoTDataContract.uint256 in Hu. cbn. lia. }
  assert (Hne : records <> []).
  { intros H. rewrite H in Hlen. cbn [List.length] in Hlen.
    assert (0 < 2 ^ k)%nat by (apply Nat.neq_0_lt_0, Nat.pow_nonzero; lia). lia. }
  (* the leaves are the stored hashes *)
  assert (Hleaf : forall i, (i < 2 ^ k)%nat ->
            MerkleTreeUtils.leaf (IoTDataContract.sensorDataOf st (first + Z.of_nat i))
            = Ok (ethers.hexlify
                    (IoTData.dataHash
                       (IoTData.sensorRecords (IoTDataContract.storage st)
                                              (first + Z.of_nat i))))).
  { intros i Hi. rewrite leaf_packed.
    - destruct (Hrec (first + Z.of_nat i)) as [_ Hh]; [lia|]. cbv zeta in Hh.
      rewrite Hh. reflexivity.
    - rewrite Forall_forall in Hts. apply Hts. eapply nth_error_In, Hnth, Hi. }
  assert (Hhash32 : forall i, (i < 2 ^ k)%nat ->
            List.length (IoTData.dataHash
                           (IoTData.sensorRecords (IoTDataContract.storage st)
                                                  (first + Z.of_nat i))) = 32%nat).
  { intros i Hi. destruct (Hrec (first + Z.of_nat i)) as [_ Hh]; [lia|]. cbv zeta in Hh.
    rewrite Hh. apply keccak256_length. }
  destruct (generateMerkleTree_ok records Hne Hts)
    as (leaves & above & Hleaves & HL & Htree).
  destruct (generateLeaves_isBytes32 records leaves Hleaves) as [Hall Hl].
  destruct (Layered_pow2 _ HL k) as [Hheight Heven]; [cbn [hd]; congruence|].
  destruct (Layered_root_digest _ HL) as (root & Hlast & _).
  assert (Hcanon : forall layer, In layer (leaves :: above) ->
            Forall (fun h => exists digest,
                        List.length digest = 32%nat /\ h = ethers.hexlify digest) layer).
  { apply (Layered_hexlify _ HL). cbn [hd]. rewrite Forall_forall. intros h Hh.
    apply In_nth_error in Hh. destruct Hh as [i Hi].
    assert (Hilt : (i < List.length records)%nat)
      by (rewrite <- Hl; apply nth_error_Some; congruence).
    destruct (nth_error records i) as [r|] eqn:Hr; [|apply nth_error_None in Hr; lia].
    destruct (mapM_nth_error _ _ _ records leaves i r Hleaves Hr) as (h' & Hh' & Hi').
    rewrite Hi in Hi'. injection Hi' as <-. eapply leaf_hexlify; eassumption. }
  assert (Hroot : exists digest, List.length digest = 32%nat /\ root = ethers.hexlify digest).
  { assert (Hin : In (last (leaves :: above) []) (leaves :: above)) by apply last_In.
    pose proof (Hcanon _ Hin) as Hr. rewrite Hlast in Hr.
    inversion Hr; assumption. }
  destruct Hroot as (rootBytes & Hroot32 & ->).
  eexists. exists rootBytes. split; [exact Htree|].
  cbn [merkleRoot proofs]. split; [rewrite Hlast; reflexivity|].
  split; [exact Hroot32|].
  intros st' msg_sender block_timestamp _description batchId Hcreate i Hi.
  destruct (createBatch_inv _ _ _ _ _ _ _ _ _ Hcreate) as (_ & _ & _ & ->).
  (* the proof of leaf i, its elements and its fold *)
  assert (Hnl : nth_error leaves i
                = Some (ethers.hexlify
                          (IoTData.dataHash
                             (IoTData.sensorRecords (IoTDataContract.storage st)
                                                    (first + Z.of_nat i))))).
  { destruct (mapM_nth_error _ _ _ records leaves i _ Hleaves (Hnth i Hi))
      as (h & Hh & Hnl).
    rewrite (Hleaf i Hi) in Hh. injection Hh as <-. exact Hnl. }
  destruct (proofLoop_verifies (leaves :: above) HL Heven i [] _ Hnl)
    as (p & root' & Hloop & Hlast' & Hver).
  rewrite Hlast in Hlast'. injection Hlast' as <-.
  destruct (proofLoop_members _ (leaves :: above) HL Hcanon i [])
    as (p' & Hloop' & Hp'); [cbn [hd]; lia|].
  rewrite Hloop in Hloop'. cbn [app] in Hloop'. apply map_Some_inj in Hloop'. subst p'.
  destruct (Forall_hexlify p Hp') as (proof & -> & Hproof).
  exists proof. split.
  - unfold indices. rewrite map_map, nth_error_map, nth_error_seq.
    destruct (Nat.ltb_spec i (List.length leaves)); [|lia].
    cbn [option_map Nat.add]. rewrite Hloop. cbn [app]. rewrite map_map. reflexivity.
  - unfold IoTDataContract.verifyRecord.
    cbn [IoTDataContract.verifiedMerkleRoots IoTDataContract.storage].
    rewrite bytes32_eqb_refl. cbn [negb].
    destruct (Z.ltb_spec (first + Z.of_nat i)
                         (IoTData.recordCounter (IoTDataContract.storage st))) as [_|Hge];
      [|lia].
    cbn [negb]. f_equal.
    assert (Hoff : MerkleTreeUtils.verifyProof
                     (ethers.hexlify
                        (IoTData.dataHash
                           (IoTData.sensorRecords (IoTDataContract.storage st)
                                                  (first + Z.of_nat i))))
                     (map ethers.hexlify proof) (ethers.hexlify rootBytes) = Ok true).
    { unfold MerkleTreeUtils.verifyProof. rewrite Hver. cbn [bind].
      rewrite String.eqb_refl. reflexivity. }
    rewrite (verifyProof_on_bytes proof rootBytes _ (Hhash32 i Hi) Hproof) in Hoff.
    congruence.
Qed.

Lemma stored_batch_verifies_on_chain_witness :
  let records :=
    map (fun i => IoTDataContract.sensorDataOf contractStoredTwice (0 + Z.of_nat i))
        (seq 0 (2 ^ 1)) in
  IoTDataContract.Reachable contractStoredTwice /\
  0 + Z.of_nat (2 ^ 1) <= IoTDataContract.getRecordCount contractStoredTwice /\
  Forall (fun r => SensorData.timestamp r <= ethers.MAX_SAFE_INTEGER) records /\
  exists tree root,
    MerkleTreeUtils.generateMerkleTree records = Ok tree /\
    merkleRoot tree = Some (ethers.hexlify root) /\
    List.length root = 32%nat /\
    forall (st' : IoTDataContract.State) (msg_sender : IoTData.address)
           (block_timestamp : Z) (_description : string) (batchId : IoTData.bytes32),
      IoTDataContract.createBatch contractStoredTwice msg_sender block_timestamp
        0 (0 + Z.of_nat (2 ^ 1) - 1) root _description = Ok (st', batchId) ->
      forall i, (i < 2 ^ 1)%nat ->
        exists proof,
          nth_error (proofs tree) i
          = Some (map (fun p => Some (ethers.hexlify p)) proof) /\
          IoTDataContract.verifyRecord MerkleProof.verify st'
            (0 + Z.of_nat i) root proof = Ok true.
Proof.
  intros records.
  assert (Hreach : IoTDataContract.Reachable contractStoredTwice)
    by exact contractStoredTwice_Reachable.
  assert (Hfirst : 0 <= 0) by lia.
  assert (Hcount : 0 + Z.of_nat (2 ^ 1)
                   <= IoTDataContract.getRecordCount contractStoredTwice)
    by (vm_compute; discriminate).
  assert (Hts : Forall (fun r => SensorData.timestamp r <= ethers.MAX_SAFE_INTEGER)
                       records)
    by (repeat constructor; vm_compute; discriminate).
  split; [exact Hreach|]. split; [exact Hcount|]. split; [exact Hts|].
  exact (stored_batch_verifies_on_chain contractStoredTwice 0 1 Hreach Hfirst Hcount Hts).
Defined.

(** ** The rate limiter *)

(** Calls within the window of an entry: they pass until the count reaches
    the limit. *)
Lemma calls_within_window (times : list Z) :
  forall (entry : RateLimiter.RateLimit) (_limit _window : Z),
    0 <= RateLimiter.count entry <= RateLimiter.limit entry ->
    RateLimiter.limit entry <= IoTData.MAX_UINT256 ->
    RateLimiter.lastReset entry + RateLimiter.window entry <= IoTData.MAX_UINT256 ->
    Forall (fun t => t < RateLimiter.lastReset entry + RateLimiter.window entry) times ->
    RateLimiter.calls entry _limit _window times =
    ({| RateLimiter.limit := RateLimiter.limit entry;
        RateLimiter.window := RateLimiter.window entry;
        RateLimiter.lastReset := RateLimiter.lastReset entry;
        RateLimiter.count :=
          Z.min (RateLimiter.limit entry) (RateLimiter.count entry + len times) |},
     Z.min (RateLimiter.limit entry - RateLimiter.count entry) (len times)).
Proof.
  induction times as [|t rest IH]; intros [L W t0 c] _limit _window Hc HL HW Hin;
    cbn [RateLimiter.count RateLimiter.limit RateLimiter.window RateLimiter.lastReset] in *.
  - cbn [RateLimiter.calls]. unfold len. cbn [List.length].
    f_equal; [f_equal|]; lia.
  - inversion Hin as [|? ? Ht Hrest]; subst.
    assert (Hlen : len (t :: rest) = len rest + 1) by (unfold len; cbn [List.length]; lia).
    assert (0 <= len rest) by (unfold len; lia).
    cbn [RateLimiter.calls]. unfold RateLimiter.rateLimit.
    cbn [RateLimiter.count RateLimiter.limit RateLimiter.window RateLimiter.lastReset].
    destruct (Z.gtb_spec (t0 + W) IoTData.MAX_UINT256); [lia|].
    destruct (Z.geb_spec t (t0 + W)); [lia|].
    cbn [RateLimiter.count RateLimiter.limit RateLimiter.window RateLimiter.lastReset].
    destruct (Z.ltb_spec c L) as [Hlt | Hge]; cbn [negb].
    + destruct (Z.eqb_spec c IoTData.MAX_UINT256); [lia|].
      rewrite (IH (RateLimiter.mkRateLimit L W t0 (c + 1)))
        by (cbn [RateLimiter.count RateLimiter.limit RateLimiter.window
                   RateLimiter.lastReset]; first [lia | assumption]).
      cbn [RateLimiter.count RateLimiter.limit RateLimiter.window RateLimiter.lastReset].
      f_equal; [f_equal|]; lia.
    + rewrite (IH (RateLimiter.mkRateLimit L W t0 c))
        by (cbn [RateLimiter.count RateLimiter.limit RateLimiter.window
                   RateLimiter.lastReset]; first [lia | assumption]).
      cbn [RateLimiter.count RateLimiter.limit RateLimiter.window RateLimiter.lastReset].
      f_equal; [f_equal|]; lia.
Qed.

(** The first call of an account opens a window of [_window] seconds with the
    limit [_limit]; of [n] calls made within that window [min(_limit, n)] go
    through.  The entry then holds the limit, the window, the time of the
    first call and the number of calls that went through; once [_limit]
    calls went through every further call within the window reverts, and a
    call after the window goes through again and opens a new window. *)
Theorem rateLimit_window (_limit _window first : Z) (later : list Z) :
  0 < _limit <= IoTData.MAX_UINT256 ->
  0 <= first -> 0 <= _window -> first + _window <= IoTData.MAX_UINT256 ->
  Forall (fun t => first <= t < first + _window) later ->
  let passed := Z.min _limit (len (first :: later)) in
  let entry := RateLimiter.mkRateLimit _limit _window first passed in
  RateLimiter.calls RateLimiter.unset _limit _window (first :: later) = (entry, passed) /\
  RateLimiter.getRateLimitInfo entry = Ok (_limit, _window, passed, first + _window) /\
  (passed = _limit ->
   forall t, t < first + _window ->
     RateLimiter.rateLimit entry t _limit _window
     = Throw (Revert "Rate limit exceeded")) /\
  (forall t _limit' _window',
      first + _window <= t -> 0 < _limit' ->
      RateLimiter.rateLimit entry t _limit' _window'
      = Ok (RateLimiter.mkRateLimit _limit' _window' t 1)).
Proof.
  intros HL Hfirst HW Hmax Hlater passed entry.
  assert (Hlen : len (first :: later) = len later + 1)
    by (unfold len; cbn [List.length]; lia).
  assert (Hlater0 : 0 <= len later) by (unfold len; lia).
  assert (Hpassed : 1 <= passed <= _limit) by (subst passed; lia).
  split; [|split; [|split]].
  - cbn [RateLimiter.calls]. unfold RateLimiter.rateLimit, RateLimiter.unset.
    cbn [RateLimiter.count RateLimiter.limit RateLimiter.window RateLimiter.lastReset].
    change (0 + 0 >? IoTData.MAX_UINT256) with false. cbn [Z.add].
    destruct (Z.geb_spec first 0); [|lia].
    cbn [RateLimiter.count RateLimiter.limit RateLimiter.window RateLimiter.lastReset].
    destruct (Z.ltb_spec 0 _limit); [|lia]. cbn [negb].
    change (0 =? IoTData.MAX_UINT256) with false. cbn [Z.add].
    rewrite (calls_within_window later (RateLimiter.mkRateLimit _limit _window first 1))
      by (cbn [RateLimiter.count RateLimiter.limit RateLimiter.window
                 RateLimiter.lastReset];
          first [ lia
                | revert Hlater; apply Forall_impl; intros t Ht; lia ]).
    cbn [RateLimiter.count RateLimiter.limit RateLimiter.window RateLimiter.lastReset].
    subst entry passed. f_equal; [f_equal|]; lia.
  - unfold RateLimiter.getRateLimitInfo. subst entry.
    cbn [RateLimiter.count RateLimiter.limit RateLimiter.window RateLimiter.lastReset].
    destruct (Z.gtb_spec (first + _window) IoTData.MAX_UINT256); [lia | reflexivity].
  - intros Hfull t Ht. unfold RateLimiter.rateLimit. subst entry.
    cbn [RateLimiter.count RateLimiter.limit RateLimiter.window RateLimiter.lastReset].
    destruct (Z.gtb_spec (first + _window) IoTData.MAX_UINT256); [lia|].
    destruct (Z.geb_spec t (first + _window)); [lia|].
    cbn [RateLimiter.count RateLimiter.limit RateLimiter.window RateLimiter.lastReset].
    rewrite Hfull. rewrite Z.ltb_irrefl. reflexivity.
  - intros t _limit' _window' Ht HL'. unfold RateLimiter.rateLimit. subst entry.
    cbn [RateLimiter.count RateLimiter.limit RateLimiter.window RateLimiter.lastReset].
    destruct (Z.gtb_spec (first + _window) IoTData.MAX_UINT256); [lia|].
    destruct (Z.geb_spec t (first + _window)); [|lia].
    cbn [RateLimiter.count RateLimiter.limit RateLimiter.window RateLimiter.lastReset].
    destruct (Z.ltb_spec 0 _limit'); [|lia]. cbn [negb].
    reflexivity.
Qed.

Lemma rateLimit_window_witness :
  let later := [110; 120; 130; 159] in
  let entry := RateLimiter.mkRateLimit 3 60 100 3 in
  Forall (fun t => 100 <= t < 100 + 60) later /\
  RateLimiter.calls RateLimiter.unset 3 60 (100 :: later) = (entry, 3) /\
  RateLimiter.getRateLimitInfo entry = Ok (3, 60, 3, 100 + 60) /\
  (forall t, t < 100 + 60 ->
     RateLimiter.rateLimit entry t 3 60 = Throw (Revert "Rate limit exceeded")) /\
  RateLimiter.rateLimit entry 160 3 60 = Ok (RateLimiter.mkRateLimit 3 60 160 1).
Proof.
  intros later entry.
  assert (Hlimit : 0 < 3 <= IoTData.MAX_UINT256) by (split; vm_compute; congruence).
  assert (Hfirst : 0 <= 100) by lia.
  assert (Hwindow : 0 <= 60) by lia.
  assert (Hmax : 100 + 60 <= IoTData.MAX_UINT256) by (vm_compute; discriminate).
  assert (Hlater : Forall (fun t => 100 <= t < 100 + 60) later)
    by (repeat constructor; lia).
  split; [exact Hlater|].
  pose proof (rateLimit_window 3 60 100 later Hlimit Hfirst Hwindow Hmax Hlater) as H.
  cbv zeta in H. destruct H as (Hcalls & Hinfo & Hfull & Hnext).
  split; [exact Hcalls|]. split; [exact Hinfo|]. split.
  - exact (Hfull eq_refl).
  - apply Hnext; lia.
Defined.

(** ** The certification bridge *)

Lemma hexChars_digits (b : byte) :
  IoTCertificationBridge.read IoTCertificationBridge.hexChars
    (Z.of_N (N.shiftr (Byte.to_N b) 4))
  = Ok (byte_of_ascii (ethers.hexDigit (Byte.to_N b / 16))) /\
  IoTCertificationBridge.read IoTCertificationBridge.hexChars
    (Z.of_N (N.land (Byte.to_N b) 0x0f))
  = Ok (byte_of_ascii (ethers.hexDigit (Byte.to_N b mod 16))).
Proof. destruct b; split; vm_compute; reflexivity. Qed.

Lemma assign_app (xs ys : list byte) (y v : byte) :
  IoTCertificationBridge.assign (xs ++ y :: ys) (List.length xs) v = Ok (xs ++ v :: ys).
Proof.
  induction xs as [|x xs IH]; [reflexivity|].
  cbn [app List.length IoTCertificationBridge.assign]. rewrite IH. reflexivity.
Qed.

Lemma hexOfBytes_bytes (bs : list byte) :
  list_byte_of_string (ethers.hexOfBytes bs)
  = flat_map (fun b => [byte_of_ascii (ethers.hexDigit (Byte.to_N b / 16));
                        byte_of_ascii (ethers.hexDigit (Byte.to_N b mod 16))]) bs.
Proof.
  induction bs as [|b t IH]; [reflexivity|].
  cbn [ethers.hexOfBytes flat_map app]. rewrite <- IH. reflexivity.
Qed.

Lemma toHexLoop_spec (n : nat) :
  forall (pre rest : list byte),
    List.length rest = n ->
    IoTCertificationBridge.toHexLoop n (Z.of_nat (List.length pre)) (pre ++ rest)
      (list_byte_of_string (ethers.hexOfBytes pre) ++ repeat x00 (2 * n))
    = Ok (list_byte_of_string (ethers.hexOfBytes (pre ++ rest))).
Proof.
  induction n as [|n IH]; intros pre rest Hlen.
  - destruct rest; [|discriminate Hlen]. cbn [IoTCertificationBridge.toHexLoop repeat Nat.mul].
    rewrite !app_nil_r. reflexivity.
  - destruct rest as [|b rest]; [discriminate Hlen|]. injection Hlen as Hlen.
    cbn [IoTCertificationBridge.toHexLoop].
    unfold IoTCertificationBridge.read at 1.
    rewrite item_nat, nth_error_app2, Nat.sub_diag by lia. cbn [nth_error bind].
    destruct (hexChars_digits b) as [Hhi Hlo]. rewrite Hhi, Hlo. cbn [bind].
    set (H := list_byte_of_string (ethers.hexOfBytes pre)).
    assert (HH : List.length H = (2 * List.length pre)%nat).
    { subst H. rewrite hexOfBytes_bytes. clear.
      induction pre as [|x t IHt]; [reflexivity|].
      cbn [flat_map app List.length]. rewrite IHt. lia. }
    replace (2 * S n)%nat with (S (S (2 * n))) by lia. cbn [repeat].
    replace (Z.to_nat (Z.of_nat (List.length pre) * 2)) with (2 * List.length pre)%nat
      by lia.
    rewrite <- HH.
    rewrite assign_app. cbn [bind].
    set (hi := byte_of_ascii (ethers.hexDigit (Byte.to_N b / 16))).
    set (lo := byte_of_ascii (ethers.hexDigit (Byte.to_N b mod 16))).
    replace (Z.to_nat (1 + Z.of_nat (List.length pre) * 2))
      with (List.length (H ++ [hi]))
      by (rewrite length_app, HH; cbn [List.length]; lia).
    change (H ++ hi :: x00 :: repeat x00 (2 * n))
      with (H ++ [hi] ++ x00 :: repeat x00 (2 * n)).
    rewrite app_assoc, assign_app. cbn [bind].
    replace (Z.of_nat (List.length pre) + 1) with (Z.of_nat (List.length (pre ++ [b])))
      by (rewrite length_app; cbn [List.length]; lia).
    replace (pre ++ b :: rest) with ((pre ++ [b]) ++ rest)
      by (rewrite <- app_assoc; reflexivity).
    replace ((H ++ [hi]) ++ lo :: repeat x00 (2 * n))
      with (list_byte_of_string (ethers.hexOfBytes (pre ++ [b])) ++ repeat x00 (2 * n)).
    + apply IH. exact Hlen.
    + subst H. rewrite !hexOfBytes_bytes, flat_map_app. cbn [flat_map app].
      rewrite <- !app_assoc. reflexivity.
Qed.

Lemma toHexString_hexOfBytes (data : IoTData.bytes32) :
  List.length data = 32%nat ->
  IoTCertificationBridge.toHexString data = Ok (ethers.hexOfBytes data).
Proof.
  intros Hlen. unfold IoTCertificationBridge.toHexString.
  pose proof (toHexLoop_spec 32 [] data Hlen) as H.
  cbn [List.length app ethers.hexOfBytes list_byte_of_string] in H.
  change (Z.of_nat 0) with 0 in H.
  change (2 * 32)%nat with 64%nat in H.
  change (list_byte_of_string "" ++ repeat x00 64) with (repeat x00 64) in H.
  rewrite H. cbn [bind]. rewrite string_of_list_byte_of_string. reflexivity.
Qed.

Section CertificationFacts.

Variable NFTData : Type.
Variable mintCertificate :
  NFTData -> IoTData.address -> Z -> IoTData.address -> string -> string -> string
  -> string -> Result (NFTData * Z).

(** [toHexString] spells 32 bytes as [ethers] does, without the prefix; and
    in every state of the data contract [certifyDataRecord] rejects a caller
    without the analyst role, then a record that does not exist, and
    otherwise mints for the caller with the device id of the record and, as
    its data hash, the hex string of the hash stored with the record, which
    is the leaf that the off-chain code computes from the stored field
    values. *)
Theorem certifyDataRecord_hash
        (iotContract : IoTDataContract.State) (nftContract : NFTData)
        (this msg_sender : IoTData.address) (block_timestamp recordId : Z)
        (tokenURI certificationLevel : string) :
  IoTDataContract.Reachable iotContract ->
  0 <= recordId ->
  let record := IoTData.sensorRecords (IoTDataContract.storage iotContract) recordId in
  IoTCertificationBridge.toHexString (IoTData.dataHash record)
    = Ok (ethers.hexOfBytes (IoTData.dataHash record)) /\
  IoTCertificationBridge.certifyDataRecord NFTData mintCertificate iotContract
    nftContract this msg_sender block_timestamp recordId tokenURI certificationLevel
  = (if negb (IoTData.hasRole (IoTDataContract.storage iotContract)
                              IoTDataContract.ANALYST_ROLE msg_sender)
     then Throw (Revert "Must be analyst to certify")
     else if negb (recordId <? IoTDataContract.getRecordCount iotContract)
     then Throw (Revert "Record does not exist")
     else mintCertificate nftContract this block_timestamp msg_sender
            (IoTData.deviceId record) (ethers.hexlify (IoTData.dataHash record))
            tokenURI certificationLevel) /\
  (recordId < IoTDataContract.getRecordCount iotContract ->
   IoTData.timestamp record <= ethers.MAX_SAFE_INTEGER ->
   MerkleTreeUtils.leaf (IoTDataContract.sensorDataOf iotContract recordId)
   = Ok (ethers.hexlify (IoTData.dataHash record))).
Proof.
  intros HR Hid record.
  destruct (Reachable_invariant iotContract HR) as (_ & _ & Hrec & _).
  unfold IoTDataContract.getRecordCount.
  assert (Hhex : recordId < IoTData.recordCounter (IoTDataContract.storage iotContract) ->
                 IoTData.dataHash record =
                 Keccak.keccak256
                   (IoTData.encodePacked (IoTData.deviceId record) (IoTData.timestamp record)
                      (IoTData.data record) (IoTData.dataType record)
                      (IoTData.location record)) /\
                 0 <= IoTData.timestamp record).
  { intros Hlt. destruct (Hrec recordId) as [Hu Hh]; [lia|].
    unfold IoTDataContract.uint256 in Hu. subst record. split; [exact Hh | lia]. }
  split; [|split].
  - destruct (Z.ltb_spec recordId
                (IoTData.recordCounter (IoTDataContract.storage iotContract))) as [Hlt | Hge].
    + destruct (Hhex Hlt) as [-> _]. apply toHexString_hexOfBytes, keccak256_length.
    + apply toHexString_hexOfBytes.
      assert (Hzero : forall st, IoTDataContract.Reachable st ->
                forall id, IoTData.recordCounter (IoTDataContract.storage st) <= id ->
                  List.length (IoTData.dataHash
                                 (IoTData.sensorRecords (IoTDataContract.storage st) id))
                  = 32%nat).
      { clear. induction 1 as [sender | st roles HR IH
                               | st st' sender ts id d x t l HR IH Hts Hstore
                               | st st' sender ts from to root batchId desc HR IH
                                   Hts Hfrom Hto Hroot Hcreate]; intros id' Hid'.
        - reflexivity.
        - apply IH. exact Hid'.
        - destruct (storeData_inv _ _ _ _ _ _ _ _ _ Hstore) as (_ & _ & Hid & ->).
          cbn [IoTDataContract.storage IoTData.recordCounter IoTData.sensorRecords] in *.
          destruct (Z.eqb_spec id' id); [lia|]. apply IH. lia.
        - destruct (createBatch_inv _ _ _ _ _ _ _ _ _ Hcreate) as (_ & _ & _ & ->).
          apply IH. exact Hid'. }
      apply (Hzero iotContract HR). exact Hge.
  - unfold IoTCertificationBridge.certifyDataRecord, IoTDataContract.getData.
    destruct (IoTData.hasRole _ IoTDataContract.ANALYST_ROLE msg_sender); cbn [negb];
      [|reflexivity].
    destruct (Z.ltb_spec recordId
                (IoTData.recordCounter (IoTDataContract.storage iotContract))) as [Hlt | Hge];
      cbn [negb bind]; [|reflexivity].
    destruct (Hhex Hlt) as [Hh _]. fold record. rewrite <- Hh.
    rewrite toHexString_hexOfBytes by (rewrite Hh; apply keccak256_length).
    cbn [bind]. reflexivity.
  - intros Hlt Hsafe. destruct (Hhex Hlt) as [Hh Hts].
    rewrite leaf_packed by (cbn; fold record; lia).
    cbn. fold record. rewrite Hh. reflexivity.
Qed.

End CertificationFacts.

Lemma certifyDataRecord_hash_witness :
  let record := IoTData.sensorRecords (IoTDataContract.storage contractWithAnalyst) 1 in
  IoTDataContract.Reachable contractWithAnalyst /\
  IoTCertificationBridge.toHexString (IoTData.dataHash record)
    = Ok (ethers.hexOfBytes (IoTData.dataHash record)) /\
  IoTCertificationBridge.certifyDataRecord (list string) recordingMint
    contractWithAnalyst [] 9 7 1700000200 1 "ipfs://certificate" "gold"
  = Ok ([ethers.hexlify (IoTData.dataHash record)], 0) /\
  IoTCertificationBridge.certifyDataRecord (list string) recordingMint
    contractWithAnalyst [] 9 1 1700000200 1 "ipfs://certificate" "gold"
  = Throw (Revert "Must be analyst to certify") /\
  MerkleTreeUtils.leaf (IoTDataContract.sensorDataOf contractWithAnalyst 1)
  = Ok (ethers.hexlify (IoTData.dataHash record)).
Proof.
  intros record.
  assert (Hreach : IoTDataContract.Reachable contractWithAnalyst)
    by (apply IoTDataContract.Reachable_roles; exact contractStoredTwice_Reachable).
  assert (Hid : 0 <= 1) by lia.
  split; [exact Hreach|].
  pose proof (certifyDataRecord_hash (list string) recordingMint contractWithAnalyst
                [] 9 7 1700000200 1 "ipfs://certificate" "gold" Hreach Hid) as H.
  cbv zeta in H. destruct H as (Hhex & Hcertify & Hleaf).
  split; [exact Hhex|]. split; [|split].
  - rewrite Hcertify. vm_compute. reflexivity.
  - vm_compute. reflexivity.
  - apply Hleaf; [vm_compute; reflexivity | vm_compute; discriminate].
Defined.

(** ** The integrity report *)

Lemma reportLoop_spec (records : list IntegrityChecker.Checked) :
  forall (i validRecords : Z) (details : list IntegrityChecker.Detail),
  exists added,
    IntegrityChecker.reportLoop records i validRecords details
    = (validRecords + len records - len added, details ++ added) /\
    0 <= len records - len added /\
    StronglySorted Z.lt (map IntegrityChecker.recordId added) /\
    Forall (fun d => i <= IntegrityChecker.recordId d) added /\
    forall (k : nat) (checked : IntegrityChecker.Checked),
      nth_error records k = Some checked ->
      (In (i + Z.of_nat k) (map IntegrityChecker.recordId added) <->
       exists hash,
         IntegrityChecker.dataHash checked = Some hash /\ hash <> "" /\
         IntegrityChecker.verifyDataIntegrity (IntegrityChecker.record checked) (Some hash)
         <> Ok true).
Proof.
  induction records as [|c rest IH]; intros i validRecords details.
  - exists []. cbn [IntegrityChecker.reportLoop]. unfold len. cbn [List.length map].
    rewrite app_nil_r. split; [f_equal; lia|]. split; [lia|].
    split; [constructor|]. split; [constructor|].
    intros k checked Hk. destruct k; discriminate Hk.
  - assert (Hlen : len (c :: rest) = len rest + 1) by (unfold len; cbn [List.length]; lia).
    cbn [IntegrityChecker.reportLoop].
    assert (Hstep :
      (IntegrityChecker.reportStep i c validRecords details = (validRecords + 1, details) /\
       ~ exists hash,
           IntegrityChecker.dataHash c = Some hash /\ hash <> "" /\
           IntegrityChecker.verifyDataIntegrity (IntegrityChecker.record c) (Some hash)
           <> Ok true) \/
      (exists e,
          IntegrityChecker.reportStep i c validRecords details
          = (validRecords, details ++ [IntegrityChecker.mkDetail i e]) /\
          exists hash,
            IntegrityChecker.dataHash c = Some hash /\ hash <> "" /\
            IntegrityChecker.verifyDataIntegrity (IntegrityChecker.record c) (Some hash)
            <> Ok true)).
    { unfold IntegrityChecker.reportStep.
      destruct (IntegrityChecker.dataHash c) as [hash|] eqn:Hhash.
      - destruct (String.eqb_spec hash "") as [-> | Hne].
        + left. split; [reflexivity|]. intros (h & [= <-] & Hh & _). contradiction.
        + destruct (IntegrityChecker.verifyDataIntegrity _ _) as [[|]|e] eqn:Hv.
          * left. split; [reflexivity|]. intros (h & [= <-] & _ & Hbad). congruence.
          * right. eexists. split; [reflexivity|]. exists hash.
            rewrite Hv. repeat split; congruence.
          * right. eexists. split; [reflexivity|]. exists hash.
            rewrite Hv. repeat split; congruence.
      - left. split; [reflexivity|]. intros (h & [=] & _). }
    destruct Hstep as [[-> Hgood] | (e & -> & Hbad)].
    + destruct (IH (i + 1) (validRecords + 1) details)
        as (added & -> & Hpos & Hsorted & Hge & Hmem).
      exists added. split; [f_equal; lia|]. split; [lia|].
      split; [exact Hsorted|].
      split; [revert Hge; apply Forall_impl; intros d; lia|].
      intros [|k] checked Hk.
      * cbn [nth_error] in Hk. injection Hk as <-. rewrite Z.add_0_r. split.
        -- intros Hin. apply in_map_iff in Hin. destruct Hin as (d & Hd & Hin).
           rewrite Forall_forall in Hge. specialize (Hge d Hin). lia.
        -- intros H. contradiction.
      * cbn [nth_error] in Hk. rewrite <- (Hmem k checked Hk).
        replace (i + Z.of_nat (S k)) with (i + 1 + Z.of_nat k) by lia. reflexivity.
    + destruct (IH (i + 1) validRecords (details ++ [IntegrityChecker.mkDetail i e]))
        as (added & -> & Hpos & Hsorted & Hge & Hmem).
      exists (IntegrityChecker.mkDetail i e :: added).
      assert (Hl : len (IntegrityChecker.mkDetail i e :: added) = len added + 1)
        by (unfold len; cbn [List.length]; lia).
      split; [rewrite <- app_assoc; f_equal; lia|]. split; [lia|].
      cbn [map IntegrityChecker.recordId]. split; [|split].
      * constructor; [exact Hsorted|].
        rewrite Forall_map. revert Hge. apply Forall_impl. intros d. lia.
      * constructor; [cbn; lia|]. revert Hge. apply Forall_impl. intros d. lia.
      * intros [|k] checked Hk.
        -- cbn [nth_error] in Hk. injection Hk as <-. rewrite Z.add_0_r.
           split; [intros _; exact Hbad | intros _; left; reflexivity].
        -- cbn [nth_error] in Hk. rewrite <- (Hmem k checked Hk).
           replace (i + Z.of_nat (S k)) with (i + 1 + Z.of_nat k) by lia.
           cbn [In]. split; [intros [Heq | H]; [lia | exact H] | auto].
Qed.

(** The report of [generateIntegrityReport] accounts for every record once:
    the valid and the corrupted records add up to the total, there is one
    detail per corrupted record, in ascending order of record id, and a
    record is reported exactly when it carries a non-empty hash that the
    check does not confirm (it differs, or hashing the record throws); a
    record without a hash counts as valid whatever its fields are. *)
Theorem integrity_report_accounts (records : list IntegrityChecker.Checked) :
  let report := IntegrityChecker.generateIntegrityReport records in
  IntegrityChecker.totalRecords report = len records /\
  IntegrityChecker.validRecords report + IntegrityChecker.corruptedRecords report
    = IntegrityChecker.totalRecords report /\
  IntegrityChecker.corruptedRecords report = len (IntegrityChecker.details report) /\
  0 <= IntegrityChecker.validRecords report /\
  StronglySorted Z.lt (map IntegrityChecker.recordId (IntegrityChecker.details report)) /\
  forall (i : nat) (checked : IntegrityChecker.Checked),
    nth_error records i = Some checked ->
    (In (Z.of_nat i) (map IntegrityChecker.recordId (IntegrityChecker.details report)) <->
     exists hash,
       IntegrityChecker.dataHash checked = Some hash /\ hash <> "" /\
       IntegrityChecker.verifyDataIntegrity (IntegrityChecker.record checked) (Some hash)
       <> Ok true).
Proof.
  cbv zeta. unfold IntegrityChecker.generateIntegrityReport.
  destruct (reportLoop_spec records 0 0 []) as (added & -> & Hpos & Hsorted & _ & Hmem).
  cbn [IntegrityChecker.totalRecords IntegrityChecker.validRecords
       IntegrityChecker.corruptedRecords IntegrityChecker.details app].
  split; [reflexivity|]. split; [lia|]. split; [lia|]. split; [lia|].
  split; [exact Hsorted|].
  intros i checked Hi. rewrite <- (Hmem i checked Hi). reflexivity.
Qed.

(** ** Grouping by a key *)

Lemma groupStep_by :
  dataAggregation.groupStep = groupStepBy dataAggregation.groupKey.
Proof. reflexivity. Qed.

Lemma groupByDeviceStep_by :
  syncStore.groupByDeviceStep = groupStepBy SensorReading.deviceId.
Proof. reflexivity. Qed.

Section GroupingFacts.

Variable key : SensorReading.t -> string.

Lemma lookup_groupStepBy (m : JsMap (list SensorReading.t)) (r : SensorReading.t)
      (k : string) :
  lookup k (groupStepBy key m r) =
  if (key r =? k)%string
  then Some (match lookup k m with Some g => g | None => [] end ++ [r])
  else lookup k m.
Proof.
  unfold groupStepBy, Map_has.
  destruct (lookup (key r) m) as [g|] eqn:Hl; cbn [negb].
  - rewrite Hl.
    destruct (String.eqb_spec (key r) k) as [<- | Hne].
    + rewrite lookup_Map_set_same, Hl. reflexivity.
    + apply lookup_Map_set_other. exact Hne.
  - rewrite lookup_Map_set_same.
    destruct (String.eqb_spec (key r) k) as [<- | Hne].
    + rewrite lookup_Map_set_same, Hl. reflexivity.
    + rewrite !lookup_Map_set_other by exact Hne. reflexivity.
Qed.

Lemma lookup_fold_groupStepBy (rs : list SensorReading.t) :
  forall (m : JsMap (list SensorReading.t)) (k : string),
    lookup k (fold_left (groupStepBy key) rs m) =
    match filter (fun r => (key r =? k)%string) rs with
    | [] => lookup k m
    | f => Some (match lookup k m with Some g => g | None => [] end ++ f)
    end.
Proof.
  induction rs as [|r t IH]; intros m k; cbn [fold_left filter]; [reflexivity|].
  rewrite IH, lookup_groupStepBy.
  destruct (String.eqb_spec (key r) k) as [Hk | Hk].
  - destruct (filter _ t); [reflexivity|].
    rewrite <- app_assoc. reflexivity.
  - reflexivity.
Qed.

Lemma groupStepBy_NoDup (m : JsMap (list SensorReading.t)) (r : SensorReading.t) :
  NoDup (map fst m) -> NoDup (map fst (groupStepBy key m r)).
Proof.
  intros Hnd. unfold groupStepBy.
  set (m1 := if negb _ then _ else _).
  assert (Hnd1 : NoDup (map fst m1)).
  { subst m1. destruct (negb _); [apply Map_set_NoDup|]; exact Hnd. }
  destruct (lookup _ m1); [apply Map_set_NoDup|]; exact Hnd1.
Qed.

Lemma fold_groupStepBy_NoDup (rs : list SensorReading.t) :
  forall m, NoDup (map fst m) -> NoDup (map fst (fold_left (groupStepBy key) rs m)).
Proof.
  induction rs as [|r t IH]; intros m Hm; cbn [fold_left]; [exact Hm|].
  apply IH, groupStepBy_NoDup, Hm.
Qed.

Lemma Map_set_fresh (V : Type) (m : JsMap V) (k : string) (v : V) :
  lookup k m = None -> Map_set m k v = m ++ [(k, v)].
Proof.
  induction m as [|[k0 v0] t IH]; cbn [lookup Map_set app]; [reflexivity|].
  destruct (String.eqb_spec k0 k); [discriminate|].
  intros H. rewrite (IH H). reflexivity.
Qed.

Lemma Map_set_extend (m : JsMap (list SensorReading.t)) (k : string)
      (g : list SensorReading.t) (r : SensorReading.t) :
  lookup k m = Some g ->
  Permutation (concat (map snd (Map_set m k (g ++ [r])))) (r :: concat (map snd m)).
Proof.
  induction m as [|[k0 v0] t IH]; cbn [lookup]; [discriminate|].
  cbn [Map_set]. destruct (String.eqb_spec k0 k) as [-> | Hne].
  - intros [= ->]. cbn [map snd concat]. rewrite <- app_assoc.
    symmetry. apply Permutation_middle.
  - intros Hl. cbn [map snd concat]. rewrite (IH Hl).
    symmetry. apply Permutation_middle.
Qed.

(** A step of the grouping loop puts the reading into one group. *)
Lemma groupStepBy_perm (m : JsMap (list SensorReading.t)) (r : SensorReading.t) :
  Permutation (concat (map snd (groupStepBy key m r))) (r :: concat (map snd m)).
Proof.
  unfold groupStepBy, Map_has.
  destruct (lookup (key r) m) as [g|] eqn:Hl; cbn [negb].
  - rewrite Hl. apply Map_set_extend, Hl.
  - rewrite lookup_Map_set_same.
    rewrite (Map_set_extend (Map_set m (key r) []) (key r) [] r)
      by apply lookup_Map_set_same.
    rewrite (Map_set_fresh _ m (key r) [] Hl).
    rewrite map_app, concat_app. cbn [map snd concat]. rewrite !app_nil_r. reflexivity.
Qed.

Lemma fold_groupStepBy_perm (rs : list SensorReading.t) :
  forall m,
    Permutation (concat (map snd (fold_left (groupStepBy key) rs m)))
                (concat (map snd m) ++ rs).
Proof.
  induction rs as [|r t IH]; intros m; cbn [fold_left].
  - rewrite app_nil_r. reflexivity.
  - rewrite IH, groupStepBy_perm. cbn [app]. apply Permutation_middle.
Qed.

(** The groups are the classes of the readings under the key: one group per
    key that occurs, holding the readings of that key in their order, and
    every reading in exactly one group. *)
Lemma groupBy_partition (rs : list SensorReading.t) :
  let groups := fold_left (groupStepBy key) rs [] in
  NoDup (map fst groups) /\
  (forall k g, In (k, g) groups <->
               g <> [] /\ g = filter (fun r => (key r =? k)%string) rs) /\
  Permutation (concat (map snd groups)) rs.
Proof.
  cbv zeta. split; [apply fold_groupStepBy_NoDup; constructor|]. split.
  - intros k g. split.
    + intros Hin. apply In_lookup in Hin; [|apply fold_groupStepBy_NoDup; constructor].
      rewrite lookup_fold_groupStepBy in Hin. cbn [lookup] in Hin.
      destruct (filter _ rs); [discriminate|].
      injection Hin as <-. split; [discriminate | reflexivity].
    + intros [Hne ->]. apply lookup_In. rewrite lookup_fold_groupStepBy. cbn [lookup].
      destruct (filter _ rs); [contradiction | reflexivity].
  - rewrite fold_groupStepBy_perm. reflexivity.
Qed.

Lemma Map_has_groupStepBy (m : JsMap (list SensorReading.t)) (r : SensorReading.t)
      (k : string) :
  Map_has (groupStepBy key m r) k = Map_has m k || (key r =? k)%string.
Proof.
  unfold Map_has. rewrite lookup_groupStepBy.
  destruct (key r =? k)%string; destruct (lookup k m); reflexivity.
Qed.

Lemma groupStepBy_keys (m : JsMap (list SensorReading.t)) (r : SensorReading.t) :
  map fst (groupStepBy key m r)
  = if Map_has m (key r) then map fst m else map fst m ++ [key r].
Proof.
  unfold groupStepBy, Map_has.
  destruct (lookup (key r) m) as [g|] eqn:Hl; cbn [negb].
  - rewrite Hl, Map_set_keys. unfold Map_has. rewrite Hl. reflexivity.
  - rewrite lookup_Map_set_same, !Map_set_keys. unfold Map_has.
    rewrite lookup_Map_set_same, Hl. reflexivity.
Qed.

Lemma filter_filter_and (A : Type) (f g : A -> bool) (l : list A) :
  filter f (filter g l) = filter (fun x => g x && f x) l.
Proof.
  induction l as [|x t IH]; cbn [filter]; [reflexivity|].
  destruct (g x); cbn [filter andb]; [destruct (f x)|]; rewrite IH; reflexivity.
Qed.

Lemma filter_all (A : Type) (l : list A) : filter (fun _ => true) l = l.
Proof.
  induction l as [|x t IH]; cbn [filter]; [reflexivity|]. rewrite IH. reflexivity.
Qed.

(** The keys of the map are in the order in which they first occur. *)
Lemma fold_groupStepBy_keys (rs : list SensorReading.t) :
  forall m : JsMap (list SensorReading.t),
    map fst (fold_left (groupStepBy key) rs m)
    = map fst m ++ filter (fun k => negb (Map_has m k)) (firstOccurrences (map key rs)).
Proof.
  induction rs as [|r t IH]; intros m; cbn [fold_left map firstOccurrences].
  - cbn [filter]. rewrite app_nil_r. reflexivity.
  - rewrite IH, groupStepBy_keys.
    rewrite (filter_ext (fun k => negb (Map_has (groupStepBy key m r) k))
                        (fun k => negb (k =? key r)%string && negb (Map_has m k))).
    2:{ intros k. rewrite Map_has_groupStepBy, (String.eqb_sym (key r) k).
        destruct (Map_has m k), (k =? key r)%string; reflexivity. }
    cbn [filter]. rewrite filter_filter_and.
    destruct (Map_has m (key r)); cbn [negb].
    + reflexivity.
    + rewrite <- app_assoc. reflexivity.
Qed.

Lemma groupBy_keys (rs : list SensorReading.t) :
  map fst (fold_left (groupStepBy key) rs []) = firstOccurrences (map key rs).
Proof.
  rewrite fold_groupStepBy_keys. cbn [map app]. apply filter_all.
Qed.

End GroupingFacts.

(** [groupByDevice] splits the readings by device id: the keys of the map are
    the device ids that occur, each once; the group of a device holds its
    readings in their order and is never empty (so [prepareSensorBatch] is
    not called on an empty list); and every reading is in exactly one
    group. *)
Theorem groupByDevice_partition (readings : list SensorReading.t) :
  let groups := syncStore.groupByDevice readings in
  NoDup (map fst groups) /\
  (forall deviceId group,
      In (deviceId, group) groups <->
      group <> [] /\
      group = filter (fun r => (SensorReading.deviceId r =? deviceId)%string) readings) /\
  (forall deviceId,
      In deviceId (map fst groups) <->
      exists r, In r readings /\ SensorReading.deviceId r = deviceId) /\
  Permutation (concat (map snd groups)) readings.
Proof.
  cbv zeta. unfold syncStore.groupByDevice. rewrite groupByDeviceStep_by.
  destruct (groupBy_partition SensorReading.deviceId readings) as (Hnd & Hin & Hperm).
  split; [exact Hnd|]. split; [exact Hin|]. split; [|exact Hperm].
  intros deviceId. rewrite in_map_iff. split.
  - intros ([d g] & <- & Hdg). apply Hin in Hdg. destruct Hdg as [Hne ->].
    cbn [fst].
    destruct (filter _ readings) as [|r t] eqn:Hf; [contradiction|].
    assert (Hr : In r (filter (fun r => (SensorReading.deviceId r =? d)%string) readings))
      by (rewrite Hf; left; reflexivity).
    apply filter_In in Hr. destruct Hr as [Hr Hd]. apply String.eqb_eq in Hd. eauto.
  - intros (r & Hr & Hd).
    exists (deviceId, filter (fun r => (SensorReading.deviceId r =? deviceId)%string) readings).
    split; [reflexivity|]. apply Hin. split; [|reflexivity].
    intros Hnil.
    assert (Hrin : In r (filter (fun r => (SensorReading.deviceId r =? deviceId)%string)
                                readings))
      by (apply filter_In; split; [exact Hr | apply String.eqb_eq, Hd]).
    rewrite Hnil in Hrin. destruct Hrin.
Qed.

(** ** Aggregates: one per key, every reading counted once *)

Lemma timestamp_gt_consistent (xs : list SensorReading.t) :
  consistentOn dataAggregation.timestamp_gt xs.
Proof.
  unfold consistentOn, dataAggregation.timestamp_gt. split.
  - intros a b _ _ H. apply Z.gtb_lt in H.
    destruct (Z.gtb_spec (SensorReading.timestamp b - SensorReading.timestamp a) 0);
      [lia | reflexivity].
  - intros a b c _ _ _ Hab Hbc.
    destruct (Z.gtb_spec (SensorReading.timestamp a - SensorReading.timestamp b) 0);
      [discriminate|].
    destruct (Z.gtb_spec (SensorReading.timestamp b - SensorReading.timestamp c) 0);
      [discriminate|].
    destruct (Z.gtb_spec (SensorReading.timestamp a - SensorReading.timestamp c) 0);
      [lia | reflexivity].
Qed.

Lemma timestamp_gt_le (a b : SensorReading.t) :
  dataAggregation.timestamp_gt a b = false <->
  SensorReading.timestamp a <= SensorReading.timestamp b.
Proof.
  unfold dataAggregation.timestamp_gt.
  destruct (Z.gtb_spec (SensorReading.timestamp a - SensorReading.timestamp b) 0);
    split; intros; try lia; try discriminate; reflexivity.
Qed.

Lemma item_last_value (A : Type) (xs : list A) (d : A) :
  xs <> [] -> item xs (len xs - 1) = Some (last xs d).
Proof.
  intros Hne. destruct (exists_last Hne) as (pre & x & ->).
  rewrite last_last. unfold len. rewrite length_app. cbn [List.length].
  replace (Z.of_nat (List.length pre + 1) - 1) with (Z.of_nat (List.length pre)) by lia.
  rewrite item_nat, nth_error_app2, Nat.sub_diag by lia. reflexivity.
Qed.

Section AggregateFacts.

Variable JSON_parse : string -> Result JsValue.
Variable JSON_stringify : JsValue -> string.
Variable engineOrder : list float -> list float.
Variable AnomalyReport : Type.
Variable History : Type.
Variable detectBatchAnomalies :
  History -> list SensorReading.t -> list AnomalyReport * History.

(** The timestamps and the root of an aggregate, in terms of the group sorted
    by timestamp. *)
Lemma aggregateGroup_sorted (history history' : History) (key : string)
      (group : list SensorReading.t) (agg : LocalDataAggregate.t) :
  dataAggregation.aggregateGroup JSON_parse JSON_stringify engineOrder detectBatchAnomalies
    history key group = Ok (agg, history') ->
  let sorted := Array_sortWith dataAggregation.timestamp_gt group in
  exists first tree,
    hd_error sorted = Some first /\
    LocalDataAggregate.startTimestamp agg = SensorReading.timestamp first /\
    LocalDataAggregate.endTimestamp agg = SensorReading.timestamp (last sorted first) /\
    merkleTree.generateMerkleTree
      (map (dataAggregation.formatSensorData JSON_stringify) sorted) = Ok tree /\
    LocalDataAggregate.merkleRoot agg = merkleRoot tree /\
    LocalDataAggregate.anomalyCount agg = len (fst (detectBatchAnomalies history sorted)) /\
    history' = snd (detectBatchAnomalies history sorted).
Proof.
  unfold dataAggregation.aggregateGroup. cbv zeta.
  set (sorted := Array_sortWith dataAggregation.timestamp_gt group).
  unfold dataAggregation.timestampAt.
  destruct sorted as [|first rest] eqn:Hs.
  { cbn. discriminate. }
  rewrite item_first. cbn [bind].
  rewrite (item_last_value _ (first :: rest) first) by discriminate. cbn [bind].
  destruct (detectBatchAnomalies history (first :: rest)) as [anomalies h1] eqn:Hd.
  destruct (merkleTree.generateMerkleTree _) as [tree|] eqn:Htree; cbn [bind];
    [|discriminate].
  intros [= <- <-]. exists first, tree. cbn. repeat split.
Qed.

(** The aggregates are set in the order of the groups, one per group. *)
Lemma aggregateLoop_entries (entries : list (string * list SensorReading.t)) :
  forall (history history' : History) (aggs0 aggs : JsMap LocalDataAggregate.t),
    NoDup (map fst entries) ->
    (forall k, In k (map fst entries) -> lookup k aggs0 = None) ->
    dataAggregation.aggregateLoop JSON_parse JSON_stringify engineOrder detectBatchAnomalies
      history entries aggs0 = Ok (aggs, history') ->
    exists added,
      aggs = aggs0 ++ added /\
      map fst added = map fst entries /\
      Forall2 (fun entry aggregate =>
                 LocalDataAggregate.recordCount (snd aggregate) = len (snd entry))
              entries added.
Proof.
  induction entries as [|[k g] rest IH]; intros history history' aggs0 aggs Hnd Hfresh;
    cbn [dataAggregation.aggregateLoop].
  - intros [= <- <-]. exists []. rewrite app_nil_r. repeat split. constructor.
  - destruct (dataAggregation.aggregateGroup _ _ _ _ history k g) as [[a h1]|] eqn:Hg;
      cbn [bind fst snd]; [|discriminate].
    intros Hloop. inversion Hnd as [|? ? Hnotin Hnd']; subst.
    rewrite (Map_set_fresh _ aggs0 k a) in Hloop
      by (apply Hfresh; left; reflexivity).
    assert (Hfresh' : forall k', In k' (map fst rest) ->
                                 lookup k' (aggs0 ++ [(k, a)]) = None).
    { intros k' Hk'. destruct (String.eqb_spec k k') as [-> | Hne]; [contradiction|].
      rewrite <- (Map_set_fresh _ aggs0 k a) by (apply Hfresh; left; reflexivity).
      rewrite lookup_Map_set_other by exact Hne. apply Hfresh. right. exact Hk'. }
    destruct (IH _ _ _ _ Hnd' Hfresh' Hloop) as (added & -> & Hkeys & Hcounts).
    exists ((k, a) :: added). rewrite <- app_assoc. split; [reflexivity|].
    cbn [map fst]. split; [f_equal; exact Hkeys|].
    constructor; [|exact Hcounts]. cbn [snd].
    destruct (aggregateGroup_fields _ _ _ _ _ _ _ _ _ _ _ Hg) as (_ & _ & Hc & _).
    exact Hc.
Qed.

Lemma totalRecordCount_groups (entries : list (string * list SensorReading.t))
      (added : JsMap LocalDataAggregate.t) :
  Forall2 (fun entry aggregate =>
             LocalDataAggregate.recordCount (snd aggregate) = len (snd entry))
          entries added ->
  totalRecordCount (map snd added) = len (concat (map snd entries)).
Proof.
  induction 1 as [|e a es as_ Hea _ IH]; [reflexivity|].
  cbn [map totalRecordCount fold_right concat].
  fold (totalRecordCount (map snd as_)). rewrite IH, Hea.
  unfold len. rewrite length_app. lia.
Qed.

Lemma aggregateSensorData_total
      (history history' : History) (readings : list SensorReading.t)
      (aggs : JsMap LocalDataAggregate.t) :
  dataAggregation.aggregateSensorData JSON_parse JSON_stringify engineOrder
    detectBatchAnomalies
    history readings = Ok (aggs, history') ->
  map fst aggs = map fst (dataAggregation.groupReadings readings) /\
  totalRecordCount (map snd aggs) = len readings.
Proof.
  intros Hloop. unfold dataAggregation.aggregateSensorData in Hloop.
  destruct (groupBy_partition dataAggregation.groupKey readings) as (Hnd & _ & Hperm).
  cbv zeta in Hnd, Hperm.
  change (fold_left (groupStepBy dataAggregation.groupKey) readings [])
    with (dataAggregation.groupReadings readings) in Hnd, Hperm.
  destruct (aggregateLoop_entries _ history history' [] aggs Hnd
              (fun k _ => eq_refl) Hloop)
    as (added & -> & Hkeys & Hcounts).
  cbn [app]. split; [exact Hkeys|].
  rewrite (totalRecordCount_groups _ _ Hcounts).
  unfold len. rewrite (Permutation_length Hperm). reflexivity.
Qed.

(** [aggregateSensorData] returns one aggregate per key that occurs among the
    readings, in the order in which the keys first occur there (the keys of
    the readings without their repetitions), and the record counts of the
    aggregates add up to the number of readings: every reading is counted in
    exactly one aggregate. *)
Theorem aggregates_count_every_reading
        (history history' : History) (readings : list SensorReading.t)
        (aggs : JsMap LocalDataAggregate.t) :
  dataAggregation.aggregateSensorData JSON_parse JSON_stringify engineOrder
    detectBatchAnomalies
    history readings = Ok (aggs, history') ->
  map fst aggs = firstOccurrences (map dataAggregation.groupKey readings) /\
  NoDup (map fst aggs) /\
  (forall key,
      In key (map fst aggs) <->
      exists r, In r readings /\ dataAggregation.groupKey r = key) /\
  (forall key aggregate,
      lookup key aggs = Some aggregate ->
      LocalDataAggregate.recordCount aggregate = len (readingsOfKey key readings)) /\
  totalRecordCount (map snd aggs) = len readings.
Proof.
  intros Hagg. pose proof Hagg as Hloop.
  unfold dataAggregation.aggregateSensorData in Hloop.
  destruct (groupBy_partition dataAggregation.groupKey readings) as (Hnd & Hin & Hperm).
  cbv zeta in Hnd, Hin, Hperm.
  change (fold_left (groupStepBy dataAggregation.groupKey) readings [])
    with (dataAggregation.groupReadings readings) in Hnd, Hin, Hperm.
  destruct (aggregateLoop_entries _ history history' [] aggs Hnd
              (fun k _ => eq_refl) Hloop)
    as (added & -> & Hkeys & Hcounts).
  cbn [app]. split.
  { rewrite Hkeys.
    change (dataAggregation.groupReadings readings)
      with (fold_left (groupStepBy dataAggregation.groupKey) readings []).
    apply groupBy_keys. }
  split; [rewrite Hkeys; exact Hnd|].
  split; [|split].
  - intros key. rewrite Hkeys, in_map_iff. split.
    + intros ([k g] & <- & Hkg). apply Hin in Hkg. destruct Hkg as [Hne ->]. cbn [fst].
      destruct (filter _ readings) as [|r t] eqn:Hf; [contradiction|].
      assert (Hr : In r (filter (fun r => (dataAggregation.groupKey r =? k)%string) readings))
        by (rewrite Hf; left; reflexivity).
      apply filter_In in Hr. destruct Hr as [Hr Hk]. apply String.eqb_eq in Hk. eauto.
    + intros (r & Hr & Hk).
      exists (key, filter (fun r => (dataAggregation.groupKey r =? key)%string) readings).
      split; [reflexivity|]. apply Hin. split; [|reflexivity].
      intros Hnil.
      assert (Hrin : In r (filter (fun r => (dataAggregation.groupKey r =? key)%string)
                                  readings))
        by (apply filter_In; split; [exact Hr | apply String.eqb_eq, Hk]).
      rewrite Hnil in Hrin. destruct Hrin.
  - intros key aggregate Hl.
    pose proof (aggregateSensorData_lookup _ _ _ _ _ _ _ _ _ _ key Hagg) as Hkey.
    cbn [app] in Hkey.
    destruct (readingsOfKey key readings) as [|r0 t] eqn:Hgroup; [congruence|].
    destruct Hkey as (h0 & h1 & agg & Hg & Hl'). rewrite Hl in Hl'. injection Hl' as <-.
    destruct (aggregateGroup_fields _ _ _ _ _ _ _ _ _ _ _ Hg) as (_ & _ & Hc & _).
    exact Hc.
  - rewrite (totalRecordCount_groups _ _ Hcounts).
    unfold len. rewrite (Permutation_length Hperm). reflexivity.
Qed.

(** The time range of an aggregate is that of its readings: no reading of the
    key is earlier than [startTimestamp] or later than [endTimestamp], and
    both are timestamps of readings of the key. *)
Theorem aggregate_time_range
        (history history' : History) (readings : list SensorReading.t)
        (aggs : JsMap LocalDataAggregate.t) (key : string)
        (aggregate : LocalDataAggregate.t) :
  dataAggregation.aggregateSensorData JSON_parse JSON_stringify engineOrder
    detectBatchAnomalies
    history readings = Ok (aggs, history') ->
  lookup key aggs = Some aggregate ->
  (forall r, In r readings -> dataAggregation.groupKey r = key ->
     LocalDataAggregate.startTimestamp aggregate <= SensorReading.timestamp r /\
     SensorReading.timestamp r <= LocalDataAggregate.endTimestamp aggregate) /\
  (exists r, In r readings /\ dataAggregation.groupKey r = key /\
             SensorReading.timestamp r = LocalDataAggregate.startTimestamp aggregate) /\
  (exists r, In r readings /\ dataAggregation.groupKey r = key /\
             SensorReading.timestamp r = LocalDataAggregate.endTimestamp aggregate).
Proof.
  intros Hagg Hl.
  pose proof (aggregateSensorData_lookup _ _ _ _ _ _ _ _ _ _ key Hagg) as Hkey.
  destruct (readingsOfKey key readings) as [|r0 t] eqn:Hgroup; [congruence|].
  destruct Hkey as (h0 & h1 & agg & Hg & Hl'). rewrite Hl in Hl'. injection Hl' as <-.
  rewrite <- Hgroup in Hg.
  destruct (aggregateGroup_sorted _ _ _ _ _ Hg) as (first & tree & Hhd & Hstart & Hend & _).
  set (group := readingsOfKey key readings) in *.
  set (sorted := Array_sortWith dataAggregation.timestamp_gt group) in *.
  pose proof (Array_sortWith_perm _ dataAggregation.timestamp_gt group) as Hperm.
  fold sorted in Hperm.
  pose proof (Array_sortWith_sorted _ dataAggregation.timestamp_gt group
                (timestamp_gt_consistent group)) as Hsorted.
  fold sorted in Hsorted.
  assert (Hmember : forall r, In r sorted <->
                              In r readings /\ dataAggregation.groupKey r = key).
  { intros r. split.
    - intros Hr. apply (Permutation_in _ (Permutation_sym Hperm)) in Hr.
      subst group. unfold readingsOfKey in Hr. apply filter_In in Hr.
      destruct Hr as [Hr Hk]. apply String.eqb_eq in Hk. auto.
    - intros [Hr Hk]. apply (Permutation_in _ Hperm).
      subst group. unfold readingsOfKey. apply filter_In.
      split; [exact Hr | apply String.eqb_eq, Hk]. }
  destruct sorted as [|x rest] eqn:Hs; [discriminate Hhd|].
  cbn [hd_error] in Hhd. injection Hhd as ->.
  assert (Hrefl : forall a, In a (first :: rest) -> dataAggregation.timestamp_gt a a = false)
    by (intros a _; apply timestamp_gt_le; lia).
  rewrite Hstart, Hend. split; [|split].
  - intros r Hr Hk. assert (Hin : In r (first :: rest)) by (apply Hmember; auto).
    split.
    + apply timestamp_gt_le.
      apply (sorted_first _ (fun a b => dataAggregation.timestamp_gt a b = false)
                          first rest r); auto.
      apply Hrefl. left. reflexivity.
    + apply timestamp_gt_le.
      apply (sorted_last _ (fun a b => dataAggregation.timestamp_gt a b = false)); auto.
  - exists first. destruct (proj1 (Hmember first) (or_introl eq_refl)). auto.
  - exists (last (first :: rest) first).
    destruct (proj1 (Hmember (last (first :: rest) first)) (last_In _ _ _ _)). auto.
Qed.

End AggregateFacts.

Lemma aggregates_count_every_reading_witness :
  exists aggs history',
    dataAggregation.aggregateSensorData noParse emptyObjectText keepOrder noAnomalies
      tt (scenarioA ++ statusReadings) = Ok (aggs, history') /\
    map fst aggs = ["device-001-temperature"; "gateway-status"] /\
    NoDup (map fst aggs) /\
    totalRecordCount (map snd aggs) = len (scenarioA ++ statusReadings).
Proof.
  assert (Hagg : exists aggs history',
    dataAggregation.aggregateSensorData noParse emptyObjectText keepOrder noAnomalies
      tt (scenarioA ++ statusReadings) = Ok (aggs, history'))
    by (eexists; eexists; vm_compute; reflexivity).
  destruct Hagg as (aggs & history' & Hagg).
  exists aggs, history'. split; [exact Hagg|].
  destruct (aggregates_count_every_reading noParse emptyObjectText keepOrder
              unit unit noAnomalies
              tt history' (scenarioA ++ statusReadings) aggs Hagg)
    as (Hkeys & Hnd & _ & _ & Htotal).
  split; [exact Hkeys|]. split; [exact Hnd | exact Htotal].
Defined.

Lemma aggregate_time_range_witness :
  let key := "device-001-temperature" in
  exists aggs history' aggregate,
    dataAggregation.aggregateSensorData noParse emptyObjectText keepOrder noAnomalies
      tt scenarioA = Ok (aggs, history') /\
    lookup key aggs = Some aggregate /\
    (forall r, In r scenarioA -> dataAggregation.groupKey r = key ->
       LocalDataAggregate.startTimestamp aggregate <= SensorReading.timestamp r /\
       SensorReading.timestamp r <= LocalDataAggregate.endTimestamp aggregate).
Proof.
  intros key.
  assert (Hagg : exists aggs history' aggregate,
    dataAggregation.aggregateSensorData noParse emptyObjectText keepOrder noAnomalies
      tt scenarioA = Ok (aggs, history') /\
    lookup key aggs = Some aggregate).
  { eexists. eexists. eexists. split; vm_compute; reflexivity. }
  destruct Hagg as (aggs & history' & aggregate & Hagg & Hlookup).
  exists aggs, history', aggregate.
  split; [exact Hagg|]. split; [exact Hlookup|].
  destruct (aggregate_time_range noParse emptyObjectText keepOrder unit unit noAnomalies
              tt history' scenarioA aggs key aggregate Hagg Hlookup)
    as (Hrange & _).
  exact Hrange.
Defined.

(** ** Aggregates and the order of arrival *)

(** A list sorted by a relation that is antisymmetric on its elements is the
    only sorted arrangement of its elements. *)
Lemma sorted_perm_unique (A : Type) (R : A -> A -> Prop) (l : list A) :
  forall l',
    (forall a, In a l -> R a a) ->
    (forall a b, In a l -> In b l -> R a b -> R b a -> a = b) ->
    StronglySorted R l -> StronglySorted R l' -> Permutation l l' -> l = l'.
Proof.
  induction l as [|x t IH]; intros l' Hrefl Hanti Hs Hs' Hperm.
  - apply Permutation_nil in Hperm. congruence.
  - destruct l' as [|y t'].
    { apply Permutation_sym, Permutation_nil in Hperm. discriminate. }
    apply StronglySorted_inv in Hs. destruct Hs as [Hst Hx].
    apply StronglySorted_inv in Hs'. destruct Hs' as [Hst' Hy].
    rewrite Forall_forall in Hx, Hy.
    assert (Hyin : In y (x :: t))
      by (apply (Permutation_in _ (Permutation_sym Hperm)); left; reflexivity).
    assert (Hxin : In x (y :: t'))
      by (apply (Permutation_in _ Hperm); left; reflexivity).
    assert (Hxy : x = y).
    { destruct Hyin as [Heq | Hyt]; [exact Heq|].
      destruct Hxin as [Heq | Hxt']; [congruence|].
      apply Hanti; [left; reflexivity | right; exact Hyt | apply Hx, Hyt | apply Hy, Hxt']. }
    subst y. f_equal. apply IH; auto.
    + intros a Ha. apply Hrefl. right. exact Ha.
    + intros a b Ha Hb. apply Hanti; right; assumption.
    + eapply Permutation_cons_inv. exact Hperm.
Qed.

Lemma NoDup_map_inj (A B : Type) (f : A -> B) (l : list A) (a b : A) :
  NoDup (map f l) -> In a l -> In b l -> f a = f b -> a = b.
Proof.
  induction l as [|x t IH]; cbn [map In]; [tauto|].
  intros Hnd Ha Hb Hf. inversion Hnd as [|? ? Hnotin Hnd']; subst.
  destruct Ha as [<- | Ha]; destruct Hb as [<- | Hb]; auto.
  - exfalso. apply Hnotin. rewrite Hf. apply in_map, Hb.
  - exfalso. apply Hnotin. rewrite <- Hf. apply in_map, Ha.
Qed.

(** Readings with distinct timestamps have one order by timestamp. *)
Lemma sorted_by_timestamp_unique (group group' : list SensorReading.t) :
  Permutation group group' ->
  NoDup (map SensorReading.timestamp group) ->
  Array_sortWith dataAggregation.timestamp_gt group
  = Array_sortWith dataAggregation.timestamp_gt group'.
Proof.
  intros Hperm Hnd.
  pose proof (Array_sortWith_perm _ dataAggregation.timestamp_gt group) as Hp.
  pose proof (Array_sortWith_perm _ dataAggregation.timestamp_gt group') as Hp'.
  apply (sorted_perm_unique _ (fun a b => dataAggregation.timestamp_gt a b = false)).
  - intros a _. apply timestamp_gt_le. lia.
  - intros a b Ha Hb Hab Hba. apply timestamp_gt_le in Hab, Hba.
    apply (NoDup_map_inj _ _ SensorReading.timestamp group);
      [exact Hnd | | | lia];
      apply (Permutation_in _ (Permutation_sym Hp)); assumption.
  - apply Array_sortWith_sorted, timestamp_gt_consistent.
  - apply Array_sortWith_sorted, timestamp_gt_consistent.
  - rewrite <- Hp, <- Hp'. exact Hperm.
Qed.

Lemma filter_perm (A : Type) (f : A -> bool) (l l' : list A) :
  Permutation l l' -> Permutation (filter f l) (filter f l').
Proof.
  induction 1 as [| x l l' _ IH | x y l | l l' l'' _ IH1 _ IH2]; cbn [filter].
  - constructor.
  - destruct (f x); [apply perm_skip|]; exact IH.
  - destruct (f x); destruct (f y); try reflexivity. apply perm_swap.
  - rewrite IH1. exact IH2.
Qed.

Section ArrivalOrder.

Variable JSON_parse : string -> Result JsValue.
Variable JSON_stringify : JsValue -> string.
Variable engineOrder : list float -> list float.
Variable AnomalyReport : Type.
Variable History : Type.
Variable detectBatchAnomalies :
  History -> list SensorReading.t -> list AnomalyReport * History.

(** What an aggregate holds depends on the group through its arrangement by
    timestamp only, and on the history of the detector only in the number of
    anomalies. *)
Lemma aggregateGroup_of_sorted (h h' k k' : History) (key : string)
      (group group' : list SensorReading.t) (a a' : LocalDataAggregate.t) :
  Array_sortWith dataAggregation.timestamp_gt group
  = Array_sortWith dataAggregation.timestamp_gt group' ->
  dataAggregation.aggregateGroup JSON_parse JSON_stringify engineOrder detectBatchAnomalies
    h key group = Ok (a, h') ->
  dataAggregation.aggregateGroup JSON_parse JSON_stringify engineOrder detectBatchAnomalies
    k key group' = Ok (a', k') ->
  a' = {| LocalDataAggregate.deviceId := LocalDataAggregate.deviceId a;
          LocalDataAggregate.dataType := LocalDataAggregate.dataType a;
          LocalDataAggregate.startTimestamp := LocalDataAggregate.startTimestamp a;
          LocalDataAggregate.endTimestamp := LocalDataAggregate.endTimestamp a;
          LocalDataAggregate.recordCount := LocalDataAggregate.recordCount a;
          LocalDataAggregate.min := LocalDataAggregate.min a;
          LocalDataAggregate.max := LocalDataAggregate.max a;
          LocalDataAggregate.average := LocalDataAggregate.average a;
          LocalDataAggregate.medianValue := LocalDataAggregate.medianValue a;
          LocalDataAggregate.standardDeviation := LocalDataAggregate.standardDeviation a;
          LocalDataAggregate.anomalyCount := LocalDataAggregate.anomalyCount a';
          LocalDataAggregate.merkleRoot := LocalDataAggregate.merkleRoot a |}.
Proof.
  intros Hsorted. unfold dataAggregation.aggregateGroup. rewrite <- Hsorted.
  destruct (dataAggregation.timestampAt _ 0); cbn [bind]; [|discriminate].
  destruct (dataAggregation.timestampAt _ _); cbn [bind]; [|discriminate].
  destruct (detectBatchAnomalies h _) as [anomalies h1].
  destruct (detectBatchAnomalies k _) as [anomalies' k1].
  destruct (merkleTree.generateMerkleTree _); cbn [bind]; [|discriminate].
  intros [= <- <-] [= <- <-]. reflexivity.
Qed.

(** The aggregate of a key whose readings have distinct timestamps does not
    depend on the order in which the readings arrive, nor on the other
    readings: for two batches that are permutations of one another the
    aggregates of the key agree on the fields taken from the key, the time
    range, the record count, the statistics and the Merkle root (the number
    of anomalies depends on what the detector has seen before). *)
Theorem aggregate_independent_of_arrival_order
        (history1 history1' history2 history2' : History)
        (readings1 readings2 : list SensorReading.t)
        (aggs1 aggs2 : JsMap LocalDataAggregate.t) (key : string) :
  Permutation readings1 readings2 ->
  NoDup (map SensorReading.timestamp (readingsOfKey key readings1)) ->
  dataAggregation.aggregateSensorData JSON_parse JSON_stringify engineOrder
    detectBatchAnomalies
    history1 readings1 = Ok (aggs1, history1') ->
  dataAggregation.aggregateSensorData JSON_parse JSON_stringify engineOrder
    detectBatchAnomalies
    history2 readings2 = Ok (aggs2, history2') ->
  match lookup key aggs1, lookup key aggs2 with
  | Some a1, Some a2 =>
      LocalDataAggregate.deviceId a2 = LocalDataAggregate.deviceId a1 /\
      LocalDataAggregate.dataType a2 = LocalDataAggregate.dataType a1 /\
      LocalDataAggregate.startTimestamp a2 = LocalDataAggregate.startTimestamp a1 /\
      LocalDataAggregate.endTimestamp a2 = LocalDataAggregate.endTimestamp a1 /\
      LocalDataAggregate.recordCount a2 = LocalDataAggregate.recordCount a1 /\
      LocalDataAggregate.min a2 = LocalDataAggregate.min a1 /\
      LocalDataAggregate.max a2 = LocalDataAggregate.max a1 /\
      LocalDataAggregate.average a2 = LocalDataAggregate.average a1 /\
      LocalDataAggregate.medianValue a2 = LocalDataAggregate.medianValue a1 /\
      LocalDataAggregate.standardDeviation a2 = LocalDataAggregate.standardDeviation a1 /\
      LocalDataAggregate.merkleRoot a2 = LocalDataAggregate.merkleRoot a1
  | None, None => True
  | _, _ => False
  end.
Proof.
  intros Hperm Hnd Hagg1 Hagg2.
  pose proof (aggregateSensorData_lookup _ _ _ _ _ _ _ _ _ _ key Hagg1) as H1.
  pose proof (aggregateSensorData_lookup _ _ _ _ _ _ _ _ _ _ key Hagg2) as H2.
  assert (Hgroups : Permutation (readingsOfKey key readings1) (readingsOfKey key readings2))
    by (apply filter_perm, Hperm).
  pose proof (sorted_by_timestamp_unique _ _ Hgroups Hnd) as Hsorted.
  destruct (readingsOfKey key readings1) as [|r1 t1] eqn:Hg1;
    destruct (readingsOfKey key readings2) as [|r2 t2] eqn:Hg2.
  - rewrite H1, H2. exact I.
  - apply Permutation_nil in Hgroups. discriminate.
  - apply Permutation_sym, Permutation_nil in Hgroups. discriminate.
  - destruct H1 as (h0 & h1 & a1 & Ha1 & ->). destruct H2 as (k0 & k1 & a2 & Ha2 & ->).
    rewrite (aggregateGroup_of_sorted _ _ _ _ _ _ _ _ _ Hsorted Ha1 Ha2).
    cbn. repeat split.
Qed.

End ArrivalOrder.

Lemma aggregate_independent_of_arrival_order_witness :
  let key := "device-001-temperature" in
  Permutation scenarioA (rev scenarioA) /\
  NoDup (map SensorReading.timestamp (readingsOfKey key scenarioA)) /\
  exists aggs1 history1' aggs2 history2',
    dataAggregation.aggregateSensorData noParse emptyObjectText keepOrder noAnomalies
      tt scenarioA = Ok (aggs1, history1') /\
    dataAggregation.aggregateSensorData noParse emptyObjectText keepOrder noAnomalies
      tt (rev scenarioA) = Ok (aggs2, history2') /\
    match lookup key aggs1, lookup key aggs2 with
    | Some a1, Some a2 =>
        LocalDataAggregate.deviceId a2 = LocalDataAggregate.deviceId a1 /\
        LocalDataAggregate.dataType a2 = LocalDataAggregate.dataType a1 /\
        LocalDataAggregate.startTimestamp a2 = LocalDataAggregate.startTimestamp a1 /\
        LocalDataAggregate.endTimestamp a2 = LocalDataAggregate.endTimestamp a1 /\
        LocalDataAggregate.recordCount a2 = LocalDataAggregate.recordCount a1 /\
        LocalDataAggregate.min a2 = LocalDataAggregate.min a1 /\
        LocalDataAggregate.max a2 = LocalDataAggregate.max a1 /\
        LocalDataAggregate.average a2 = LocalDataAggregate.average a1 /\
        LocalDataAggregate.medianValue a2 = LocalDataAggregate.medianValue a1 /\
        LocalDataAggregate.standardDeviation a2
        = LocalDataAggregate.standardDeviation a1 /\
        LocalDataAggregate.merkleRoot a2 = LocalDataAggregate.merkleRoot a1
    | None, None => True
    | _, _ => False
    end.
Proof.
  intros key.
  assert (Hperm : Permutation scenarioA (rev scenarioA)) by apply Permutation_rev.
  assert (Hnd : NoDup (map SensorReading.timestamp (readingsOfKey key scenarioA))).
  { change (readingsOfKey key scenarioA) with scenarioA.
    repeat constructor; cbn; intuition discriminate. }
  split; [exact Hperm|]. split; [exact Hnd|].
  assert (Hagg1 : exists aggs1 history1',
    dataAggregation.aggregateSensorData noParse emptyObjectText keepOrder noAnomalies
      tt scenarioA = Ok (aggs1, history1'))
    by (eexists; eexists; vm_compute; reflexivity).
  assert (Hagg2 : exists aggs2 history2',
    dataAggregation.aggregateSensorData noParse emptyObjectText keepOrder noAnomalies
      tt (rev scenarioA) = Ok (aggs2, history2'))
    by (eexists; eexists; vm_compute; reflexivity).
  destruct Hagg1 as (aggs1 & history1' & Hagg1).
  destruct Hagg2 as (aggs2 & history2' & Hagg2).
  exists aggs1, history1', aggs2, history2'.
  split; [exact Hagg1|]. split; [exact Hagg2|].
  exact (aggregate_independent_of_arrival_order
           noParse emptyObjectText keepOrder unit unit noAnomalies
           tt history1' tt history2' scenarioA (rev scenarioA) aggs1 aggs2 key
           Hperm Hnd Hagg1 Hagg2).
Defined.

(** ** Batches *)

Lemma standalone_proofs_length (records : list SensorData.t) (tree : MerkleTree) :
  merkleTree.generateMerkleTree records = Ok tree ->
  List.length (proofs tree) = List.length records.
Proof.
  unfold merkleTree.generateMerkleTree.
  destruct (len records =? 0); [discriminate|].
  change (mapM merkleTree.leaf records) with (MerkleTreeUtils.generateLeaves records).
  destruct (MerkleTreeUtils.generateLeaves records) as [leaves|] eqn:Hleaves;
    cbn [bind]; [|discriminate].
  destruct (merkleTree.buildLayers leaves); cbn [bind]; [|discriminate].
  intros [= <-]. cbn [proofs]. unfold indices. rewrite !length_map, length_seq.
  apply (generateLeaves_isBytes32 records leaves Hleaves).
Qed.

Section BatchFacts.

Variable JSON_parse : string -> Result JsValue.
Variable JSON_stringify : JsValue -> string.
Variable engineOrder : list float -> list float.
Variable AnomalyReport : Type.
Variable History : Type.
Variable detectBatchAnomalies :
  History -> list SensorReading.t -> list AnomalyReport * History.

(** [prepareSensorBatch] throws on an empty list of readings, where
    [aggregateSensorData] returns an empty map.  What it returns for a list
    of readings holds the formatted records in the order of the readings,
    the root and one proof per reading of the tree over these records, the
    reports of the detector on the readings, and the aggregates, whose record
    counts add up to the number of readings; and it returns for every
    non-empty list of readings whose timestamps can be packed. *)
Theorem prepareSensorBatch_batch (history : History) (readings : list SensorReading.t) :
  sensorBatch.prepareSensorBatch JSON_parse JSON_stringify engineOrder
    detectBatchAnomalies history []
  = Throw (Error "No records for Merkle tree") /\
  dataAggregation.aggregateSensorData JSON_parse JSON_stringify engineOrder
    detectBatchAnomalies
    history [] = Ok ([], history) /\
  (forall batch history',
      sensorBatch.prepareSensorBatch JSON_parse JSON_stringify engineOrder
        detectBatchAnomalies
        history readings = Ok (batch, history') ->
      sensorBatch.formattedData batch
      = map (dataAggregation.formatSensorData JSON_stringify) readings /\
      merkleTree.generateMerkleTree (sensorBatch.formattedData batch)
      = Ok {| merkleRoot := sensorBatch.merkleRoot batch;
              proofs := sensorBatch.proofs batch |} /\
      List.length (sensorBatch.proofs batch) = List.length readings /\
      sensorBatch.anomalies batch = fst (detectBatchAnomalies history readings) /\
      totalRecordCount (sensorBatch.aggregates batch) = len readings) /\
  (readings <> [] ->
   Forall (fun r => validTimestamp (SensorReading.timestamp r)) readings ->
   exists batch history',
     sensorBatch.prepareSensorBatch JSON_parse JSON_stringify engineOrder
       detectBatchAnomalies
       history readings = Ok (batch, history')).
Proof.
  split; [reflexivity|]. split; [reflexivity|]. split.
  - intros batch history'. unfold sensorBatch.prepareSensorBatch.
    destruct (merkleTree.generateMerkleTree _) as [[treeRoot treeProofs]|] eqn:Htree;
      cbn [bind]; [|discriminate].
    destruct (detectBatchAnomalies history readings) as [anomalies h1] eqn:Hd.
    destruct (dataAggregation.aggregateSensorData _ _ _ _ h1 readings) as [[aggs h2]|] eqn:Hagg;
      cbn [bind]; [|discriminate].
    intros [= <- <-].
    cbn [sensorBatch.formattedData sensorBatch.merkleRoot sensorBatch.proofs
         sensorBatch.anomalies sensorBatch.aggregates fst].
    split; [reflexivity|]. split; [exact Htree|]. split; [|split; [reflexivity|]].
    + pose proof (standalone_proofs_length _ _ Htree) as Hlen.
      cbn [proofs] in Hlen. rewrite Hlen, length_map. reflexivity.
    + apply (aggregateSensorData_total _ _ _ _ _ _ _ _ _ _ Hagg).
  - intros Hne Hts. unfold sensorBatch.prepareSensorBatch.
    destruct (merkleTree_generateMerkleTree_ok
                (map (dataAggregation.formatSensorData JSON_stringify) readings))
      as [[treeRoot treeProofs] Htree].
    + intros H. apply map_eq_nil in H. contradiction.
    + apply Forall_map. exact Hts.
    + rewrite Htree. cbn [bind].
      destruct (detectBatchAnomalies history readings) as [anomalies h1].
      destruct (aggregateSensorData_ok JSON_parse JSON_stringify engineOrder _ _
                  detectBatchAnomalies h1 readings Hts) as (aggs & h2 & Hagg).
      rewrite Hagg. cbn [bind]. eauto.
Qed.

End BatchFacts.

(** ** What the anomaly detector is given *)

Lemma concat_sorted_perm (groups : list (string * list SensorReading.t)) :
  Permutation
    (concat (map (fun entry => Array_sortWith dataAggregation.timestamp_gt (snd entry))
                 groups))
    (concat (map snd groups)).
Proof.
  induction groups as [|[k g] rest IH]; cbn [map concat snd]; [reflexivity|].
  apply Permutation_app; [|exact IH].
  symmetry. apply Array_sortWith_perm.
Qed.

Section Recording.

Variable JSON_parse : string -> Result JsValue.
Variable JSON_stringify : JsValue -> string.
Variable engineOrder : list float -> list float.

Lemma aggregateLoop_recorded (entries : list (string * list SensorReading.t)) :
  forall (seen seen' : list SensorReading.t) (aggs0 aggs : JsMap LocalDataAggregate.t),
    dataAggregation.aggregateLoop JSON_parse JSON_stringify engineOrder recordingDetector
      seen entries aggs0 = Ok (aggs, seen') ->
    seen' = seen ++
            concat (map (fun entry =>
                           Array_sortWith dataAggregation.timestamp_gt (snd entry))
                        entries).
Proof.
  induction entries as [|[k g] rest IH]; intros seen seen' aggs0 aggs;
    cbn [dataAggregation.aggregateLoop].
  - intros [= <- <-]. cbn [map concat]. rewrite app_nil_r. reflexivity.
  - destruct (dataAggregation.aggregateGroup _ _ _ _ seen k g) as [[a h1]|] eqn:Hg;
      cbn [bind fst snd]; [|discriminate].
    intros Hloop. rewrite (IH _ _ _ _ Hloop).
    pose proof (aggregateGroup_sorted _ _ _ _ _ _ _ _ _ _ _ Hg) as Hs. cbv zeta in Hs.
    destruct Hs as (first & tree & _ & _ & _ & _ & _ & _ & ->).
    cbn [recordingDetector snd map concat]. rewrite <- app_assoc. reflexivity.
Qed.

(** [prepareSensorBatch] hands every reading to the anomaly detector twice:
    once with the whole batch, in the order of arrival, and once more with
    its group, in the order of the timestamps.  For a detector that records
    what it is given, the record after a batch is the readings followed by
    the groups, each sorted by timestamp, in the order of the keys. *)
Theorem prepareSensorBatch_detects_twice
        (readings seen : list SensorReading.t)
        (batch : sensorBatch.t unit) :
  sensorBatch.prepareSensorBatch JSON_parse JSON_stringify engineOrder recordingDetector [] readings
  = Ok (batch, seen) ->
  seen = readings ++
         concat (map (fun entry =>
                        Array_sortWith dataAggregation.timestamp_gt (snd entry))
                     (dataAggregation.groupReadings readings)) /\
  Permutation seen (readings ++ readings).
Proof.
  unfold sensorBatch.prepareSensorBatch.
  destruct (merkleTree.generateMerkleTree _) as [[treeRoot treeProofs]|];
    cbn [bind]; [|discriminate].
  cbn [recordingDetector app].
  destruct (dataAggregation.aggregateSensorData _ _ _ _ readings readings) as [[aggs h2]|] eqn:Hagg;
    cbn [bind]; [|discriminate].
  intros [= _ <-].
  unfold dataAggregation.aggregateSensorData in Hagg.
  rewrite (aggregateLoop_recorded _ _ _ _ _ Hagg).
  split; [reflexivity|].
  apply Permutation_app_head.
  rewrite concat_sorted_perm.
  destruct (groupBy_partition dataAggregation.groupKey readings) as (_ & _ & Hperm).
  exact Hperm.
Qed.

End Recording.

Lemma prepareSensorBatch_detects_twice_witness :
  exists batch seen,
    sensorBatch.prepareSensorBatch noParse emptyObjectText keepOrder recordingDetector
      [] (rev scenarioA) = Ok (batch, seen) /\
    seen = rev scenarioA ++
           concat (map (fun entry =>
                          Array_sortWith dataAggregation.timestamp_gt (snd entry))
                       (dataAggregation.groupReadings (rev scenarioA))) /\
    Permutation seen (rev scenarioA ++ rev scenarioA).
Proof.
  assert (Hbatch : exists batch seen,
    sensorBatch.prepareSensorBatch noParse emptyObjectText keepOrder recordingDetector
      [] (rev scenarioA) = Ok (batch, seen))
    by (eexists; eexists; vm_compute; reflexivity).
  destruct Hbatch as (batch & seen & Hbatch).
  exists batch, seen. split; [exact Hbatch|].
  exact (prepareSensorBatch_detects_twice noParse emptyObjectText keepOrder
           (rev scenarioA) seen batch Hbatch).
Defined.

(** ** Extracting the numeric value *)

Lemma asNumber_find (values : list JsValue) :
  (forall x,
      asNumber (find (fun v => match v with JNumber _ => true | _ => false end) values)
      = Some x -> In (JNumber x) values) /\
  (asNumber (find (fun v => match v with JNumber _ => true | _ => false end) values) = None
   <-> forall x, ~ In (JNumber x) values).
Proof.
  induction values as [|v t [IH1 IH2]]; cbn [find asNumber In].
  - split; [discriminate|]. split; [intros _ x [] | reflexivity].
  - destruct v; cbn [asNumber];
      try (split; [intros x0 H; right; apply IH1, H|];
           rewrite IH2; split;
           [intros H x0 [Heq | Hin]; [discriminate Heq | apply (H x0), Hin]
           | intros H x0 Hin; apply (H x0); right; exact Hin]).
    split; [intros x0 [= <-]; left; reflexivity|].
    split; [discriminate|]. intros H. exfalso. apply (H x). left. reflexivity.
Qed.

Lemma asNumber_lookup (key : string) (props : list (string * JsValue)) (x : float) :
  asNumber (lookup key props) = Some x -> In (JNumber x) (map snd props).
Proof.
  intros H. destruct (lookup key props) as [[| | y | | |]|] eqn:Hl; try discriminate H.
  injection H as ->. apply lookup_In in Hl. apply (in_map snd) in Hl. exact Hl.
Qed.

(** For a reading whose data is an object (given as such, or as a string that
    parses to one), [extractNumericValue] returns the number under [value]
    when there is one, before any other; what it returns is the value of a
    property of the object; and it returns [null] exactly when no property
    of the object is a number. *)
Theorem extractNumericValue_of_object
        (JSON_parse : string -> Result JsValue) (reading : SensorReading.t)
        (props : list (string * JsValue)) :
  (SensorReading.data reading = JObject props \/
   exists text, SensorReading.data reading = JString text /\
                JSON_parse text = Ok (JObject props)) ->
  (forall x, lookup "value" props = Some (JNumber x) ->
             dataAggregation.extractNumericValue JSON_parse reading = Some x) /\
  (forall x, dataAggregation.extractNumericValue JSON_parse reading = Some x ->
             In (JNumber x) (map snd props)) /\
  (dataAggregation.extractNumericValue JSON_parse reading = None <->
   forall x, ~ In (JNumber x) (map snd props)).
Proof.
  intros Hdata.
  assert (Heq : dataAggregation.extractNumericValue JSON_parse reading =
                match asNumber (lookup "value" props) with
                | Some value => Some value
                | None =>
                    match (if (SensorReading.dataType reading =? "")%string then None
                           else asNumber (lookup (SensorReading.dataType reading) props))
                    with
                    | Some value => Some value
                    | None =>
                        asNumber
                          (find (fun v => match v with JNumber _ => true | _ => false end)
                                (map snd props))
                    end
                end).
  { unfold dataAggregation.extractNumericValue.
    destruct Hdata as [-> | (text & -> & ->)]; reflexivity. }
  rewrite Heq. clear Heq Hdata.
  destruct (asNumber_find (map snd props)) as [Hfind Hnone].
  split; [|split].
  - intros x ->. reflexivity.
  - intros x. destruct (asNumber (lookup "value" props)) as [v|] eqn:Hv.
    + intros [= <-]. eapply asNumber_lookup; eassumption.
    + destruct (SensorReading.dataType reading =? "")%string; [apply Hfind|].
      destruct (asNumber (lookup (SensorReading.dataType reading) props)) as [v|] eqn:Ht.
      * intros [= <-]. eapply asNumber_lookup; eassumption.
      * apply Hfind.
  - destruct (asNumber (lookup "value" props)) as [v|] eqn:Hv.
    + split; [discriminate|]. intros H. exfalso.
      apply (H v). eapply asNumber_lookup; eassumption.
    + destruct (SensorReading.dataType reading =? "")%string; [exact Hnone|].
      destruct (asNumber (lookup (SensorReading.dataType reading) props)) as [v|] eqn:Ht.
      * split; [discriminate|]. intros H. exfalso.
        apply (H v). eapply asNumber_lookup; eassumption.
      * exact Hnone.
Qed.

Lemma extractNumericValue_of_object_witness :
  let props := [("unit", JString "C"); ("temperature", JNumber 21.5);
                ("value", JNumber 20)] in
  let reading := SensorReading.mk "device-001" 1700000000000 "temperature"
                                  (JObject props) "field-north" in
  SensorReading.data reading = JObject props /\
  dataAggregation.extractNumericValue noParse reading = Some 20%float.
Proof.
  intros props reading.
  assert (Hdata : SensorReading.data reading = JObject props) by reflexivity.
  split; [exact Hdata|].
  destruct (extractNumericValue_of_object noParse reading props (or_introl Hdata))
    as (Hvalue & _).
  apply Hvalue. reflexivity.
Defined.

